(** * mcp-echo-tool: a shallow embedding of the tool handlers

    The repository holds two servers:
    - [src/index.ts], the "enhanced" server: ten tools registered on an
      [McpServer], each handler of the shape
      [async (args) => { try { ... } catch (error) { ... isError: true } }];
    - the first-generation server (one [echo] tool on the low-level
      [Server], with its own [CallToolRequestSchema] handler).

    JavaScript strings are sequences of UTF-16 code units; they are embedded
    as lists of [N].  Counts and lengths are embedded as [Z]; where a
    handler computes with numbers that need not be whole, they are the
    doubles of module [Double], each operation rounded as IEEE 754 has
    it. *)

From Stdlib Require Import List NArith ZArith QArith Qround Lia Bool String Ascii.
From Stdlib Require Import Qabs Qpower Lqa DecimalString.
From Stdlib Require Qcanon DecimalN DecimalPos.
Import ListNotations.

Set Implicit Arguments.

(* ================================================================== *)
(** * Strings as UTF-16 code units *)
(* ================================================================== *)

Definition unit16 := N.
Definition jsstring := list unit16.

(** An ASCII literal of the source, as code units. *)
Definition lit (s : string) : jsstring :=
  map N_of_ascii (list_ascii_of_string s).

Definition str_length (s : jsstring) : Z := Z.of_nat (List.length s).

Module CharClass.

Local Open Scope N_scope.

Definition between (lo hi c : N) : bool := (lo <=? c) && (c <=? hi).

Definition is_upper (c : N) : bool := between 65 90 c.
Definition is_lower (c : N) : bool := between 97 122 c.

(** [[a-zA-Z]] *)
Definition is_letter (c : N) : bool := is_lower c || is_upper c.

(** [\d] (no [u] flag: the ASCII digits) *)
Definition is_digit (c : N) : bool := between 48 57 c.

(** [\w] is [[A-Za-z0-9_]] *)
Definition is_word (c : N) : bool := is_letter c || is_digit c || (c =? 95).

(** [\s]: the WhiteSpace and LineTerminator code points of ECMAScript;
    [String.prototype.trim] strips the same set. *)
Definition is_space (c : N) : bool :=
  between 9 13 c || (c =? 32) || (c =? 160) || (c =? 5760)
  || between 8192 8202 c || (c =? 8232) || (c =? 8233) || (c =? 8239)
  || (c =? 8287) || (c =? 12288) || (c =? 65279).

(** [[^\w\s]] *)
Definition is_punct (c : N) : bool := negb (is_word c) && negb (is_space c).

Definition hyphen : N := 45.
Definition is_hyphen (c : N) : bool := c =? hyphen.

(** [[^\w\s-]] is what [slugify] deletes; this is its complement. *)
Definition is_slug_char (c : N) : bool := is_word c || is_space c || is_hyphen c.

(** [[.!?]] *)
Definition is_sentence_end (c : N) : bool := (c =? 46) || (c =? 33) || (c =? 63).

Definition is_ascii (c : N) : bool := c <? 128.


Definition ascii_lower (c : N) : N := if is_upper c then c + 32 else c.
Definition ascii_upper (c : N) : N := if is_lower c then c - 32 else c.

End CharClass.
Import CharClass.

Module Str.

Fixpoint dropWhile (p : N -> bool) (s : jsstring) : jsstring :=
  match s with
  | [] => []
  | c :: rest => if p c then dropWhile p rest else s
  end.

(** [s.trim()] *)
Definition trimStart (s : jsstring) : jsstring := dropWhile is_space s.
Definition trimEnd (s : jsstring) : jsstring := rev (dropWhile is_space (rev s)).
Definition trim (s : jsstring) : jsstring := trimEnd (trimStart s).

(** [s.split(/\s+/)]: the pieces between the maximal runs of white space.
    A separator at the very start (or end) leaves an empty first (or last)
    piece, and the empty string splits into one empty piece.  [prev_sep]
    says that the code unit before [s] belonged to a separator run. *)
Fixpoint split_runs (sep : N -> bool) (prev_sep : bool) (s : jsstring)
  : list jsstring :=
  match s with
  | [] => [[]]
  | c :: rest =>
      if sep c then
        if prev_sep then split_runs sep true rest
        else [] :: split_runs sep true rest
      else
        match split_runs sep false rest with
        | piece :: pieces => (c :: piece) :: pieces
        | [] => [[c]]
        end
  end.

Definition split_ws (s : jsstring) : list jsstring := split_runs is_space false s.

(** [(s.match(/[class]/g) || []).length] *)
Definition match_count (p : N -> bool) (s : jsstring) : Z :=
  Z.of_nat (List.length (filter p s)).

(** [s.replace(/[class]/g, "")] *)
Definition remove_all (p : N -> bool) (s : jsstring) : jsstring :=
  filter (fun c => negb (p c)) s.

(** [s.replace(/[class]+/g, r)]: every maximal run becomes one [r]. *)
Fixpoint replace_runs_from (in_run : bool) (p : N -> bool) (r : jsstring)
         (s : jsstring) : jsstring :=
  match s with
  | [] => []
  | c :: rest =>
      if p c then
        (if in_run then [] else r) ++ replace_runs_from true p r rest
      else c :: replace_runs_from false p r rest
  end.

Definition replace_runs := replace_runs_from false.

(** [s.split(/\r\n|\r|\n/).length - 1]: the number of line breaks, CR LF
    counting once. *)
Fixpoint line_breaks (s : jsstring) : nat :=
  match s with
  | [] => O
  | c :: rest =>
      if (c =? 13)%N then
        match rest with
        | d :: rest' => if (d =? 10)%N then S (line_breaks rest') else S (line_breaks rest)
        | [] => 1%nat
        end
      else if (c =? 10)%N then S (line_breaks rest)
      else line_breaks rest
  end.

Definition nonempty (w : jsstring) : bool := (0 <? List.length w)%nat.

End Str.

(* ================================================================== *)
(** * Node's [Buffer]: UTF-8 and Base64 *)
(* ================================================================== *)

(** The handlers call [Buffer.from(data)], [buf.toString("base64")],
    [buf.toString("base64url")], [Buffer.from(data, "base64" | "base64url")]
    and [buf.toString("utf-8")].  These are primitives of the Node runtime;
    they are written out here after their documented behaviour, so that the
    handlers can be evaluated. *)
Module Buffer.

Local Open Scope N_scope.

Definition bytes := list N.

Definition all_bytes (bs : bytes) : Prop := Forall (fun b => b < 256) bs.

Definition is_high_surrogate (c : N) : bool := between 55296 56319 c.
Definition is_low_surrogate (c : N) : bool := between 56320 57343 c.

(** U+FFFD REPLACEMENT CHARACTER *)
Definition replacement : N := 65533.

Definition code_point (hi lo : N) : N :=
  65536 + (hi - 55296) * 1024 + (lo - 56320).

Definition encode_code_point (cp : N) : bytes :=
  if cp <? 128 then [cp]
  else if cp <? 2048 then [192 + cp / 64; 128 + cp mod 64]
  else if cp <? 65536 then
    [224 + cp / 4096; 128 + (cp / 64) mod 64; 128 + cp mod 64]
  else
    [240 + cp / 262144; 128 + (cp / 4096) mod 64;
     128 + (cp / 64) mod 64; 128 + cp mod 64].

(** [Buffer.from(s)] (UTF-8): a surrogate pair is one code point, an
    unpaired surrogate is written as U+FFFD. *)
Fixpoint from_utf8 (s : jsstring) : bytes :=
  match s with
  | [] => []
  | c :: rest =>
      if is_high_surrogate c then
        match rest with
        | d :: rest' =>
            if is_low_surrogate d
            then encode_code_point (code_point c d) ++ from_utf8 rest'
            else encode_code_point replacement ++ from_utf8 rest
        | [] => encode_code_point replacement
        end
      else if is_low_surrogate c then encode_code_point replacement ++ from_utf8 rest
      else encode_code_point c ++ from_utf8 rest
  end.

(** The code units of a code point. *)
Definition units_of (cp : N) : jsstring :=
  if cp <? 65536 then [cp]
  else [55296 + (cp - 65536) / 1024; 56320 + (cp - 65536) mod 1024].

Definition is_cont (b : N) : bool := between 128 191 b.

(** The range of the second byte of a three- or four-byte sequence. *)
Definition second_ok (b0 b1 : N) : bool :=
  if b0 =? 224 then between 160 191 b1
  else if b0 =? 237 then between 128 159 b1
  else if b0 =? 240 then between 144 191 b1
  else if b0 =? 244 then between 128 143 b1
  else is_cont b1.

(** [buf.toString("utf-8")]: an ill-formed sequence is replaced by one
    U+FFFD and decoding resumes at the byte that broke it. *)
Fixpoint to_utf8 (bs : bytes) : jsstring :=
  match bs with
  | [] => []
  | b0 :: r0 =>
      if b0 <? 128 then b0 :: to_utf8 r0
      else if between 194 223 b0 then
        match r0 with
        | b1 :: r1 =>
            if is_cont b1
            then ((b0 - 192) * 64 + (b1 - 128)) :: to_utf8 r1
            else replacement :: to_utf8 r0
        | [] => [replacement]
        end
      else if between 224 239 b0 then
        match r0 with
        | b1 :: r1 =>
            if second_ok b0 b1 then
              match r1 with
              | b2 :: r2 =>
                  if is_cont b2
                  then ((b0 - 224) * 4096 + (b1 - 128) * 64 + (b2 - 128)) :: to_utf8 r2
                  else replacement :: to_utf8 r1
              | [] => [replacement]
              end
            else replacement :: to_utf8 r0
        | [] => [replacement]
        end
      else if between 240 244 b0 then
        match r0 with
        | b1 :: r1 =>
            if second_ok b0 b1 then
              match r1 with
              | b2 :: r2 =>
                  if is_cont b2 then
                    match r2 with
                    | b3 :: r3 =>
                        if is_cont b3
                        then units_of ((b0 - 240) * 262144 + (b1 - 128) * 4096
                                       + (b2 - 128) * 64 + (b3 - 128))
                             ++ to_utf8 r3
                        else replacement :: to_utf8 r2
                    | [] => [replacement]
                    end
                  else replacement :: to_utf8 r1
              | [] => [replacement]
              end
            else replacement :: to_utf8 r0
        | [] => [replacement]
        end
      else replacement :: to_utf8 r0
  end.

(** ** Base64 *)

Definition pad_char : N := 61.

(** The standard alphabet and the URL-safe one differ at 62 and 63. *)
Definition alphabet (url : bool) (v : N) : N :=
  if v <? 26 then 65 + v
  else if v <? 52 then 97 + (v - 26)
  else if v <? 62 then 48 + (v - 52)
  else if v =? 62 then (if url then 45 else 43)
  else (if url then 95 else 47).

(** [buf.toString("base64")] pads with [=]; [buf.toString("base64url")]
    does not. *)
Fixpoint to_base64 (url : bool) (bs : bytes) : jsstring :=
  match bs with
  | [] => []
  | a :: [] =>
      [alphabet url (a / 4); alphabet url ((a mod 4) * 16)]
        ++ (if url then [] else [pad_char; pad_char])
  | a :: b :: [] =>
      [alphabet url (a / 4); alphabet url ((a mod 4) * 16 + b / 16);
       alphabet url ((b mod 16) * 4)]
        ++ (if url then [] else [pad_char])
  | a :: b :: c :: rest =>
      [alphabet url (a / 4); alphabet url ((a mod 4) * 16 + b / 16);
       alphabet url ((b mod 16) * 4 + c / 64); alphabet url (c mod 64)]
        ++ to_base64 url rest
  end.

(** Node's decoding table: both alphabets are accepted whichever of
    ["base64"] and ["base64url"] is asked for. *)
Definition unbase64 (c : N) : option N :=
  if is_upper c then Some (c - 65)
  else if is_lower c then Some (c - 97 + 26)
  else if is_digit c then Some (c - 48 + 52)
  else if (c =? 43) || (c =? 45) then Some 62
  else if (c =? 47) || (c =? 95) then Some 63
  else None.

(** The decoder reads one byte for every code unit: the low byte of the
    unit. *)
Definition low_byte (c : N) : N := c mod 256.

(** The decoder does not reject anything: a byte outside the table is
    skipped, the first [=] ends the data. *)
Fixpoint sextets (s : jsstring) : list N :=
  match s with
  | [] => []
  | c :: rest =>
      if low_byte c =? pad_char then []
      else match unbase64 (low_byte c) with
           | Some v => v :: sextets rest
           | None => sextets rest
           end
  end.

Fixpoint bytes_of_sextets (l : list N) : bytes :=
  match l with
  | a :: b :: c :: d :: rest =>
      [a * 4 + b / 16; (b mod 16) * 16 + c / 4; (c mod 4) * 64 + d]
        ++ bytes_of_sextets rest
  | a :: b :: c :: [] => [a * 4 + b / 16; (b mod 16) * 16 + c / 4]
  | a :: b :: [] => [a * 4 + b / 16]
  | _ => []
  end.

(** [Buffer.from(s, "base64")] and [Buffer.from(s, "base64url")] *)
Definition from_base64 (s : jsstring) : bytes := bytes_of_sextets (sextets s).

End Buffer.

(* ================================================================== *)
(** * The host: what Node supplies and the repository does not define *)
(* ================================================================== *)

Inductive exn := Error (message : jsstring).

Definition message_of (e : exn) : jsstring := let 'Error m := e in m.

(** Anything that is neither fixed by ECMAScript in a few lines nor
    computed by the repository is a field here: Unicode case mapping beyond
    ASCII, double-to-decimal printing, [Date], [crypto], [process], and the
    readings of the clock and of the random sources (indexed by the number
    of readings taken before). *)
Class Host := {
  unicode_toLowerCase : jsstring -> jsstring;
  unicode_toUpperCase : jsstring -> jsstring;
  (* [String(x)] of a number that is not a safe integer *)
  double_toString : Q -> jsstring;
  (* [x.toFixed(2)], for [x] the double nearest to the quotient given *)
  toFixed2 : Q -> jsstring;
  (* the message of the [SyntaxError] that [JSON.parse] throws on a text *)
  syntax_error_message : jsstring -> jsstring;
  (* [createHash(algorithm).update(data).digest(encoding)] *)
  hash_digest : jsstring -> jsstring -> jsstring -> exn + jsstring;
  (* the time value of [new Date(text)], [None] for an invalid date *)
  Date_parse : jsstring -> option Z;
  Date_toISOString : Z -> jsstring;
  Date_toUTCString : Z -> jsstring;
  Date_toLocaleString : Z -> jsstring;
  process_version : jsstring;
  process_platform : jsstring;
  clock_at : nat -> Z;
  entropy_at : nat -> N;
  uptime_at : nat -> Q;
  (* [process.memoryUsage()], field by field *)
  memory_at : nat -> list (jsstring * Z)
}.

(* ================================================================== *)
(** * JSON values, [JSON.stringify] and [JSON.parse] *)
(* ================================================================== *)

#[warnings="-register-all"] Inductive JSON :=
| JNull
| JBool (b : bool)
| JNum (q : Q)
| JStr (s : jsstring)
| JArr (elements : list JSON)
| JObj (members : list (jsstring * JSON)).

Module Json.

Definition int (z : Z) : JSON := JNum (inject_Z z).
Definition str (s : string) : JSON := JStr (lit s).

Definition dec_of_N (n : N) : jsstring :=
  lit (NilZero.string_of_uint (N.to_uint n)).

Definition dec_of_Z (z : Z) : jsstring :=
  if (z <? 0)%Z then 45%N :: dec_of_N (Z.to_N (- z)) else dec_of_N (Z.to_N z).

Definition str_eqb (a b : jsstring) : bool :=
  if list_eq_dec N.eq_dec a b then true else false.

(** ** Objects: own enumerable properties in enumeration order *)

Fixpoint digits_value (acc : N) (s : jsstring) : option N :=
  match s with
  | [] => Some acc
  | c :: rest =>
      if is_digit c then digits_value (acc * 10 + (c - 48))%N rest else None
  end.

(** A key is an array index when it is the canonical decimal form of an
    integer below 2^32 - 1; such keys are enumerated first, ascending. *)
Definition array_index (k : jsstring) : option N :=
  match k with
  | [] => None
  | c :: rest =>
      if (c =? 48)%N && Str.nonempty rest then None
      else match digits_value 0 k with
           | Some n => if (n <? 4294967295)%N then Some n else None
           | None => None
           end
  end.

Definition members := list (jsstring * JSON).

Fixpoint has_key (k : jsstring) (m : members) : bool :=
  match m with
  | [] => false
  | (k', _) :: rest => str_eqb k k' || has_key k rest
  end.

Fixpoint get (k : jsstring) (m : members) : option JSON :=
  match m with
  | [] => None
  | (k', v) :: rest => if str_eqb k k' then Some v else get k rest
  end.

Fixpoint replace_value (k : jsstring) (v : JSON) (m : members) : members :=
  match m with
  | [] => []
  | (k', v') :: rest =>
      if str_eqb k k' then (k', v) :: rest else (k', v') :: replace_value k v rest
  end.

Fixpoint insert_index (i : N) (k : jsstring) (v : JSON) (m : members) : members :=
  match m with
  | [] => [(k, v)]
  | (k', v') :: rest =>
      match array_index k' with
      | Some j => if (j <? i)%N then (k', v') :: insert_index i k v rest
                  else (k, v) :: m
      | None => (k, v) :: m
      end
  end.

(** [obj[k] = v] *)
Definition set (k : jsstring) (v : JSON) (m : members) : members :=
  if has_key k m then replace_value k v m
  else match array_index k with
       | Some i => insert_index i k v m
       | None => m ++ [(k, v)]
       end.

(** An object literal with members that may be [undefined]:
    [JSON.stringify] leaves those out. *)
Definition defined (l : list (jsstring * option JSON)) : members :=
  flat_map (fun kv => match snd kv with Some v => [(fst kv, v)] | None => [] end) l.

(** ** [JSON.stringify(value, null, indent)] *)

Definition hex_digit (v : N) : N := (if v <? 10 then 48 + v else 87 + v)%N.

Definition hex4 (c : N) : jsstring :=
  [hex_digit ((c / 4096) mod 16); hex_digit ((c / 256) mod 16);
   hex_digit ((c / 16) mod 16); hex_digit (c mod 16)]%N.

Definition backslash : N := 92.
Definition dquote : N := 34.

Definition unicode_escape (c : N) : jsstring := backslash :: 117%N :: hex4 c.

Definition escape_unit (c : N) : jsstring :=
  if (c =? 8)%N then [backslash; 98%N]
  else if (c =? 9)%N then [backslash; 116%N]
  else if (c =? 10)%N then [backslash; 110%N]
  else if (c =? 12)%N then [backslash; 102%N]
  else if (c =? 13)%N then [backslash; 114%N]
  else if (c =? dquote)%N then [backslash; dquote]
  else if (c =? backslash)%N then [backslash; backslash]
  else if (c <? 32)%N then unicode_escape c
  else [c].

(** QuoteJSONString; an unpaired surrogate is written as an escape. *)
Fixpoint escape (s : jsstring) : jsstring :=
  match s with
  | [] => []
  | c :: rest =>
      if Buffer.is_high_surrogate c then
        match rest with
        | d :: rest' =>
            if Buffer.is_low_surrogate d then c :: d :: escape rest'
            else unicode_escape c ++ escape rest
        | [] => unicode_escape c
        end
      else if Buffer.is_low_surrogate c then unicode_escape c ++ escape rest
      else escape_unit c ++ escape rest
  end.

Definition quote (s : jsstring) : jsstring := dquote :: escape s ++ [dquote].

Definition max_safe_integer : Z := 9007199254740991.

(** Number::toString: a safe integer prints as its decimal digits. *)
Definition number_toString `{Host} (q : Q) : jsstring :=
  let r := Qred q in
  if (Z.pos (Qden r) =? 1)%Z && (Z.abs (Qnum r) <=? max_safe_integer)%Z
  then dec_of_Z (Qnum r)
  else double_toString q.

Fixpoint join (sep : jsstring) (l : list jsstring) : jsstring :=
  match l with
  | [] => []
  | [x] => x
  | x :: rest => x ++ sep ++ join sep rest
  end.

Definition newline : N := 10.

(** SerializeJSONObject / SerializeJSONArray around the already
    serialized parts. *)
Definition wrap (opening closing : N) (gap indent : jsstring)
           (parts : list jsstring) : jsstring :=
  match parts with
  | [] => [opening; closing]
  | _ =>
      match gap with
      | [] => opening :: join [44%N] parts ++ [closing]
      | _ =>
          let inner := indent ++ gap in
          opening :: newline :: inner
            ++ join (44%N :: newline :: inner) parts
            ++ newline :: indent ++ [closing]
      end
  end.

Definition member_text (gap : jsstring) (k v : jsstring) : jsstring :=
  quote k ++ 58%N :: (match gap with [] => [] | _ => [32%N] end) ++ v.

Fixpoint serialize `{Host} (gap indent : jsstring) (v : JSON) : jsstring :=
  match v with
  | JNull => lit "null"
  | JBool true => lit "true"
  | JBool false => lit "false"
  | JNum q => number_toString q
  | JStr s => quote s
  | JArr l =>
      wrap 91 93 gap indent (map (serialize gap (indent ++ gap)) l)
  | JObj m =>
      wrap 123 125 gap indent
           (map (fun kv => member_text gap (fst kv)
                             (serialize gap (indent ++ gap) (snd kv))) m)
  end.

(** The gap of a numeric [space] argument: that many spaces, ten at most. *)
Definition gap_of (indent : Z) : jsstring :=
  repeat 32%N (Z.to_nat (Z.min 10 indent)).

Definition stringify `{Host} (v : JSON) (indent : Z) : jsstring :=
  serialize (gap_of indent) [] v.

(** [JSON.stringify(v)] *)
Definition stringify_compact `{Host} (v : JSON) : jsstring := serialize [] [] v.

End Json.

(** ** [JSON.parse] *)

Module JsonParse.

Import Json.
Local Open Scope N_scope.

Inductive parsed (A : Type) :=
| Ok (v : A) (rest : jsstring)
| Syntax
| OutOfFuel.
Arguments Ok {A} v rest.
Arguments Syntax {A}.
Arguments OutOfFuel {A}.

(** A piece of the text was read, and what is left is shorter. *)
Definition consumes {A} (r : parsed A) (s : jsstring) : Prop :=
  match r with
  | Ok _ rest => (List.length rest < List.length s)%nat
  | Syntax => True
  | OutOfFuel => False
  end.

Definition is_json_ws (c : N) : bool :=
  (c =? 32) || (c =? 9) || (c =? 10) || (c =? 13).

Definition skip_ws (s : jsstring) : jsstring := Str.dropWhile is_json_ws s.

Fixpoint strip_prefix (p s : jsstring) : option jsstring :=
  match p, s with
  | [], _ => Some s
  | a :: p', b :: s' => if a =? b then strip_prefix p' s' else None
  | _ :: _, [] => None
  end.

Fixpoint span (p : N -> bool) (s : jsstring) : jsstring * jsstring :=
  match s with
  | [] => ([], [])
  | c :: rest =>
      if p c then let (a, b) := span p rest in (c :: a, b) else ([], s)
  end.

Definition digits_N (ds : jsstring) : N :=
  fold_left (fun acc c => acc * 10 + (c - 48)) ds 0.

(** The exact value of [mantissa * 10^exponent]. *)
Definition scale (mantissa : N) (exponent : Z) : Q :=
  if (0 <=? exponent)%Z
  then inject_Z (Z.of_N mantissa * 10 ^ exponent)
  else (Z.of_N mantissa # Z.to_pos (10 ^ (- exponent))).

Definition exponent_part (s : jsstring) : option (Z * jsstring) :=
  match s with
  | c :: rest =>
      if (c =? 101) || (c =? 69) then
        let '(negative, rest1) :=
          match rest with
          | d :: rest' =>
              if d =? 45 then (true, rest')
              else if d =? 43 then (false, rest')
              else (false, rest)
          | [] => (false, rest)
          end in
        let (ds, rest2) := span is_digit rest1 in
        match ds with
        | [] => None
        | _ => let e := Z.of_N (digits_N ds) in
               Some (if negative then (- e)%Z else e, rest2)
        end
      else Some (0%Z, s)
  | [] => Some (0%Z, s)
  end.

Definition fraction_part (s : jsstring) : option (jsstring * jsstring) :=
  match s with
  | c :: rest =>
      if c =? 46 then
        let (ds, rest') := span is_digit rest in
        match ds with [] => None | _ => Some (ds, rest') end
      else Some ([], s)
  | [] => Some ([], s)
  end.

Definition integer_part (s : jsstring) : option (jsstring * jsstring) :=
  match s with
  | c :: rest =>
      if c =? 48 then Some ([c], rest)
      else if is_digit c then Some (span is_digit s)
      else None
  | [] => None
  end.

Definition parse_number (s : jsstring) : parsed Q :=
  let '(negative, s1) :=
    match s with
    | c :: rest => if c =? 45 then (true, rest) else (false, s)
    | [] => (false, s)
    end in
  match integer_part s1 with
  | None => Syntax
  | Some (ints, s2) =>
      match fraction_part s2 with
      | None => Syntax
      | Some (fracs, s3) =>
          match exponent_part s3 with
          | None => Syntax
          | Some (e, s4) =>
              let q := scale (digits_N (ints ++ fracs))
                             (e - Z.of_nat (List.length fracs)) in
              Ok (if negative then Qopp q else q) s4
          end
      end
  end.

Definition hex_value (c : N) : option N :=
  if is_digit c then Some (c - 48)
  else if between 97 102 c then Some (c - 87)
  else if between 65 70 c then Some (c - 55)
  else None.

Definition hex4_value (a b c d : N) : option N :=
  match hex_value a, hex_value b, hex_value c, hex_value d with
  | Some x, Some y, Some z, Some w => Some (x * 4096 + y * 256 + z * 16 + w)
  | _, _, _, _ => None
  end.

Definition simple_escape (c : N) : option N :=
  if c =? 34 then Some 34
  else if c =? 92 then Some 92
  else if c =? 47 then Some 47
  else if c =? 98 then Some 8
  else if c =? 102 then Some 12
  else if c =? 110 then Some 10
  else if c =? 114 then Some 13
  else if c =? 116 then Some 9
  else None.

Definition push (c : N) (r : parsed jsstring) : parsed jsstring :=
  match r with
  | Ok v rest => Ok (c :: v) rest
  | Syntax => Syntax
  | OutOfFuel => OutOfFuel
  end.

(** The text after the opening quote, up to the closing one. *)
Fixpoint parse_string (s : jsstring) : parsed jsstring :=
  match s with
  | [] => Syntax
  | c :: rest =>
      if c =? 34 then Ok [] rest
      else if c =? 92 then
        match rest with
        | [] => Syntax
        | e :: rest1 =>
            if e =? 117 then
              match rest1 with
              | h1 :: h2 :: h3 :: h4 :: rest2 =>
                  match hex4_value h1 h2 h3 h4 with
                  | Some u => push u (parse_string rest2)
                  | None => Syntax
                  end
              | _ => Syntax
              end
            else
              match simple_escape e with
              | Some u => push u (parse_string rest1)
              | None => Syntax
              end
        end
      else if c <? 32 then Syntax
      else push c (parse_string rest)
  end.

Definition keyword (word : string) (v : JSON) (s : jsstring) : parsed JSON :=
  match strip_prefix (lit word) s with
  | Some rest => Ok v rest
  | None => Syntax
  end.

Definition lift {A} (f : A -> JSON) (r : parsed A) : parsed JSON :=
  match r with
  | Ok v rest => Ok (f v) rest
  | Syntax => Syntax
  | OutOfFuel => OutOfFuel
  end.

Fixpoint parse_value (fuel : nat) (s : jsstring) {struct fuel} : parsed JSON :=
  match fuel with
  | O => OutOfFuel
  | S fuel' =>
      match skip_ws s with
      | [] => Syntax
      | c :: rest =>
          if c =? 123 then
            match skip_ws rest with
            | d :: rest' =>
                if d =? 125 then Ok (JObj []) rest'
                else parse_members fuel' [] (d :: rest')
            | [] => Syntax
            end
          else if c =? 91 then
            match skip_ws rest with
            | d :: rest' =>
                if d =? 93 then Ok (JArr []) rest'
                else parse_elements fuel' [] (d :: rest')
            | [] => Syntax
            end
          else if c =? 34 then lift JStr (parse_string rest)
          else if c =? 116 then keyword "true" (JBool true) (c :: rest)
          else if c =? 102 then keyword "false" (JBool false) (c :: rest)
          else if c =? 110 then keyword "null" JNull (c :: rest)
          else lift JNum (parse_number (c :: rest))
      end
  end

with parse_elements (fuel : nat) (acc : list JSON) (s : jsstring)
     {struct fuel} : parsed JSON :=
  match fuel with
  | O => OutOfFuel
  | S fuel' =>
      match parse_value fuel' s with
      | Ok v rest =>
          match skip_ws rest with
          | d :: rest' =>
              if d =? 44 then parse_elements fuel' (v :: acc) rest'
              else if d =? 93 then Ok (JArr (rev (v :: acc))) rest'
              else Syntax
          | [] => Syntax
          end
      | Syntax => Syntax
      | OutOfFuel => OutOfFuel
      end
  end

with parse_members (fuel : nat) (acc : members) (s : jsstring)
     {struct fuel} : parsed JSON :=
  match fuel with
  | O => OutOfFuel
  | S fuel' =>
      match skip_ws s with
      | c :: rest =>
          if c =? 34 then
            match parse_string rest with
            | Ok k rest1 =>
                match skip_ws rest1 with
                | d :: rest2 =>
                    if d =? 58 then
                      match parse_value fuel' rest2 with
                      | Ok v rest3 =>
                          match skip_ws rest3 with
                          | e :: rest4 =>
                              if e =? 44 then parse_members fuel' (set k v acc) rest4
                              else if e =? 125 then Ok (JObj (set k v acc)) rest4
                              else Syntax
                          | [] => Syntax
                          end
                      | Syntax => Syntax
                      | OutOfFuel => OutOfFuel
                      end
                    else Syntax
                | [] => Syntax
                end
            | Syntax => Syntax
            | OutOfFuel => OutOfFuel
            end
          else Syntax
      | [] => Syntax
      end
  end.

(** Two units of fuel for each code unit and one more are enough: see
    [parse_total]. *)
Definition fuel_for (s : jsstring) : nat := S (2 * List.length s).

(** [JSON.parse(text)]: the value, or the [SyntaxError] thrown. *)
Definition parse `{Host} (text : jsstring) : exn + JSON :=
  match parse_value (fuel_for text) text with
  | Ok v rest =>
      match skip_ws rest with
      | [] => inr v
      | _ :: _ => inl (Error (syntax_error_message text))
      end
  | _ => inl (Error (syntax_error_message text))
  end.

End JsonParse.

(* ================================================================== *)
(** * Effects: exceptions and the readings of the host *)
(* ================================================================== *)

(** A computation may throw, and may read the clock or a random source; the
    state is the number of readings taken so far. *)
Definition M (A : Type) : Type := nat -> (exn + A) * nat.

Definition ret {A} (a : A) : M A := fun t => (inr a, t).

Definition throw {A} (e : exn) : M A := fun t => (inl e, t).

Definition bind {A B} (c : M A) (k : A -> M B) : M B :=
  fun t =>
    match c t with
    | (inr a, t') => k a t'
    | (inl e, t') => (inl e, t')
    end.

(** [try { c } catch (error) { h error }] *)
Definition try_catch {A} (c : M A) (h : exn -> M A) : M A :=
  fun t =>
    match c t with
    | (inr a, t') => (inr a, t')
    | (inl e, t') => h e t'
    end.

Definition lift_result {A} (r : exn + A) : M A :=
  match r with
  | inr a => ret a
  | inl e => throw e
  end.

Declare Scope monad_scope.
Delimit Scope monad_scope with monad.
Notation "x <- c ;; k" := (bind c (fun x => k))
  (at level 61, c at next level, right associativity) : monad_scope.
Notation "' p <- c ;; k" := (bind c (fun x => let 'p := x in k))
  (at level 61, p pattern, c at next level, right associativity) : monad_scope.
Open Scope monad_scope.

Fixpoint replicateM {A} (n : nat) (c : M A) : M (list A) :=
  match n with
  | O => ret []
  | S n' => x <- c ;; xs <- replicateM n' c ;; ret (x :: xs)
  end.

Section HostReadings.

Context `{Host}.

Definition reading {A} (f : nat -> A) : M A := fun t => (inr (f t), S t).

(** [Date.now()], and the time value of [new Date()] *)
Definition Date_now : M Z := reading clock_at.

(** [Math.random()]: a double in [[0, 1)], here the 53 low bits of the
    reading over 2^53. *)
Definition Math_random : M Q :=
  reading (fun t => (Z.of_N (entropy_at t mod 2 ^ 53) # 2 ^ 53)%Q).

(** The sixteen random bytes that [randomUUID()] draws. *)
Definition random_bytes16 : M (list N) :=
  reading (fun t => map (fun i => (entropy_at t / 256 ^ N.of_nat i) mod 256)%N
                        (seq 0 16)).

Definition process_uptime : M Q := reading uptime_at.
Definition process_memoryUsage : M (list (jsstring * Z)) := reading memory_at.

(** [s.toLowerCase()] and [s.toUpperCase()]: on ASCII text the mapping is
    code unit by code unit; other text is the host's business. *)
Definition toLowerCase (s : jsstring) : jsstring :=
  if forallb is_ascii s then map ascii_lower s else unicode_toLowerCase s.

Definition toUpperCase (s : jsstring) : jsstring :=
  if forallb is_ascii s then map ascii_upper s else unicode_toUpperCase s.

End HostReadings.

(* ================================================================== *)
(** * The response envelope *)
(* ================================================================== *)

(** [{ content: [{ type: "text", text }], isError? }]: every handler
    returns exactly one text item. *)
Record Envelope := { text : jsstring; isError : option bool }.

Section Envelopes.

Context `{Host}.

(** [{ content: [{ type: "text", text: JSON.stringify(v, null, 2) }] }] *)
Definition ok_envelope (v : JSON) : Envelope :=
  {| text := Json.stringify v 2; isError := None |}.

(** The [catch (error)] clause, the same in the ten handlers:
    [text: `Error: ${error instanceof Error ? error.message : String(error)}`,
     isError: true] *)
Definition error_envelope (e : exn) : Envelope :=
  {| text := lit "Error: " ++ message_of e; isError := Some true |}.

(** [async (args) => { try { body } catch (error) { ... } }] *)
Definition guarded (body : M Envelope) : M Envelope :=
  try_catch body (fun e => ret (error_envelope e)).

End Envelopes.

(* ================================================================== *)
(** * Numbers: IEEE 754 doubles *)
(* ================================================================== *)

(** The numbers of JavaScript are binary64 floating-point numbers.  A
    finite one is embedded as the rational it denotes; the sign of zero is
    not kept, no handler lets it be seen.  Every operation gives the double
    nearest to the exact result, ties going to the even significand. *)
Module Double.

Inductive number := Finite (q : Q) | Infinite (negative : bool) | NaN.

Definition pow2 (e : Z) : Q := (2 ^ e)%Q.

(** The [l] with [2^l <= a < 2^(l+1)], for a positive [a]. *)
Definition ilog2 (a : Q) : Z :=
  let l := (Z.log2 (Qnum a) - Z.log2 (Z.pos (Qden a)))%Z in
  if Qle_bool (pow2 l) a then l else (l - 1)%Z.

(** The nearest whole number, the even one of two that are as near. *)
Definition nearest_even (x : Q) : Z :=
  let f := Qfloor x in
  match (x - inject_Z f ?= 1 # 2)%Q with
  | Lt => f
  | Gt => (f + 1)%Z
  | Eq => if Z.even f then f else (f + 1)%Z
  end.

(** The exponent of the unit in the last place of the doubles around a
    positive [a]: 53 bits of significand, and no unit below [2^-1074]. *)
Definition exponent (a : Q) : Z := Z.max (-1074) (ilog2 a - 52).

Definition nearest (a : Q) : Q :=
  let u := pow2 (exponent a) in (inject_Z (nearest_even (a / u)) * u)%Q.

(** The double that an exact result becomes: beyond the largest double,
    an infinity. *)
Definition round (q : Q) : number :=
  match Qnum q with
  | Z0 => Finite 0%Q
  | Zpos _ =>
      let y := nearest q in
      if Qle_bool (pow2 1024) y then Infinite false else Finite (Qred y)
  | Zneg _ =>
      let y := nearest (- q)%Q in
      if Qle_bool (pow2 1024) y then Infinite true else Finite (Qred (- y)%Q)
  end.

(** A rational that a double holds exactly. *)
Definition representable (y : Q) : Prop := round y = Finite (Qred y).

Definition sign_of (q : Q) : option bool :=
  match Qnum q with
  | Z0 => None
  | Zpos _ => Some false
  | Zneg _ => Some true
  end.

Definition opp (x : number) : number :=
  match x with
  | Finite q => Finite (Qred (- q))
  | Infinite s => Infinite (negb s)
  | NaN => NaN
  end.

(** [x + y] *)
Definition add (x y : number) : number :=
  match x, y with
  | NaN, _ | _, NaN => NaN
  | Finite a, Finite b => round (a + b)
  | Finite _, Infinite s | Infinite s, Finite _ => Infinite s
  | Infinite s, Infinite s' => if Bool.eqb s s' then Infinite s else NaN
  end.

(** [x - y] *)
Definition sub (x y : number) : number := add x (opp y).

(** [x * y] *)
Definition mul (x y : number) : number :=
  match x, y with
  | NaN, _ | _, NaN => NaN
  | Finite a, Finite b => round (a * b)
  | Finite a, Infinite s | Infinite s, Finite a =>
      match sign_of a with
      | None => NaN
      | Some s' => Infinite (xorb s s')
      end
  | Infinite s, Infinite s' => Infinite (xorb s s')
  end.

(** [Math.floor(x)] *)
Definition floor (x : number) : number :=
  match x with
  | Finite q => Finite (inject_Z (Qfloor q))
  | _ => x
  end.

(** The value as [JSON.stringify] prints it: a number that is not finite
    is printed as [null]. *)
Definition to_json (x : number) : JSON :=
  match x with
  | Finite q => JNum q
  | _ => JNull
  end.

End Double.

(* ================================================================== *)
(** * Argument validation: the zod schemas of [inputSchema] *)
(* ================================================================== *)

Module Zod.

(** The raw [arguments] of a call are a JSON value; a schema either
    accepts them, giving the typed arguments, or rejects the call. *)
Definition prop (raw : JSON) (k : string) : option JSON :=
  match raw with
  | JObj m => Json.get (lit k) m
  | _ => None
  end.

Definition is_object (raw : JSON) : bool :=
  match raw with JObj _ => true | _ => false end.

Definition in_bounds (lo hi : option Z) (z : Z) : bool :=
  match lo with Some a => (a <=? z)%Z | None => true end
  && match hi with Some b => (z <=? b)%Z | None => true end.

(** [z.string().min(lo).max(hi)] *)
Definition z_string (lo hi : option Z) (v : JSON) : option jsstring :=
  match v with
  | JStr s => if in_bounds lo hi (str_length s) then Some s else None
  | _ => None
  end.

(** [z.number()] *)
Definition z_number (v : JSON) : option Q :=
  match v with
  | JNum q => Some q
  | _ => None
  end.

(** [z.number().int().min(lo).max(hi)] *)
Definition z_int (lo hi : Z) (v : JSON) : option Z :=
  match v with
  | JNum q =>
      let r := Qred q in
      if (Z.pos (Qden r) =? 1)%Z && in_bounds (Some lo) (Some hi) (Qnum r)
      then Some (Qnum r) else None
  | _ => None
  end.

(** [z.boolean()] *)
Definition z_boolean (v : JSON) : option bool :=
  match v with
  | JBool b => Some b
  | _ => None
  end.

(** [z.enum([...])], given the reading of a name *)
Definition z_enum {A} (of_name : jsstring -> option A) (v : JSON) : option A :=
  match v with
  | JStr s => of_name s
  | _ => None
  end.

(** a property without [.optional()] or [.default()] *)
Definition required {A} (p : JSON -> option A) (o : option JSON) : option A :=
  match o with
  | Some v => p v
  | None => None
  end.

(** [.optional()] *)
Definition optional {A} (p : JSON -> option A) (o : option JSON) : option (option A) :=
  match o with
  | Some v => option_map Some (p v)
  | None => Some None
  end.

(** [.default(d)] *)
Definition default {A} (d : A) (p : JSON -> option A) (o : option JSON) : option (option A) :=
  match o with
  | Some v => option_map Some (p v)
  | None => Some (Some d)
  end.

Fixpoint lookup_name {A} (names : list (string * A)) (s : jsstring) : option A :=
  match names with
  | [] => None
  | (n, a) :: rest => if Json.str_eqb (lit n) s then Some a else lookup_name rest s
  end.

End Zod.

Notation "x <-? c ;; k" := (match c with Some x => k | None => None end)
  (at level 61, c at next level, right associativity).

(** [a ?? d]: the default of a destructuring pattern. *)
Definition or_default {A} (o : option A) (d : A) : A :=
  match o with Some a => a | None => d end.

(* ================================================================== *)
(** * Text transformations shared by [echo] and [format] *)
(* ================================================================== *)

Module Transform.
Section Transform.

Context `{Host}.

(** [s.split("").reverse().join("")] *)
Definition reverse (s : jsstring) : jsstring := rev s.

(** The matches of [/\w\S*/g], and the code units between them. *)
Inductive piece := Matched (m : jsstring) | Other (c : N).

Fixpoint word_pieces (cur : option jsstring) (s : jsstring) : list piece :=
  match s with
  | [] => match cur with Some m => [Matched (rev m)] | None => [] end
  | c :: rest =>
      match cur with
      | Some m =>
          if is_space c then Matched (rev m) :: Other c :: word_pieces None rest
          else word_pieces (Some (c :: m)) rest
      | None =>
          if is_word c then word_pieces (Some [c]) rest
          else Other c :: word_pieces None rest
      end
  end.

(** [txt => txt.charAt(0).toUpperCase() + txt.substr(1).toLowerCase()] *)
Definition capitalize (txt : jsstring) : jsstring :=
  toUpperCase (firstn 1 txt) ++ toLowerCase (skipn 1 txt).

(** [s.replace(/\w\S*/g, capitalize)] *)
Definition titlecase (s : jsstring) : jsstring :=
  flat_map (fun p => match p with Matched m => capitalize m | Other c => [c] end)
           (word_pieces None s).

(** [s.replace(/[\s]+/g, "_").toLowerCase()] *)
Definition snake_case (s : jsstring) : jsstring :=
  toLowerCase (Str.replace_runs is_space (lit "_") s).

(** [s.replace(/[\s]+/g, "-").toLowerCase()] *)
Definition kebab_case (s : jsstring) : jsstring :=
  toLowerCase (Str.replace_runs is_space (lit "-") s).

(** [s.replace(/(?:^\w|[A-Z]|\b\w)/g, (word, index) =>
       index === 0 ? word.toLowerCase() : word.toUpperCase())]:
    every match is one code unit, a capital or a [\w] that starts a word. *)
Fixpoint camel_from (first prev_word : bool) (s : jsstring) : jsstring :=
  match s with
  | [] => []
  | c :: rest =>
      let matched := is_upper c || (is_word c && (first || negb prev_word)) in
      (if matched then (if first then ascii_lower c else ascii_upper c) else c)
        :: camel_from false (is_word c) rest
  end.

(** [... .replace(/\s+/g, "")] *)
Definition camelCase (s : jsstring) : jsstring :=
  Str.remove_all is_space (camel_from true false s).

(** [s.replace(re, (match, p1, p2, p3) => p1 ? p1 : p2 + p3.toUpperCase())]
    where [re] has two alternatives: a double quote at the start of the
    text, which is put back as it is, and [([.!?]\s+)([a-z])], whose small
    letter is capitalized. *)
Inductive after := Anything | Punctuation | PunctuationSpace.

Fixpoint capitalize_sentences (st : after) (s : jsstring) : jsstring :=
  match s with
  | [] => []
  | c :: rest =>
      match st with
      | PunctuationSpace =>
          if is_lower c then ascii_upper c :: capitalize_sentences Anything rest
          else if is_sentence_end c then c :: capitalize_sentences Punctuation rest
          else if is_space c then c :: capitalize_sentences PunctuationSpace rest
          else c :: capitalize_sentences Anything rest
      | Punctuation =>
          if is_sentence_end c then c :: capitalize_sentences Punctuation rest
          else if is_space c then c :: capitalize_sentences PunctuationSpace rest
          else c :: capitalize_sentences Anything rest
      | Anything =>
          if is_sentence_end c then c :: capitalize_sentences Punctuation rest
          else c :: capitalize_sentences Anything rest
      end
  end.

Definition sentence_case (s : jsstring) : jsstring :=
  let result := capitalize_sentences Anything (toLowerCase s) in
  toUpperCase (firstn 1 result) ++ skipn 1 result.

(** [s.toLowerCase().replace(/[^\w\s-]/g, "").replace(/[\s]+/g, "-")
      .replace(/-+/g, "-").trim()] *)
Definition slugify (s : jsstring) : jsstring :=
  Str.trim
    (Str.replace_runs is_hyphen (lit "-")
       (Str.replace_runs is_space (lit "-")
          (filter is_slug_char (toLowerCase s)))).

End Transform.
End Transform.

(* ================================================================== *)
(** * Tool 1: [echo] *)
(* ================================================================== *)

Module Echo.

Inductive transformation :=
| none | uppercase | lowercase | titlecase | snake_case | kebab_case | camelCase.

Definition transformation_names : list (string * transformation) :=
  [("none", none); ("uppercase", uppercase); ("lowercase", lowercase);
   ("titlecase", titlecase); ("snake_case", snake_case);
   ("kebab-case", kebab_case); ("camelCase", camelCase)]%string.

Record Args := {
  message : jsstring;
  transform : option transformation;
  includeHash : option bool
}.

(** [message: z.string().min(1).max(10000)],
    [transform: z.enum([...]).optional()],
    [includeHash: z.boolean().optional()] *)
Definition inputSchema (raw : JSON) : option Args :=
  if negb (Zod.is_object raw) then None else
  m <-? Zod.required (Zod.z_string (Some 1%Z) (Some 10000%Z)) (Zod.prop raw "message") ;;
  t <-? Zod.optional (Zod.z_enum (Zod.lookup_name transformation_names)) (Zod.prop raw "transform") ;;
  h <-? Zod.optional Zod.z_boolean (Zod.prop raw "includeHash") ;;
  Some {| message := m; transform := t; includeHash := h |}.

(** The basic stats (the first-generation server computes the first two
    in the same way). *)
Definition wordCount (message : jsstring) : Z :=
  Z.of_nat (List.length (filter Str.nonempty (Str.split_ws (Str.trim message)))).

Definition charCount (message : jsstring) : Z := str_length message.

Definition charCountNoSpaces (message : jsstring) : Z :=
  str_length (Str.remove_all is_space message).

Definition lineCount (message : jsstring) : Z :=
  Z.of_nat (S (Str.line_breaks message)).

Section Handler.

Context `{Host}.

Definition transformed (message : jsstring) (t : transformation) : jsstring :=
  match t with
  | none => message
  | uppercase => toUpperCase message
  | lowercase => toLowerCase message
  | titlecase => Transform.titlecase message
  | snake_case => Transform.snake_case message
  | kebab_case => Transform.kebab_case message
  | camelCase => Transform.camelCase message
  end.

Definition stats (message : jsstring) : JSON :=
  JObj [(lit "word_count", Json.int (wordCount message));
        (lit "char_count", Json.int (charCount message));
        (lit "char_count_no_spaces", Json.int (charCountNoSpaces message));
        (lit "line_count", Json.int (lineCount message));
        (lit "avg_word_length",
          if (0 <? wordCount message)%Z
          then JStr (toFixed2 (inject_Z (charCountNoSpaces message)
                               / inject_Z (wordCount message)))
          else Json.int 0)].

Definition timestamps : M JSON :=
  iso <- Date_now ;;
  unix <- Date_now ;;
  utc <- Date_now ;;
  locale <- Date_now ;;
  ret (JObj [(lit "iso", JStr (Date_toISOString iso));
             (lit "unix", Json.int unix);
             (lit "utc", JStr (Date_toUTCString utc));
             (lit "locale", JStr (Date_toLocaleString locale))]).

Definition encoding (message : jsstring) : JSON :=
  JObj [(lit "base64", JStr (Buffer.to_base64 false (Buffer.from_utf8 message)));
        (lit "base64url", JStr (Buffer.to_base64 true (Buffer.from_utf8 message)))].

Definition hashes (message : jsstring) : M JSON :=
  md5 <- lift_result (hash_digest (lit "md5") (lit "hex") message) ;;
  sha256 <- lift_result (hash_digest (lit "sha256") (lit "hex") message) ;;
  sha512 <- lift_result (hash_digest (lit "sha512") (lit "hex") message) ;;
  ret (JObj [(lit "md5", JStr md5); (lit "sha256", JStr sha256);
             (lit "sha512", JStr sha512)]).

Definition response (args : Args) : M JSON :=
  let message := message args in
  let transform := or_default (transform args) none in
  let includeHash := or_default (includeHash args) false in
  ts <- timestamps ;;
  hs <- (if includeHash then h <- hashes message ;; ret (Some h) else ret None) ;;
  ret (JObj (Json.defined
    [(lit "original", Some (JStr message));
     (lit "transformed",
       match transform with
       | none => None
       | _ => Some (JStr (transformed message transform))
       end);
     (lit "reversed", Some (JStr (Transform.reverse message)));
     (lit "stats", Some (stats message));
     (lit "timestamps", Some ts);
     (lit "encoding", Some (encoding message));
     (lit "hashes", hs)])).

Definition body (args : Args) : M Envelope :=
  r <- response args ;; ret (ok_envelope r).

Definition handler (args : Args) : M Envelope := guarded (body args).

End Handler.
End Echo.

(* ================================================================== *)
(** * Tool 2: [format] *)
(* ================================================================== *)

Module Format.

Inductive operation :=
| uppercase | lowercase | titlecase | reverse | trim | remove_spaces
| remove_punctuation | slugify | sentence_case.

Definition operation_names : list (string * operation) :=
  [("uppercase", uppercase); ("lowercase", lowercase); ("titlecase", titlecase);
   ("reverse", reverse); ("trim", trim); ("remove_spaces", remove_spaces);
   ("remove_punctuation", remove_punctuation); ("slugify", slugify);
   ("sentence_case", sentence_case)]%string.

Definition operation_name (op : operation) : string :=
  match op with
  | uppercase => "uppercase" | lowercase => "lowercase" | titlecase => "titlecase"
  | reverse => "reverse" | trim => "trim" | remove_spaces => "remove_spaces"
  | remove_punctuation => "remove_punctuation" | slugify => "slugify"
  | sentence_case => "sentence_case"
  end.

Record Args := { text : jsstring; op : operation }.

(** [text: z.string().min(1)], [operation: z.enum([...])] *)
Definition inputSchema (raw : JSON) : option Args :=
  if negb (Zod.is_object raw) then None else
  t <-? Zod.required (Zod.z_string (Some 1%Z) None) (Zod.prop raw "text") ;;
  o <-? Zod.required (Zod.z_enum (Zod.lookup_name operation_names)) (Zod.prop raw "operation") ;;
  Some {| text := t; op := o |}.

Section Handler.

Context `{Host}.

(** The [switch (operation)]. *)
Definition result (text : jsstring) (operation : operation) : jsstring :=
  match operation with
  | uppercase => toUpperCase text
  | lowercase => toLowerCase text
  | titlecase => Transform.titlecase text
  | sentence_case => Transform.sentence_case text
  | reverse => Transform.reverse text
  | trim => Str.trim text
  | remove_spaces => Str.remove_all is_space text
  | remove_punctuation => Str.remove_all is_punct text
  | slugify => Transform.slugify text
  end.

Definition response (args : Args) : JSON :=
  JObj [(lit "original", JStr (text args));
        (lit "operation", Json.str (operation_name (op args)));
        (lit "result", JStr (result (text args) (op args)))].

Definition body (args : Args) : M Envelope := ret (ok_envelope (response args)).

Definition handler (args : Args) : M Envelope := guarded (body args).

End Handler.
End Format.

(* ================================================================== *)
(** * Tool 3: [analyze] *)
(* ================================================================== *)

Module Analyze.

Record Args := { text : jsstring; includeCharFrequency : option bool }.

(** [text: z.string().min(1)], [includeCharFrequency: z.boolean().optional()] *)
Definition inputSchema (raw : JSON) : option Args :=
  if negb (Zod.is_object raw) then None else
  t <-? Zod.required (Zod.z_string (Some 1%Z) None) (Zod.prop raw "text") ;;
  f <-? Zod.optional Zod.z_boolean (Zod.prop raw "includeCharFrequency") ;;
  Some {| text := t; includeCharFrequency := f |}.

Definition cons_head (c : N) (pieces : list jsstring) : list jsstring :=
  match pieces with
  | piece :: rest => (c :: piece) :: rest
  | [] => [[c]]
  end.

(** [text.split(/\n\n+/)]: a separator is a run of two line feeds or
    more; a single line feed stays in its piece. *)
Fixpoint split_blank_lines (in_sep : bool) (s : jsstring) : list jsstring :=
  match s with
  | [] => [[]]
  | c :: rest =>
      if (c =? 10)%N then
        if in_sep then split_blank_lines true rest
        else match rest with
             | d :: rest' =>
                 if (d =? 10)%N then [] :: split_blank_lines true rest'
                 else cons_head c (split_blank_lines false rest)
             | [] => [[c]]
             end
      else cons_head c (split_blank_lines false rest)
  end.

(** [s => s.trim().length > 0] *)
Definition not_blank (s : jsstring) : bool := Str.nonempty (Str.trim s).

Definition words (text : jsstring) : list jsstring :=
  filter Str.nonempty (Str.split_ws (Str.trim text)).

Definition sentences (text : jsstring) : list jsstring :=
  filter not_blank (Str.split_runs is_sentence_end false text).

Definition paragraphs (text : jsstring) : list jsstring :=
  filter not_blank (split_blank_lines false text).

(** ** Character types *)

Definition letters (text : jsstring) : Z := Str.match_count is_letter text.
Definition digits (text : jsstring) : Z := Str.match_count is_digit text.
Definition spaces (text : jsstring) : Z := Str.match_count is_space text.
Definition punctuation (text : jsstring) : Z := Str.match_count is_punct text.

(** [other: text.length - letters - digits - spaces - punctuation] *)
Definition other (text : jsstring) : Z :=
  (str_length text - letters text - digits text - spaces text - punctuation text)%Z.

Definition count_of (m : Json.members) (k : jsstring) : Q :=
  match Json.get k m with
  | Some (JNum q) => q
  | _ => 0
  end.

(** [m[k] = (m[k] || 0) + 1] *)
Definition increment (m : Json.members) (k : jsstring) : Json.members :=
  Json.set k (JNum (Qred (count_of m k + 1))) m.

(** [words.forEach(word => { wordLengths[word.length] = ... })] *)
Definition wordLengths (ws : list jsstring) : Json.members :=
  fold_left (fun m word => increment m (Json.dec_of_N (N.of_nat (List.length word))))
            ws [].

Section Handler.

Context `{Host}.

(** [for (const char of text.toLowerCase()) if (/[a-z]/.test(char)) ...]:
    a character of two code units is never a small letter, so the count
    can go code unit by code unit. *)
Definition freq (text : jsstring) : Json.members :=
  fold_left (fun m c => if is_lower c then increment m [c] else m)
            (toLowerCase text) [].

(** [d > 0 ? (n / d).toFixed(2) : 0] *)
Definition ratio (n d : Z) : JSON :=
  if (0 <? d)%Z then JStr (toFixed2 (inject_Z n / inject_Z d)) else Json.int 0.

Definition complexity (nwords nsentences : Z) : string :=
  if (0 <? nwords)%Z && (0 <? nsentences)%Z then
    if (20 * nsentences <? nwords)%Z then "complex"
    else if (10 * nsentences <? nwords)%Z then "moderate"
    else "simple"
  else "unknown".

Definition composition (text : jsstring) : JSON :=
  JObj [(lit "letters", Json.int (letters text));
        (lit "digits", Json.int (digits text));
        (lit "spaces", Json.int (spaces text));
        (lit "punctuation", Json.int (punctuation text));
        (lit "other", Json.int (other text))].

Definition response (args : Args) : JSON :=
  let text := text args in
  let includeCharFrequency := or_default (includeCharFrequency args) false in
  let nwords := Z.of_nat (List.length (words text)) in
  let nsentences := Z.of_nat (List.length (sentences text)) in
  let nparagraphs := Z.of_nat (List.length (paragraphs text)) in
  let no_spaces := str_length (Str.remove_all is_space text) in
  JObj (Json.defined
    [(lit "counts", Some (JObj
        [(lit "characters", Json.int (str_length text));
         (lit "characters_no_spaces", Json.int no_spaces);
         (lit "words", Json.int nwords);
         (lit "sentences", Json.int nsentences);
         (lit "paragraphs", Json.int nparagraphs)]));
     (lit "averages", Some (JObj
        [(lit "words_per_sentence", ratio nwords nsentences);
         (lit "chars_per_word",
           if (0 <? nwords)%Z
           then JStr (toFixed2 (inject_Z no_spaces / inject_Z nwords))
           else Json.int 0);
         (lit "sentences_per_paragraph", ratio nsentences nparagraphs)]));
     (lit "composition", Some (composition text));
     (lit "word_length_distribution", Some (JObj (wordLengths (words text))));
     (lit "readability", Some (JObj
        [(lit "estimated_reading_time_min", Json.int ((nwords + 199) / 200));
         (lit "complexity", Json.str (complexity nwords nsentences))]));
     (lit "character_frequency",
       if includeCharFrequency then Some (JObj (freq text)) else None)]).

Definition body (args : Args) : M Envelope := ret (ok_envelope (response args)).

Definition handler (args : Args) : M Envelope := guarded (body args).

End Handler.
End Analyze.

(* ================================================================== *)
(** * Tool 4: [hash] *)
(* ================================================================== *)

Module Hash.

Definition algorithms : list (string * string) :=
  [("md5", "md5"); ("sha1", "sha1"); ("sha256", "sha256"); ("sha512", "sha512");
   ("sha3-256", "sha3-256")]%string.

Definition encodings : list (string * string) :=
  [("hex", "hex"); ("base64", "base64"); ("base64url", "base64url")]%string.

Record Args := { data : jsstring; algorithm : option string; encoding : option string }.

(** [data: z.string()], [algorithm: z.enum([...]).default("sha256")],
    [encoding: z.enum([...]).default("hex")] *)
Definition inputSchema (raw : JSON) : option Args :=
  if negb (Zod.is_object raw) then None else
  d <-? Zod.required (Zod.z_string None None) (Zod.prop raw "data") ;;
  a <-? Zod.default "sha256"%string (Zod.z_enum (Zod.lookup_name algorithms)) (Zod.prop raw "algorithm") ;;
  e <-? Zod.default "hex"%string (Zod.z_enum (Zod.lookup_name encodings)) (Zod.prop raw "encoding") ;;
  Some {| data := d; algorithm := a; encoding := e |}.

Section Handler.

Context `{Host}.

(** The object that the handler prints. *)
Definition response (args : Args) : M JSON :=
  let data := data args in
  let algorithm := or_default (algorithm args) "sha256"%string in
  let encoding := or_default (encoding args) "hex"%string in
  result <- lift_result (hash_digest (lit algorithm) (lit encoding) data) ;;
  ret (JObj
    [(lit "input_length", Json.int (str_length data));
     (lit "algorithm", Json.str algorithm);
     (lit "encoding", Json.str encoding);
     (lit "hash", JStr result)]).

Definition body (args : Args) : M Envelope :=
  r <- response args ;; ret (ok_envelope r).

Definition handler (args : Args) : M Envelope := guarded (body args).

End Handler.
End Hash.

(* ================================================================== *)
(** * Tool 5: [uuid] *)
(* ================================================================== *)

Module Uuid.

Inductive version := v4 | v7.

Definition version_names : list (string * version) := [("v4", v4); ("v7", v7)]%string.

Definition version_name (v : version) : string :=
  match v with v4 => "v4" | v7 => "v7" end.

Record Args := {
  requested : option version;
  count : option Z;
  uppercase : option bool
}.

(** [version: z.enum(["v4", "v7"]).default("v4")],
    [count: z.number().int().min(1).max(100).default(1)],
    [uppercase: z.boolean().default(false)] *)
Definition inputSchema (raw : JSON) : option Args :=
  if negb (Zod.is_object raw) then None else
  v <-? Zod.default v4 (Zod.z_enum (Zod.lookup_name version_names)) (Zod.prop raw "version") ;;
  c <-? Zod.default 1%Z (Zod.z_int 1 100) (Zod.prop raw "count") ;;
  u <-? Zod.default false Zod.z_boolean (Zod.prop raw "uppercase") ;;
  Some {| requested := v; count := c; uppercase := u |}.

Definition hex2 (b : N) : jsstring :=
  [Json.hex_digit (b / 16); Json.hex_digit (b mod 16)]%N.

Definition hex_of (bs : list N) : jsstring := flat_map hex2 bs.

(** Node's [randomUUID]: sixteen random bytes, the version nibble set to
    4 and the variant bits to 10, printed 8-4-4-4-12 in small hex. *)
Definition stamp (bs : list N) : list N :=
  map (fun ib : nat * N =>
         let (i, b) := ib in
         if Nat.eqb i 6 then N.lor (N.land b 15) 64
         else if Nat.eqb i 8 then N.lor (N.land b 63) 128
         else b)
      (combine (seq 0 (List.length bs)) bs).

Definition format_uuid (bs : list N) : jsstring :=
  let b := stamp bs in
  hex_of (firstn 4 b) ++ lit "-" ++ hex_of (firstn 2 (skipn 4 b)) ++ lit "-"
    ++ hex_of (firstn 2 (skipn 6 b)) ++ lit "-" ++ hex_of (firstn 2 (skipn 8 b))
    ++ lit "-" ++ hex_of (skipn 10 b).

Section Handler.

Context `{Host}.

Definition randomUUID : M jsstring :=
  bs <- random_bytes16 ;; ret (format_uuid bs).

(** One turn of the [for] loop. *)
Definition next_uuid (uppercase : bool) : M jsstring :=
  uuid <- randomUUID ;;
  ret (if uppercase then toUpperCase uuid else uuid).

Definition uuids (count : Z) (uppercase : bool) : M (list jsstring) :=
  replicateM (Z.to_nat count) (next_uuid uppercase).

Definition response (args : Args) : M JSON :=
  let version := or_default (requested args) v4 in
  let count := or_default (count args) 1%Z in
  let uppercase := or_default (uppercase args) false in
  us <- uuids count uppercase ;;
  ret (JObj [(lit "version", Json.str (version_name version));
             (lit "count", Json.int (Z.of_nat (List.length us)));
             (lit "uuids", JArr (map JStr us))]).

Definition body (args : Args) : M Envelope :=
  r <- response args ;; ret (ok_envelope r).

Definition handler (args : Args) : M Envelope := guarded (body args).

End Handler.
End Uuid.

(* ================================================================== *)
(** * Tool 6: [timestamp] *)
(* ================================================================== *)

Module Timestamp.

Inductive operation := now | convert | add | format_op.

Definition operation_names : list (string * operation) :=
  [("now", now); ("convert", convert); ("add", add); ("format", format_op)]%string.

Definition operation_name (o : operation) : string :=
  match o with now => "now" | convert => "convert" | add => "add" | format_op => "format" end.

Inductive format := iso | unix_ms | unix_s | utc | locale | date_only | time_only.

Definition format_names : list (string * format) :=
  [("iso", iso); ("unix_ms", unix_ms); ("unix_s", unix_s); ("utc", utc);
   ("locale", locale); ("date_only", date_only); ("time_only", time_only)]%string.

Definition format_name (f : format) : string :=
  match f with
  | iso => "iso" | unix_ms => "unix_ms" | unix_s => "unix_s" | utc => "utc"
  | locale => "locale" | date_only => "date_only" | time_only => "time_only"
  end.

Record Args := {
  op : option operation;
  value : option jsstring;
  fmt : option format;
  addMs : option Q
}.

(** [operation: z.enum([...]).default("now")], [value: z.string().optional()],
    [format: z.enum([...]).default("iso")], [addMs: z.number().optional()] *)
Definition inputSchema (raw : JSON) : option Args :=
  if negb (Zod.is_object raw) then None else
  o <-? Zod.default now (Zod.z_enum (Zod.lookup_name operation_names)) (Zod.prop raw "operation") ;;
  v <-? Zod.optional (Zod.z_string None None) (Zod.prop raw "value") ;;
  f <-? Zod.default iso (Zod.z_enum (Zod.lookup_name format_names)) (Zod.prop raw "format") ;;
  a <-? Zod.optional Zod.z_number (Zod.prop raw "addMs") ;;
  Some {| op := o; value := v; fmt := f; addMs := a |}.

(** A [Date] is its time value, or [None] when it is an invalid date. *)
Definition Date := option Z.

Definition max_time : Z := 8640000000000000.

(** [new Date(n)] for an integral number [n] (TimeClip) *)
Definition Date_of (n : Z) : Date :=
  if (Z.abs n <=? max_time)%Z then Some n else None.

(** [new Date(x)] for a number [x]: no date unless [x] is finite and
    within the range of time values, and then [x] truncated *)
Definition Date_of_number (x : Double.number) : Date :=
  match x with
  | Double.Finite q =>
      if Qle_bool (Qabs q) (inject_Z max_time)
      then Some (Z.quot (Qnum q) (Z.pos (Qden q))) else None
  | _ => None
  end.

(** [/^\d+$/.test(value)] *)
Definition all_digits (value : jsstring) : bool :=
  Str.nonempty value && forallb is_digit value.

(** [s.split("T")]: the first piece and what follows it *)
Fixpoint split_at (sep : N) (s : jsstring) : jsstring * option jsstring :=
  match s with
  | [] => ([], None)
  | c :: rest =>
      if (c =? sep)%N then ([], Some rest)
      else let (a, b) := split_at sep rest in (c :: a, b)
  end.

(** [s.replace("Z", "")]: the first occurrence only *)
Fixpoint remove_first (x : N) (s : jsstring) : jsstring :=
  match s with
  | [] => []
  | c :: rest => if (c =? x)%N then rest else c :: remove_first x rest
  end.

Section Handler.

Context `{Host}.

(** [new Date(value)], a string of digits being a Unix time in seconds
    when below ten thousand million and in milliseconds otherwise *)
Definition Date_of_value (value : jsstring) : Date :=
  if all_digits value then
    let num := Z.of_N (JsonParse.digits_N value) in
    Date_of (if (num <? 10000000000)%Z then num * 1000 else num)%Z
  else Date_parse value.

(** [if (isNaN(date.getTime())) throw new Error("Invalid date value")] *)
Definition checked (date : Date) : M Z :=
  match date with
  | Some t => ret t
  | None => throw (Error (lit "Invalid date value"))
  end.

(** [if (!value)]: absent or empty *)
Definition given (value : option jsstring) : option jsstring :=
  match value with
  | Some (c :: rest) => Some (c :: rest)
  | _ => None
  end.

(** The [switch (operation)].  [addMs] is the double nearest to the
    number of the request. *)
Definition date_of (operation : operation) (value : option jsstring)
           (addMs : option Q) : M Date :=
  match operation with
  | now => t <- Date_now ;; ret (Some t)
  | convert =>
      match given value with
      | None => throw (Error (lit "Value required for convert operation"))
      | Some v => t <- checked (Date_of_value v) ;; ret (Some t)
      end
  | add =>
      match given value, addMs with
      | Some v, Some ms =>
          t <- checked (Date_of_value v) ;;
          ret (Date_of_number
                 (Double.add (Double.Finite (inject_Z t)) (Double.round ms)))
      | _, _ => throw (Error (lit "Value and addMs required for add operation"))
      end
  | format_op => t <- Date_now ;; ret (Some t)
  end.

(** [date.toISOString()] throws a [RangeError] on an invalid date. *)
Definition toISOString (date : Date) : M jsstring :=
  match date with
  | Some t => ret (Date_toISOString t)
  | None => throw (Error (lit "Invalid time value"))
  end.

Definition getTime (date : Date) : JSON :=
  match date with Some t => Json.int t | None => JNull end.

(** [Math.floor(date.getTime() / 1000)] *)
Definition unix_seconds (date : Date) : JSON :=
  match date with Some t => Json.int (t / 1000) | None => JNull end.

Definition toUTCString (date : Date) : jsstring :=
  match date with Some t => Date_toUTCString t | None => lit "Invalid Date" end.

Definition toLocaleString (date : Date) : jsstring :=
  match date with Some t => Date_toLocaleString t | None => lit "Invalid Date" end.

(** [date.toISOString().split("T")[0]] *)
Definition dateOnly (date : Date) : M jsstring :=
  s <- toISOString date ;; ret (fst (split_at 84 s)).

(** [date.toISOString().split("T")[1].replace("Z", "")] *)
Definition timeOnly (date : Date) : M jsstring :=
  s <- toISOString date ;;
  match snd (split_at 84 s) with
  | Some after => ret (remove_first 90 (fst (split_at 84 after)))
  | None => throw (Error (lit "Cannot read properties of undefined (reading 'replace')"))
  end.

(** The [switch (format)]. *)
Definition formatted (date : Date) (f : format) : M JSON :=
  match f with
  | iso => s <- toISOString date ;; ret (JStr s)
  | unix_ms => ret (getTime date)
  | unix_s => ret (unix_seconds date)
  | utc => ret (JStr (toUTCString date))
  | locale => ret (JStr (toLocaleString date))
  | date_only => s <- dateOnly date ;; ret (JStr s)
  | time_only => s <- timeOnly date ;; ret (JStr s)
  end.

Definition all_formats (date : Date) : M JSON :=
  i <- toISOString date ;;
  d <- dateOnly date ;;
  t <- timeOnly date ;;
  ret (JObj [(lit "iso", JStr i);
             (lit "unix_ms", getTime date);
             (lit "unix_s", unix_seconds date);
             (lit "utc", JStr (toUTCString date));
             (lit "locale", JStr (toLocaleString date));
             (lit "date_only", JStr d);
             (lit "time_only", JStr t)]).

(** The object that the handler prints. *)
Definition response (args : Args) : M JSON :=
  let operation := or_default (op args) now in
  let format := or_default (fmt args) iso in
  date <- date_of operation (value args) (addMs args) ;;
  result <- formatted date format ;;
  all <- all_formats date ;;
  ret (JObj
    [(lit "operation", Json.str (operation_name operation));
     (lit "format", Json.str (format_name format));
     (lit "result", result);
     (lit "all_formats", all)]).

Definition body (args : Args) : M Envelope :=
  r <- response args ;; ret (ok_envelope r).

Definition handler (args : Args) : M Envelope := guarded (body args).

End Handler.
End Timestamp.

(* ================================================================== *)
(** * Tool 7: [base64] *)
(* ================================================================== *)

Module Base64.

Inductive operation := encode | decode.

Definition operation_names : list (string * operation) :=
  [("encode", encode); ("decode", decode)]%string.

Definition operation_name (o : operation) : string :=
  match o with encode => "encode" | decode => "decode" end.

Record Args := { op : operation; data : jsstring; urlSafe : option bool }.

(** [operation: z.enum(["encode", "decode"])], [data: z.string()],
    [urlSafe: z.boolean().default(false)] *)
Definition inputSchema (raw : JSON) : option Args :=
  if negb (Zod.is_object raw) then None else
  o <-? Zod.required (Zod.z_enum (Zod.lookup_name operation_names)) (Zod.prop raw "operation") ;;
  d <-? Zod.required (Zod.z_string None None) (Zod.prop raw "data") ;;
  u <-? Zod.default false Zod.z_boolean (Zod.prop raw "urlSafe") ;;
  Some {| op := o; data := d; urlSafe := u |}.

(** [Buffer.from(data).toString(urlSafe ? "base64url" : "base64")] *)
Definition encoded (data : jsstring) (urlSafe : bool) : jsstring :=
  Buffer.to_base64 urlSafe (Buffer.from_utf8 data).

(** [Buffer.from(data, urlSafe ? "base64url" : "base64").toString("utf-8")]:
    neither call throws, whatever the data. *)
Definition decoded (data : jsstring) (urlSafe : bool) : M jsstring :=
  ret (Buffer.to_utf8 (Buffer.from_base64 data)).

Section Handler.

Context `{Host}.

Definition result_object (operation : operation) (data : jsstring)
           (urlSafe : bool) (result : jsstring) : JSON :=
  JObj [(lit "operation", Json.str (operation_name operation));
        (lit "input_length", Json.int (str_length data));
        (lit "output_length", Json.int (str_length result));
        (lit "url_safe", JBool urlSafe);
        (lit "result", JStr result)].

(** The object that the handler prints. *)
Definition response (args : Args) : M JSON :=
  let operation := op args in
  let data := data args in
  let urlSafe := or_default (urlSafe args) false in
  match operation with
  | encode => ret (result_object operation data urlSafe (encoded data urlSafe))
  | decode =>
      try_catch
        (d <- decoded data urlSafe ;; ret (result_object operation data urlSafe d))
        (fun _ => throw (Error (lit "Invalid Base64 input")))
  end.

(** The [try] block: each branch returns the envelope of its object, the
    [decode] branch from within its own [try]. *)
Definition body (args : Args) : M Envelope :=
  let operation := op args in
  let data := data args in
  let urlSafe := or_default (urlSafe args) false in
  match operation with
  | encode =>
      ret (ok_envelope (result_object operation data urlSafe (encoded data urlSafe)))
  | decode =>
      try_catch
        (d <- decoded data urlSafe ;;
         ret (ok_envelope (result_object operation data urlSafe d)))
        (fun _ => throw (Error (lit "Invalid Base64 input")))
  end.

Definition handler (args : Args) : M Envelope := guarded (body args).

End Handler.
End Base64.

(* ================================================================== *)
(** * Tool 8: [json] *)
(* ================================================================== *)

Module JsonTool.

Inductive operation := validate | format | minify | get_keys | get_type.

Definition operation_names : list (string * operation) :=
  [("validate", validate); ("format", format); ("minify", minify);
   ("get_keys", get_keys); ("get_type", get_type)]%string.

Record Args := { op : option operation; data : jsstring; indent : option Z }.

(** [operation: z.enum([...]).default("validate")], [data: z.string()],
    [indent: z.number().int().min(0).max(8).default(2)] *)
Definition inputSchema (raw : JSON) : option Args :=
  if negb (Zod.is_object raw) then None else
  o <-? Zod.default validate (Zod.z_enum (Zod.lookup_name operation_names)) (Zod.prop raw "operation") ;;
  d <-? Zod.required (Zod.z_string None None) (Zod.prop raw "data") ;;
  i <-? Zod.default 2%Z (Zod.z_int 0 8) (Zod.prop raw "indent") ;;
  Some {| op := o; data := d; indent := i |}.

(** [typeof v === "object" && v !== null && !Array.isArray(v)] *)
Definition is_plain_object (v : JSON) : bool :=
  match v with JObj _ => true | _ => false end.

Definition isArray (v : JSON) : bool :=
  match v with JArr _ => true | _ => false end.

(** [typeof v === "object" && v !== null] *)
Definition is_object (v : JSON) : bool :=
  match v with JObj _ | JArr _ => true | _ => false end.

Definition typeof (v : JSON) : string :=
  match v with
  | JNull | JArr _ | JObj _ => "object"
  | JBool _ => "boolean"
  | JNum _ => "number"
  | JStr _ => "string"
  end.

(** [prefix ? `${prefix}.${key}` : key]: the empty prefix is falsy. *)
Definition fullKey (prefix key : jsstring) : jsstring :=
  match prefix with
  | [] => key
  | _ => prefix ++ lit "." ++ key
  end.

(** The key of an array position. *)
Definition index_key (i : nat) : jsstring := Json.dec_of_N (N.of_nat i).

(** [const getAllKeys = (obj, prefix = "") => { for (const key in obj) ... }]:
    [for ... in] goes through the members of an object, and through the
    positions of an array or of a string. *)
Fixpoint getAllKeys (obj : JSON) (prefix : jsstring) {struct obj} : list jsstring :=
  match obj with
  | JObj m =>
      (fix over_members (m : list (jsstring * JSON)) : list jsstring :=
         match m with
         | [] => []
         | (key, child) :: rest =>
             fullKey prefix key
               :: (if is_plain_object child
                   then getAllKeys child (fullKey prefix key) else [])
               ++ over_members rest
         end) m
  | JArr l =>
      (fix over_elements (i : nat) (l : list JSON) : list jsstring :=
         match l with
         | [] => []
         | child :: rest =>
             fullKey prefix (index_key i)
               :: (if is_plain_object child
                   then getAllKeys child (fullKey prefix (index_key i)) else [])
               ++ over_elements (S i) rest
         end) O l
  | JStr s => map (fun i => fullKey prefix (index_key i)) (seq 0 (List.length s))
  | _ => []
  end.

(** [const getType = (val) => ...] *)
Definition getType (val : JSON) : string :=
  match val with
  | JNull => "null"
  | JArr _ => "array"
  | _ => typeof val
  end.

Section Handler.

Context `{Host}.

(** The [catch (e)] of the parse: an envelope flagged as an error whose
    text is a JSON document. *)
Definition invalid_envelope (e : exn) : Envelope :=
  {| text := Json.stringify
               (JObj [(lit "valid", JBool false); (lit "error", JStr (message_of e))]) 2;
     isError := Some true |}.

(** The [switch (operation)]. *)
Definition result (operation : operation) (data : jsstring) (indent : Z)
           (parsed : JSON) : JSON :=
  match operation with
  | validate =>
      JObj (Json.defined
        [(lit "valid", Some (JBool true));
         (lit "type", Some (Json.str (if isArray parsed then "array" else typeof parsed)));
         (lit "size_bytes",
           Some (Json.int (Z.of_nat (List.length (Buffer.from_utf8 data)))));
         (lit "keys",
           match parsed with
           | JObj m => Some (JArr (map (fun kv => JStr (fst kv)) m))
           | _ => None
           end);
         (lit "array_length",
           match parsed with
           | JArr l => Some (Json.int (Z.of_nat (List.length l)))
           | _ => None
           end)])
  | format =>
      JObj [(lit "valid", JBool true);
            (lit "formatted", JStr (Json.stringify parsed indent))]
  | minify =>
      let minified := Json.stringify_compact parsed in
      JObj [(lit "valid", JBool true);
            (lit "minified", JStr minified);
            (lit "original_size", Json.int (str_length data));
            (lit "minified_size", Json.int (str_length minified));
            (lit "compression_ratio",
              JStr (toFixed2 (inject_Z (str_length minified)
                              / inject_Z (str_length data))))]
  | get_keys =>
      JObj [(lit "valid", JBool true);
            (lit "keys",
              JArr (map JStr (if is_object parsed then getAllKeys parsed [] else [])))]
  | get_type =>
      JObj (Json.defined
        [(lit "valid", Some (JBool true));
         (lit "root_type", Some (Json.str (getType parsed)));
         (lit "types",
           match parsed with
           | JObj m => Some (JObj (map (fun kv => (fst kv, Json.str (getType (snd kv)))) m))
           | _ => None
           end)])
  end.

Definition body (args : Args) : M Envelope :=
  let operation := or_default (op args) validate in
  let data := data args in
  let indent := or_default (indent args) 2%Z in
  match JsonParse.parse data with
  | inl e => ret (invalid_envelope e)
  | inr parsed => ret (ok_envelope (result operation data indent parsed))
  end.

Definition handler (args : Args) : M Envelope := guarded (body args).

End Handler.
End JsonTool.

(* ================================================================== *)
(** * Tool 9: [random] *)
(* ================================================================== *)

Module Random.

Inductive kind := integer | float | hex | alphanumeric | string_kind | boolean.

Definition kind_names : list (string * kind) :=
  [("integer", integer); ("float", float); ("hex", hex);
   ("alphanumeric", alphanumeric); ("string", string_kind);
   ("boolean", boolean)]%string.

Definition kind_name (k : kind) : string :=
  match k with
  | integer => "integer" | float => "float" | hex => "hex"
  | alphanumeric => "alphanumeric" | string_kind => "string" | boolean => "boolean"
  end.

Record Args := {
  type : option kind;
  min : option Q;
  max : option Q;
  length : option Z;
  count : option Z
}.

(** [type: z.enum([...]).default("integer")], [min: z.number().optional()],
    [max: z.number().optional()],
    [length: z.number().int().min(1).max(1000).default(16)],
    [count: z.number().int().min(1).max(100).default(1)] *)
Definition inputSchema (raw : JSON) : option Args :=
  if negb (Zod.is_object raw) then None else
  t <-? Zod.default integer (Zod.z_enum (Zod.lookup_name kind_names)) (Zod.prop raw "type") ;;
  lo <-? Zod.optional Zod.z_number (Zod.prop raw "min") ;;
  hi <-? Zod.optional Zod.z_number (Zod.prop raw "max") ;;
  l <-? Zod.default 16%Z (Zod.z_int 1 1000) (Zod.prop raw "length") ;;
  c <-? Zod.default 1%Z (Zod.z_int 1 100) (Zod.prop raw "count") ;;
  Some {| type := t; min := lo; max := hi; length := l; count := c |}.

Definition chars : jsstring :=
  lit "ABCDEFGHIJKLMNOPQRSTUVWXYZabcdefghijklmnopqrstuvwxyz0123456789".

Definition allChars : jsstring :=
  lit "ABCDEFGHIJKLMNOPQRSTUVWXYZabcdefghijklmnopqrstuvwxyz0123456789!@#$%^&*".

(** [s.charAt(i)] *)
Definition charAt (s : jsstring) (i : Z) : jsstring :=
  if (i <? 0)%Z then []
  else match nth_error s (Z.to_nat i) with
       | Some c => [c]
       | None => []
       end.

(** [Math.floor(r * (max - min + 1)) + min] *)
Definition integer_of (r : Q) (min max : Double.number) : Double.number :=
  Double.add
    (Double.floor
       (Double.mul (Double.Finite r)
                   (Double.add (Double.sub max min) (Double.Finite 1))))
    min.

(** [r * (max - min) + min] *)
Definition float_of (r : Q) (min max : Double.number) : Double.number :=
  Double.add (Double.mul (Double.Finite r) (Double.sub max min)) min.

(** [Math.floor(r * n)] for a whole number [n] *)
Definition scaled (r : Q) (n : Z) : Double.number :=
  Double.floor (Double.mul (Double.Finite r) (Double.Finite (inject_Z n))).

(** [Math.floor(r * 16).toString(16)]: one digit for a whole number from
    0 to 15 *)
Definition hex_of (r : Q) : jsstring :=
  match scaled r 16 with
  | Double.Finite q => [Json.hex_digit (Z.to_N (Qfloor q))]
  | Double.Infinite false => lit "Infinity"
  | Double.Infinite true => lit "-Infinity"
  | Double.NaN => lit "NaN"
  end.

(** [alphabet.charAt(Math.floor(r * alphabet.length))]: [charAt] takes
    [NaN] for 0, and has no code unit at an infinite position *)
Definition pick (alphabet : jsstring) (r : Q) : jsstring :=
  match scaled r (str_length alphabet) with
  | Double.Finite q => charAt alphabet (Qfloor q)
  | Double.Infinite _ => []
  | Double.NaN => charAt alphabet 0
  end.

Section Handler.

Context `{Host}.

(** [Array.from({ length }, () => f(Math.random())).join("")] *)
Definition drawn_string (length : Z) (f : Q -> jsstring) : M JSON :=
  rs <- replicateM (Z.to_nat length) Math_random ;;
  ret (JStr (flat_map f rs)).

(** [const generate = () => { switch (type) ... }] *)
Definition generate (type : kind) (min max : Double.number) (length : Z) : M JSON :=
  match type with
  | integer => r <- Math_random ;; ret (Double.to_json (integer_of r min max))
  | float => r <- Math_random ;; ret (Double.to_json (float_of r min max))
  | boolean => r <- Math_random ;; ret (JBool (if Qlt_le_dec r (1 # 2) then true else false))
  | hex => drawn_string length hex_of
  | alphanumeric => drawn_string length (pick chars)
  | string_kind => drawn_string length (pick allChars)
  end.

(** The bounds are the doubles nearest to the numbers of the request. *)
Definition results (args : Args) : M (list JSON) :=
  let type := or_default (type args) integer in
  let min := Double.round (or_default (min args) 0) in
  let max := Double.round (or_default (max args) 100) in
  let length := or_default (length args) 16%Z in
  let count := or_default (count args) 1%Z in
  replicateM (Z.to_nat count) (generate type min max length).

Definition response (args : Args) : M JSON :=
  let type := or_default (type args) integer in
  let count := or_default (count args) 1%Z in
  rs <- results args ;;
  ret (JObj [(lit "type", Json.str (kind_name type));
             (lit "count", Json.int (Z.of_nat (List.length rs)));
             (lit "values",
               if (count =? 1)%Z then nth 0 rs JNull else JArr rs)]).

Definition body (args : Args) : M Envelope :=
  r <- response args ;; ret (ok_envelope r).

Definition handler (args : Args) : M Envelope := guarded (body args).

End Handler.
End Random.

(* ================================================================== *)
(** * Tool 10: [info] *)
(* ================================================================== *)

Module Info.

Inductive detail_level := basic | full.

Definition detail_names : list (string * detail_level) :=
  [("basic", basic); ("full", full)]%string.

Record Args := { detail : option detail_level }.

(** [detail: z.enum(["basic", "full"]).default("basic")] *)
Definition inputSchema (raw : JSON) : option Args :=
  if negb (Zod.is_object raw) then None else
  d <-? Zod.default basic (Zod.z_enum (Zod.lookup_name detail_names)) (Zod.prop raw "detail") ;;
  Some {| detail := d |}.

Definition tool_entry (name description : string) : JSON :=
  JObj [(lit "name", Json.str name); (lit "description", Json.str description)].

Definition tools : JSON :=
  JArr [tool_entry "echo" "Enhanced echo with metadata and transformations";
        tool_entry "format" "Text formatting utilities";
        tool_entry "analyze" "Text analysis and statistics";
        tool_entry "hash" "Cryptographic hashing (MD5, SHA256, etc.)";
        tool_entry "uuid" "UUID generation";
        tool_entry "timestamp" "Timestamp utilities";
        tool_entry "base64" "Base64 encoding/decoding";
        tool_entry "json" "JSON validation and formatting";
        tool_entry "random" "Random data generator";
        tool_entry "info" "Server information"].

Definition capabilities : JSON :=
  JObj [(lit "tools", JBool true); (lit "resources", JBool false);
        (lit "prompts", JBool false)].

Section Handler.

Context `{Host}.

Definition basic_info : list (jsstring * JSON) :=
  [(lit "name", Json.str "mcp-echo-tool-enhanced");
   (lit "version", Json.str "2.0.0");
   (lit "description", Json.str "Enhanced MCP server with 10+ utility tools");
   (lit "node_version", JStr process_version);
   (lit "platform", JStr process_platform)].

(** The object that the handler prints. *)
Definition response (args : Args) : M JSON :=
  match or_default (detail args) basic with
  | full =>
      uptime <- process_uptime ;;
      memory <- process_memoryUsage ;;
      ret (JObj (basic_info ++
        [(lit "tools", tools);
         (lit "capabilities", capabilities);
         (lit "uptime_seconds", JNum uptime);
         (lit "memory_usage",
           JObj (map (fun kv => (fst kv, Json.int (snd kv))) memory))]))
  | basic => ret (JObj basic_info)
  end.

Definition body (args : Args) : M Envelope :=
  r <- response args ;; ret (ok_envelope r).

Definition handler (args : Args) : M Envelope := guarded (body args).

End Handler.
End Info.

(* ================================================================== *)
(** * The enhanced server: registration and calls *)
(* ================================================================== *)

Module Server.

(** The ten [server.registerTool(name, { inputSchema }, handler)]. *)
Inductive tool :=
| echo | format | analyze | hash | uuid | timestamp | base64 | json | random | info.

Definition registered : list (string * tool) :=
  [("echo", echo); ("format", format); ("analyze", analyze); ("hash", hash);
   ("uuid", uuid); ("timestamp", timestamp); ("base64", base64); ("json", json);
   ("random", random); ("info", info)]%string.

(** A call whose arguments passed the schema of its tool. *)
Inductive call :=
| CallEcho (a : Echo.Args)
| CallFormat (a : Format.Args)
| CallAnalyze (a : Analyze.Args)
| CallHash (a : Hash.Args)
| CallUuid (a : Uuid.Args)
| CallTimestamp (a : Timestamp.Args)
| CallBase64 (a : Base64.Args)
| CallJson (a : JsonTool.Args)
| CallRandom (a : Random.Args)
| CallInfo (a : Info.Args).

Definition tool_of (c : call) : tool :=
  match c with
  | CallEcho _ => echo | CallFormat _ => format | CallAnalyze _ => analyze
  | CallHash _ => hash | CallUuid _ => uuid | CallTimestamp _ => timestamp
  | CallBase64 _ => base64 | CallJson _ => json | CallRandom _ => random
  | CallInfo _ => info
  end.

(** [inputSchema] of a tool applied to the raw arguments. *)
Definition validate (t : tool) (raw : JSON) : option call :=
  match t with
  | echo => option_map CallEcho (Echo.inputSchema raw)
  | format => option_map CallFormat (Format.inputSchema raw)
  | analyze => option_map CallAnalyze (Analyze.inputSchema raw)
  | hash => option_map CallHash (Hash.inputSchema raw)
  | uuid => option_map CallUuid (Uuid.inputSchema raw)
  | timestamp => option_map CallTimestamp (Timestamp.inputSchema raw)
  | base64 => option_map CallBase64 (Base64.inputSchema raw)
  | json => option_map CallJson (JsonTool.inputSchema raw)
  | random => option_map CallRandom (Random.inputSchema raw)
  | info => option_map CallInfo (Info.inputSchema raw)
  end.

Section Calls.

Context `{Host}.

(** What the [try] block of a handler has to print: the object that it
    builds, or, in the [json] tool, the error of a parse that failed. *)
Inductive answer :=
| Result (v : JSON)
| Invalid (e : exn).

Definition result (c : call) : M answer :=
  match c with
  | CallEcho a => r <- Echo.response a ;; ret (Result r)
  | CallFormat a => ret (Result (Format.response a))
  | CallAnalyze a => ret (Result (Analyze.response a))
  | CallHash a => r <- Hash.response a ;; ret (Result r)
  | CallUuid a => r <- Uuid.response a ;; ret (Result r)
  | CallTimestamp a => r <- Timestamp.response a ;; ret (Result r)
  | CallBase64 a => r <- Base64.response a ;; ret (Result r)
  | CallJson a =>
      match JsonParse.parse (JsonTool.data a) with
      | inl e => ret (Invalid e)
      | inr parsed =>
          ret (Result (JsonTool.result (or_default (JsonTool.op a) JsonTool.validate)
                                       (JsonTool.data a)
                                       (or_default (JsonTool.indent a) 2%Z)
                                       parsed))
      end
  | CallRandom a => r <- Random.response a ;; ret (Result r)
  | CallInfo a => r <- Info.response a ;; ret (Result r)
  end.

(** The [try] block of the handler. *)
Definition body (c : call) : M Envelope :=
  match c with
  | CallEcho a => Echo.body a
  | CallFormat a => Format.body a
  | CallAnalyze a => Analyze.body a
  | CallHash a => Hash.body a
  | CallUuid a => Uuid.body a
  | CallTimestamp a => Timestamp.body a
  | CallBase64 a => Base64.body a
  | CallJson a => JsonTool.body a
  | CallRandom a => Random.body a
  | CallInfo a => Info.body a
  end.

(** The registered handler. *)
Definition handler (c : call) : M Envelope :=
  match c with
  | CallEcho a => Echo.handler a
  | CallFormat a => Format.handler a
  | CallAnalyze a => Analyze.handler a
  | CallHash a => Hash.handler a
  | CallUuid a => Uuid.handler a
  | CallTimestamp a => Timestamp.handler a
  | CallBase64 a => Base64.handler a
  | CallJson a => JsonTool.handler a
  | CallRandom a => Random.handler a
  | CallInfo a => Info.handler a
  end.

(** What [McpServer] does with a [tools/call] request.  The two refusals
    are worded and delivered by the SDK, which is not part of the
    repository; only the fact of the refusal is recorded. *)
Inductive outcome :=
| ToolNotFound
| InvalidArguments
| Returned (e : Envelope).

Definition callTool (name : jsstring) (raw : JSON) : M outcome :=
  match Zod.lookup_name registered name with
  | None => ret ToolNotFound
  | Some t =>
      match validate t raw with
      | None => ret InvalidArguments
      | Some c => e <- handler c ;; ret (Returned e)
      end
  end.

End Calls.
End Server.

(* ================================================================== *)
(** * The first-generation server: one [echo] tool *)
(* ================================================================== *)

Module FirstServer.

(** [!message] *)
Definition falsy (v : option JSON) : bool :=
  match v with
  | None => true
  | Some JNull => true
  | Some (JBool b) => negb b
  | Some (JNum q) => Qeq_bool q 0
  | Some (JStr s) => negb (Str.nonempty s)
  | Some _ => false
  end.

Section Handler.

Context `{Host}.

Definition response (message : jsstring) : M JSON :=
  timestamp <- Date_now ;;
  ret (JObj [(lit "original", JStr message);
             (lit "reversed", JStr (Transform.reverse message));
             (lit "word_count", Json.int (Echo.wordCount message));
             (lit "char_count", Json.int (Echo.charCount message));
             (lit "timestamp", JStr (Date_toISOString timestamp))]).

(** [server.setRequestHandler(CallToolRequestSchema, async (request) => ...)]
    with [name = request.params.name] and
    [arguments = request.params.arguments].  Nothing is caught here: a
    [throw] leaves the handler. *)
Definition callTool (name : jsstring) (arguments : option JSON) : M Envelope :=
  if negb (Json.str_eqb name (lit "echo"))
  then throw (Error (lit "Unknown tool: " ++ name))
  else
    let message := match arguments with
                   | Some a => Zod.prop a "message"
                   | None => None
                   end in
    if falsy message then throw (Error (lit "Message parameter is required"))
    else match message with
         | Some (JStr s) => r <- response s ;; ret (ok_envelope r)
         | _ => throw (Error (lit "message.split is not a function"))
         end.

End Handler.
End FirstServer.

(* ================================================================== *)
(** * Notions that the properties are stated with *)
(* ================================================================== *)

Module Spec.

(** The non-empty tokens of a text delimited by white space: its maximal
    runs of code units that are not white space, read left to right. *)
Fixpoint tokens_from (cur : jsstring) (s : jsstring) : list jsstring :=
  match s with
  | [] => if Str.nonempty cur then [rev cur] else []
  | c :: rest =>
      if is_space c then
        if Str.nonempty cur then rev cur :: tokens_from [] rest
        else tokens_from [] rest
      else tokens_from (c :: cur) rest
  end.

Definition tokens (s : jsstring) : list jsstring := tokens_from [] s.

(** A text in which every surrogate is half of a pair. *)
Fixpoint well_formed (s : jsstring) : bool :=
  match s with
  | [] => true
  | c :: rest =>
      if Buffer.is_high_surrogate c then
        match rest with
        | d :: rest' => Buffer.is_low_surrogate d && well_formed rest'
        | [] => false
        end
      else negb (Buffer.is_low_surrogate c) && (c <? 65536)%N && well_formed rest
  end.

(** The textual form of a version-4 UUID,
    [xxxxxxxx-xxxx-4xxx-Nxxx-xxxxxxxxxxxx] with [N] one of 8, 9, a, b,
    in small or capital hex digits. *)
Inductive slot := Hex | Dash | Four | Variant.

Definition is_hex (c : N) : bool :=
  is_digit c || between 97 102 c || between 65 70 c.

Definition fits (k : slot) (c : N) : bool :=
  match k with
  | Hex => is_hex c
  | Dash => (c =? 45)%N
  | Four => (c =? 52)%N
  | Variant => (c =? 56)%N || (c =? 57)%N || (c =? 97)%N || (c =? 98)%N
               || (c =? 65)%N || (c =? 66)%N
  end.

Definition uuid_v4_pattern : list slot :=
  repeat Hex 8 ++ [Dash] ++ repeat Hex 4 ++ [Dash] ++ [Four] ++ repeat Hex 3
    ++ [Dash] ++ [Variant] ++ repeat Hex 3 ++ [Dash] ++ repeat Hex 12.

Fixpoint fits_all (p : list slot) (s : jsstring) : bool :=
  match p, s with
  | [], [] => true
  | k :: p', c :: s' => fits k c && fits_all p' s'
  | _, _ => false
  end.

Definition valid_uuid_v4 (s : jsstring) : bool := fits_all uuid_v4_pattern s.

(** A number in the closed interval from [lo] to [hi], and one in the
    interval that leaves [hi] out. *)
Definition within (lo hi : Q) (v : JSON) : Prop :=
  match v with
  | JNum q => (lo <= q /\ q <= hi)%Q
  | _ => False
  end.

Definition within_below (lo hi : Q) (v : JSON) : Prop :=
  match v with
  | JNum q => (lo <= q /\ q < hi)%Q
  | _ => False
  end.

(** A whole number from [a] to [b]. *)
Definition whole_within (a b : Z) (v : JSON) : Prop :=
  exists z, v = JNum (inject_Z z) /\ (a <= z <= b)%Z.

(** What one call of [generate] of the [random] tool gives, by type,
    between two doubles whose difference does not overflow: with type
    [integer] and bounds that are whole numbers, a whole number between
    them; with type [float], a double between them. *)
Definition bounded (type : Random.kind) (min max : Double.number) (v : JSON) : Prop :=
  (type = Random.integer ->
   forall a b d, min = Double.Finite (inject_Z a) -> max = Double.Finite (inject_Z b) ->
                 Double.representable (inject_Z a) ->
                 Double.representable (inject_Z b) ->
                 (a <= b)%Z ->
                 Double.round (inject_Z b - inject_Z a) = Double.Finite d ->
                 whole_within a b v)
  /\ (type = Random.float ->
      forall lo hi d, min = Double.Finite lo -> max = Double.Finite hi ->
                      Double.representable lo -> Double.representable hi ->
                      (lo <= hi)%Q -> Double.round (hi - lo) = Double.Finite d ->
                      within lo hi v).

(** [text] starts with [prefix]. *)
Definition starts_with (prefix text : jsstring) : bool :=
  match JsonParse.strip_prefix prefix text with Some _ => true | None => false end.


(** The shape that the claim gives to every failure: an
    [Error: <message>] text flagged as an error. *)
Definition failure (e : Envelope) : Prop :=
  isError e = Some true /\ exists message, text e = lit "Error: " ++ message.

End Spec.


(** [v.a.b]: a member of a member. *)
Fixpoint field (path : list string) (v : JSON) : option JSON :=
  match path with
  | [] => Some v
  | k :: rest =>
      match v with
      | JObj m => match Json.get (lit k) m with
                  | Some w => field rest w
                  | None => None
                  end
      | _ => None
      end
  end.

(** A host to run the handlers on examples: the readings follow a linear
    congruence, the clock starts in 2026, and the primitives that print
    return fixed texts. *)
Definition example_host : Host := {|
  unicode_toLowerCase := fun s => s;
  unicode_toUpperCase := fun s => s;
  double_toString := fun _ => lit "0.5";
  toFixed2 := fun _ => lit "0.00";
  syntax_error_message := fun _ => lit "Unexpected token";
  hash_digest := fun _ _ _ => inr (lit "00");
  Date_parse := fun _ => None;
  Date_toISOString := fun _ => lit "2026-01-01T00:00:00.000Z";
  Date_toUTCString := fun _ => lit "Thu, 01 Jan 2026 00:00:00 GMT";
  Date_toLocaleString := fun _ => lit "1/1/2026, 12:00:00 AM";
  process_version := lit "v20.0.0";
  process_platform := lit "linux";
  clock_at := fun n => (1767225600000 + Z.of_nat n)%Z;
  entropy_at := fun n =>
    ((6364136223846793005 * N.of_nat n + 1442695040888963407)
     * 2862933555777941757 * 3202034522624059733 mod 2 ^ 128)%N;
  uptime_at := fun n => inject_Z (Z.of_nat n);
  memory_at := fun _ => [(lit "rss", 50000000%Z)]
|}.

(** The example host with a random source that reads [e] every time. *)
Definition steady_host (e : N) : Host := {|
  unicode_toLowerCase := @unicode_toLowerCase example_host;
  unicode_toUpperCase := @unicode_toUpperCase example_host;
  double_toString := @double_toString example_host;
  toFixed2 := @toFixed2 example_host;
  syntax_error_message := @syntax_error_message example_host;
  hash_digest := @hash_digest example_host;
  Date_parse := @Date_parse example_host;
  Date_toISOString := @Date_toISOString example_host;
  Date_toUTCString := @Date_toUTCString example_host;
  Date_toLocaleString := @Date_toLocaleString example_host;
  process_version := @process_version example_host;
  process_platform := @process_platform example_host;
  clock_at := @clock_at example_host;
  entropy_at := fun _ => e;
  uptime_at := @uptime_at example_host;
  memory_at := @memory_at example_host
|}.

(* ================================================================== *)
(** * Further notions *)
(* ================================================================== *)

Module Notion.

(** No two neighbours in [s] both satisfy [p]. *)
Fixpoint no_adjacent (p : N -> bool) (s : jsstring) : bool :=
  match s with
  | [] => true
  | c :: rest =>
      match rest with
      | d :: _ => negb (p c && p d) && no_adjacent p rest
      | [] => true
      end
  end.

(** The sum of the counters of an object used as a table of counts. *)
Fixpoint total (m : Json.members) : Q :=
  match m with
  | [] => 0
  | (_, JNum q) :: rest => q + total rest
  | _ :: rest => total rest
  end.

(** The number of texts of [l] that are [n] code units long. *)
Definition of_length (n : nat) (l : list jsstring) : nat :=
  List.length (filter (fun w => Nat.eqb (List.length w) n) l).

(** The units of a text are 16-bit code units. *)
Definition units16 (s : jsstring) : Prop := Forall (fun c => (c < 65536)%N) s.

(** What a table of counters holds for the length [n] once the words
    [seen] have been counted: nothing when no word has that length. *)
Definition counted (m : Json.members) (seen : list jsstring) : Prop :=
  forall n, Json.get (Json.dec_of_N (N.of_nat n)) m
            = match of_length n seen with
              | O => None
              | S k => Some (Json.int (Z.of_nat (S k)))
              end.

(** A JSON string of [n] code units, all of them taken from [alphabet]. *)
Definition text_over (alphabet : jsstring) (n : Z) (v : JSON) : Prop :=
  match v with
  | JStr s => str_length s = n /\ Forall (fun c => In c alphabet) s
  | _ => False
  end.

Definition lower_hex : jsstring := lit "0123456789abcdef".

Definition is_boolean (v : JSON) : Prop :=
  match v with JBool _ => True | _ => False end.

(** The code units that Base64 is written with, [=] included, and those
    of the URL-safe form. *)
Definition is_base64_char (c : N) : bool :=
  is_letter c || is_digit c || N.eqb c 43 || N.eqb c 47 || N.eqb c 61.

Definition is_base64url_char (c : N) : bool :=
  is_letter c || is_digit c || N.eqb c 45 || N.eqb c 95.

(** From the standard alphabet to the URL-safe one: [+] becomes [-] and
    [/] becomes [_]. *)
Definition url_of (c : N) : N :=
  if N.eqb c 43 then 45%N else if N.eqb c 47 then 95%N else c.

Definition not_pad (c : N) : bool := negb (N.eqb c Buffer.pad_char).

(** Two texts that differ at most in the case of their ASCII letters. *)
Definition same_letters (a b : jsstring) : Prop :=
  map ascii_lower a = map ascii_lower b.

(** An ASCII code unit that is not a capital letter. *)
Definition is_small (c : N) : bool := is_ascii c && negb (is_upper c).

(** The number of code units of [s] that are the small letter [c] or its
    capital. *)
Definition occurrences (c : N) (s : jsstring) : nat :=
  List.length (filter (fun d => N.eqb (ascii_lower d) c) s).

(** The entry of a table of counts for something seen [n] times: none
    when it was never seen. *)
Definition entry (n : nat) : option JSON :=
  match n with
  | O => None
  | S k => Some (Json.int (Z.of_nat (S k)))
  end.

(** A text without small letters, and one without capitals. *)
Definition no_small (s : jsstring) : bool := forallb (fun c => negb (is_lower c)) s.
Definition no_capital (s : jsstring) : bool := forallb (fun c => negb (is_upper c)) s.

(** The number of code units of [s] that are [x], and the number of
    places where an [a] is immediately followed by a [b]. *)
Definition count_unit (x : N) (s : jsstring) : nat :=
  List.length (filter (N.eqb x) s).

Fixpoint count_pairs (a b : N) (s : jsstring) : nat :=
  match s with
  | [] => O
  | c :: rest =>
      match rest with
      | d :: _ => if N.eqb c a && N.eqb d b then S (count_pairs a b rest)
                  else count_pairs a b rest
      | [] => O
      end
  end.

(** The names that [echo] gives to the members of its response. *)
Definition echo_keys (transformed hashes : bool) : list jsstring :=
  [lit "original"] ++ (if transformed then [lit "transformed"] else [])
    ++ [lit "reversed"; lit "stats"; lit "timestamps"; lit "encoding"]
    ++ (if hashes then [lit "hashes"] else []).

(** A text that does not end with white space. *)
Definition ends_solid (s : jsstring) : Prop :=
  match rev s with
  | [] => True
  | c :: _ => is_space c = false
  end.

(** The names under which the [info] tool lists the tools. *)
Definition listed_tools : list jsstring :=
  match Info.tools with
  | JArr entries =>
      flat_map (fun e => match field ["name"%string] e with
                         | Some (JStr name) => [name]
                         | _ => []
                         end) entries
  | _ => []
  end.

End Notion.

(* ================================================================== *)
(** * Properties *)
(* ================================================================== *)

Unset Implicit Arguments.

(** ** Word and character counts of [echo] *)

Section Counts.

Lemma nonempty_rev (s : jsstring) : Str.nonempty (rev s) = Str.nonempty s.
Proof. unfold Str.nonempty. now rewrite length_rev. Qed.

Lemma nonempty_app_cons (a : jsstring) (c : N) (b : jsstring) :
  Str.nonempty (a ++ c :: b) = true.
Proof.
  unfold Str.nonempty. rewrite length_app. simpl.
  apply Nat.ltb_lt. lia.
Qed.

Lemma split_runs_not_nil (sep : N -> bool) (b : bool) (s : jsstring) :
  Str.split_runs sep b s <> [].
Proof.
  revert b. induction s as [|c rest IH]; intro b; simpl.
  - discriminate.
  - destruct (sep c).
    + destruct b; [apply IH | discriminate].
    + destruct (Str.split_runs sep false rest); discriminate.
Qed.

(** A separator seen before the text adds at most an empty first piece. *)
Lemma split_runs_prev (sep : N -> bool) (s : jsstring) :
  filter Str.nonempty (Str.split_runs sep true s)
  = filter Str.nonempty (Str.split_runs sep false s).
Proof.
  destruct s as [|c rest]; simpl; [reflexivity|].
  destruct (sep c); reflexivity.
Qed.

Lemma tokens_from_split (s cur : jsstring) :
  Spec.tokens_from cur s
  = filter Str.nonempty
      match Str.split_runs is_space false s with
      | piece :: pieces => (rev cur ++ piece) :: pieces
      | [] => []
      end.
Proof.
  revert cur. induction s as [|c rest IH]; intro cur; simpl.
  - rewrite app_nil_r, nonempty_rev. reflexivity.
  - destruct (is_space c) eqn:Hc.
    + simpl. rewrite app_nil_r, nonempty_rev, split_runs_prev.
      specialize (IH []). simpl in IH.
      assert (Hne := split_runs_not_nil is_space false rest).
      destruct (Str.split_runs is_space false rest) as [|p ps]; [congruence|].
      rewrite IH. reflexivity.
    + rewrite IH. simpl.
      assert (Hne := split_runs_not_nil is_space false rest).
      destruct (Str.split_runs is_space false rest) as [|p ps]; [congruence|].
      now rewrite <- app_assoc.
Qed.

(** The words that the handlers count are the tokens of the trimmed text. *)
Lemma split_tokens (s : jsstring) :
  filter Str.nonempty (Str.split_ws s) = Spec.tokens s.
Proof.
  unfold Spec.tokens, Str.split_ws. rewrite tokens_from_split. simpl.
  assert (Hne := split_runs_not_nil is_space false s).
  destruct (Str.split_runs is_space false s); [congruence | reflexivity].
Qed.

Lemma dropWhile_all (p : N -> bool) (s : jsstring) :
  forallb p s = true -> Str.dropWhile p s = [].
Proof.
  induction s as [|c rest IH]; simpl; [reflexivity|].
  destruct (p c); simpl; [exact IH | discriminate].
Qed.

Lemma trim_blank (s : jsstring) : forallb is_space s = true -> Str.trim s = [].
Proof.
  intro Hs. unfold Str.trim, Str.trimStart, Str.trimEnd.
  now rewrite (dropWhile_all _ _ Hs).
Qed.

End Counts.

Lemma str_eqb_refl (a : jsstring) : Json.str_eqb a a = true.
Proof. unfold Json.str_eqb. destruct (list_eq_dec N.eq_dec a a); congruence. Qed.

Section EchoCounts.

Context `{Host}.

Lemma echo_response_stats (args : Echo.Args) (t t' : nat) (r : JSON) :
  Echo.response args t = (inr r, t') ->
  field ["stats"%string] r = Some (Echo.stats (Echo.message args)).
Proof.
  unfold Echo.response, bind.
  destruct (Echo.timestamps t) as [[e|ts] t1]; [discriminate|].
  destruct (or_default (Echo.includeHash args) false).
  - destruct (Echo.hashes (Echo.message args) t1) as [[e|hs] t2]; [discriminate|].
    unfold ret. intro E. injection E as <- _.
    destruct (or_default (Echo.transform args) Echo.none); reflexivity.
  - unfold ret. intro E. injection E as <- _.
    destruct (or_default (Echo.transform args) Echo.none); reflexivity.
Qed.

(** The response is built after four readings of the clock, unless the
    hashes were asked for and one of the three digests fails. *)
Lemma echo_response_cases (args : Echo.Args) (t : nat) :
  (exists r, Echo.response args t = (inr r, (4 + t)%nat))
  \/ (or_default (Echo.includeHash args) false = true
      /\ exists e algorithm,
           hash_digest (lit algorithm) (lit "hex") (Echo.message args) = inl e
           /\ Echo.response args t = (inl e, (4 + t)%nat)).
Proof.
  assert (Hts : exists ts, Echo.timestamps t = (inr ts, (4 + t)%nat))
    by (eexists; reflexivity).
  destruct Hts as (ts & Hts).
  unfold Echo.response. unfold bind at 1. rewrite Hts.
  destruct (or_default (Echo.includeHash args) false).
  - unfold bind, Echo.hashes, lift_result, ret, throw.
    destruct (hash_digest (lit "md5") (lit "hex") (Echo.message args))
      as [e|md5] eqn:Hmd5.
    { right. split; [reflexivity|]. exists e, "md5"%string. now split. }
    destruct (hash_digest (lit "sha256") (lit "hex") (Echo.message args))
      as [e|sha256] eqn:Hsha256.
    { right. split; [reflexivity|]. exists e, "sha256"%string. now split. }
    destruct (hash_digest (lit "sha512") (lit "hex") (Echo.message args))
      as [e|sha512] eqn:Hsha512.
    { right. split; [reflexivity|]. exists e, "sha512"%string. now split. }
    left. eexists. reflexivity.
  - left. unfold bind, ret. eexists. reflexivity.
Qed.

Lemma stats_counts (m : jsstring) :
  field ["word_count"%string] (Echo.stats m)
  = Some (Json.int (Z.of_nat (List.length (Spec.tokens (Str.trim m)))))
  /\ field ["char_count"%string] (Echo.stats m)
     = Some (Json.int (Z.of_nat (List.length m))).
Proof.
  split; [|reflexivity].
  unfold Echo.stats, Echo.wordCount. rewrite split_tokens. reflexivity.
Qed.

Lemma field_of_member (name : string) (path : list string) (r member : JSON) :
  field [name] r = Some member -> field (name :: path) r = field path member.
Proof.
  cbn [field]. destruct r as [| | | | |members]; try discriminate.
  destruct (Json.get (lit name) members) as [w|]; [|discriminate].
  now intros [= ->].
Qed.

(** C6.  For every message accepted by the [echo] tool, the handler
    answers, after four readings of the clock, with a response in whose
    stats [word_count] is the number of non-empty tokens of the trimmed
    message delimited by white space (there are none when the message is
    all white space) and [char_count] is the length of the message as it
    was given.  The one exception is a call that asks for the hashes when
    one of the digests fails: the answer is then the error of that digest.
    Without [includeHash] the counts are always reported. *)
Theorem echo_word_and_char_count (raw : JSON) (args : Echo.Args) (t : nat) :
  Echo.inputSchema raw = Some args ->
  let m := Echo.message args in
  let hashed := or_default (Echo.includeHash args) false in
  let words := Json.int (Z.of_nat (List.length (Spec.tokens (Str.trim m)))) in
  let chars := Json.int (Z.of_nat (List.length m)) in
  let reported :=
    exists r, Echo.handler args t = (inr (ok_envelope r), (4 + t)%nat)
              /\ field ["stats"; "word_count"]%string r = Some words
              /\ field ["stats"; "char_count"]%string r = Some chars in
  (reported
   \/ (hashed = true
       /\ exists e algorithm,
            hash_digest (lit algorithm) (lit "hex") m = inl e
            /\ Echo.handler args t = (inr (error_envelope e), (4 + t)%nat)))
  /\ (hashed = false -> reported)
  /\ (forallb is_space m = true -> words = Json.int 0).
Proof.
  intros _ m hashed words chars reported.
  assert (Hanswer : forall r, Echo.response args t = (inr r, (4 + t)%nat) -> reported).
  { intros r Hr. exists r.
    pose proof (echo_response_stats args t _ r Hr) as Hstats.
    destruct (stats_counts m) as [Hwords Hchars].
    split; [|split].
    - unfold Echo.handler, guarded, try_catch, Echo.body, bind. now rewrite Hr.
    - now rewrite (field_of_member _ _ _ _ Hstats).
    - now rewrite (field_of_member _ _ _ _ Hstats). }
  split; [|split].
  - destruct (echo_response_cases args t) as [(r & Hr)|(Hh & e & a & Hdigest & Hr)].
    + left. exact (Hanswer r Hr).
    + right. split; [exact Hh|]. exists e, a. split; [exact Hdigest|].
      unfold Echo.handler, guarded, try_catch, Echo.body, bind. now rewrite Hr.
  - intro Hplain.
    destruct (echo_response_cases args t) as [(r & Hr)|(Hh & _)].
    + exact (Hanswer r Hr).
    + unfold hashed in Hplain. congruence.
  - intro Hs. unfold words. now rewrite (trim_blank _ Hs).
Qed.

End EchoCounts.

Lemma echo_word_and_char_count_witness :
  let text := lit "  Hello   World  " in
  let raw := JObj [(lit "message", JStr text)] in
  let args := {| Echo.message := text;
                 Echo.transform := None; Echo.includeHash := None |} in
  Echo.inputSchema raw = Some args
  /\ exists r, Echo.handler (H := example_host) args O
               = (inr (ok_envelope (H := example_host) r), 4%nat)
               /\ field ["stats"; "word_count"]%string r = Some (Json.int 2)
               /\ field ["stats"; "char_count"]%string r = Some (Json.int 17).
Proof.
  intros text raw args. split; [reflexivity|].
  destruct (echo_word_and_char_count (H := example_host) raw args O eq_refl)
    as (_ & Hplain & _).
  exact (Hplain eq_refl).
Defined.

(** ** Composition counts of [analyze] *)

Section Composition.

Local Open Scope N_scope.

Lemma word_range (c : N) : is_word c = true -> 48 <= c <= 122.
Proof.
  unfold is_word, is_letter, is_lower, is_upper, is_digit, between.
  rewrite !orb_true_iff, !andb_true_iff, !N.leb_le, N.eqb_eq. lia.
Qed.

Lemma space_range (c : N) : is_space c = true -> c <= 32 \/ 160 <= c.
Proof.
  unfold is_space, between.
  rewrite !orb_true_iff, !andb_true_iff, !N.leb_le, !N.eqb_eq. lia.
Qed.

Lemma word_not_space (c : N) : is_word c = true -> is_space c = false.
Proof.
  intro Hw. destruct (is_space c) eqn:Hs; [|reflexivity].
  apply word_range in Hw. apply space_range in Hs. lia.
Qed.






End Composition.

Section AnalyzeCounts.

Context `{Host}.


End AnalyzeCounts.

(** ** The slug of [format] *)

Section Slug.

Context `{Host}.

(** C2.  [slugify] turns ["hello world"] into ["hello-world"], but the
    hyphens that the white space at the ends of a text becomes are kept:
    the closing [trim()] finds no white space to remove. *)
Theorem slugify_keeps_outer_hyphens :
  Format.result (lit "hello world") Format.slugify = lit "hello-world"
  /\ Format.result (lit " hello world ") Format.slugify = lit "-hello-world-".
Proof. split; vm_compute; reflexivity. Qed.

End Slug.

(** ** Base64 and UTF-8 *)

(** Division and remainder by a constant are linear arithmetic. *)
Ltac Zify.zify_post_hook ::= Z.to_euclidean_division_equations.

Section Base64RoundTrip.

Import Buffer.
Local Open Scope N_scope.

Lemma below_forallb (P : N -> bool) (n : nat) :
  forallb P (map N.of_nat (seq 0 n)) = true ->
  forall v, v < N.of_nat n -> P v = true.
Proof.
  intros Hall v Hv. rewrite forallb_forall in Hall. apply Hall.
  apply in_map_iff. exists (N.to_nat v). split; [apply N2Nat.id|].
  apply in_seq. lia.
Qed.

Lemma unbase64_alphabet (url : bool) (v : N) :
  v < 64 -> unbase64 (alphabet url v) = Some v /\ alphabet url v <> pad_char.
Proof.
  intro Hv.
  assert (Hb : (match unbase64 (alphabet url v) with
                | Some w => w =? v
                | None => false
                end) && negb (alphabet url v =? pad_char) = true).
  { revert v Hv. apply (below_forallb _ 64). destruct url; vm_compute; reflexivity. }
  apply andb_true_iff in Hb. destruct Hb as [Hd Hp].
  split.
  - destruct (unbase64 (alphabet url v)); [|discriminate].
    apply N.eqb_eq in Hd. now subst.
  - apply negb_true_iff, N.eqb_neq in Hp. exact Hp.
Qed.

Lemma alphabet_low_byte (url : bool) (v : N) :
  v < 64 -> low_byte (alphabet url v) = alphabet url v.
Proof.
  intro Hv. apply N.eqb_eq. revert v Hv. apply (below_forallb _ 64).
  destruct url; vm_compute; reflexivity.
Qed.

Lemma sextets_pad (rest : jsstring) : sextets (pad_char :: rest) = [].
Proof. reflexivity. Qed.

Lemma sextets_alphabet (url : bool) (v : N) (rest : jsstring) :
  v < 64 -> sextets (alphabet url v :: rest) = v :: sextets rest.
Proof.
  intro Hv. destruct (unbase64_alphabet url v Hv) as [Hd Hp].
  cbn [sextets]. rewrite (alphabet_low_byte url v Hv).
  apply N.eqb_neq in Hp. now rewrite Hp, Hd.
Qed.

Lemma list_ind3 (A : Type) (P : list A -> Prop) :
  P [] -> (forall a, P [a]) -> (forall a b, P [a; b]) ->
  (forall a b c rest, P rest -> P (a :: b :: c :: rest)) ->
  forall l, P l.
Proof.
  intros H0 H1 H2 H3.
  fix go 1. intros [|a [|b [|c rest]]].
  - exact H0.
  - apply H1.
  - apply H2.
  - apply H3, go.
Qed.

(** Decoding undoes encoding, in either alphabet. *)
Lemma from_to_base64 (url : bool) (bs : bytes) :
  all_bytes bs -> from_base64 (to_base64 url bs) = bs.
Proof.
  unfold from_base64.
  induction bs as [|a|a b|a b c rest IH] using list_ind3; intro Hb.
  - reflexivity.
  - inversion_clear Hb as [|? ? Ha _].
    cbn [to_base64 app].
    rewrite !sextets_alphabet by lia.
    destruct url; rewrite ?sextets_pad; cbn [sextets bytes_of_sextets]; f_equal; lia.
  - inversion_clear Hb as [|? ? Ha Hb']. inversion_clear Hb' as [|? ? Hb _].
    cbn [to_base64 app].
    rewrite !sextets_alphabet by lia.
    destruct url; rewrite ?sextets_pad; cbn [sextets bytes_of_sextets];
      repeat f_equal; lia.
  - inversion_clear Hb as [|? ? Ha Hb']. inversion_clear Hb' as [|? ? Hb Hc'].
    inversion_clear Hc' as [|? ? Hc Hrest].
    cbn [to_base64 app].
    rewrite !sextets_alphabet by lia.
    cbn [bytes_of_sextets app]. rewrite (IH Hrest).
    repeat f_equal; lia.
Qed.

(** A code unit above 255 is read by its low byte: four times U+0141,
    whose low byte is the letter [A], decode to three zero bytes. *)
Example from_base64_low_bytes : from_base64 [321; 321; 321; 321] = [0; 0; 0].
Proof. reflexivity. Qed.

End Base64RoundTrip.

Section Utf8RoundTrip.

Import Buffer.
Local Open Scope N_scope.

Lemma surrogate_bounds (c : N) :
  (is_high_surrogate c = true <-> 55296 <= c <= 56319)
  /\ (is_low_surrogate c = true <-> 56320 <= c <= 57343).
Proof.
  unfold is_high_surrogate, is_low_surrogate, between.
  rewrite !andb_true_iff, !N.leb_le. tauto.
Qed.

Lemma between_spec (lo hi c : N) : between lo hi c = true <-> lo <= c <= hi.
Proof. unfold between. rewrite andb_true_iff, !N.leb_le. tauto. Qed.

Lemma second_ok_spec (b0 b1 : N) :
  second_ok b0 b1 = true <->
  (b0 = 224 /\ 160 <= b1 <= 191) \/ (b0 = 237 /\ 128 <= b1 <= 159)
  \/ (b0 = 240 /\ 144 <= b1 <= 191) \/ (b0 = 244 /\ 128 <= b1 <= 143)
  \/ (b0 <> 224 /\ b0 <> 237 /\ b0 <> 240 /\ b0 <> 244 /\ 128 <= b1 <= 191).
Proof.
  unfold second_ok, is_cont.
  destruct (N.eqb_spec b0 224); [|destruct (N.eqb_spec b0 237);
    [|destruct (N.eqb_spec b0 240); [|destruct (N.eqb_spec b0 244)]]];
    rewrite between_spec; lia.
Qed.

(** Decide the test at the head of the goal from the hypotheses. *)
Ltac to_arith E :=
  match type of E with
  | _ = false => apply not_true_iff_false in E
  | _ => idtac
  end;
  unfold is_cont in E;
  rewrite ?second_ok_spec, ?between_spec, ?N.ltb_lt, ?N.eqb_eq in E.

Ltac head_test :=
  match goal with
  | |- (if ?t then _ else _) = _ =>
      let E := fresh "E" in
      destruct t eqn:E; to_arith E; try (exfalso; lia)
  end.

(** The digits of a code point in base 64. *)
Lemma base64_digits (c : N) :
  exists d3 d2 d1 d0,
    c / 262144 = d3 /\ (c / 4096) mod 64 = d2 /\ (c / 64) mod 64 = d1
    /\ c mod 64 = d0 /\ c / 4096 = d3 * 64 + d2
    /\ c / 64 = (d3 * 64 + d2) * 64 + d1
    /\ c = ((d3 * 64 + d2) * 64 + d1) * 64 + d0
    /\ d2 < 64 /\ d1 < 64 /\ d0 < 64.
Proof.
  assert (H2 : c / 4096 = c / 64 / 64) by (now rewrite N.Div0.div_div).
  assert (H3 : c / 262144 = c / 64 / 64 / 64) by (now rewrite !N.Div0.div_div).
  rewrite H2, H3.
  generalize (N.div_mod (c / 64 / 64) 64), (N.div_mod (c / 64) 64), (N.div_mod c 64),
    (N.mod_lt (c / 64 / 64) 64), (N.mod_lt (c / 64) 64), (N.mod_lt c 64).
  generalize (c / 64 / 64 / 64), ((c / 64 / 64) mod 64).
  generalize (c / 64 / 64), ((c / 64) mod 64).
  generalize (c / 64), (c mod 64).
  intros q1 d0 q2 d1 q3 d2 E2 E1 E0 B2 B1 B0.
  exists q3, d2, d1, d0. repeat split; try reflexivity; lia.
Qed.

(** A code point of the basic plane that is not a surrogate. *)
Lemma to_utf8_encode (c : N) (bs : bytes) :
  c < 55296 \/ 57344 <= c < 65536 ->
  to_utf8 (encode_code_point c ++ bs) = c :: to_utf8 bs.
Proof.
  intro Hc. unfold encode_code_point.
  destruct (base64_digits c)
    as (d3 & d2 & d1 & d0 & E3 & E2 & E1 & E0 & E4 & E5 & E & B2 & B1 & B0).
  rewrite ?E2, ?E1, ?E0, ?E3, ?E4, ?E5. clear E3 E2 E1 E0 E4 E5.
  destruct (N.ltb_spec c 128);
    [|destruct (N.ltb_spec c 2048); [|destruct (N.ltb_spec c 65536)]];
    [| | |lia]; cbn [app to_utf8]; repeat head_test; f_equal; lia.
Qed.

(** A code point beyond the basic plane. *)
Lemma to_utf8_encode_astral (cp : N) (bs : bytes) :
  65536 <= cp < 1114112 ->
  to_utf8 (encode_code_point cp ++ bs) = units_of cp ++ to_utf8 bs.
Proof.
  intro Hcp. unfold encode_code_point.
  destruct (base64_digits cp)
    as (d3 & d2 & d1 & d0 & E3 & E2 & E1 & E0 & E4 & E5 & E & B2 & B1 & B0).
  rewrite ?E2, ?E1, ?E0, ?E3, ?E4, ?E5. clear E3 E2 E1 E0 E4 E5.
  destruct (N.ltb_spec cp 128); [lia|]. destruct (N.ltb_spec cp 2048); [lia|].
  destruct (N.ltb_spec cp 65536); [lia|].
  cbn [app to_utf8]; repeat head_test.
  do 2 f_equal. lia.
Qed.

Lemma units_of_pair (hi lo : N) :
  is_high_surrogate hi = true -> is_low_surrogate lo = true ->
  65536 <= code_point hi lo < 1114112 /\ units_of (code_point hi lo) = [hi; lo].
Proof.
  intros Hh Hl. apply surrogate_bounds in Hh. apply surrogate_bounds in Hl.
  assert (Hcp : code_point hi lo = 65536 + ((hi - 55296) * 1024 + (lo - 56320)))
    by (unfold code_point; lia).
  split; [lia|]. unfold units_of.
  destruct (N.ltb_spec (code_point hi lo) 65536); [lia|].
  rewrite Hcp.
  replace (65536 + ((hi - 55296) * 1024 + (lo - 56320)) - 65536)
    with ((lo - 56320) + (hi - 55296) * 1024) by lia.
  rewrite N.div_add by lia. rewrite N.Div0.mod_add.
  rewrite N.div_small, N.mod_small by lia.
  f_equal; [|f_equal]; lia.
Qed.

Lemma to_utf8_encode_pair (hi lo : N) (bs : bytes) :
  is_high_surrogate hi = true -> is_low_surrogate lo = true ->
  to_utf8 (encode_code_point (code_point hi lo) ++ bs) = hi :: lo :: to_utf8 bs.
Proof.
  intros Hh Hl. destruct (units_of_pair hi lo Hh Hl) as [Hcp Hu].
  rewrite to_utf8_encode_astral by exact Hcp. rewrite Hu. reflexivity.
Qed.

End Utf8RoundTrip.

Section Utf8Strings.

Import Buffer.
Local Open Scope N_scope.

(** Well-formed texts, one code point at a time. *)
Lemma well_formed_ind (P : jsstring -> Prop) :
  P [] ->
  (forall c rest, c < 55296 \/ 57344 <= c < 65536 ->
                  Spec.well_formed rest = true -> P rest -> P (c :: rest)) ->
  (forall hi lo rest, is_high_surrogate hi = true -> is_low_surrogate lo = true ->
                      Spec.well_formed rest = true -> P rest -> P (hi :: lo :: rest)) ->
  forall s, Spec.well_formed s = true -> P s.
Proof.
  intros Hnil Hone Hpair.
  fix go 1. intros [|c rest]; [intros _; exact Hnil|].
  cbn [Spec.well_formed].
  destruct (is_high_surrogate c) eqn:Hh.
  - destruct rest as [|d rest']; [discriminate|].
    intro Hw. apply andb_true_iff in Hw. destruct Hw as [Hl Hw].
    apply Hpair; auto.
  - intro Hw. apply andb_true_iff in Hw. destruct Hw as [Hw Hrest].
    apply andb_true_iff in Hw. destruct Hw as [Hl Hc].
    apply Hone; auto.
    apply negb_true_iff in Hl. apply N.ltb_lt in Hc.
    assert (Hh' := proj1 (surrogate_bounds c)).
    assert (Hl' := proj2 (surrogate_bounds c)).
    destruct (N.lt_ge_cases c 55296) as [|Hge]; [now left|right].
    split; [|exact Hc].
    destruct (N.lt_ge_cases c 57344) as [Hlt|]; [|assumption].
    exfalso. destruct (N.le_gt_cases c 56319).
    + rewrite (proj2 Hh') in Hh by lia. discriminate.
    + rewrite (proj2 Hl') in Hl by lia. discriminate.
Qed.

Lemma from_utf8_scalar (c : N) (rest : jsstring) :
  c < 55296 \/ 57344 <= c < 65536 ->
  from_utf8 (c :: rest) = encode_code_point c ++ from_utf8 rest.
Proof.
  intro Hc. cbn [from_utf8].
  destruct (is_high_surrogate c) eqn:Hh.
  - apply surrogate_bounds in Hh. lia.
  - destruct (is_low_surrogate c) eqn:Hl; [|reflexivity].
    apply surrogate_bounds in Hl. lia.
Qed.

Lemma from_utf8_pair (hi lo : N) (rest : jsstring) :
  is_high_surrogate hi = true -> is_low_surrogate lo = true ->
  from_utf8 (hi :: lo :: rest) = encode_code_point (code_point hi lo) ++ from_utf8 rest.
Proof. intros Hh Hl. cbn [from_utf8]. now rewrite Hh, Hl. Qed.

(** Reading back the UTF-8 form of a well-formed text gives the text. *)
Lemma to_from_utf8 (s : jsstring) :
  Spec.well_formed s = true -> to_utf8 (from_utf8 s) = s.
Proof.
  revert s. apply well_formed_ind.
  - reflexivity.
  - intros c rest Hc _ IH. rewrite from_utf8_scalar, to_utf8_encode by assumption. now f_equal.
  - intros hi lo rest Hh Hl _ IH.
    rewrite from_utf8_pair, to_utf8_encode_pair by assumption. now do 2 f_equal.
Qed.

Lemma encode_code_point_bytes (cp : N) :
  cp < 1114112 -> all_bytes (encode_code_point cp).
Proof.
  intro Hcp. unfold encode_code_point, all_bytes.
  destruct (base64_digits cp)
    as (d3 & d2 & d1 & d0 & E3 & E2 & E1 & E0 & E4 & E5 & E & B2 & B1 & B0).
  rewrite ?E2, ?E1, ?E0, ?E3, ?E4, ?E5. clear E3 E2 E1 E0 E4 E5.
  destruct (N.ltb_spec cp 128);
    [|destruct (N.ltb_spec cp 2048); [|destruct (N.ltb_spec cp 65536)]];
    repeat constructor; lia.
Qed.

Lemma from_utf8_bytes (s : jsstring) :
  Spec.well_formed s = true -> all_bytes (from_utf8 s).
Proof.
  revert s. apply well_formed_ind.
  - constructor.
  - intros c rest Hc _ IH. rewrite from_utf8_scalar by assumption. apply Forall_app. split; [|exact IH].
    apply encode_code_point_bytes. lia.
  - intros hi lo rest Hh Hl _ IH.
    rewrite from_utf8_pair by assumption. apply Forall_app. split; [|exact IH].
    apply encode_code_point_bytes.
    apply surrogate_bounds in Hh. apply surrogate_bounds in Hl.
    unfold code_point. lia.
Qed.

End Utf8Strings.

Section Base64Tool.

Context `{Host}.

Lemma base64_decoded_encoded (x : jsstring) (url : bool) (t : nat) :
  Spec.well_formed x = true ->
  Base64.decoded (Base64.encoded x url) url t = (inr x, t).
Proof.
  intro Hx. unfold Base64.decoded, Base64.encoded, ret.
  rewrite from_to_base64 by (now apply from_utf8_bytes).
  now rewrite to_from_utf8.
Qed.

(** C4, amended.  For every text [x] without an unpaired surrogate and
    for either alphabet, the [base64] tool encodes [x] to a text that it
    decodes to [x] again. *)
Theorem base64_round_trip (x : jsstring) (url : bool) (t : nat) :
  Spec.well_formed x = true ->
  let e := Base64.encoded x url in
  let encoding := Base64.result_object Base64.encode x url e in
  let decoding := Base64.result_object Base64.decode e url x in
  Base64.handler {| Base64.op := Base64.encode; Base64.data := x;
                    Base64.urlSafe := Some url |} t
  = (inr (ok_envelope encoding), t)
  /\ field ["result"%string] encoding = Some (JStr e)
  /\ Base64.handler {| Base64.op := Base64.decode; Base64.data := e;
                       Base64.urlSafe := Some url |} t
     = (inr (ok_envelope decoding), t)
  /\ field ["result"%string] decoding = Some (JStr x).
Proof.
  intros Hx e encoding decoding. split; [reflexivity|]. split; [reflexivity|].
  split; [|reflexivity].
  unfold Base64.handler, guarded, Base64.body, try_catch, bind.
  cbn [Base64.op Base64.data Base64.urlSafe or_default].
  subst e. now rewrite base64_decoded_encoded by assumption.
Qed.

(** C3.  The decode branch never reaches its [Invalid Base64 input]:
    whatever the data, the envelope is a success, and on ["!!!"] its
    result is the empty text. *)
Theorem base64_decode_never_rejects (data : jsstring) (urlSafe : option bool) (t : nat) :
  let call d := Base64.handler {| Base64.op := Base64.decode; Base64.data := d;
                                  Base64.urlSafe := urlSafe |} t in
  (exists result,
      call data = (inr (ok_envelope (Base64.result_object Base64.decode data
                                       (or_default urlSafe false) result)), t))
  /\ (exists e, fst (call data) = inr e /\ isError e = None)
  /\ call (lit "!!!")
     = (inr (ok_envelope (Base64.result_object Base64.decode (lit "!!!")
                            (or_default urlSafe false) [])), t).
Proof.
  intro call. split; [|split].
  - eexists. reflexivity.
  - eexists. split; reflexivity.
  - reflexivity.
Qed.

End Base64Tool.

Lemma base64_round_trip_witness :
  let x := lit "Hello World" in
  Spec.well_formed x = true
  /\ Base64.encoded x false = lit "SGVsbG8gV29ybGQ="
  /\ fst (Base64.handler (H := example_host)
            {| Base64.op := Base64.decode; Base64.data := Base64.encoded x false;
               Base64.urlSafe := Some false |} O)
     = inr (ok_envelope (H := example_host)
              (Base64.result_object Base64.decode (Base64.encoded x false) false x)).
Proof.
  intro x. split; [reflexivity|]. split; [reflexivity|].
  destruct (@base64_round_trip example_host x false O eq_refl) as (_ & _ & Hd & _).
  now rewrite Hd.
Defined.

(** C4 as stated fails on a text that holds half of a surrogate pair: it
    comes back as U+FFFD. *)
Lemma base64_round_trip_lone_surrogate :
  let x := [55296%N] in
  fst (Base64.decoded (Base64.encoded x false) false O) = inr [65533%N]
  /\ fst (Base64.decoded (Base64.encoded x true) true O) = inr [65533%N]
  /\ [65533%N] <> x.
Proof. repeat split; discriminate. Qed.

(** ** UUIDs *)

Section UuidText.

Local Open Scope N_scope.

Lemma fits_range (k : Spec.slot) (c : N) : Spec.fits k c = true -> c < 128.
Proof.
  destruct k; unfold Spec.fits, Spec.is_hex, is_digit;
    rewrite ?orb_true_iff, ?between_spec, ?N.eqb_eq; lia.
Qed.

Lemma fits_upper (k : Spec.slot) (c : N) :
  Spec.fits k c = true -> is_ascii c = true /\ Spec.fits k (ascii_upper c) = true.
Proof.
  intro Hk. assert (Hc := fits_range k c Hk). split; [now apply N.ltb_lt|].
  revert Hk.
  assert (Hall : implb (Spec.fits k c) (Spec.fits k (ascii_upper c)) = true).
  { revert c Hc. apply (below_forallb _ 128). destruct k; vm_compute; reflexivity. }
  intro Hk. now rewrite Hk in Hall.
Qed.

Lemma fits_all_upper (p : list Spec.slot) (s : jsstring) :
  Spec.fits_all p s = true ->
  forallb is_ascii s = true /\ Spec.fits_all p (map ascii_upper s) = true.
Proof.
  revert s. induction p as [|k p IH]; intros [|c s]; simpl; try discriminate; auto.
  intro Hs. apply andb_true_iff in Hs. destruct Hs as [Hk Hs].
  destruct (fits_upper k c Hk) as [Ha Hu]. destruct (IH s Hs) as [Has Hus].
  now rewrite Ha, Hu, Has, Hus.
Qed.

(** The two hex digits of a byte. *)
Lemma hex2_fits (b : N) :
  b < 256 ->
  Spec.fits Spec.Hex (Json.hex_digit (b / 16)) = true
  /\ Spec.fits Spec.Hex (Json.hex_digit (b mod 16)) = true.
Proof.
  intro Hb. apply andb_true_iff. revert b Hb.
  apply (below_forallb _ 256). vm_compute. reflexivity.
Qed.

(** The byte that carries the version, and the one that carries the
    variant. *)
Lemma version_byte_fits (b : N) :
  b < 256 ->
  Spec.fits Spec.Four (Json.hex_digit (N.lor (N.land b 15) 64 / 16)) = true
  /\ Spec.fits Spec.Hex (Json.hex_digit (N.lor (N.land b 15) 64 mod 16)) = true.
Proof.
  intro Hb. apply andb_true_iff. revert b Hb.
  apply (below_forallb _ 256). vm_compute. reflexivity.
Qed.

Lemma variant_byte_fits (b : N) :
  b < 256 ->
  Spec.fits Spec.Variant (Json.hex_digit (N.lor (N.land b 63) 128 / 16)) = true
  /\ Spec.fits Spec.Hex (Json.hex_digit (N.lor (N.land b 63) 128 mod 16)) = true.
Proof.
  intro Hb. apply andb_true_iff. revert b Hb.
  apply (below_forallb _ 256). vm_compute. reflexivity.
Qed.

Lemma format_uuid_valid (bs : list N) :
  List.length bs = 16%nat -> Buffer.all_bytes bs ->
  Spec.valid_uuid_v4 (Uuid.format_uuid bs) = true.
Proof.
  intros Hlen Hbs.
  do 16 (destruct bs as [|? bs]; [discriminate|]).
  destruct bs; [|discriminate]. clear Hlen.
  repeat match goal with
         | Hb : Buffer.all_bytes (_ :: _) |- _ => inversion_clear Hb
         | Hb : Forall _ (_ :: _) |- _ => inversion_clear Hb
         end.
  unfold Spec.valid_uuid_v4.
  cbn -[N.div N.modulo Json.hex_digit Spec.fits N.lor N.land].
  repeat match goal with
         | Hb : ?b < 256 |- _ =>
             rewrite ?(proj1 (hex2_fits _ Hb)), ?(proj2 (hex2_fits _ Hb)),
               ?(proj1 (version_byte_fits _ Hb)), ?(proj2 (version_byte_fits _ Hb)),
               ?(proj1 (variant_byte_fits _ Hb)), ?(proj2 (variant_byte_fits _ Hb));
             clear Hb
         end.
  reflexivity.
Qed.

End UuidText.

Section Loops.

(** A loop whose turns all return, each taking one reading. *)
Lemma replicateM_returns (A : Type) (c : M A) (P : A -> Prop) :
  (forall t, exists a, c t = (inr a, S t) /\ P a) ->
  forall n t, exists xs,
    replicateM n c t = (inr xs, (n + t)%nat)
    /\ List.length xs = n /\ Forall P xs.
Proof.
  intros Hc. induction n as [|n IH]; intro t.
  - exists []. repeat split. constructor.
  - destruct (Hc t) as (a & Ha & Pa). destruct (IH (S t)) as (xs & Hxs & Hlen & Hall).
    exists (a :: xs). cbn [replicateM]. unfold bind at 1. rewrite Ha.
    unfold bind at 1. rewrite Hxs. unfold ret.
    repeat split.
    + f_equal. lia.
    + simpl. now rewrite Hlen.
    + now constructor.
Qed.

End Loops.

Section UuidTool.

Context `{Host}.

Lemma random_bytes16_spec (t : nat) :
  exists bs, random_bytes16 t = (inr bs, S t)
             /\ List.length bs = 16%nat /\ Buffer.all_bytes bs.
Proof.
  eexists. split; [reflexivity|]. split.
  - now rewrite length_map, length_seq.
  - apply Forall_forall. intros b Hb. apply in_map_iff in Hb.
    destruct Hb as (i & <- & _). apply N.mod_lt. discriminate.
Qed.

Lemma next_uuid_valid (uppercase : bool) (t : nat) :
  exists u, Uuid.next_uuid uppercase t = (inr u, S t)
            /\ Spec.valid_uuid_v4 u = true.
Proof.
  destruct (random_bytes16_spec t) as (bs & Hbs & Hlen & Hall).
  unfold Uuid.next_uuid, Uuid.randomUUID, bind. rewrite Hbs. unfold ret.
  pose proof (format_uuid_valid bs Hlen Hall) as Hv.
  eexists. split; [reflexivity|].
  destruct uppercase; [|exact Hv].
  destruct (fits_all_upper _ _ Hv) as [Ha Hu].
  unfold toUpperCase. rewrite Ha. exact Hu.
Qed.

(** C5.  For a count [c] from 1 to 100, whatever version is asked for
    and in either letter case, the [uuid] tool answers with [count: c] and
    [c] texts, each of the form of a version-4 UUID; a call with
    [count: 101] does not pass the schema, and no handler is run for it. *)
Theorem uuid_count_and_form (args : Uuid.Args) (c : Z) (t : nat) :
  Uuid.count args = Some c -> (1 <= c <= 100)%Z ->
  (exists us t',
      Uuid.response args t
      = (inr (JObj [(lit "version",
                      Json.str (Uuid.version_name (or_default (Uuid.requested args) Uuid.v4)));
                    (lit "count", Json.int c);
                    (lit "uuids", JArr (map JStr us))]), t')
      /\ Z.of_nat (List.length us) = c
      /\ Forall (fun u => Spec.valid_uuid_v4 u = true) us)
  /\ (forall raw, Zod.prop raw "count" = Some (Json.int 101) ->
                  Uuid.inputSchema raw = None
                  /\ Server.callTool (lit "uuid") raw t = (inr Server.InvalidArguments, t)).
Proof.
  intros Hc Hrange. split.
  - unfold Uuid.response, Uuid.uuids. rewrite Hc. cbn [or_default].
    destruct (replicateM_returns _ (Uuid.next_uuid (or_default (Uuid.uppercase args) false))
                (fun u => Spec.valid_uuid_v4 u = true)
                (next_uuid_valid _) (Z.to_nat c) t) as (us & Hus & Hlen & Hall).
    exists us, (Z.to_nat c + t)%nat. unfold bind. rewrite Hus. unfold ret.
    split; [|split; [lia|exact Hall]].
    do 2 f_equal. rewrite Hlen, Z2Nat.id by lia. reflexivity.
  - intros raw Hraw.
    assert (Hs : Uuid.inputSchema raw = None).
    { unfold Uuid.inputSchema. destruct (negb (Zod.is_object raw)); [reflexivity|].
      destruct (Zod.default Uuid.v4 _ _); [|reflexivity].
      rewrite Hraw. reflexivity. }
    split; [exact Hs|].
    unfold Server.callTool.
    replace (Zod.lookup_name Server.registered (lit "uuid")) with (Some Server.uuid)
      by reflexivity.
    cbn [Server.validate]. rewrite Hs. reflexivity.
Qed.

End UuidTool.

Lemma uuid_count_and_form_witness :
  let args := {| Uuid.requested := Some Uuid.v7; Uuid.count := Some 100%Z;
                 Uuid.uppercase := Some true |} in
  let over := JObj [(lit "count", Json.int 101)] in
  (exists us t',
      Uuid.response (H := example_host) args O
      = (inr (JObj [(lit "version", Json.str "v7"); (lit "count", Json.int 100);
                    (lit "uuids", JArr (map JStr us))]), t')
      /\ Z.of_nat (List.length us) = 100%Z
      /\ Forall (fun u => Spec.valid_uuid_v4 u = true) us)
  /\ Uuid.inputSchema over = None
  /\ Server.callTool (H := example_host) (lit "uuid") over O
     = (inr Server.InvalidArguments, O).
Proof.
  intros args over.
  assert (Hrange : (1 <= 100 <= 100)%Z) by lia.
  destruct (uuid_count_and_form (H := example_host) args 100%Z O eq_refl Hrange)
    as [Hrun Hreject].
  split; [exact Hrun|]. exact (Hreject over eq_refl).
Defined.

(** ** Rounding to the nearest double *)

Section Pow2.

Import Double.
Local Open Scope Q_scope.

Lemma pow2_pos (e : Z) : 0 < pow2 e.
Proof. apply Qpower_0_lt. reflexivity. Qed.

Lemma pow2_add (a b : Z) : pow2 (a + b) == pow2 a * pow2 b.
Proof. apply Qpower_plus. discriminate. Qed.

Lemma pow2_le (a b : Z) : (a <= b)%Z -> pow2 a <= pow2 b.
Proof. intro Hab. apply Qpower_le_compat_l; [exact Hab|discriminate]. Qed.

Lemma pow2_lt (a b : Z) : (a < b)%Z -> pow2 a < pow2 b.
Proof. intro Hab. apply Qpower_lt_compat_l; [exact Hab|reflexivity]. Qed.

Lemma pow2_lt_inv (a b : Z) : pow2 a < pow2 b -> (a < b)%Z.
Proof. intro Hab. apply (Qpower_lt_compat_l_inv 2); [exact Hab|reflexivity]. Qed.

Lemma pow2_Z (e : Z) : (0 <= e)%Z -> pow2 e == inject_Z (2 ^ e).
Proof. intro He. unfold pow2. now rewrite Zpower_Qpower. Qed.

Lemma pow2_succ (e : Z) : pow2 (e + 1) == 2 * pow2 e.
Proof. rewrite pow2_add. unfold pow2 at 2. rewrite Qpower_1_r. ring. Qed.

(** [ilog2] is the binary logarithm rounded down. *)
Lemma ilog2_spec (a : Q) : 0 < a -> pow2 (ilog2 a) <= a /\ a < pow2 (ilog2 a + 1).
Proof.
  intro Ha. destruct a as [n d]. unfold ilog2. cbn [Qnum Qden].
  assert (Hn : (0 < n)%Z) by (unfold Qlt in Ha; cbn in Ha; lia).
  set (ln := Z.log2 n). set (ld := Z.log2 (Z.pos d)).
  destruct (Z.log2_spec n Hn) as [Hn1 Hn2]. fold ln in Hn1, Hn2.
  destruct (Z.log2_spec (Z.pos d) eq_refl) as [Hd1 Hd2]. fold ld in Hd1, Hd2.
  assert (Hln : (0 <= ln)%Z) by apply Z.log2_nonneg.
  assert (Hld : (0 <= ld)%Z) by apply Z.log2_nonneg.
  assert (Hq : n # d == inject_Z n / inject_Z (Z.pos d)) by apply Qmake_Qdiv.
  assert (Hdpos : 0 < inject_Z (Z.pos d)) by reflexivity.
  assert (Hval : n # d == inject_Z n * / inject_Z (Z.pos d)) by exact Hq.
  (* the bounds in Q *)
  assert (Bn1 : pow2 ln <= inject_Z n) by (rewrite pow2_Z by lia; now rewrite <- Zle_Qle).
  assert (Bn2 : inject_Z n < pow2 (ln + 1))
    by (rewrite pow2_Z by lia; rewrite <- Zlt_Qlt; exact Hn2).
  assert (Bd1 : pow2 ld <= inject_Z (Z.pos d))
    by (rewrite pow2_Z by lia; now rewrite <- Zle_Qle).
  assert (Bd2 : inject_Z (Z.pos d) < pow2 (ld + 1))
    by (rewrite pow2_Z by lia; rewrite <- Zlt_Qlt; exact Hd2).
  assert (Hmul : (n # d) * inject_Z (Z.pos d) == inject_Z n).
  { rewrite Hval. field. intro H0. rewrite H0 in Hdpos. discriminate. }
  assert (Hupper : n # d < pow2 (ln - ld + 1)).
  { assert (E : pow2 (ln + 1) == pow2 (ln - ld + 1) * pow2 ld).
    { rewrite <- pow2_add. now replace (ln - ld + 1 + ld)%Z with (ln + 1)%Z by lia. }
    pose proof (pow2_pos ld). pose proof (pow2_pos (ln - ld + 1)).
    apply Qnot_le_lt. intro Hle. 
    assert (pow2 (ln - ld + 1) * pow2 ld <= (n # d) * inject_Z (Z.pos d)) by nra.
    lra. }
  assert (Hlower : pow2 (ln - ld - 1) < n # d).
  { assert (E : pow2 ln == pow2 (ln - ld - 1) * pow2 (ld + 1)).
    { rewrite <- pow2_add. now replace (ln - ld - 1 + (ld + 1))%Z with ln by lia. }
    pose proof (pow2_pos (ld + 1)). pose proof (pow2_pos (ln - ld - 1)).
    apply Qnot_le_lt. intro Hle.
    assert ((n # d) * inject_Z (Z.pos d) < pow2 (ln - ld - 1) * pow2 (ld + 1)) by nra.
    lra. }
  destruct (Qle_bool (pow2 (ln - ld)) (n # d)) eqn:Hc.
  - apply Qle_bool_iff in Hc. split; [exact Hc|exact Hupper].
  - split.
    + apply Qlt_le_weak. exact Hlower.
    + replace (ln - ld - 1 + 1)%Z with (ln - ld)%Z by lia.
      apply Qnot_le_lt. intro Hle. apply Qle_bool_iff in Hle. congruence.
Qed.

Lemma ilog2_unique (a : Q) (l : Z) : pow2 l <= a -> a < pow2 (l + 1) -> ilog2 a = l.
Proof.
  intros Hl Hu.
  assert (Ha : 0 < a) by (pose proof (pow2_pos l); lra).
  destruct (ilog2_spec a Ha) as [Sl Su].
  assert (H1 : (l < ilog2 a + 1)%Z) by (apply pow2_lt_inv; lra).
  assert (H2 : (ilog2 a < l + 1)%Z) by (apply pow2_lt_inv; lra).
  lia.
Qed.

Lemma ilog2_le (a b : Q) : 0 < a -> a <= b -> (ilog2 a <= ilog2 b)%Z.
Proof.
  intros Ha Hab.
  destruct (ilog2_spec a Ha) as [Sl _].
  destruct (ilog2_spec b ltac:(lra)) as [_ Su].
  assert (H1 : (ilog2 a < ilog2 b + 1)%Z) by (apply pow2_lt_inv; lra).
  lia.
Qed.

End Pow2.

Section Nearest.

Import Double.
Local Open Scope Q_scope.

Lemma nearest_even_near (x : Q) :
  inject_Z (nearest_even x) - (1 # 2) <= x /\ x <= inject_Z (nearest_even x) + (1 # 2).
Proof.
  unfold nearest_even.
  pose proof (Qfloor_le x) as Hf. pose proof (Qlt_floor x) as Hc.
  rewrite inject_Z_plus in Hc. change (inject_Z 1) with 1 in Hc.
  destruct (Qcompare_spec (x - inject_Z (Qfloor x)) (1 # 2)) as [He|Hl|Hg].
  - destruct (Z.even (Qfloor x)); [lra|].
    rewrite inject_Z_plus. change (inject_Z 1) with 1. lra.
  - lra.
  - rewrite inject_Z_plus. change (inject_Z 1) with 1. lra.
Qed.

Lemma nearest_even_le (x : Q) (n : Z) : x <= inject_Z n -> (nearest_even x <= n)%Z.
Proof.
  intro Hx. unfold nearest_even.
  pose proof (Qfloor_le x) as Hf.
  assert (Hfn : (Qfloor x <= n)%Z) by (rewrite Zle_Qle; lra).
  destruct (Qcompare_spec (x - inject_Z (Qfloor x)) (1 # 2)) as [He|Hl|Hg].
  - destruct (Z.even (Qfloor x)); [exact Hfn|].
    assert (Hlt : inject_Z (Qfloor x) < inject_Z n) by lra.
    rewrite <- Zlt_Qlt in Hlt. lia.
  - exact Hfn.
  - assert (Hlt : inject_Z (Qfloor x) < inject_Z n) by lra.
    rewrite <- Zlt_Qlt in Hlt. lia.
Qed.

Lemma nearest_even_ge (x : Q) (n : Z) : inject_Z n <= x -> (n <= nearest_even x)%Z.
Proof.
  intro Hx. unfold nearest_even.
  assert (Hfn : (n <= Qfloor x)%Z).
  { rewrite <- (Qfloor_Z n). now apply Qfloor_resp_le. }
  destruct (x - inject_Z (Qfloor x) ?= 1 # 2); [destruct (Z.even (Qfloor x))| |]; lia.
Qed.

Lemma nearest_even_Z (x : Q) (n : Z) : x == inject_Z n -> nearest_even x = n.
Proof.
  intro Hx. apply Z.le_antisymm.
  - apply nearest_even_le. lra.
  - apply nearest_even_ge. lra.
Qed.

Lemma nearest_even_comp (x y : Q) : x == y -> nearest_even x = nearest_even y.
Proof.
  intro Hxy. unfold nearest_even. rewrite (Qfloor_comp _ _ Hxy).
  assert (Hc : (x - inject_Z (Qfloor y) ?= 1 # 2) = (y - inject_Z (Qfloor y) ?= 1 # 2)).
  { now rewrite Hxy. }
  now rewrite Hc.
Qed.

(** The exponent of the unit in the last place. *)
Lemma exponent_ge (a : Q) : (-1074 <= exponent a)%Z.
Proof. unfold exponent. lia. Qed.

Lemma exponent_upper (a : Q) : 0 < a -> a < pow2 (exponent a + 53).
Proof.
  intro Ha. destruct (ilog2_spec a Ha) as [_ Hu].
  eapply Qlt_le_trans; [exact Hu|]. apply pow2_le. unfold exponent. lia.
Qed.

Lemma exponent_lower (a : Q) :
  0 < a -> (-1074 < exponent a)%Z -> pow2 (exponent a + 52) <= a.
Proof.
  intros Ha He. destruct (ilog2_spec a Ha) as [Hl _].
  replace (exponent a + 52)%Z with (ilog2 a) by (unfold exponent in *; lia).
  exact Hl.
Qed.

Lemma exponent_le (a b : Q) : 0 < a -> a <= b -> (exponent a <= exponent b)%Z.
Proof.
  intros Ha Hab. pose proof (ilog2_le a b Ha Hab). unfold exponent. lia.
Qed.

Lemma exponent_comp (a b : Q) : 0 < a -> a == b -> exponent a = exponent b.
Proof.
  intros Ha Hab. apply Z.le_antisymm; apply exponent_le; lra.
Qed.

Lemma nearest_comp (a b : Q) : 0 < a -> a == b -> nearest a == nearest b.
Proof.
  intros Ha Hab. unfold nearest. rewrite (exponent_comp a b Ha Hab).
  assert (Hq : a / pow2 (exponent b) == b / pow2 (exponent b)) by (now rewrite Hab).
  now rewrite (nearest_even_comp _ _ Hq).
Qed.

Lemma nearest_nonneg (a : Q) : 0 < a -> 0 <= nearest a.
Proof.
  intro Ha. unfold nearest. pose proof (pow2_pos (exponent a)) as Hu.
  assert (Hm : (0 <= nearest_even (a / pow2 (exponent a)))%Z).
  { apply nearest_even_ge. change (inject_Z 0) with 0.
    apply Qle_shift_div_l; [exact Hu|lra]. }
  rewrite Zle_Qle in Hm. change (inject_Z 0) with 0 in Hm. nra.
Qed.

(** What lies below a double [h] rounds to at most [h]. *)
Lemma nearest_upper (x h : Q) :
  0 < x -> x <= h -> nearest h == h -> nearest x <= h.
Proof.
  intros Hx Hxh Hh.
  pose proof (exponent_le x h Hx Hxh) as He.
  set (ex := exponent x) in *. set (eh := exponent h) in *.
  pose proof (pow2_pos ex) as Hux. pose proof (pow2_pos eh) as Huh.
  assert (Hu : pow2 eh == inject_Z (2 ^ (eh - ex)) * pow2 ex).
  { rewrite <- pow2_Z by lia. rewrite <- pow2_add. now replace (eh - ex + ex)%Z with eh by lia. }
  unfold nearest in Hh |- *. fold ex eh in Hh |- *.
  set (mh := nearest_even (h / pow2 eh)) in *.
  assert (Hhx : h / pow2 ex == inject_Z (mh * 2 ^ (eh - ex))).
  { rewrite inject_Z_mult. rewrite <- Hh at 1. rewrite Hu. field.
    intro H0. rewrite H0 in Hux. discriminate. }
  assert (Hle : (nearest_even (x / pow2 ex) <= mh * 2 ^ (eh - ex))%Z).
  { apply nearest_even_le. rewrite <- Hhx.
    apply Qle_shift_div_l; [exact Hux|].
    assert (E : x / pow2 ex * pow2 ex == x) by (field; intro H0; rewrite H0 in Hux; discriminate).
    rewrite E. exact Hxh. }
  rewrite Zle_Qle in Hle. rewrite <- Hhx in Hle.
  assert (E : h / pow2 ex * pow2 ex == h) by (field; intro H0; rewrite H0 in Hux; discriminate).
  apply Qle_trans with (h / pow2 ex * pow2 ex).
  - apply Qmult_le_compat_r; [exact Hle|lra].
  - rewrite E. apply Qle_refl.
Qed.

(** What lies above a double [l] rounds to at least [l]. *)
Lemma nearest_lower (l x : Q) :
  0 < l -> l <= x -> nearest l == l -> l <= nearest x.
Proof.
  intros Hl Hlx Hd.
  assert (Hx : 0 < x) by lra.
  pose proof (exponent_le l x Hl Hlx) as He.
  pose proof (pow2_pos (exponent x)) as Hux.
  destruct (Z.eq_dec (exponent l) (exponent x)) as [Heq|Hne].
  - unfold nearest in Hd |- *. rewrite Heq in Hd.
    set (u := pow2 (exponent x)) in *.
    set (ml := nearest_even (l / u)) in *.
    assert (Hle : (ml <= nearest_even (x / u))%Z).
    { apply nearest_even_ge.
      assert (Hm : inject_Z ml == l / u).
      { rewrite <- Hd. field. intro H0. rewrite H0 in Hux. discriminate. }
      rewrite Hm. apply Qle_shift_div_l; [exact Hux|].
      assert (E : l / u * u == l) by (field; intro H0; rewrite H0 in Hux; discriminate).
      rewrite E. exact Hlx. }
    rewrite Zle_Qle in Hle. rewrite <- Hd.
    apply Qmult_le_compat_r; [exact Hle|lra].
  - assert (Hgt : (-1074 < exponent x)%Z) by (pose proof (exponent_ge l); lia).
    pose proof (exponent_lower x Hx Hgt) as Hlow.
    pose proof (exponent_upper l Hl) as Hup.
    assert (Hstep : pow2 (exponent l + 53) <= pow2 (exponent x + 52)) by (apply pow2_le; lia).
    unfold nearest. set (u := pow2 (exponent x)) in *.
    assert (Hp : pow2 (exponent x + 52) == inject_Z (2 ^ 52) * u).
    { unfold u. rewrite <- pow2_Z by lia. rewrite <- pow2_add.
      now replace (52 + exponent x)%Z with (exponent x + 52)%Z by lia. }
    assert (Hm : (2 ^ 52 <= nearest_even (x / u))%Z).
    { apply nearest_even_ge. apply Qle_shift_div_l; [exact Hux|]. rewrite <- Hp. exact Hlow. }
    rewrite Zle_Qle in Hm.
    assert (Hy : inject_Z (2 ^ 52) * u <= inject_Z (nearest_even (x / u)) * u)
      by (apply Qmult_le_compat_r; [exact Hm|lra]).
    lra.
Qed.

End Nearest.

Section Rounding.

Import Double.
Local Open Scope Q_scope.

Lemma round_pos (q : Q) :
  0 < q ->
  round q = if Qle_bool (pow2 1024) (nearest q) then Infinite false
            else Finite (Qred (nearest q)).
Proof.
  destruct q as [[|n|n] d]; unfold Qlt; cbn [Qnum Qden]; intro Hq; try lia.
  reflexivity.
Qed.

Lemma round_neg (q : Q) :
  q < 0 ->
  round q = if Qle_bool (pow2 1024) (nearest (- q)) then Infinite true
            else Finite (Qred (- nearest (- q))).
Proof.
  destruct q as [[|n|n] d]; unfold Qlt; cbn [Qnum Qden]; intro Hq; try lia.
  reflexivity.
Qed.

Lemma round_0 (q : Q) : q == 0 -> round q = Finite 0.
Proof.
  destruct q as [[|n|n] d]; unfold Qeq; cbn [Qnum Qden]; intro Hq; try lia.
  reflexivity.
Qed.

Lemma Qle_bool_comp (a b c d : Q) : a == c -> b == d -> Qle_bool a b = Qle_bool c d.
Proof.
  intros Hac Hbd.
  destruct (Qle_bool a b) eqn:E1, (Qle_bool c d) eqn:E2; try reflexivity.
  - rewrite Qle_bool_iff in E1. rewrite Hac, Hbd in E1.
    rewrite <- Qle_bool_iff in E1. congruence.
  - rewrite Qle_bool_iff in E2. rewrite <- Hac, <- Hbd in E2.
    rewrite <- Qle_bool_iff in E2. congruence.
Qed.

Lemma round_comp (q q' : Q) : q == q' -> round q = round q'.
Proof.
  intro Hq.
  destruct (Q_dec q 0) as [[Hneg|Hpos]|Hz].
  - assert (Hneg' : q' < 0) by lra.
    rewrite (round_neg q Hneg), (round_neg q' Hneg').
    assert (Hn : nearest (- q) == nearest (- q')).
    { apply nearest_comp; lra. }
    rewrite (Qle_bool_comp _ (nearest (- q)) (pow2 1024) (nearest (- q')))
      by (reflexivity || exact Hn).
    destruct (Qle_bool (pow2 1024) (nearest (- q'))); [reflexivity|].
    f_equal. apply Qred_complete. now rewrite Hn.
  - assert (Hpos' : 0 < q') by lra.
    rewrite (round_pos q Hpos), (round_pos q' Hpos').
    assert (Hn : nearest q == nearest q') by (now apply nearest_comp).
    rewrite (Qle_bool_comp _ (nearest q) (pow2 1024) (nearest q'))
      by (reflexivity || exact Hn).
    destruct (Qle_bool (pow2 1024) (nearest q')); [reflexivity|].
    f_equal. now apply Qred_complete.
  - rewrite (round_0 q Hz), (round_0 q') by lra. reflexivity.
Qed.

(** What it is for a positive rational to be a double. *)
Lemma representable_pos (y : Q) :
  0 < y -> (representable y <-> nearest y == y /\ y < pow2 1024).
Proof.
  intro Hy. unfold representable. rewrite (round_pos y Hy).
  destruct (Qle_bool (pow2 1024) (nearest y)) eqn:E.
  - rewrite Qle_bool_iff in E. split; [discriminate|].
    intros [Hn Hlt]. lra.
  - assert (Hlt : nearest y < pow2 1024).
    { apply Qnot_le_lt. intro Hle. rewrite <- Qle_bool_iff in Hle. congruence. }
    split.
    + intro Heq.
      assert (Heq' : Qred (nearest y) = Qred y) by congruence.
      assert (Hn : nearest y == y).
      { apply Qeq_trans with (Qred (nearest y)); [symmetry; apply Qred_correct|].
        rewrite Heq'. apply Qred_correct. }
      split; [exact Hn|lra].
    + intros [Hn _]. f_equal. now apply Qred_complete.
Qed.

Lemma representable_neg (y : Q) :
  y < 0 -> (representable y <-> nearest (- y) == - y /\ - y < pow2 1024).
Proof.
  intro Hy. unfold representable. rewrite (round_neg y Hy).
  destruct (Qle_bool (pow2 1024) (nearest (- y))) eqn:E.
  - rewrite Qle_bool_iff in E. split; [discriminate|].
    intros [Hn Hlt]. lra.
  - assert (Hlt : nearest (- y) < pow2 1024).
    { apply Qnot_le_lt. intro Hle. rewrite <- Qle_bool_iff in Hle. congruence. }
    split.
    + intro Heq.
      assert (Heq' : Qred (- nearest (- y)) = Qred y) by congruence.
      assert (Hn : - nearest (- y) == y).
      { apply Qeq_trans with (Qred (- nearest (- y))); [symmetry; apply Qred_correct|].
        rewrite Heq'. apply Qred_correct. }
      split; lra.
    + intros [Hn _]. f_equal. apply Qred_complete. lra.
Qed.

Lemma representable_0 (y : Q) : y == 0 -> representable y.
Proof.
  intro Hy. unfold representable. rewrite (round_0 y Hy).
  f_equal. symmetry. change 0 with (Qred 0). now apply Qred_complete.
Qed.

Lemma representable_comp (y y' : Q) : y == y' -> representable y -> representable y'.
Proof.
  unfold representable. intros Hy Hr.
  rewrite <- (round_comp y y' Hy), Hr. f_equal. now apply Qred_complete.
Qed.

Lemma representable_opp (y : Q) : representable y -> representable (- y).
Proof.
  intro Hr. destruct (Q_dec y 0) as [[Hneg|Hpos]|Hz].
  - apply representable_neg in Hr; [|exact Hneg].
    apply representable_pos; lra.
  - apply representable_pos in Hr; [|exact Hpos].
    apply representable_neg; [lra|].
    destruct Hr as [Hn Hlt]. split; [|lra].
    assert (E : - - y == y) by lra.
    rewrite (nearest_comp (- - y) y) by lra. lra.
  - apply representable_0. lra.
Qed.

(** A value between two doubles rounds to a double between them. *)
Lemma round_between (lo x hi : Q) :
  representable lo -> representable hi -> lo <= x -> x <= hi ->
  exists y, round x = Finite y /\ lo <= y /\ y <= hi.
Proof.
  intros Hlo Hhi Hlx Hxh.
  destruct (Q_dec x 0) as [[Hneg|Hpos]|Hz].
  - assert (Hlo0 : lo < 0) by lra.
    apply representable_neg in Hlo; [|exact Hlo0]. destruct Hlo as [Hln Hlb].
    assert (Hup : nearest (- x) <= - lo).
    { apply nearest_upper; lra. }
    rewrite (round_neg x Hneg).
    replace (Qle_bool (pow2 1024) (nearest (- x))) with false.
    2:{ symmetry. apply not_true_is_false. rewrite Qle_bool_iff. lra. }
    eexists. split; [reflexivity|]. rewrite Qred_correct. split; [lra|].
    destruct (Qlt_le_dec hi 0) as [Hh0|Hh0].
    + apply representable_neg in Hhi; [|exact Hh0]. destruct Hhi as [Hhn _].
      assert (Hlow : - hi <= nearest (- x)) by (apply nearest_lower; lra).
      lra.
    + pose proof (nearest_nonneg (- x)). lra.
  - assert (Hhi0 : 0 < hi) by lra.
    apply representable_pos in Hhi; [|exact Hhi0]. destruct Hhi as [Hhn Hhb].
    assert (Hup : nearest x <= hi) by (apply nearest_upper; lra).
    rewrite (round_pos x Hpos).
    replace (Qle_bool (pow2 1024) (nearest x)) with false.
    2:{ symmetry. apply not_true_is_false. rewrite Qle_bool_iff. lra. }
    eexists. split; [reflexivity|]. rewrite Qred_correct. split; [|lra].
    destruct (Qlt_le_dec 0 lo) as [Hl0|Hl0].
    + apply representable_pos in Hlo; [|exact Hl0]. destruct Hlo as [Hln _].
      apply nearest_lower; lra.
    + pose proof (nearest_nonneg x Hpos). lra.
  - rewrite (round_0 x Hz). exists 0. split; [reflexivity|]. lra.
Qed.

(** The two sides of [round_between] on their own. *)
Lemma round_upper (x h y : Q) :
  representable h -> x <= h -> round x = Finite y -> y <= h.
Proof.
  intros Hh Hxh Hy.
  destruct (Q_dec x 0) as [[Hneg|Hpos]|Hz].
  - rewrite (round_neg x Hneg) in Hy.
    destruct (Qle_bool (pow2 1024) (nearest (- x))); [discriminate|].
    assert (Hy' : y = Qred (- nearest (- x))) by congruence.
    rewrite Hy', Qred_correct.
    destruct (Qlt_le_dec h 0) as [Hh0|Hh0].
    + apply representable_neg in Hh; [|exact Hh0]. destruct Hh as [Hhn _].
      assert (Hlow : - h <= nearest (- x)) by (apply nearest_lower; lra).
      lra.
    + assert (Hx : 0 < - x) by lra.
      pose proof (nearest_nonneg (- x) Hx). lra.
  - assert (Hh0 : 0 < h) by lra.
    apply representable_pos in Hh; [|exact Hh0]. destruct Hh as [Hhn _].
    rewrite (round_pos x Hpos) in Hy.
    destruct (Qle_bool (pow2 1024) (nearest x)); [discriminate|].
    assert (Hy' : y = Qred (nearest x)) by congruence.
    rewrite Hy', Qred_correct. apply nearest_upper; lra.
  - rewrite (round_0 x Hz) in Hy. assert (Hy' : y = 0) by congruence. subst y. lra.
Qed.

Lemma round_lower (l x y : Q) :
  representable l -> l <= x -> round x = Finite y -> l <= y.
Proof.
  intros Hl Hlx Hy.
  destruct (Q_dec x 0) as [[Hneg|Hpos]|Hz].
  - assert (Hl0 : l < 0) by lra.
    apply representable_neg in Hl; [|exact Hl0]. destruct Hl as [Hln _].
    rewrite (round_neg x Hneg) in Hy.
    destruct (Qle_bool (pow2 1024) (nearest (- x))); [discriminate|].
    assert (Hy' : y = Qred (- nearest (- x))) by congruence.
    rewrite Hy', Qred_correct.
    assert (Hup : nearest (- x) <= - l) by (apply nearest_upper; lra).
    lra.
  - rewrite (round_pos x Hpos) in Hy.
    destruct (Qle_bool (pow2 1024) (nearest x)); [discriminate|].
    assert (Hy' : y = Qred (nearest x)) by congruence.
    rewrite Hy', Qred_correct.
    destruct (Qlt_le_dec 0 l) as [Hl0|Hl0].
    + apply representable_pos in Hl; [|exact Hl0]. destruct Hl as [Hln _].
      apply nearest_lower; lra.
    + pose proof (nearest_nonneg x Hpos). lra.
  - rewrite (round_0 x Hz) in Hy. assert (Hy' : y = 0) by congruence. subst y. lra.
Qed.

End Rounding.

Section Doubles.

Import Double.
Local Open Scope Q_scope.

Lemma pow2_nonzero (e : Z) : ~ pow2 e == 0.
Proof. intro H0. pose proof (pow2_pos e) as Hp. rewrite H0 in Hp. discriminate. Qed.

(** A multiple of its own unit is left alone. *)
Lemma nearest_multiple (a : Q) (m e : Z) :
  0 < a -> a == inject_Z m * pow2 e -> (exponent a <= e)%Z -> nearest a == a.
Proof.
  intros Ha Hm He. unfold nearest.
  set (ex := exponent a) in *.
  assert (Hu : pow2 e == inject_Z (2 ^ (e - ex)) * pow2 ex).
  { rewrite <- pow2_Z by lia. rewrite <- pow2_add.
    now replace (e - ex + ex)%Z with e by lia. }
  assert (Hq : a / pow2 ex == inject_Z (m * 2 ^ (e - ex))).
  { rewrite inject_Z_mult, Hm, Hu. field. apply pow2_nonzero. }
  rewrite (nearest_even_Z _ _ Hq), <- Hq. field. apply pow2_nonzero.
Qed.

Lemma nearest_dyadic (m e : Z) :
  (0 < m < 2 ^ 53)%Z -> (-1074 <= e)%Z ->
  nearest (inject_Z m * pow2 e) == inject_Z m * pow2 e.
Proof.
  intros [Hm0 Hm1] He.
  pose proof (pow2_pos e) as Hp.
  assert (Hm0' : 0 < inject_Z m) by (change 0 with (inject_Z 0); rewrite <- Zlt_Qlt; lia).
  assert (Hm1' : inject_Z m < inject_Z (2 ^ 53)) by (rewrite <- Zlt_Qlt; lia).
  assert (Ha : 0 < inject_Z m * pow2 e) by nra.
  apply (nearest_multiple _ m e Ha); [reflexivity|].
  destruct (ilog2_spec _ Ha) as [Hl _].
  assert (Hlt : pow2 (ilog2 (inject_Z m * pow2 e)) < pow2 (53 + e)).
  { eapply Qle_lt_trans; [exact Hl|].
    rewrite pow2_add, (pow2_Z 53) by lia. nra. }
  apply pow2_lt_inv in Hlt. unfold exponent. lia.
Qed.

(** The rounding of a positive rational is a multiple of a unit that the
    format has, by a whole number of at most 53 bits. *)
Lemma nearest_shape (a : Q) :
  0 < a ->
  exists m, (0 <= m <= 2 ^ 53)%Z /\ nearest a == inject_Z m * pow2 (exponent a).
Proof.
  intro Ha. exists (nearest_even (a / pow2 (exponent a))).
  split; [|reflexivity].
  pose proof (pow2_pos (exponent a)) as Hu.
  split.
  - apply nearest_even_ge. change (inject_Z 0) with 0.
    apply Qle_shift_div_l; [exact Hu|lra].
  - apply nearest_even_le. apply Qle_shift_div_r; [exact Hu|].
    pose proof (exponent_upper a Ha) as Hup.
    rewrite <- (pow2_Z 53) by lia. rewrite <- pow2_add.
    replace (53 + exponent a)%Z with (exponent a + 53)%Z by lia. lra.
Qed.

Lemma nearest_idem (a : Q) : 0 < a -> 0 < nearest a -> nearest (nearest a) == nearest a.
Proof.
  intros Ha Hn. destruct (nearest_shape a Ha) as (m & [Hm0 Hm1] & Hm).
  pose proof (exponent_ge a) as He.
  assert (Hm0' : (0 < m)%Z).
  { destruct (Z.eq_dec m 0) as [->|]; [|lia].
    rewrite Hm in Hn. change (inject_Z 0) with 0 in Hn. lra. }
  destruct (Z.eq_dec m (2 ^ 53)) as [Htop|Hlow].
  - assert (Hm' : nearest a == inject_Z (2 ^ 52) * pow2 (exponent a + 1)).
    { rewrite Hm, Htop, pow2_succ.
      change (inject_Z (2 ^ 53)) with (2 * inject_Z (2 ^ 52)). ring. }
    rewrite (nearest_comp _ _ Hn Hm'), Hm'.
    apply nearest_dyadic; lia.
  - rewrite (nearest_comp _ _ Hn Hm), Hm. apply nearest_dyadic; lia.
Qed.

(** What [round] gives is a double. *)
Lemma round_representable (q y : Q) : round q = Finite y -> representable y.
Proof.
  intro Hr. destruct (Q_dec q 0) as [[Hneg|Hpos]|Hz].
  - rewrite (round_neg q Hneg) in Hr.
    destruct (Qle_bool (pow2 1024) (nearest (- q))) eqn:E; [discriminate|].
    assert (Hy : y = Qred (- nearest (- q))) by congruence. subst y. clear Hr.
    assert (Hlt : nearest (- q) < pow2 1024).
    { apply Qnot_le_lt. intro Hle. rewrite <- Qle_bool_iff in Hle. congruence. }
    assert (Hq : 0 < - q) by lra.
    pose proof (nearest_nonneg (- q) Hq) as Hnn.
    apply (representable_comp (- nearest (- q))); [symmetry; apply Qred_correct|].
    apply representable_opp.
    destruct (Qle_lt_or_eq _ _ Hnn) as [Hp|Hz].
    + apply representable_pos; [exact Hp|]. split; [|exact Hlt].
      now apply nearest_idem.
    + apply representable_0. lra.
  - rewrite (round_pos q Hpos) in Hr.
    destruct (Qle_bool (pow2 1024) (nearest q)) eqn:E; [discriminate|].
    assert (Hy : y = Qred (nearest q)) by congruence. subst y. clear Hr.
    assert (Hlt : nearest q < pow2 1024).
    { apply Qnot_le_lt. intro Hle. rewrite <- Qle_bool_iff in Hle. congruence. }
    pose proof (nearest_nonneg q Hpos) as Hnn.
    apply (representable_comp (nearest q)); [symmetry; apply Qred_correct|].
    destruct (Qle_lt_or_eq _ _ Hnn) as [Hp|Hz].
    + apply representable_pos; [exact Hp|]. split; [|exact Hlt].
      now apply nearest_idem.
    + apply representable_0. lra.
  - rewrite (round_0 q Hz) in Hr.
    assert (Hy : y = 0) by congruence. subst y. now apply representable_0.
Qed.

Lemma round_of_representable (y : Q) :
  representable y -> exists y', round y = Finite y' /\ y' == y.
Proof. intro Hr. exists (Qred y). split; [exact Hr|apply Qred_correct]. Qed.

(** Whole numbers of at most 53 bits are doubles. *)
Lemma representable_integer (z : Z) : (Z.abs z <= 2 ^ 53)%Z -> representable (inject_Z z).
Proof.
  assert (Hpos : forall n, (0 < n <= 2 ^ 53)%Z -> representable (inject_Z n)).
  { intros n [Hn0 Hn1].
    assert (Hq : 0 < inject_Z n) by (change 0 with (inject_Z 0); rewrite <- Zlt_Qlt; lia).
    apply representable_pos; [exact Hq|]. split.
    - destruct (Z.eq_dec n (2 ^ 53)) as [->|Hlow].
      + assert (E : inject_Z (2 ^ 53) == inject_Z (2 ^ 52) * pow2 1) by reflexivity.
        apply Qeq_trans with (nearest (inject_Z (2 ^ 52) * pow2 1));
          [now apply nearest_comp|].
        apply Qeq_trans with (inject_Z (2 ^ 52) * pow2 1);
          [apply nearest_dyadic; lia|symmetry; exact E].
      + assert (E : inject_Z n == inject_Z n * pow2 0) by (unfold pow2; simpl; ring).
        apply Qeq_trans with (nearest (inject_Z n * pow2 0));
          [now apply nearest_comp|].
        apply Qeq_trans with (inject_Z n * pow2 0);
          [apply nearest_dyadic; lia|symmetry; exact E].
    - rewrite (pow2_Z 1024) by lia. rewrite <- Zlt_Qlt.
      apply Z.le_lt_trans with (2 ^ 53)%Z; [exact Hn1|].
      apply Z.pow_lt_mono_r; lia. }
  intro Hz. destruct (Z.lt_trichotomy z 0) as [Hneg|[->|Hp]].
  - apply (representable_comp (- inject_Z (- z))).
    + rewrite inject_Z_opp. ring.
    + apply representable_opp, Hpos. lia.
  - now apply representable_0.
  - apply Hpos. lia.
Qed.

Lemma round_integer (z : Z) :
  (Z.abs z <= 2 ^ 53)%Z -> round (inject_Z z) = Finite (inject_Z z).
Proof.
  intro Hz. rewrite (representable_integer z Hz). f_equal.
  apply Qcanon.Qred_identity. cbn [inject_Z Qnum Qden]. apply Z.gcd_1_r.
Qed.

(** A double is a whole multiple of the least positive one. *)
Lemma representable_grid (y : Q) :
  representable y -> exists m, y == inject_Z m * pow2 (-1074).
Proof.
  assert (Hpos : forall a, 0 < a -> nearest a == a ->
                           exists m, a == inject_Z m * pow2 (-1074)).
  { intros a Ha Hn. destruct (nearest_shape a Ha) as (m & _ & Hm).
    pose proof (exponent_ge a) as He.
    exists (m * 2 ^ (exponent a + 1074))%Z.
    apply Qeq_trans with (nearest a); [symmetry; exact Hn|].
    apply Qeq_trans with (inject_Z m * pow2 (exponent a)); [exact Hm|].
    rewrite inject_Z_mult, <- (pow2_Z (exponent a + 1074)) by lia.
    rewrite <- Qmult_assoc, <- pow2_add.
    now replace (exponent a + 1074 + -1074)%Z with (exponent a) by lia. }
  intro Hr. destruct (Q_dec y 0) as [[Hneg|Hp]|Hz].
  - apply representable_neg in Hr; [|exact Hneg]. destruct Hr as [Hn _].
    destruct (Hpos (- y)) as (m & Hm); [lra|exact Hn|].
    exists (- m)%Z. rewrite inject_Z_opp. lra.
  - apply representable_pos in Hr; [|exact Hp]. destruct Hr as [Hn _].
    now apply Hpos.
  - exists 0%Z. rewrite Hz. change (inject_Z 0) with 0. ring.
Qed.

(** Scaling a double of the normal range by a factor of at most
    [1 - 2^-53] gives a smaller double. *)
Lemma nearest_below (x d : Q) :
  0 < x -> nearest d == d -> pow2 (-1021) <= d ->
  x <= d - d * pow2 (-53) -> nearest x < d.
Proof.
  intros Hx Hd Hnormal Hxd.
  pose proof (pow2_pos (-1021)) as Hp1021.
  pose proof (pow2_pos (-53)) as Hp53.
  assert (Hd0 : 0 < d) by lra.
  assert (Hlt : x < d) by nra.
  apply Qnot_le_lt. intro Hge.
  pose proof (exponent_le x d Hx (Qlt_le_weak _ _ Hlt)) as He.
  set (ex := exponent x) in *. set (ed := exponent d) in *.
  pose proof (pow2_pos ex) as Hux.
  assert (Hu : pow2 ed == inject_Z (2 ^ (ed - ex)) * pow2 ex).
  { rewrite <- pow2_Z by lia. rewrite <- pow2_add.
    now replace (ed - ex + ex)%Z with ed by lia. }
  unfold nearest in Hd, Hge. fold ex ed in Hd, Hge.
  set (md := nearest_even (d / pow2 ed)) in *.
  set (mx := nearest_even (x / pow2 ex)) in *.
  assert (Hdk : d == inject_Z (md * 2 ^ (ed - ex)) * pow2 ex).
  { rewrite inject_Z_mult, <- Qmult_assoc, <- Hu. symmetry. exact Hd. }
  assert (Hk : (md * 2 ^ (ed - ex) <= mx)%Z).
  { rewrite Zle_Qle. apply Qmult_le_r with (pow2 ex); [exact Hux|].
    rewrite <- Hdk. exact Hge. }
  destruct (nearest_even_near (x / pow2 ex)) as [Hnear _]. fold mx in Hnear.
  rewrite Zle_Qle in Hk.
  assert (Hxu : x == x / pow2 ex * pow2 ex) by (field; apply pow2_nonzero).
  assert (Hclose : d - pow2 ex * (1 # 2) <= x).
  { set (X := x / pow2 ex) in *. set (K := inject_Z (md * 2 ^ (ed - ex))) in *.
    set (M := inject_Z mx) in *. set (u := pow2 ex) in *.
    assert (H1 : 0 <= (X - M + (1 # 2)) * u) by (apply Qmult_le_0_compat; lra).
    assert (H2 : 0 <= (M - K) * u) by (apply Qmult_le_0_compat; lra).
    lra. }
  assert (Hsmall : d <= pow2 (ex + 52)).
  { rewrite pow2_add.
    assert (E : pow2 (-53) * pow2 52 * 2 == 1) by reflexivity.
    set (s := pow2 52) in *. set (h := pow2 (-53)) in *.
    assert (Hs : 0 < s) by apply pow2_pos.
    assert (Hdh : d * h <= pow2 ex * (1 # 2)) by lra.
    assert (Hfin : d * h * (s * 2) <= pow2 ex * (1 # 2) * (s * 2)).
    { apply Qmult_le_compat_r; [exact Hdh|lra]. }
    assert (E1 : d * h * (s * 2) == d) by (rewrite <- (Qmult_1_r d) at 2; rewrite <- E; ring).
    assert (E2 : pow2 ex * (1 # 2) * (s * 2) == pow2 ex * s) by ring.
    rewrite E1, E2 in Hfin. exact Hfin. }
  destruct (Z.eq_dec ex (-1074)) as [Hmin|Hnorm].
  - rewrite Hmin in Hsmall. change (-1074 + 52)%Z with (-1022)%Z in Hsmall.
    pose proof (pow2_lt (-1022) (-1021) ltac:(lia)). lra.
  - pose proof (exponent_ge x) as Hge'. fold ex in Hge'.
    pose proof (exponent_lower x Hx) as Hlow. fold ex in Hlow.
    specialize (Hlow ltac:(lia)). lra.
Qed.

(** The product of a draw of [Math.random()] and a double of the normal
    range stays below that double. *)
Lemma mul_draw_below (r d : Q) :
  0 <= r /\ r <= 1 - pow2 (-53) ->
  representable d -> pow2 (-1021) <= d ->
  exists p, round (r * d) = Finite p /\ 0 <= p /\ p < d.
Proof.
  intros [Hr0 Hr1] Hd Hnormal.
  pose proof (pow2_pos (-1021)) as Hp. pose proof (pow2_pos (-53)) as Hp53.
  assert (Hd0 : 0 < d) by lra.
  apply (representable_pos d Hd0) in Hd. destruct Hd as [Hn Hfin].
  destruct (Qle_lt_or_eq _ _ Hr0) as [Hpos|Hzero].
  - assert (Hx : 0 < r * d) by nra.
    assert (Hlt : nearest (r * d) < d).
    { apply nearest_below; [exact Hx|exact Hn|exact Hnormal|]. nra. }
    rewrite (round_pos _ Hx).
    replace (Qle_bool (pow2 1024) (nearest (r * d))) with false.
    2:{ symmetry. apply not_true_is_false. rewrite Qle_bool_iff. lra. }
    eexists. split; [reflexivity|]. rewrite Qred_correct.
    pose proof (nearest_nonneg _ Hx). lra.
  - exists 0. split; [|lra]. apply round_0. rewrite <- Hzero. ring.
Qed.

End Doubles.

Section Integers.

Import Double.
Local Open Scope Q_scope.

Lemma exponent_of_range (a : Q) (l : Z) :
  pow2 l <= a -> a < pow2 (l + 1) -> (-1022 <= l)%Z -> exponent a = (l - 52)%Z.
Proof.
  intros Hl Hu Hn. unfold exponent. rewrite (ilog2_unique a l Hl Hu). lia.
Qed.

(** A whole number within half a unit of [x] is the nearest one. *)
Lemma nearest_even_close (x : Q) (n : Z) :
  inject_Z n - (1 # 2) < x -> x < inject_Z n + (1 # 2) -> nearest_even x = n.
Proof.
  intros Hlo Hhi. destruct (nearest_even_near x) as [Hn1 Hn2].
  assert (H1 : inject_Z (nearest_even x) < inject_Z (n + 1)).
  { rewrite inject_Z_plus. change (inject_Z 1) with 1. lra. }
  assert (H2 : inject_Z (n - 1) < inject_Z (nearest_even x)).
  { unfold Z.sub. rewrite inject_Z_plus. change (inject_Z (- (1))) with (- (1)). lra. }
  rewrite <- Zlt_Qlt in H1, H2. lia.
Qed.

(** Half-way between two whole numbers, the even one is taken. *)
Lemma nearest_even_half (k : Z) :
  nearest_even (inject_Z k + (1 # 2))
  = if Z.even k then k else (k + 1)%Z.
Proof.
  unfold nearest_even.
  assert (Hf : Qfloor (inject_Z k + (1 # 2)) = k).
  { pose proof (Qfloor_le (inject_Z k + (1 # 2))) as H1.
    pose proof (Qlt_floor (inject_Z k + (1 # 2))) as H2.
    set (f := Qfloor (inject_Z k + (1 # 2))) in *.
    rewrite inject_Z_plus in H2. change (inject_Z 1) with 1 in H2.
    assert (Ha : inject_Z f < inject_Z (k + 1)).
    { rewrite inject_Z_plus. change (inject_Z 1) with 1. lra. }
    assert (Hb : inject_Z (k - 1) < inject_Z f).
    { unfold Z.sub. rewrite inject_Z_plus. change (inject_Z (- (1))) with (- (1)). lra. }
    rewrite <- Zlt_Qlt in Ha, Hb. lia. }
  rewrite Hf.
  assert (Hc : (inject_Z k + (1 # 2) - inject_Z k ?= 1 # 2) = Eq).
  { apply Qeq_alt. ring. }
  now rewrite Hc.
Qed.

(** The shape of a double of the normal range: 53 bits, the first one
    set. *)
Lemma normal_form (d : Q) :
  0 < d -> nearest d == d -> (-1074 < exponent d)%Z ->
  exists m, (2 ^ 52 <= m < 2 ^ 53)%Z /\ d == inject_Z m * pow2 (exponent d).
Proof.
  intros Hd Hn He.
  destruct (nearest_shape d Hd) as (m & [Hm0 Hm1] & Hm).
  pose proof (exponent_lower d Hd He) as Hlow.
  pose proof (exponent_upper d Hd) as Hup.
  pose proof (pow2_pos (exponent d)) as Hu.
  assert (Hdm : d == inject_Z m * pow2 (exponent d)).
  { apply Qeq_trans with (nearest d); [symmetry; exact Hn|exact Hm]. }
  exists m. split; [|exact Hdm].
  replace (exponent d + 52)%Z with (52 + exponent d)%Z in Hlow by lia.
  replace (exponent d + 53)%Z with (53 + exponent d)%Z in Hup by lia.
  rewrite pow2_add, (pow2_Z 52) in Hlow by lia.
  rewrite pow2_add, (pow2_Z 53) in Hup by lia.
  set (u := pow2 (exponent d)) in *.
  split.
  - rewrite Zle_Qle. apply Qmult_le_r with u; [exact Hu|lra].
  - rewrite Zlt_Qlt. apply Qmult_lt_r with u; [exact Hu|lra].
Qed.

Lemma round_pos_inv (q y : Q) :
  0 < q -> round q = Finite y -> y == nearest q /\ nearest q < pow2 1024.
Proof.
  intros Hq Hy. rewrite (round_pos q Hq) in Hy.
  destruct (Qle_bool (pow2 1024) (nearest q)) eqn:E; [discriminate|].
  assert (Hy' : y = Qred (nearest q)) by congruence.
  split; [rewrite Hy'; apply Qred_correct|].
  apply Qnot_le_lt. intro Hle. rewrite <- Qle_bool_iff in Hle. congruence.
Qed.

Lemma round_pos_finite (q : Q) :
  0 < q -> nearest q < pow2 1024 -> round q = Finite (Qred (nearest q)).
Proof.
  intros Hq Hlt. rewrite (round_pos q Hq).
  replace (Qle_bool (pow2 1024) (nearest q)) with false; [reflexivity|].
  symmetry. apply not_true_is_false. rewrite Qle_bool_iff. lra.
Qed.

(** Less than half a unit added to a double of the normal range is lost
    in the rounding. *)
Lemma nearest_add_small (m e : Z) (x : Q) :
  (2 ^ 52 <= m < 2 ^ 53)%Z -> (-1074 <= e)%Z ->
  0 <= x -> x < pow2 e * (1 # 2) ->
  nearest (inject_Z m * pow2 e + x) == inject_Z m * pow2 e.
Proof.
  intros [Hm0 Hm1] He Hx0 Hx1.
  pose proof (pow2_pos e) as Hu.
  assert (Hm0' : inject_Z (2 ^ 52) <= inject_Z m) by (rewrite <- Zle_Qle; lia).
  assert (Hm1' : inject_Z m + 1 <= inject_Z (2 ^ 53)).
  { change 1 with (inject_Z 1). rewrite <- inject_Z_plus, <- Zle_Qle. lia. }
  set (a := inject_Z m * pow2 e + x).
  assert (Hlo : pow2 (52 + e) <= a).
  { rewrite pow2_add, (pow2_Z 52) by lia. unfold a.
    assert (inject_Z (2 ^ 52) * pow2 e <= inject_Z m * pow2 e)
      by (apply Qmult_le_compat_r; lra).
    lra. }
  assert (Hhi : a < pow2 (52 + e + 1)).
  { replace (52 + e + 1)%Z with (53 + e)%Z by lia.
    rewrite pow2_add, (pow2_Z 53) by lia. unfold a.
    assert ((inject_Z m + 1) * pow2 e <= inject_Z (2 ^ 53) * pow2 e)
      by (apply Qmult_le_compat_r; lra).
    lra. }
  assert (Hex : exponent a = e).
  { rewrite (exponent_of_range a (52 + e) Hlo Hhi) by lia. lia. }
  unfold nearest. rewrite Hex.
  assert (Hq : a / pow2 e == inject_Z m + x / pow2 e).
  { unfold a. field. apply pow2_nonzero. }
  assert (Hfrac0 : 0 <= x / pow2 e) by (apply Qle_shift_div_l; lra).
  assert (Hfrac1 : x / pow2 e < 1 # 2) by (apply Qlt_shift_div_r; lra).
  rewrite (nearest_even_close (a / pow2 e) m) by lra.
  reflexivity.
Qed.

(** An odd whole number of 54 bits lies half-way between two doubles. *)
Lemma nearest_odd (m : Z) :
  (2 ^ 52 <= m < 2 ^ 53)%Z ->
  nearest (inject_Z (2 * m + 1))
  == inject_Z (2 * (if Z.even m then m else m + 1)).
Proof.
  intros [Hm0 Hm1].
  set (a := inject_Z (2 * m + 1)).
  assert (Hlo : pow2 53 <= a).
  { rewrite (pow2_Z 53) by lia. unfold a. rewrite <- Zle_Qle. lia. }
  assert (Hhi : a < pow2 (53 + 1)).
  { rewrite (pow2_Z (53 + 1)) by lia. unfold a. rewrite <- Zlt_Qlt.
    change (2 ^ (53 + 1))%Z with (2 * 2 ^ 53)%Z. lia. }
  assert (Hex : exponent a = 1%Z).
  { rewrite (exponent_of_range a 53 Hlo Hhi) by lia. reflexivity. }
  unfold nearest. rewrite Hex.
  assert (Hq : a / pow2 1 == inject_Z m + (1 # 2)).
  { unfold a. rewrite inject_Z_plus, inject_Z_mult.
    change (pow2 1) with 2. change (inject_Z 2) with 2. change (inject_Z 1) with 1.
    field. }
  rewrite (nearest_even_comp _ _ Hq), nearest_even_half.
  rewrite inject_Z_mult. change (pow2 1) with 2. change (inject_Z 2) with 2. ring.
Qed.

(** A double from 2^53 on is an even whole number. *)
Lemma representable_even (y : Q) :
  representable y -> pow2 53 <= y -> exists j, y == inject_Z (2 * j).
Proof.
  intros Hy Hbig.
  pose proof (pow2_pos 53) as Hp.
  assert (Hy0 : 0 < y) by lra.
  apply (representable_pos y Hy0) in Hy. destruct Hy as [Hn _].
  assert (He : (1 <= exponent y)%Z).
  { destruct (ilog2_spec y Hy0) as [_ Hu].
    assert (Hlt : pow2 53 < pow2 (ilog2 y + 1)) by lra.
    apply pow2_lt_inv in Hlt. unfold exponent. lia. }
  destruct (nearest_shape y Hy0) as (m & _ & Hm).
  exists (m * 2 ^ (exponent y - 1))%Z.
  apply Qeq_trans with (nearest y); [symmetry; exact Hn|].
  apply Qeq_trans with (inject_Z m * pow2 (exponent y)); [exact Hm|].
  rewrite !inject_Z_mult, <- (pow2_Z (exponent y - 1)) by lia.
  replace (exponent y) with (1 + (exponent y - 1))%Z at 1 by lia.
  rewrite pow2_add. change (pow2 1) with 2. change (inject_Z 2) with 2. ring.
Qed.

(** The rounding of a whole number is a whole number. *)
Lemma round_whole (z : Z) (y : Q) :
  round (inject_Z z) = Finite y -> exists z', y = inject_Z z'.
Proof.
  intro Hy.
  assert (Hcanon : forall q n, q == inject_Z n -> Qred q = inject_Z n).
  { intros q n Hq. rewrite (Qred_complete _ _ Hq).
    apply Qcanon.Qred_identity. cbn [inject_Z Qnum Qden]. apply Z.gcd_1_r. }
  assert (Hpos : forall n, (2 ^ 53 < n)%Z ->
                           exists n', nearest (inject_Z n) == inject_Z n').
  { intros n Hn.
    assert (Hq : 0 < inject_Z n) by (change 0 with (inject_Z 0); rewrite <- Zlt_Qlt; lia).
    assert (He : (0 <= exponent (inject_Z n))%Z).
    { destruct (ilog2_spec _ Hq) as [_ Hu].
      assert (Hlt : pow2 53 < pow2 (ilog2 (inject_Z n) + 1)).
      { eapply Qle_lt_trans; [|exact Hu]. rewrite (pow2_Z 53) by lia.
        rewrite <- Zle_Qle. lia. }
      apply pow2_lt_inv in Hlt. unfold exponent. lia. }
    destruct (nearest_shape _ Hq) as (m & _ & Hm).
    exists (m * 2 ^ exponent (inject_Z n))%Z.
    rewrite Hm, inject_Z_mult, <- (pow2_Z (exponent (inject_Z n))) by lia.
    reflexivity. }
  destruct (Z_le_gt_dec (Z.abs z) (2 ^ 53)) as [Hsmall|Hlarge].
  - rewrite (round_integer z Hsmall) in Hy. exists z. congruence.
  - destruct (Z_le_gt_dec 0 z) as [Hp|Hn].
    + destruct (Hpos z ltac:(lia)) as (n' & Hn').
      assert (Hq : 0 < inject_Z z) by (change 0 with (inject_Z 0); rewrite <- Zlt_Qlt; lia).
      rewrite (round_pos _ Hq) in Hy.
      destruct (Qle_bool (pow2 1024) (nearest (inject_Z z))); [discriminate|].
      exists n'. rewrite <- (Hcanon _ _ Hn'). congruence.
    + destruct (Hpos (- z)%Z ltac:(lia)) as (n' & Hn').
      assert (Hq : inject_Z z < 0) by (change 0 with (inject_Z 0); rewrite <- Zlt_Qlt; lia).
      rewrite (round_neg _ Hq) in Hy.
      assert (E : - inject_Z z == inject_Z (- z)) by (now rewrite inject_Z_opp).
      assert (Hq' : 0 < - inject_Z z) by lra.
      pose proof (nearest_comp _ _ Hq' E) as Hnc.
      destruct (Qle_bool (pow2 1024) (nearest (- inject_Z z))); [discriminate|].
      exists (- n')%Z.
      assert (Hval : - nearest (- inject_Z z) == inject_Z (- n')).
      { rewrite inject_Z_opp, <- Hn', Hnc. reflexivity. }
      rewrite <- (Hcanon _ _ Hval). congruence.
Qed.

(** [Math.floor(r * (s + 1))] with [s + 1] computed in doubles: the
    rounding of [s], and of the sum, never lets the result pass [s]. *)
Lemma floor_draw_within (r : Q) (s : Z) (d : Q) :
  0 <= r /\ r <= 1 - pow2 (-53) -> (0 <= s)%Z ->
  round (inject_Z s) = Finite d ->
  exists n y, round (d + 1) = Finite n /\ round (r * n) = Finite y
              /\ (0 <= Qfloor y <= s)%Z.
Proof.
  intros Hr Hs Hd.
  assert (Hdraw : forall n, representable n -> 1 <= n ->
                            exists y, round (r * n) = Finite y /\ 0 <= y /\ y < n).
  { intros n Hn Hone. apply mul_draw_below; [exact Hr|exact Hn|].
    pose proof (pow2_le (-1021) 0 ltac:(lia)) as Hle.
    change (pow2 0) with 1 in Hle. lra. }
  assert (Hfloor : forall y, 0 <= y -> y <= inject_Z s -> (0 <= Qfloor y <= s)%Z).
  { intros y Hy0 Hy1. split.
    - change 0%Z with (Qfloor 0). now apply Qfloor_resp_le.
    - rewrite <- (Qfloor_Z s). now apply Qfloor_resp_le. }
  destruct (Z_lt_le_dec s (2 ^ 53)) as [Hsmall|Hbig].
  - (* the span and its successor are computed exactly *)
    rewrite round_integer in Hd by lia.
    assert (Hd' : d = inject_Z s) by congruence. subst d.
    assert (Hn : round (inject_Z s + 1) = Finite (inject_Z (s + 1))).
    { change 1 with (inject_Z 1). rewrite <- inject_Z_plus. apply round_integer. lia. }
    assert (Hone : 1 <= inject_Z (s + 1)).
    { change 1 with (inject_Z 1). rewrite <- Zle_Qle. lia. }
    destruct (Hdraw _ (representable_integer (s + 1) ltac:(lia)) Hone)
      as (y & Hy & Hy0 & Hy1).
    exists (inject_Z (s + 1)), y. split; [exact Hn|]. split; [exact Hy|].
    split.
    + change 0%Z with (Qfloor 0). now apply Qfloor_resp_le.
    + pose proof (Qfloor_le y) as Hf.
      assert (Hlt : inject_Z (Qfloor y) < inject_Z (s + 1)) by lra.
      rewrite <- Zlt_Qlt in Hlt. lia.
  - (* from 2^53 on the doubles are even whole numbers *)
    assert (Hs53 : pow2 53 <= inject_Z s).
    { rewrite (pow2_Z 53) by lia. now rewrite <- Zle_Qle. }
    assert (Hs0 : 0 < inject_Z s) by (pose proof (pow2_pos 53); lra).
    assert (Htop : representable (pow2 53)).
    { apply (representable_comp (inject_Z (2 ^ 53))); [now rewrite pow2_Z by lia|].
      apply representable_integer. reflexivity. }
    pose proof (round_lower _ _ _ Htop Hs53 Hd) as Hd53.
    pose proof (round_representable _ _ Hd) as Hdr.
    pose proof (pow2_pos 53) as Hp53.
    assert (Hd0 : 0 < d) by lra.
    pose proof Hdr as Hdr'. apply (representable_pos d Hd0) in Hdr'.
    destruct Hdr' as [Hdn Hdfin].
    assert (He : (1 <= exponent d)%Z).
    { destruct (ilog2_spec d Hd0) as [_ Hu].
      assert (Hlt : pow2 53 < pow2 (ilog2 d + 1)) by lra.
      apply pow2_lt_inv in Hlt. unfold exponent. lia. }
    destruct (normal_form d Hd0 Hdn ltac:(lia)) as (m & [Hm0 Hm1] & Hdm).
    set (e := exponent d) in *.
    pose proof (pow2_pos e) as Hu.
    (* what [d + 1] is rounded to: [d], or the double after it *)
    assert (Hnext : exists n, round (d + 1) = Finite n
                              /\ (n == d
                                  \/ (e = 1%Z /\ Z.even m = false
                                      /\ n == inject_Z (2 * m + 2)))).
    { assert (Hd1 : 0 < d + 1) by lra.
      destruct (Z_le_gt_dec 2 e) as [Hwide|Hnarrow].
      - assert (Hnear : nearest (d + 1) == d).
        { assert (E : d + 1 == inject_Z m * pow2 e + 1) by (rewrite <- Hdm; reflexivity).
          apply Qeq_trans with (nearest (inject_Z m * pow2 e + 1));
            [now apply nearest_comp|].
          apply Qeq_trans with (inject_Z m * pow2 e); [|symmetry; exact Hdm].
          apply nearest_add_small; [lia|lia|lra|].
          pose proof (pow2_le 2 e Hwide) as Hle. change (pow2 2) with 4 in Hle. lra. }
        exists (Qred (nearest (d + 1))). split.
        + apply round_pos_finite; [exact Hd1|lra].
        + left. now rewrite Qred_correct.
      - assert (He1 : e = 1%Z) by lia.
        assert (Hd2 : d == inject_Z (2 * m)).
        { rewrite Hdm, He1, inject_Z_mult. change (pow2 1) with 2.
          change (inject_Z 2) with 2. ring. }
        assert (Hnear : nearest (d + 1)
                        == inject_Z (2 * (if Z.even m then m else m + 1))).
        { assert (E : d + 1 == inject_Z (2 * m + 1)).
          { rewrite Hd2, inject_Z_plus. reflexivity. }
          apply Qeq_trans with (nearest (inject_Z (2 * m + 1)));
            [now apply nearest_comp|].
          apply nearest_odd. lia. }
        assert (Hfin : nearest (d + 1) < pow2 1024).
        { rewrite Hnear, (pow2_Z 1024) by lia. rewrite <- Zlt_Qlt.
          apply Z.le_lt_trans with (2 ^ 54)%Z.
          - change (2 ^ 54)%Z with (2 * 2 ^ 53)%Z. destruct (Z.even m); lia.
          - apply Z.pow_lt_mono_r; lia. }
        exists (Qred (nearest (d + 1))). split.
        + now apply round_pos_finite.
        + rewrite Qred_correct, Hnear. destruct (Z.even m) eqn:Hev.
          * left. symmetry. exact Hd2.
          * right. split; [exact He1|]. split; [reflexivity|].
            now replace (2 * (m + 1))%Z with (2 * m + 2)%Z by lia. }
    destruct Hnext as (n & Hn & Hshape).
    pose proof (round_representable _ _ Hn) as Hnr.
    assert (Hnd : d <= n).
    { destruct Hshape as [E|(He1 & _ & E)]; [lra|].
      rewrite E. assert (Hd2 : d == inject_Z (2 * m)).
      { rewrite Hdm, He1, inject_Z_mult. change (pow2 1) with 2.
        change (inject_Z 2) with 2. ring. }
      rewrite Hd2, <- Zle_Qle. lia. }
    assert (Hone : 1 <= n).
    { assert (1 <= pow2 53) by (rewrite (pow2_Z 53) by lia; discriminate). lra. }
    destruct (Hdraw n Hnr Hone) as (y & Hy & Hy0 & Hy1).
    exists n, y. split; [exact Hn|]. split; [exact Hy|].
    apply Hfloor; [exact Hy0|].
    apply Qnot_lt_le. intro Hover.
    pose proof (round_representable _ _ Hy) as Hyr.
    pose proof (round_upper _ _ _ Hyr (Qlt_le_weak _ _ Hover) Hd) as Hdy.
    destruct Hshape as [E|(He1 & Hodd & E)]; [lra|].
    (* [d = 2m] with [m] odd, and [y] is a double from [d] to below [d + 2] *)
    assert (Hd2 : d == inject_Z (2 * m)).
    { rewrite Hdm, He1, inject_Z_mult. change (pow2 1) with 2.
      change (inject_Z 2) with 2. ring. }
    destruct (representable_even y Hyr ltac:(lra)) as (j & Hj).
    assert (Hjm : j = m).
    { assert (H1 : inject_Z (2 * m) <= inject_Z (2 * j)) by lra.
      assert (H2 : inject_Z (2 * j) < inject_Z (2 * m + 2)) by lra.
      rewrite <- Zle_Qle in H1. rewrite <- Zlt_Qlt in H2. lia. }
    subst j.
    assert (Hsd : (s < 2 * m)%Z) by (rewrite Zlt_Qlt; lra).
    destruct (round_pos_inv _ _ Hs0 Hd) as [Hds _].
    destruct (Z.even s) eqn:Hparity.
    + apply Z.even_spec in Hparity. destruct Hparity as (k & Hk).
      assert (Hrep : nearest (inject_Z s) == inject_Z s).
      { assert (E' : inject_Z s == inject_Z k * pow2 1).
        { rewrite Hk, inject_Z_mult. change (pow2 1) with 2.
          change (inject_Z 2) with 2. ring. }
        apply Qeq_trans with (nearest (inject_Z k * pow2 1));
          [now apply nearest_comp|].
        apply Qeq_trans with (inject_Z k * pow2 1); [|symmetry; exact E'].
        apply nearest_dyadic; lia. }
      assert (Heq : inject_Z (2 * m) == inject_Z s) by lra.
      rewrite inject_Z_injective in Heq. lia.
    + assert (Hoddness : Z.odd s = true) by (rewrite <- Z.negb_even, Hparity; reflexivity).
      apply Z.odd_spec in Hoddness. destruct Hoddness as (k & Hk).
      assert (Hnear : nearest (inject_Z s)
                      == inject_Z (2 * (if Z.even k then k else k + 1))).
      { rewrite Hk. apply nearest_odd. lia. }
      assert (Heq : inject_Z (2 * m)
                    == inject_Z (2 * (if Z.even k then k else k + 1))) by lra.
      rewrite inject_Z_injective in Heq.
      destruct (Z.even k) eqn:Hk2.
      * assert (m = k) by lia. subst k. congruence.
      * assert (m = (k + 1)%Z) by lia. subst m.
        rewrite Z.even_add, Hk2 in Hodd. discriminate.
Qed.

End Integers.

(** ** Random numbers *)

Section RandomTool.

Context `{Host}.

Lemma replicateM_all (A : Type) (c : M A) (P : A -> Prop) :
  (forall t, exists a t', c t = (inr a, t') /\ P a) ->
  forall n t, exists xs t',
    replicateM n c t = (inr xs, t') /\ List.length xs = n /\ Forall P xs.
Proof.
  intros Hc. induction n as [|n IH]; intro t.
  - exists [], t. repeat split. constructor.
  - destruct (Hc t) as (a & t1 & Ha & Pa).
    destruct (IH t1) as (xs & t2 & Hxs & Hlen & Hall).
    exists (a :: xs), t2. cbn [replicateM]. unfold bind at 1. rewrite Ha.
    unfold bind at 1. rewrite Hxs. unfold ret.
    repeat split.
    + simpl. now rewrite Hlen.
    + now constructor.
Qed.

(** [Math.random()] is at least 0 and less than 1. *)
Lemma Math_random_range (t : nat) :
  exists r, Math_random t = (inr r, S t) /\ (0 <= r /\ r < 1)%Q.
Proof.
  eexists. split; [reflexivity|].
  assert (Hm : (entropy_at t mod 2 ^ 53 < 2 ^ 53)%N) by (apply N.mod_lt; discriminate).
  unfold Qle, Qlt. cbn [Qnum Qden]. split; lia.
Qed.

(** It is a double: the largest value is [1 - 2^-53]. *)
Lemma Math_random_draw (t : nat) :
  exists r, Math_random t = (inr r, S t)
            /\ (0 <= r /\ r <= 1 - Double.pow2 (-53))%Q.
Proof.
  eexists. split; [reflexivity|].
  assert (Hm : (entropy_at t mod 2 ^ 53 < 2 ^ 53)%N) by (apply N.mod_lt; discriminate).
  assert (E : (Double.pow2 (-53) == 1 # 2 ^ 53)%Q) by reflexivity.
  rewrite E. unfold Qle, Qminus, Qplus, Qopp. cbn [Qnum Qden]. split; lia.
Qed.

(** [Math.floor(r * n)] is one of [0 .. n-1]. *)
Lemma scaled_range (r : Q) (n : Z) :
  (0 <= r /\ r <= 1 - Double.pow2 (-53))%Q -> (0 < n <= 2 ^ 53)%Z ->
  exists z, Random.scaled r n = Double.Finite (inject_Z z) /\ (0 <= z < n)%Z.
Proof.
  intros Hr [Hn0 Hn1].
  assert (Hone : (1 <= inject_Z n)%Q) by (change 1%Q with (inject_Z 1); rewrite <- Zle_Qle; lia).
  assert (Hnormal : (Double.pow2 (-1021) <= inject_Z n)%Q).
  { pose proof (pow2_le (-1021) 0 ltac:(lia)) as Hle.
    change (Double.pow2 0) with 1%Q in Hle. lra. }
  destruct (mul_draw_below r (inject_Z n) Hr
              (representable_integer n ltac:(lia)) Hnormal) as (p & Hp & Hp0 & Hp1).
  unfold Random.scaled. cbn [Double.mul]. rewrite Hp. cbn [Double.floor].
  exists (Qfloor p). split; [reflexivity|]. split.
  - change 0%Z with (Qfloor 0). now apply Qfloor_resp_le.
  - pose proof (Qfloor_le p) as Hf.
    assert (Hlt : (inject_Z (Qfloor p) < inject_Z n)%Q) by lra.
    now rewrite <- Zlt_Qlt in Hlt.
Qed.

Lemma sub_finite (a b : Q) :
  Double.sub (Double.Finite a) (Double.Finite b) = Double.round (a - b).
Proof.
  unfold Double.sub. cbn [Double.opp Double.add]. apply round_comp.
  rewrite Qred_correct. reflexivity.
Qed.

Lemma integer_of_range (r : Q) (a b : Z) (d : Q) :
  (0 <= r /\ r <= 1 - Double.pow2 (-53))%Q ->
  Double.representable (inject_Z a) -> Double.representable (inject_Z b) ->
  (a <= b)%Z ->
  Double.round (inject_Z b - inject_Z a) = Double.Finite d ->
  exists z, Random.integer_of r (Double.Finite (inject_Z a)) (Double.Finite (inject_Z b))
            = Double.Finite (inject_Z z)
            /\ (a <= z <= b)%Z.
Proof.
  intros Hr Ha Hb Hab Hd. unfold Random.integer_of.
  rewrite sub_finite, Hd. cbn [Double.add].
  assert (Hspan : Double.round (inject_Z (b - a)) = Double.Finite d).
  { rewrite <- Hd. apply round_comp.
    unfold Z.sub. now rewrite inject_Z_plus, inject_Z_opp. }
  destruct (floor_draw_within r (b - a) d Hr ltac:(lia) Hspan)
    as (n & y & Hn & Hy & Hf0 & Hf1).
  rewrite Hn. cbn [Double.mul]. rewrite Hy. cbn [Double.floor Double.add].
  rewrite <- inject_Z_plus.
  destruct (round_between (inject_Z a) (inject_Z (Qfloor y + a)) (inject_Z b) Ha Hb)
    as (v & Hv & Hv0 & Hv1); [rewrite <- Zle_Qle; lia|rewrite <- Zle_Qle; lia|].
  destruct (round_whole _ _ Hv) as (z & ->).
  exists z. split; [exact Hv|]. rewrite !Zle_Qle. split; assumption.
Qed.

(** The difference of two doubles that is not itself a double is of the
    normal range. *)
Lemma inexact_difference_normal (lo hi d : Q) :
  Double.representable lo -> Double.representable hi -> (lo <= hi)%Q ->
  (hi - lo < d)%Q -> Double.round (hi - lo) = Double.Finite d ->
  (Double.pow2 (-1021) <= hi - lo)%Q.
Proof.
  intros Hlo Hhi Hle Hlt Hd.
  destruct (representable_grid lo Hlo) as (ml & Hml).
  destruct (representable_grid hi Hhi) as (mh & Hmh).
  pose proof (pow2_pos (-1074)) as Hg.
  assert (Hx : (hi - lo == inject_Z (mh - ml) * Double.pow2 (-1074))%Q).
  { unfold Z.sub. rewrite inject_Z_plus, inject_Z_opp, Hml, Hmh. ring. }
  destruct (Z_lt_le_dec (mh - ml) (2 ^ 53)) as [Hsmall|Hbig].
  - exfalso.
    destruct (Qle_lt_or_eq _ _ Hle) as [Hpos|Hz].
    + assert (Hpos' : (0 < hi - lo)%Q) by lra.
      assert (Hm : (0 < mh - ml)%Z).
      { rewrite Zlt_Qlt. change (inject_Z 0) with 0%Q.
        apply Qnot_le_lt. intro Hc. rewrite Hx in Hpos'. nra. }
      assert (Hn : (Double.nearest (hi - lo) == hi - lo)%Q).
      { apply Qeq_trans with (Double.nearest (inject_Z (mh - ml) * Double.pow2 (-1074)));
          [now apply nearest_comp|].
        apply Qeq_trans with (inject_Z (mh - ml) * Double.pow2 (-1074))%Q;
          [apply nearest_dyadic; lia|symmetry; exact Hx]. }
      rewrite (round_pos _ Hpos') in Hd.
      destruct (Qle_bool (Double.pow2 1024) (Double.nearest (hi - lo))); [discriminate|].
      assert (Hd' : d = Qred (Double.nearest (hi - lo))) by congruence.
      rewrite Hd', Qred_correct in Hlt. lra.
    + assert (Hz' : (hi - lo == 0)%Q) by lra.
      rewrite (round_0 _ Hz') in Hd. assert (Hd' : d = 0%Q) by congruence.
      rewrite Hd' in Hlt. lra.
  - assert (Hm : (inject_Z (2 ^ 53) <= inject_Z (mh - ml))%Q)
      by (rewrite <- Zle_Qle; exact Hbig).
    assert (E : (Double.pow2 (-1021) == inject_Z (2 ^ 53) * Double.pow2 (-1074))%Q)
      by reflexivity.
    rewrite Hx, E. nra.
Qed.

Lemma float_of_range (r lo hi d : Q) :
  (0 <= r /\ r <= 1 - Double.pow2 (-53))%Q ->
  Double.representable lo -> Double.representable hi -> (lo <= hi)%Q ->
  Double.round (hi - lo) = Double.Finite d ->
  exists y, Random.float_of r (Double.Finite lo) (Double.Finite hi) = Double.Finite y
            /\ (lo <= y /\ y <= hi)%Q.
Proof.
  intros Hr Hlo Hhi Hle Hd. pose proof Hr as [Hr0 Hr1].
  pose proof (pow2_pos (-53)) as Hp53.
  unfold Random.float_of. rewrite sub_finite, Hd. cbn [Double.mul].
  pose proof (round_representable _ _ Hd) as Hdr.
  assert (Hzero : Double.representable 0) by (apply representable_0; reflexivity).
  assert (Hd0 : (0 <= d)%Q) by (apply (round_lower 0 (hi - lo) d Hzero); [lra|exact Hd]).
  destruct (round_between 0 (r * d) d Hzero Hdr) as (p & Hp & Hp0 & Hp1); [nra|nra|].
  assert (Hspan : (p <= hi - lo)%Q).
  { destruct (Qlt_le_dec (hi - lo) d) as [Hup|Hdown]; [|lra].
    pose proof (inexact_difference_normal lo hi d Hlo Hhi Hle Hup Hd) as Hnormal.
    destruct (mul_draw_below r d Hr Hdr) as (p' & Hp' & _ & Hbelow); [lra|].
    assert (Hpp : p' = p) by congruence. subst p'.
    apply Qnot_lt_le. intro Hover.
    pose proof (round_upper (hi - lo) p d (round_representable _ _ Hp)
                  (Qlt_le_weak _ _ Hover) Hd).
    lra. }
  rewrite Hp. cbn [Double.add].
  destruct (round_between lo (p + lo) hi Hlo Hhi) as (y & Hy & Hy0 & Hy1); [lra|lra|].
  exists y. split; [exact Hy|]. split; assumption.
Qed.

Lemma drawn_string_returns (length : Z) (f : Q -> jsstring) (t : nat) :
  exists s t', Random.drawn_string length f t = (inr (JStr s), t').
Proof.
  unfold Random.drawn_string, bind.
  destruct (replicateM_all Q Math_random (fun _ => True)
              (fun t0 => let '(ex_intro _ r (conj Hr _)) := Math_random_range t0 in
                         ex_intro _ r (ex_intro _ (S t0) (conj Hr I)))
              (Z.to_nat length) t) as (rs & t' & Hrs & _).
  rewrite Hrs. unfold ret. eauto.
Qed.

Lemma generate_bounded (type : Random.kind) (min max : Double.number) (length : Z)
      (t : nat) :
  exists v t', Random.generate type min max length t = (inr v, t')
               /\ Spec.bounded type min max v.
Proof.
  destruct (Math_random_draw t) as (r & Hr & Hdraw).
  destruct type; cbn [Random.generate].
  - (* integer *)
    exists (Double.to_json (Random.integer_of r min max)), (S t).
    unfold bind. rewrite Hr. split; [reflexivity|].
    split; [|intro; discriminate].
    intros _ a b d -> -> Ha Hb Hab Hd.
    destruct (integer_of_range r a b d Hdraw Ha Hb Hab Hd) as (z & -> & Hz).
    exists z. split; [reflexivity|exact Hz].
  - (* float *)
    exists (Double.to_json (Random.float_of r min max)), (S t).
    unfold bind. rewrite Hr. split; [reflexivity|].
    split; [intro; discriminate|].
    intros _ lo hi d -> -> Hlo Hhi Hle Hd.
    destruct (float_of_range r lo hi d Hdraw Hlo Hhi Hle Hd) as (y & -> & Hy).
    exact Hy.
  - (* hex *)
    destruct (drawn_string_returns length Random.hex_of t) as (s & t' & Hs).
    exists (JStr s), t'. split; [exact Hs|]. split; intro; discriminate.
  - destruct (drawn_string_returns length (Random.pick Random.chars) t) as (s & t' & Hs).
    exists (JStr s), t'. split; [exact Hs|]. split; intro; discriminate.
  - destruct (drawn_string_returns length (Random.pick Random.allChars) t) as (s & t' & Hs).
    exists (JStr s), t'. split; [exact Hs|]. split; intro; discriminate.
  - (* boolean *)
    eexists _, (S t). unfold bind. rewrite Hr. split; [reflexivity|].
    split; intro; discriminate.
Qed.

(** C7, amended.  The [random] tool always produces as many values as
    [count] asks for.  The handler computes with doubles: the bounds are
    the doubles nearest to the numbers given, and each operation is
    rounded.  As long as the difference of the bounds does not overflow,
    - with type [integer] and bounds that are whole numbers [a <= b],
      every value is a whole number from [a] to [b];
    - so with [min = max = 5] every value is 5;
    - with type [float] and bounds [lo <= hi], every value is a double
      from [lo] to [hi], [hi] included. *)
Theorem random_values_in_bounds (args : Random.Args) (t : nat) :
  let type := or_default (Random.type args) Random.integer in
  let min := or_default (Random.min args) 0%Q in
  let max := or_default (Random.max args) 100%Q in
  let count := or_default (Random.count args) 1%Z in
  exists rs t',
    Random.results args t = (inr rs, t')
    /\ List.length rs = Z.to_nat count
    /\ (type = Random.integer ->
        forall a b d,
          Double.round min = Double.Finite (inject_Z a) ->
          Double.round max = Double.Finite (inject_Z b) ->
          (a <= b)%Z ->
          Double.round (inject_Z b - inject_Z a) = Double.Finite d ->
          Forall (Spec.whole_within a b) rs)
    /\ (type = Random.integer -> (min == 5)%Q -> (max == 5)%Q ->
        Forall (fun v => v = JNum 5) rs)
    /\ (type = Random.float ->
        forall lo hi d,
          Double.round min = Double.Finite lo -> Double.round max = Double.Finite hi ->
          (lo <= hi)%Q -> Double.round (hi - lo) = Double.Finite d ->
          Forall (Spec.within lo hi) rs).
Proof.
  intros type min max count. unfold Random.results. fold type min max count.
  destruct (replicateM_all JSON
              (Random.generate type (Double.round min) (Double.round max)
                               (or_default (Random.length args) 16%Z))
              (Spec.bounded type (Double.round min) (Double.round max))
              (generate_bounded type _ _ _)
              (Z.to_nat count) t)
    as (rs & t' & Hrs & Hlen & Hall).
  exists rs, t'. split; [exact Hrs|]. split; [exact Hlen|].
  assert (Hwhole : forall a b d,
             Double.round min = Double.Finite (inject_Z a) ->
             Double.round max = Double.Finite (inject_Z b) ->
             (a <= b)%Z ->
             Double.round (inject_Z b - inject_Z a) = Double.Finite d ->
             type = Random.integer -> Forall (Spec.whole_within a b) rs).
  { intros a b d Ha Hb Hab Hd Ht.
    eapply Forall_impl; [|exact Hall].
    intros v (Hv & _). apply (Hv Ht a b d); try assumption.
    - exact (round_representable _ _ Ha).
    - exact (round_representable _ _ Hb). }
  split; [|split].
  - intros Ht a b d Ha Hb Hab Hd. now apply (Hwhole a b d).
  - intros Ht Ha Hb.
    assert (Hfive : forall q, (q == 5)%Q -> Double.round q = Double.Finite (inject_Z 5)).
    { intros q Hq. rewrite (round_comp _ _ Hq). reflexivity. }
    eapply Forall_impl;
      [|exact (Hwhole 5%Z 5%Z 0%Q (Hfive _ Ha) (Hfive _ Hb) ltac:(lia) eq_refl Ht)].
    intros v (z & -> & Hz). replace z with 5%Z by lia. reflexivity.
  - intros Ht lo hi d Hlo Hhi Hle Hd.
    eapply Forall_impl; [|exact Hall].
    intros v (_ & Hv). apply (Hv Ht lo hi d); try assumption.
    + exact (round_representable _ _ Hlo).
    + exact (round_representable _ _ Hhi).
Qed.

End RandomTool.

Lemma random_values_in_bounds_witness :
  let five := {| Random.type := Some Random.integer; Random.min := Some 5%Q;
                 Random.max := Some 5%Q; Random.length := None;
                 Random.count := Some 3%Z |} in
  let dice := {| Random.type := None; Random.min := Some (2 # 2)%Q;
                 Random.max := Some (60 # 10)%Q; Random.length := None;
                 Random.count := Some 10%Z |} in
  let tenth := {| Random.type := Some Random.float; Random.min := Some (1 # 10)%Q;
                  Random.max := Some 1%Q; Random.length := None;
                  Random.count := Some 10%Z |} in
  let wide := {| Random.type := Some Random.integer;
                 Random.min := Some (inject_Z (- 2 ^ 60));
                 Random.max := Some (inject_Z (2 ^ 60)); Random.length := None;
                 Random.count := Some 10%Z |} in
  (exists rs t', Random.results (H := example_host) five O = (inr rs, t')
                 /\ List.length rs = 3%nat
                 /\ Forall (fun v => v = JNum 5) rs)
  /\ (exists rs t', Random.results (H := example_host) dice O = (inr rs, t')
                    /\ List.length rs = 10%nat
                    /\ Forall (Spec.whole_within 1 6) rs)
  /\ (exists rs t', Random.results (H := example_host) tenth O = (inr rs, t')
                    /\ List.length rs = 10%nat
                    /\ Forall (Spec.within (3602879701896397 # 36028797018963968) 1) rs)
  /\ (exists rs t', Random.results (H := example_host) wide O = (inr rs, t')
                    /\ List.length rs = 10%nat
                    /\ Forall (Spec.whole_within (- 2 ^ 60) (2 ^ 60)) rs).
Proof.
  intros five dice tenth wide. split; [|split; [|split]].
  - destruct (random_values_in_bounds (H := example_host) five O)
      as (rs & t' & Hrs & Hlen & _ & Hfive & _).
    exists rs, t'. split; [exact Hrs|]. split; [exact Hlen|].
    apply Hfive; reflexivity.
  - destruct (random_values_in_bounds (H := example_host) dice O)
      as (rs & t' & Hrs & Hlen & Hint & _ & _).
    exists rs, t'. split; [exact Hrs|]. split; [exact Hlen|].
    apply (Hint eq_refl 1%Z 6%Z 5%Q); [reflexivity|reflexivity|lia|reflexivity].
  - destruct (random_values_in_bounds (H := example_host) tenth O)
      as (rs & t' & Hrs & Hlen & _ & _ & Hfloat).
    exists rs, t'. split; [exact Hrs|]. split; [exact Hlen|].
    apply (Hfloat eq_refl _ _ (8106479329266893 # 9007199254740992)%Q);
      [vm_compute; reflexivity|vm_compute; reflexivity|vm_compute; discriminate
      |vm_compute; reflexivity].
  - destruct (random_values_in_bounds (H := example_host) wide O)
      as (rs & t' & Hrs & Hlen & Hint & _ & _).
    exists rs, t'. split; [exact Hrs|]. split; [exact Hlen|].
    apply (Hint eq_refl (- 2 ^ 60)%Z (2 ^ 60)%Z (inject_Z (2 ^ 61)));
      [vm_compute; reflexivity|vm_compute; reflexivity|lia|vm_compute; reflexivity].
Defined.

(** C7 as stated fails in three ways.  With type [float] and equal bounds
    the value is the bound, and the interval that leaves it out is empty.
    With type [float] and bounds 1e16 and 1e16 + 2, a draw of 0.75 gives
    1e16 + 1.5, which is no double: the value is the upper bound itself.
    With type [integer] and bounds -1e308 and 1e308 the difference of the
    bounds overflows, and the value is no number at all: it is printed as
    [null]. *)
Lemma random_bounds_not_kept :
  let equal := {| Random.type := Some Random.float; Random.min := Some 5%Q;
                  Random.max := Some 5%Q; Random.length := None;
                  Random.count := None |} in
  let close := {| Random.type := Some Random.float;
                  Random.min := Some (inject_Z (10 ^ 16));
                  Random.max := Some (inject_Z (10 ^ 16 + 2));
                  Random.length := None; Random.count := None |} in
  let wide := {| Random.type := Some Random.integer;
                 Random.min := Some (inject_Z (- 10 ^ 308));
                 Random.max := Some (inject_Z (10 ^ 308));
                 Random.length := None; Random.count := None |} in
  (Random.results (H := example_host) equal O = (inr [JNum 5], 1%nat)
   /\ ~ Spec.within_below 5 5 (JNum 5))
  /\ (Random.results (H := steady_host (3 * 2 ^ 51)) close O
      = (inr [JNum (inject_Z (10 ^ 16 + 2))], 1%nat)
      /\ ~ Spec.within_below (inject_Z (10 ^ 16)) (inject_Z (10 ^ 16 + 2))
                             (JNum (inject_Z (10 ^ 16 + 2))))
  /\ Random.results (H := example_host) wide O = (inr [JNull], 1%nat).
Proof.
  intros equal close wide. split; [|split].
  - split; [vm_compute; reflexivity|].
    cbn [Spec.within_below]. intros [_ Hhi]. lra.
  - split; [vm_compute; reflexivity|].
    cbn [Spec.within_below]. intros [_ Hhi]. lra.
  - vm_compute. reflexivity.
Qed.


(** ** The keys of a JSON value *)

Section Keys.

Import JsonTool.

Lemma JSON_nested_ind (P : JSON -> Prop) :
  P JNull -> (forall b, P (JBool b)) -> (forall q, P (JNum q)) ->
  (forall s, P (JStr s)) ->
  (forall l, Forall P l -> P (JArr l)) ->
  (forall m, Forall (fun kv => P (snd kv)) m -> P (JObj m)) ->
  forall v, P v.
Proof.
  intros Hnull Hbool Hnum Hstr Harr Hobj.
  fix go 1. intros [ |b|q|s|l|m].
  - exact Hnull.
  - apply Hbool.
  - apply Hnum.
  - apply Hstr.
  - apply Harr. induction l as [|x l IHl]; constructor; [apply go | exact IHl].
  - apply Hobj. induction m as [|[k x] m IHm]; constructor; [apply go | exact IHm].
Qed.





End Keys.

Section JsonKeys.

Context `{Host}.

Import JsonTool.


End JsonKeys.



(** ** Calls of a tool that is not there *)

Section UnknownTool.

Context `{Host}.

Lemma str_eqb_neq (a b : jsstring) : a <> b -> Json.str_eqb a b = false.
Proof. intro Hab. unfold Json.str_eqb. destruct (list_eq_dec N.eq_dec a b); congruence. Qed.

(** C9, amended.  A call of the first-generation server that names a
    tool other than [echo] throws an error with the message
    [Unknown tool: <name>]: the error leaves the handler, no envelope is
    returned, and nothing was read or computed for the call.  In the
    enhanced server a name that is not registered is refused before any
    handler runs. *)
Theorem unknown_tool_is_thrown (name : jsstring) (arguments : option JSON)
        (raw : JSON) (t : nat) :
  (name <> lit "echo" ->
   FirstServer.callTool name arguments t
   = (inl (Error (lit "Unknown tool: " ++ name)), t))
  /\ (Zod.lookup_name Server.registered name = None ->
      Server.callTool name raw t = (inr Server.ToolNotFound, t)).
Proof.
  split.
  - intro Hname. unfold FirstServer.callTool.
    now rewrite (str_eqb_neq _ _ Hname).
  - intro Hname. unfold Server.callTool. now rewrite Hname.
Qed.

End UnknownTool.

Lemma unknown_tool_is_thrown_witness :
  lit "unknown_tool" <> lit "echo"
  /\ FirstServer.callTool (H := example_host) (lit "unknown_tool") (Some (JObj [])) O
     = (inl (Error (lit "Unknown tool: unknown_tool")), O)
  /\ Server.callTool (H := example_host) (lit "unknown_tool") (JObj []) O
     = (inr Server.ToolNotFound, O).
Proof.
  assert (Hname : lit "unknown_tool" <> lit "echo") by discriminate.
  split; [exact Hname|].
  destruct (unknown_tool_is_thrown (H := example_host) (lit "unknown_tool")
              (Some (JObj [])) (JObj []) O) as [Hfirst Hserver].
  split; [exact (Hfirst Hname) | exact (Hserver eq_refl)].
Defined.

(** C9 as stated fails: the outcome of the call is the thrown error, not
    an envelope. *)
Lemma unknown_tool_no_envelope :
  fst (FirstServer.callTool (H := example_host) (lit "unknown_tool") (Some (JObj [])) O)
  = inl (Error (lit "Unknown tool: unknown_tool"))
  /\ ~ (exists e : Envelope,
          fst (FirstServer.callTool (H := example_host) (lit "unknown_tool")
                 (Some (JObj [])) O) = inr e).
Proof. split; [reflexivity|]. intros [e He]. discriminate He. Qed.

(** ** The shape of the envelopes *)

Section Shapes.

Context `{Host}.

Lemma handler_guards (c : Server.call) : Server.handler c = guarded (Server.body c).
Proof. destruct c; reflexivity. Qed.

(** A [try] block that prints the object it has built. *)
Lemma printed_object (response : M JSON) (t : nat) :
  bind response (fun r => ret (ok_envelope r)) t
  = match bind response (fun r => ret (Server.Result r)) t with
    | (inl e, t') => (inl e, t')
    | (inr (Server.Result v), t') => (inr (ok_envelope v), t')
    | (inr (Server.Invalid e), t') => (inr (JsonTool.invalid_envelope e), t')
    end.
Proof. unfold bind. destruct (response t) as [[e|r] t']; reflexivity. Qed.

(** The [try] block of every handler returns the envelope of what it has
    to print, or throws. *)
Lemma body_prints (c : Server.call) (t : nat) :
  Server.body c t
  = match Server.result c t with
    | (inl e, t') => (inl e, t')
    | (inr (Server.Result v), t') => (inr (ok_envelope v), t')
    | (inr (Server.Invalid e), t') => (inr (JsonTool.invalid_envelope e), t')
    end.
Proof.
  destruct c as [a|a|a|a|a|a|a|a|a|a]; cbn [Server.body Server.result].
  - apply printed_object.
  - reflexivity.
  - reflexivity.
  - apply printed_object.
  - apply printed_object.
  - apply printed_object.
  - unfold Base64.body, Base64.response, bind.
    destruct (Base64.op a); reflexivity.
  - unfold JsonTool.body.
    destruct (JsonParse.parse (JsonTool.data a)); reflexivity.
  - apply printed_object.
  - apply printed_object.
Qed.

(** Only the [json] tool has an answer for data that is not JSON. *)
Lemma invalid_is_json (c : Server.call) (e : exn) (t t' : nat) :
  Server.result c t = (inr (Server.Invalid e), t') ->
  exists a, c = Server.CallJson a /\ JsonParse.parse (JsonTool.data a) = inl e.
Proof.
  assert (Hbind : forall (response : M JSON),
             bind response (fun r => ret (Server.Result r)) t
             <> (inr (Server.Invalid e), t')).
  { intros response. unfold bind.
    destruct (response t) as [[e0|r] t0]; discriminate. }
  destruct c as [a|a|a|a|a|a|a|a|a|a]; cbn [Server.result]; intro Hres;
    try (now apply Hbind in Hres); try discriminate Hres.
  exists a. split; [reflexivity|].
  destruct (JsonParse.parse (JsonTool.data a)) as [e0|parsed]; [|discriminate Hres].
  injection Hres as -> _. reflexivity.
Qed.

(** C1, amended.  Every call of a registered tool with arguments that
    passed its schema returns an envelope, which is settled by what the
    [try] block of the handler does.  When it throws, the envelope is
    flagged as an error and its text is [Error: <message>].  When it
    builds an object, the envelope carries no error flag and its text is
    the pretty-printed JSON (indent 2) of that object.  When the [json]
    tool is given data that is not JSON, and only then, the envelope is
    flagged as an error too, but its text is the pretty-printed JSON of
    [{ valid: false, error }] with the message of the parser. *)
Theorem envelope_shapes (c : Server.call) (t : nat) :
  (exists env,
      match Server.result c t with
      | (inl e, t') =>
          Server.handler c t = (inr env, t')
          /\ isError env = Some true
          /\ text env = lit "Error: " ++ message_of e
      | (inr (Server.Result v), t') =>
          Server.handler c t = (inr env, t')
          /\ isError env = None
          /\ text env = Json.stringify v 2
      | (inr (Server.Invalid e), t') =>
          Server.handler c t = (inr env, t')
          /\ isError env = Some true
          /\ text env
             = Json.stringify (JObj [(lit "valid", JBool false);
                                     (lit "error", JStr (message_of e))]) 2
          /\ exists a, c = Server.CallJson a
                       /\ JsonParse.parse (JsonTool.data a) = inl e
      end)
  /\ (forall a e,
        c = Server.CallJson a -> JsonParse.parse (JsonTool.data a) = inl e ->
        Server.handler c t
        = (inr {| text := Json.stringify
                            (JObj [(lit "valid", JBool false);
                                   (lit "error", JStr (message_of e))]) 2;
                  isError := Some true |}, t)).
Proof.
  split.
  - rewrite handler_guards. unfold guarded, try_catch. rewrite body_prints.
    destruct (Server.result c t) as [[e|[v|e]] t'] eqn:Hres.
    + exists (error_envelope e). repeat split.
    + exists (ok_envelope v). repeat split.
    + exists (JsonTool.invalid_envelope e). split; [reflexivity|].
      split; [reflexivity|]. split; [reflexivity|].
      exact (invalid_is_json c e t t' Hres).
  - intros a e -> Hparse. cbn [Server.handler].
    unfold JsonTool.handler, guarded, try_catch, JsonTool.body.
    rewrite Hparse. reflexivity.
Qed.

End Shapes.

Lemma envelope_shapes_witness :
  let a := {| JsonTool.op := None; JsonTool.data := lit "{not json";
              JsonTool.indent := None |} in
  let e := Error (lit "Unexpected token") in
  JsonParse.parse (H := example_host) (JsonTool.data a) = inl e
  /\ Server.handler (H := example_host) (Server.CallJson a) O
     = (inr {| text := Json.stringify (H := example_host)
                         (JObj [(lit "valid", JBool false);
                                (lit "error", JStr (lit "Unexpected token"))]) 2;
               isError := Some true |}, O).
Proof.
  intros a e. split; [reflexivity|].
  destruct (envelope_shapes (H := example_host) (Server.CallJson a) O) as [_ Hinvalid].
  exact (Hinvalid a e eq_refl eq_refl).
Defined.

(** C1 as stated fails on the [json] tool: for data that is not JSON the
    envelope is flagged as an error, and its text is a JSON document, not
    an [Error: <message>] line. *)
Lemma invalid_json_is_not_an_error_line :
  exists env,
    fst (JsonTool.handler (H := example_host)
           {| JsonTool.op := None; JsonTool.data := lit "{not json";
              JsonTool.indent := None |} O) = inr env
    /\ isError env = Some true
    /\ Spec.starts_with (lit "Error: ") (text env) = false
    /\ ~ Spec.failure env.
Proof.
  eexists. split; [reflexivity|]. split; [reflexivity|]. split; [reflexivity|].
  intros [_ [message Htext]]. discriminate Htext.
Qed.

(** ** The fuel of the parser *)

Section ParserFuel.

Import JsonParse.

Lemma dropWhile_length (p : N -> bool) (s : jsstring) :
  (List.length (Str.dropWhile p s) <= List.length s)%nat.
Proof.
  induction s as [|c rest IH]; simpl; [lia|].
  destruct (p c); simpl; lia.
Qed.

Lemma skip_ws_cons (s rest : jsstring) (c : N) :
  skip_ws s = c :: rest -> (List.length rest < List.length s)%nat.
Proof.
  intro Hs. pose proof (dropWhile_length is_json_ws s) as Hl.
  unfold skip_ws in Hs. rewrite Hs in Hl. simpl in Hl. lia.
Qed.

Lemma span_length (p : N -> bool) (s : jsstring) :
  (List.length (snd (span p s)) <= List.length s)%nat.
Proof.
  induction s as [|c rest IH]; simpl; [lia|].
  destruct (p c); [|simpl; lia].
  destruct (span p rest). simpl in *. lia.
Qed.

Lemma strip_prefix_length (p s rest : jsstring) :
  strip_prefix p s = Some rest ->
  (List.length rest + List.length p = List.length s)%nat.
Proof.
  revert s. induction p as [|a p IH]; intros [|b s]; simpl; try discriminate.
  - intros [= <-]. reflexivity.
  - intros [= <-]. simpl. lia.
  - destruct (N.eqb a b); [|discriminate]. intro Hs. apply IH in Hs. simpl. lia.
Qed.

Lemma consumes_push (c : N) (s0 s1 : jsstring) :
  (List.length s0 < List.length s1)%nat ->
  consumes (parse_string s0) s0 -> consumes (push c (parse_string s0)) s1.
Proof. intro Hlt. destruct (parse_string s0); simpl; auto. lia. Qed.

Lemma parse_string_consumes (s : jsstring) : consumes (parse_string s) s.
Proof.
  assert (Hall : forall n s0, (List.length s0 < n)%nat -> consumes (parse_string s0) s0);
    [|exact (Hall _ s (Nat.lt_succ_diag_r _))].
  clear s. induction n as [|n IH]; intros s Hs; [lia|].
  assert (IH' : forall s0, (List.length s0 < List.length s)%nat ->
                           consumes (parse_string s0) s0) by (intros s0 Hlt; apply IH; lia).
  clear IH Hs. rename IH' into IH.
  destruct s as [|c rest]; [exact I|]. cbn [parse_string].
  destruct (N.eqb c 34); [simpl; lia|].
  destruct (N.eqb c 92).
  - destruct rest as [|e rest1]; [exact I|].
    destruct (N.eqb e 117).
    + destruct rest1 as [|h1 [|h2 [|h3 [|h4 rest2]]]]; try exact I.
      destruct (hex4_value h1 h2 h3 h4); [|exact I].
      apply consumes_push; [simpl; lia|]. apply IH. simpl. lia.
    + destruct (simple_escape e); [|exact I].
      apply consumes_push; [simpl; lia|]. apply IH. simpl. lia.
  - destruct (N.ltb c 32); [exact I|].
    apply consumes_push; [simpl; lia|]. apply IH. simpl. lia.
Qed.

Lemma integer_part_length (s ints rest : jsstring) :
  integer_part s = Some (ints, rest) -> (List.length rest < List.length s)%nat.
Proof.
  destruct s as [|c s']; [discriminate|]. unfold integer_part.
  destruct (N.eqb c 48); [intros [= _ <-]; simpl; lia|].
  destruct (is_digit c) eqn:Hd; [|discriminate].
  intros [= Hspan]. pose proof (span_length is_digit s') as Hl.
  cbn [span] in Hspan. rewrite Hd in Hspan.
  destruct (span is_digit s') as [a b]. injection Hspan as _ <-. simpl in *. lia.
Qed.

Lemma fraction_part_length (s fracs rest : jsstring) :
  fraction_part s = Some (fracs, rest) -> (List.length rest <= List.length s)%nat.
Proof.
  destruct s as [|c s']; [intros [= _ <-]; simpl; lia|]. unfold fraction_part.
  destruct (N.eqb c 46); [|intros [= _ <-]; simpl; lia].
  pose proof (span_length is_digit s') as Hl.
  destruct (span is_digit s') as [ds r]. destruct ds; [discriminate|].
  intros [= _ <-]. simpl in *. lia.
Qed.

Lemma exponent_part_length (s rest : jsstring) (e : Z) :
  exponent_part s = Some (e, rest) -> (List.length rest <= List.length s)%nat.
Proof.
  destruct s as [|c s']; [intros [= _ <-]; simpl; lia|]. unfold exponent_part.
  destruct (N.eqb c 101 || N.eqb c 69); [|intros [= _ <-]; simpl; lia].
  destruct s' as [|d s'']; [discriminate|].
  destruct (N.eqb d 45); [|destruct (N.eqb d 43)];
    match goal with
    | |- context [span is_digit ?x] =>
        pose proof (span_length is_digit x) as Hl;
        destruct (span is_digit x) as [ds r]
    end;
    (destruct ds; [discriminate|]); intros [= _ <-]; simpl in *; lia.
Qed.

Lemma parse_number_consumes (s : jsstring) : consumes (parse_number s) s.
Proof.
  unfold parse_number.
  assert (Hrest : forall negative s1,
             (List.length s1 <= List.length s)%nat ->
             consumes
               match integer_part s1 with
               | Some (ints, s2) =>
                   match fraction_part s2 with
                   | Some (fracs, s3) =>
                       match exponent_part s3 with
                       | Some (e, s4) =>
                           Ok (if negative : bool
                               then Qopp (scale (digits_N (ints ++ fracs))
                                                (e - Z.of_nat (List.length fracs)))
                               else scale (digits_N (ints ++ fracs))
                                          (e - Z.of_nat (List.length fracs))) s4
                       | None => Syntax
                       end
                   | None => Syntax
                   end
               | None => Syntax
               end s).
  { intros negative s1 Hl.
    destruct (integer_part s1) as [[ints s2]|] eqn:Hi; [|exact I].
    apply integer_part_length in Hi.
    destruct (fraction_part s2) as [[fracs s3]|] eqn:Hf; [|exact I].
    apply fraction_part_length in Hf.
    destruct (exponent_part s3) as [[e s4]|] eqn:He; [|exact I].
    apply exponent_part_length in He. simpl. lia. }
  destruct s as [|c rest]; [exact (Hrest false [] (le_n _))|].
  destruct (N.eqb c 45);
    [exact (Hrest true rest (Nat.le_succ_diag_r _))
    |exact (Hrest false (c :: rest) (le_n _))].
Qed.

Lemma consumes_mono (A : Type) (r : parsed A) (s0 s1 : jsstring) :
  (List.length s0 <= List.length s1)%nat -> consumes r s0 -> consumes r s1.
Proof. intro Hl. destruct r; simpl; auto. lia. Qed.

Lemma consumes_lift (A : Type) (f : A -> JSON) (r : parsed A) (s0 s1 : jsstring) :
  (List.length s0 <= List.length s1)%nat -> consumes r s0 -> consumes (lift f r) s1.
Proof. intro Hl. destruct r; simpl; auto. lia. Qed.

Lemma keyword_consumes (word : string) (v : JSON) (c : N) (rest : jsstring) :
  word <> ""%string -> consumes (keyword word v (c :: rest)) (c :: rest).
Proof.
  intro Hw. unfold keyword.
  destruct (strip_prefix (lit word) (c :: rest)) as [r|] eqn:Hs; [|exact I].
  apply strip_prefix_length in Hs. destruct word; [congruence|].
  simpl in *. lia.
Qed.

(** With two units of fuel for each code unit the parser does not run
    out, and what it leaves is shorter than what it was given. *)
Lemma parse_enough_fuel (fuel : nat) :
  (forall s, (2 * List.length s < fuel)%nat -> consumes (parse_value fuel s) s)
  /\ (forall acc s, (2 * List.length s + 1 < fuel)%nat ->
                    consumes (parse_elements fuel acc s) s)
  /\ (forall acc s, (2 * List.length s + 1 < fuel)%nat ->
                    consumes (parse_members fuel acc s) s).
Proof.
  induction fuel as [|fuel (IHv & IHe & IHm)]; [repeat split; intros; lia|].
  split; [|split].
  - intros s Hs. cbn [parse_value].
    destruct (skip_ws s) as [|c rest] eqn:Hc; [exact I|].
    apply skip_ws_cons in Hc.
    destruct (N.eqb c 123).
    { destruct (skip_ws rest) as [|d rest'] eqn:Hd; [exact I|].
      apply skip_ws_cons in Hd.
      destruct (N.eqb d 125); [simpl; lia|].
      apply (consumes_mono _ _ (d :: rest')); [simpl; lia|].
      apply IHm. simpl. lia. }
    destruct (N.eqb c 91).
    { destruct (skip_ws rest) as [|d rest'] eqn:Hd; [exact I|].
      apply skip_ws_cons in Hd.
      destruct (N.eqb d 93); [simpl; lia|].
      apply (consumes_mono _ _ (d :: rest')); [simpl; lia|].
      apply IHe. simpl. lia. }
    destruct (N.eqb c 34).
    { apply (consumes_lift _ _ _ rest); [lia|apply parse_string_consumes]. }
    destruct (N.eqb c 116).
    { apply (consumes_mono _ _ (c :: rest)); [simpl; lia|].
      apply keyword_consumes. discriminate. }
    destruct (N.eqb c 102).
    { apply (consumes_mono _ _ (c :: rest)); [simpl; lia|].
      apply keyword_consumes. discriminate. }
    destruct (N.eqb c 110).
    { apply (consumes_mono _ _ (c :: rest)); [simpl; lia|].
      apply keyword_consumes. discriminate. }
    apply (consumes_lift _ _ _ (c :: rest)); [simpl; lia|apply parse_number_consumes].
  - intros acc s Hs. cbn [parse_elements].
    specialize (IHv s).
    destruct (parse_value fuel s) as [v rest| |]; simpl in IHv; [|exact I|apply IHv; lia].
    assert (Hrest : (List.length rest < List.length s)%nat) by (apply IHv; lia).
    destruct (skip_ws rest) as [|d rest'] eqn:Hd; [exact I|].
    apply skip_ws_cons in Hd.
    destruct (N.eqb d 44).
    { apply (consumes_mono _ _ rest'); [lia|]. apply IHe. lia. }
    destruct (N.eqb d 93); [simpl; lia|exact I].
  - intros acc s Hs. cbn [parse_members].
    destruct (skip_ws s) as [|c rest] eqn:Hc; [exact I|].
    apply skip_ws_cons in Hc.
    destruct (N.eqb c 34); [|exact I].
    pose proof (parse_string_consumes rest) as Hk.
    destruct (parse_string rest) as [k rest1| |]; simpl in Hk; [|exact I|exact Hk].
    destruct (skip_ws rest1) as [|d rest2] eqn:Hd; [exact I|].
    apply skip_ws_cons in Hd.
    destruct (N.eqb d 58); [|exact I].
    specialize (IHv rest2).
    destruct (parse_value fuel rest2) as [v rest3| |]; simpl in IHv;
      [|exact I|apply IHv; lia].
    assert (Hrest : (List.length rest3 < List.length rest2)%nat) by (apply IHv; lia).
    destruct (skip_ws rest3) as [|e rest4] eqn:He; [exact I|].
    apply skip_ws_cons in He.
    destruct (N.eqb e 44).
    { apply (consumes_mono _ _ rest4); [lia|]. apply IHm. lia. }
    destruct (N.eqb e 125); [simpl; lia|exact I].
Qed.

(** [JSON.parse] always comes to a verdict. *)
Lemma parse_total (text : jsstring) :
  parse_value (fuel_for text) text <> OutOfFuel.
Proof.
  pose proof (proj1 (parse_enough_fuel (fuel_for text)) text) as Hv.
  unfold fuel_for in *. intro Hout. rewrite Hout in Hv. apply Hv. lia.
Qed.

End ParserFuel.

(* ================================================================== *)
(** * Further properties of the text tools *)
(* ================================================================== *)

Section TextLaws.

Context `{Host}.

Lemma filter_split_length (p : N -> bool) (s : jsstring) :
  (List.length (filter p s) + List.length (filter (fun c => negb (p c)) s)
   = List.length s)%nat.
Proof.
  induction s as [|c rest IH]; [reflexivity|].
  simpl. destruct (p c); simpl; lia.
Qed.

(** X1.  Reversing twice gives the text back, and reversing keeps the
    length: [format] with [reverse] applied to its own result returns the
    original text. *)
Theorem format_reverse_twice (text : jsstring) :
  Format.result (Format.result text Format.reverse) Format.reverse = text
  /\ str_length (Format.result text Format.reverse) = str_length text
  /\ Transform.reverse (Transform.reverse text) = text.
Proof.
  unfold Format.result, Transform.reverse, str_length.
  rewrite rev_involutive, length_rev. auto.
Qed.

(** X2.  The characters of a text are its white space and the rest: in
    [echo], [char_count] is [char_count_no_spaces] plus the number of
    white-space code units, and in [analyze] the same holds of
    [characters], [characters_no_spaces] and the [spaces] of the
    composition; so the count without spaces never exceeds the count. *)
Theorem characters_with_and_without_spaces (text : jsstring) :
  Echo.charCount text = (Echo.charCountNoSpaces text + Analyze.spaces text)%Z
  /\ (0 <= Echo.charCountNoSpaces text <= Echo.charCount text)%Z
  /\ str_length text
     = (str_length (Str.remove_all is_space text) + Analyze.spaces text)%Z.
Proof.
  unfold Echo.charCount, Echo.charCountNoSpaces, Analyze.spaces, Str.match_count,
    Str.remove_all, str_length.
  pose proof (filter_split_length is_space text) as Hsplit. cbv beta in Hsplit.
  unfold jsstring, unit16 in *. repeat split; lia.
Qed.

End TextLaws.

Section Words.

Lemma remove_all_app (p : N -> bool) (a b : jsstring) :
  Str.remove_all p (a ++ b) = Str.remove_all p a ++ Str.remove_all p b.
Proof. unfold Str.remove_all. apply filter_app. Qed.

Lemma remove_all_rev (p : N -> bool) (s : jsstring) :
  Str.remove_all p (rev s) = rev (Str.remove_all p s).
Proof.
  unfold Str.remove_all. apply filter_rev.
Qed.

Lemma remove_all_dropWhile (p : N -> bool) (s : jsstring) :
  Str.remove_all p (Str.dropWhile p s) = Str.remove_all p s.
Proof.
  unfold Str.remove_all. induction s as [|c rest IH]; [reflexivity|].
  cbn [Str.dropWhile]. destruct (p c) eqn:Hc; [|reflexivity].
  cbn [filter]. rewrite Hc. exact IH.
Qed.

(** Trimming takes away white space only. *)
Lemma remove_all_trim (s : jsstring) :
  Str.remove_all is_space (Str.trim s) = Str.remove_all is_space s.
Proof.
  unfold Str.trim, Str.trimEnd, Str.trimStart.
  rewrite remove_all_rev, remove_all_dropWhile, remove_all_rev, rev_involutive.
  apply remove_all_dropWhile.
Qed.

Lemma tokens_from_concat (s cur : jsstring) :
  List.concat (Spec.tokens_from cur s) = rev cur ++ Str.remove_all is_space s.
Proof.
  revert cur. induction s as [|c rest IH]; intro cur; cbn [Spec.tokens_from].
  - unfold Str.remove_all. simpl. rewrite app_nil_r.
    destruct (Str.nonempty cur) eqn:Hc; simpl; [now rewrite app_nil_r|].
    destruct cur; [reflexivity|discriminate].
  - unfold Str.remove_all in *. simpl. destruct (is_space c); simpl.
    + destruct (Str.nonempty cur) eqn:Hc; simpl; rewrite IH; [reflexivity|].
      destruct cur; [reflexivity|discriminate].
    + rewrite IH. simpl. now rewrite <- app_assoc.
Qed.

Lemma forallb_rev (p : N -> bool) (s : list N) : forallb p (rev s) = forallb p s.
Proof.
  induction s as [|c rest IH]; [reflexivity|].
  simpl. rewrite forallb_app, IH. simpl. rewrite andb_true_r. apply andb_comm.
Qed.

Lemma tokens_from_solid (s cur : jsstring) :
  forallb (fun c => negb (is_space c)) cur = true ->
  Forall (fun w => Str.nonempty w = true /\ forallb (fun c => negb (is_space c)) w = true)
         (Spec.tokens_from cur s).
Proof.
  revert cur. induction s as [|c rest IH]; intros cur Hcur; cbn [Spec.tokens_from].
  - destruct (Str.nonempty cur) eqn:Hc; constructor; [|constructor].
    rewrite nonempty_rev, forallb_rev. auto.
  - destruct (is_space c) eqn:Hs.
    + destruct (Str.nonempty cur) eqn:Hc; [constructor|]; try (apply IH; reflexivity).
      rewrite nonempty_rev, forallb_rev. auto.
    + apply IH. simpl. now rewrite Hs.
Qed.

Lemma concat_length_bound (l : list jsstring) :
  Forall (fun w => Str.nonempty w = true) l ->
  (List.length l <= List.length (List.concat l))%nat.
Proof.
  induction 1 as [|w l Hw _ IH]; [simpl; lia|].
  simpl. rewrite length_app. unfold Str.nonempty in Hw.
  apply Nat.ltb_lt in Hw. lia.
Qed.

(** X3.  The words that [echo] and [analyze] count are non-empty, hold no
    white space, and put together give the text without its white space:
    so [word_count] is at most [char_count_no_spaces], and it is 0 exactly
    when the text is all white space. *)
Theorem words_cover_the_text (text : jsstring) :
  let words := Analyze.words text in
  Echo.wordCount text = Z.of_nat (List.length words)
  /\ Forall (fun w => Str.nonempty w = true
                      /\ forallb (fun c => negb (is_space c)) w = true) words
  /\ List.concat words = Str.remove_all is_space text
  /\ (Echo.wordCount text <= Echo.charCountNoSpaces text)%Z
  /\ (Echo.wordCount text = 0%Z <-> forallb is_space text = true).
Proof.
  intro words. subst words. unfold Analyze.words, Echo.wordCount.
  rewrite split_tokens. unfold Spec.tokens.
  pose proof (tokens_from_solid (Str.trim text) [] eq_refl) as Hsolid.
  pose proof (tokens_from_concat (Str.trim text) []) as Hcat.
  simpl in Hcat. rewrite remove_all_trim in Hcat.
  split; [reflexivity|]. split; [exact Hsolid|]. split; [exact Hcat|].
  assert (Hle : (List.length (Spec.tokens_from [] (Str.trim text))
                 <= List.length (Str.remove_all is_space text))%nat).
  { rewrite <- Hcat. apply concat_length_bound.
    eapply Forall_impl; [|exact Hsolid]. now intros w [Hw _]. }
  split; [unfold Echo.charCountNoSpaces, str_length; lia|].
  split.
  - intro Hzero.
    assert (Hnil : Spec.tokens_from [] (Str.trim text) = []).
    { destruct (Spec.tokens_from [] (Str.trim text)); [reflexivity|simpl in Hzero; lia]. }
    rewrite Hnil in Hcat. simpl in Hcat.
    unfold Str.remove_all in Hcat. symmetry in Hcat.
    apply forallb_forall. intros c Hc.
    destruct (is_space c) eqn:Hs; [reflexivity|].
    assert (Hin : In c (filter (fun c0 => negb (is_space c0)) text)).
    { apply filter_In. split; [exact Hc|]. now rewrite Hs. }
    rewrite Hcat in Hin. contradiction.
  - intro Hs. now rewrite (trim_blank _ Hs).
Qed.

End Words.

Section Slugs.

Context `{Host}.

Lemma replace_runs_from_all (q p : N -> bool) (r : list N) (b : bool) (s : list N) :
  forallb (fun c => p c || q c) s = true -> forallb q r = true ->
  forallb q (Str.replace_runs_from b p r s) = true.
Proof.
  intros Hs Hr. revert b. induction s as [|c rest IH]; intro b; [reflexivity|].
  simpl in Hs. apply andb_true_iff in Hs. destruct Hs as [Hc Hrest].
  cbn [Str.replace_runs_from]. destruct (p c) eqn:Hp.
  - rewrite forallb_app, (IH Hrest), andb_true_r. destruct b; [reflexivity|exact Hr].
  - simpl in Hc. cbn [forallb]. now rewrite Hc, (IH Hrest).
Qed.

(** A run replaced by one unit leaves no two of them side by side. *)
Lemma replace_runs_from_collapsed (x : N) (b : bool) (s : list N) :
  let p := fun c => N.eqb c x in
  let out := Str.replace_runs_from b p [x] s in
  Notion.no_adjacent p out = true
  /\ (b = true -> match out with c :: _ => p c = false | [] => True end).
Proof.
  intros p. revert b. induction s as [|c rest IH]; intro b; cbn zeta.
  - split; [reflexivity|]. intros _. exact I.
  - cbn [Str.replace_runs_from]. destruct (p c) eqn:Hp.
    + destruct (IH true) as [Hadj Hhead]. specialize (Hhead eq_refl).
      destruct b; cbn [app]; [split; [exact Hadj|intros _; exact Hhead]|].
      split; [|discriminate].
      cbn [Notion.no_adjacent].
      destruct (Str.replace_runs_from true p [x] rest) as [|d out]; [reflexivity|].
      rewrite Hhead, andb_false_r. exact Hadj.
    + destruct (IH false) as [Hadj _].
      split; [|intros _; exact Hp].
      cbn [Notion.no_adjacent].
      destruct (Str.replace_runs_from false p [x] rest) as [|d out]; [reflexivity|].
      rewrite Hp. exact Hadj.
Qed.

Lemma dropWhile_none (p : N -> bool) (s : list N) :
  forallb (fun c => negb (p c)) s = true -> Str.dropWhile p s = s.
Proof.
  destruct s as [|c rest]; [reflexivity|]. simpl.
  intro Hs. apply andb_true_iff in Hs. destruct Hs as [Hc _].
  apply negb_true_iff in Hc. now rewrite Hc.
Qed.

(** A text without white space is its own trimming. *)
Lemma trim_solid (s : list N) :
  forallb (fun c => negb (is_space c)) s = true -> Str.trim s = s.
Proof.
  intro Hs. unfold Str.trim, Str.trimStart, Str.trimEnd.
  rewrite (dropWhile_none _ _ Hs), dropWhile_none, rev_involutive; [reflexivity|].
  now rewrite forallb_rev.
Qed.

Lemma forallb_weaken (p q : N -> bool) (s : list N) :
  (forall c, p c = true -> q c = true) -> forallb p s = true -> forallb q s = true.
Proof.
  intros Hpq Hs. apply forallb_forall. intros c Hc.
  apply Hpq. rewrite forallb_forall in Hs. now apply Hs.
Qed.

Lemma slug_char_cases (c : N) :
  is_slug_char c = true -> is_space c || (is_word c || is_hyphen c) = true.
Proof.
  unfold is_slug_char. destruct (is_word c), (is_space c), (is_hyphen c); auto.
Qed.

Lemma hyphen_not_space (c : N) : is_word c || is_hyphen c = true -> is_space c = false.
Proof.
  intro Hc. apply orb_true_iff in Hc. destruct Hc as [Hw|Hh].
  - now apply word_not_space.
  - apply N.eqb_eq in Hh. subst c. reflexivity.
Qed.

(** X4.  Whatever the text, its slug holds only word characters and
    hyphens (so no white space), and never two hyphens side by side. *)
Theorem slug_shape (text : jsstring) :
  let slug := Format.result text Format.slugify in
  forallb (fun c => is_word c || is_hyphen c) slug = true
  /\ forallb (fun c => negb (is_space c)) slug = true
  /\ Notion.no_adjacent is_hyphen slug = true.
Proof.
  cbn zeta. unfold Format.result, Transform.slugify.
  set (kept := filter is_slug_char (toLowerCase text)).
  assert (Hkept : forallb (fun c => is_space c || (is_word c || is_hyphen c)) kept = true).
  { apply forallb_forall. intros c Hc. apply filter_In in Hc.
    apply slug_char_cases, Hc. }
  set (dashed := Str.replace_runs is_space (lit "-") kept).
  assert (Hdashed : forallb (fun c => is_word c || is_hyphen c) dashed = true).
  { apply replace_runs_from_all; [exact Hkept|reflexivity]. }
  set (single := Str.replace_runs is_hyphen (lit "-") dashed).
  assert (Hsingle : forallb (fun c => is_word c || is_hyphen c) single = true).
  { apply replace_runs_from_all; [|reflexivity].
    eapply forallb_weaken; [|exact Hdashed]. intros c Hc. cbv beta.
    rewrite Hc. apply orb_true_r. }
  assert (Hsolid : forallb (fun c => negb (is_space c)) single = true).
  { eapply forallb_weaken; [|exact Hsingle]. intros c Hc.
    now rewrite (hyphen_not_space _ Hc). }
  rewrite (trim_solid _ Hsolid). split; [exact Hsingle|]. split; [exact Hsolid|].
  exact (proj1 (replace_runs_from_collapsed hyphen false dashed)).
Qed.

End Slugs.

Section CamelCase.

Context `{Host}.

(** Changing the case of a word character gives a word character. *)
Lemma word_case (c : N) :
  is_word c = true -> is_word (ascii_lower c) = true /\ is_word (ascii_upper c) = true.
Proof.
  intro Hw. assert (Hc : (c < 128)%N) by (apply word_range in Hw; lia).
  apply andb_true_iff.
  assert (Hall : forall d, (d < 128)%N ->
                           implb (is_word d) (is_word (ascii_lower d) && is_word (ascii_upper d))
                           = true).
  { apply (below_forallb _ 128). vm_compute. reflexivity. }
  specialize (Hall c Hc). now rewrite Hw in Hall.
Qed.

Lemma upper_is_word (c : N) : is_upper c = true -> is_word c = true.
Proof. intro Hu. unfold is_word, is_letter. now rewrite Hu, orb_true_r. Qed.

(** The rewriting of [camelCase] keeps white space where it is and puts
    none elsewhere. *)
Lemma camel_from_spaces (first prev_word : bool) (s : list N) :
  map is_space (Transform.camel_from first prev_word s) = map is_space s.
Proof.
  revert first prev_word. induction s as [|c rest IH]; intros first prev; [reflexivity|].
  cbn [Transform.camel_from map]. rewrite IH. f_equal.
  destruct (is_upper c || is_word c && (first || negb prev)) eqn:Hm; [|reflexivity].
  assert (Hw : is_word c = true).
  { apply orb_true_iff in Hm. destruct Hm as [Hu|Hm]; [now apply upper_is_word|].
    now apply andb_true_iff in Hm. }
  destruct (word_case c Hw) as [Hl Hu].
  rewrite (word_not_space _ Hw).
  destruct first; now apply word_not_space.
Qed.

Lemma filter_by_map (f : N -> bool) (a b : list N) :
  map f a = map f b ->
  List.length (filter (fun c => negb (f c)) a) = List.length (filter (fun c => negb (f c)) b)
  /\ List.length a = List.length b.
Proof.
  revert b. induction a as [|x a IH]; intros [|y b]; try discriminate; [auto|].
  simpl. intros [= Hxy Hab]. destruct (IH b Hab) as [Hf Hl].
  rewrite Hxy. destruct (f y); simpl; auto.
Qed.

(** X5.  The camel-case form of a text holds no white space and is as long
    as the text without its white space; before the white space is taken
    out, the rewriting changes no length. *)
Theorem camel_case_shape (text : jsstring) :
  forallb (fun c => negb (is_space c)) (Transform.camelCase text) = true
  /\ str_length (Transform.camelCase text) = Echo.charCountNoSpaces text
  /\ List.length (Transform.camel_from true false text) = List.length text.
Proof.
  unfold Transform.camelCase, Echo.charCountNoSpaces, Str.remove_all, str_length.
  destruct (filter_by_map is_space _ _ (camel_from_spaces true false text)) as [Hf Hl].
  unfold jsstring, unit16 in *.
  split; [|split; [now rewrite Hf|exact Hl]].
  apply forallb_forall. intros c Hc. apply filter_In in Hc. apply Hc.
Qed.

End CamelCase.

Section Tables.

Lemma str_eqb_eq (a b : jsstring) : Json.str_eqb a b = true <-> a = b.
Proof.
  unfold Json.str_eqb. destruct (list_eq_dec N.eq_dec a b); split; congruence.
Qed.

Lemma get_replace_value (k k' : jsstring) (v : JSON) (m : Json.members) :
  Json.has_key k m = true ->
  Json.get k' (Json.replace_value k v m)
  = if Json.str_eqb k' k then Some v else Json.get k' m.
Proof.
  induction m as [|[key w] rest IH]; [discriminate|].
  cbn [Json.has_key Json.replace_value]. destruct (Json.str_eqb k key) eqn:Hk.
  - intros _. apply str_eqb_eq in Hk. subst key. cbn [Json.get].
    destruct (Json.str_eqb k' k); reflexivity.
  - simpl. intro Hrest. cbn [Json.get]. rewrite (IH Hrest).
    destruct (Json.str_eqb k' key) eqn:Hk'; [|reflexivity].
    destruct (Json.str_eqb k' k) eqn:Hkk; [|reflexivity].
    apply str_eqb_eq in Hk', Hkk. assert (Heq : k = key) by congruence.
    apply str_eqb_eq in Heq. congruence.
Qed.

Lemma get_missing (k : jsstring) (m : Json.members) :
  Json.has_key k m = false -> Json.get k m = None.
Proof.
  induction m as [|[key w] rest IH]; [reflexivity|].
  cbn [Json.has_key Json.get]. destruct (Json.str_eqb k key); [discriminate|exact IH].
Qed.

Lemma get_insert_index (i : N) (k k' : jsstring) (v : JSON) (m : Json.members) :
  Json.has_key k m = false ->
  Json.get k' (Json.insert_index i k v m)
  = if Json.str_eqb k' k then Some v else Json.get k' m.
Proof.
  induction m as [|[key w] rest IH]; intro Hk.
  - cbn [Json.insert_index Json.get]. reflexivity.
  - cbn [Json.has_key] in Hk. apply orb_false_iff in Hk. destruct Hk as [Hkey Hrest].
    cbn [Json.insert_index].
    assert (Hhere : Json.get k' ((k, v) :: (key, w) :: rest)
                    = if Json.str_eqb k' k then Some v else Json.get k' ((key, w) :: rest))
      by reflexivity.
    destruct (Json.array_index key) as [j|]; [|exact Hhere].
    destruct (N.ltb j i); [|exact Hhere].
    cbn [Json.get]. rewrite (IH Hrest).
    destruct (Json.str_eqb k' key) eqn:Hk'; [|reflexivity].
    destruct (Json.str_eqb k' k) eqn:Hkk; [|reflexivity].
    apply str_eqb_eq in Hk', Hkk. assert (Heq : k = key) by congruence.
    apply str_eqb_eq in Heq. congruence.
Qed.

Lemma get_app_last (k k' : jsstring) (v : JSON) (m : Json.members) :
  Json.has_key k m = false ->
  Json.get k' (m ++ [(k, v)]) = if Json.str_eqb k' k then Some v else Json.get k' m.
Proof.
  induction m as [|[key w] rest IH]; intro Hk.
  - reflexivity.
  - cbn [Json.has_key] in Hk. apply orb_false_iff in Hk. destruct Hk as [Hkey Hrest].
    cbn [app Json.get]. rewrite (IH Hrest).
    destruct (Json.str_eqb k' key) eqn:Hk'; [|reflexivity].
    destruct (Json.str_eqb k' k) eqn:Hkk; [|reflexivity].
    apply str_eqb_eq in Hk', Hkk. assert (Heq : k = key) by congruence.
    apply str_eqb_eq in Heq. congruence.
Qed.

(** Reading a property after [obj[k] = v]. *)
Lemma get_set (k k' : jsstring) (v : JSON) (m : Json.members) :
  Json.get k' (Json.set k v m) = if Json.str_eqb k' k then Some v else Json.get k' m.
Proof.
  unfold Json.set. destruct (Json.has_key k m) eqn:Hk.
  - now apply get_replace_value.
  - destruct (Json.array_index k); [now apply get_insert_index|now apply get_app_last].
Qed.

Lemma lit_inj (a b : string) : lit a = lit b -> a = b.
Proof.
  unfold lit. intro Hab.
  assert (Hl : list_ascii_of_string a = list_ascii_of_string b).
  { revert Hab. generalize (list_ascii_of_string a), (list_ascii_of_string b).
    induction l as [|x l IH]; intros [|y l']; simpl; try discriminate; [reflexivity|].
    intros [= Hxy Hll]. f_equal; [|now apply IH].
    rewrite <- (ascii_N_embedding x), <- (ascii_N_embedding y). now rewrite Hxy. }
  rewrite <- (string_of_list_ascii_of_string a), <- (string_of_list_ascii_of_string b).
  now rewrite Hl.
Qed.

Lemma to_uint_not_nil (n : N) : N.to_uint n <> Decimal.Nil.
Proof. destruct n; [discriminate|apply DecimalPos.Unsigned.to_uint_nonnil]. Qed.

(** Two numbers with the same decimal form are the same number. *)
Lemma dec_of_N_inj (n n' : N) : Json.dec_of_N n = Json.dec_of_N n' -> n = n'.
Proof.
  unfold Json.dec_of_N. intro Hd. apply lit_inj in Hd.
  apply DecimalN.Unsigned.to_uint_inj.
  pose proof (NilZero.usu _ (to_uint_not_nil n)) as Hn.
  pose proof (NilZero.usu _ (to_uint_not_nil n')) as Hn'.
  rewrite Hd in Hn. congruence.
Qed.

Lemma Qred_next (k : Z) : Qred (inject_Z k + 1) = inject_Z (k + 1).
Proof.
  rewrite (Qred_complete (inject_Z k + 1) (inject_Z (k + 1))).
  - apply Qcanon.Qred_identity. simpl. apply Z.gcd_1_r.
  - rewrite inject_Z_plus. reflexivity.
Qed.

Lemma of_length_snoc (n : nat) (seen : list jsstring) (w : jsstring) :
  Notion.of_length n (seen ++ [w])
  = (Notion.of_length n seen + (if Nat.eqb (List.length w) n then 1 else 0))%nat.
Proof.
  unfold Notion.of_length. rewrite filter_app, length_app. simpl.
  destruct (Nat.eqb (List.length w) n); reflexivity.
Qed.

Lemma counted_increment (m : Json.members) (seen : list jsstring) (w : jsstring) :
  Notion.counted m seen ->
  Notion.counted (Analyze.increment m (Json.dec_of_N (N.of_nat (List.length w)))) (seen ++ [w]).
Proof.
  intros Hm n. unfold Analyze.increment. rewrite get_set, of_length_snoc.
  destruct (Json.str_eqb (Json.dec_of_N (N.of_nat n))
              (Json.dec_of_N (N.of_nat (List.length w)))) eqn:Hk.
  - apply str_eqb_eq, dec_of_N_inj, Nat2N.inj in Hk. subst n.
    rewrite Nat.eqb_refl. unfold Analyze.count_of. rewrite (Hm (List.length w)).
    destruct (Notion.of_length (List.length w) seen) as [|k].
    + reflexivity.
    + unfold Json.int. rewrite Qred_next. rewrite Nat.add_1_r.
      do 3 f_equal. lia.
  - assert (Hne : Nat.eqb (List.length w) n = false).
    { apply Nat.eqb_neq. intros <-. now rewrite str_eqb_refl in Hk. }
    rewrite Hne, Nat.add_0_r. apply Hm.
Qed.

Lemma counted_fold (ws : list jsstring) (m : Json.members) (seen : list jsstring) :
  Notion.counted m seen ->
  Notion.counted (fold_left (fun m word =>
                        Analyze.increment m (Json.dec_of_N (N.of_nat (List.length word))))
                     ws m) (seen ++ ws).
Proof.
  revert m seen. induction ws as [|w ws IH]; intros m seen Hm.
  - now rewrite app_nil_r.
  - cbn [fold_left]. replace (seen ++ w :: ws) with ((seen ++ [w]) ++ ws)
      by (now rewrite <- app_assoc).
    apply IH. now apply counted_increment.
Qed.

Lemma total_replace_value (k : jsstring) (x : Q) (m : Json.members) :
  Json.has_key k m = true ->
  Notion.total (Json.replace_value k (JNum x) m)
  == Notion.total m - Analyze.count_of m k + x.
Proof.
  unfold Analyze.count_of.
  induction m as [|[key w] rest IH]; [discriminate|].
  cbn [Json.has_key Json.replace_value Json.get].
  destruct (Json.str_eqb k key) eqn:Hk.
  - intros _. cbn [Notion.total]. destruct w; cbn [Notion.total]; lra.
  - simpl. intro Hrest. specialize (IH Hrest).
    destruct w; cbn [Notion.total]; lra.
Qed.

Lemma total_insert_index (i : N) (k : jsstring) (x : Q) (m : Json.members) :
  Notion.total (Json.insert_index i k (JNum x) m) == Notion.total m + x.
Proof.
  induction m as [|[key w] rest IH]; [simpl; lra|].
  cbn [Json.insert_index].
  destruct (Json.array_index key) as [j|]; [destruct (N.ltb j i)|];
    destruct w; cbn [Notion.total] in *; lra.
Qed.

Lemma total_app_last (k : jsstring) (x : Q) (m : Json.members) :
  Notion.total (m ++ [(k, JNum x)]) == Notion.total m + x.
Proof.
  induction m as [|[key w] rest IH]; [simpl; lra|].
  cbn [app]. destruct w; cbn [Notion.total] in *; lra.
Qed.

Lemma total_increment (m : Json.members) (k : jsstring) :
  Notion.total (Analyze.increment m k) == Notion.total m + 1.
Proof.
  unfold Analyze.increment, Json.set.
  pose proof (Qred_correct (Analyze.count_of m k + 1)) as Hred.
  destruct (Json.has_key k m) eqn:Hk.
  - rewrite (total_replace_value _ _ _ Hk). lra.
  - assert (Hzero : Analyze.count_of m k = 0)
      by (unfold Analyze.count_of; now rewrite (get_missing _ _ Hk)).
    rewrite Hzero in *.
    destruct (Json.array_index k); [rewrite total_insert_index|rewrite total_app_last]; lra.
Qed.

Lemma total_fold (ws : list jsstring) (m : Json.members) :
  Notion.total (fold_left (fun m word =>
                             Analyze.increment m (Json.dec_of_N (N.of_nat (List.length word))))
                          ws m)
  == Notion.total m + inject_Z (Z.of_nat (List.length ws)).
Proof.
  revert m. induction ws as [|w ws IH]; intro m.
  - cbn [fold_left List.length]. change (inject_Z (Z.of_nat 0)) with 0. lra.
  - cbn [fold_left]. rewrite IH, total_increment.
    cbn [List.length]. rewrite Nat2Z.inj_succ. unfold Z.succ.
    rewrite inject_Z_plus. change (inject_Z 1) with 1. lra.
Qed.

End Tables.

Section Distribution.

Context `{Host}.

(** X6.  In the response of [analyze], [word_length_distribution] has, for
    every length, the number of words of that length (and no entry for a
    length that no word has); its counts add up to the number of words. *)
Theorem word_length_distribution_counts (text : jsstring) :
  let words := Analyze.words text in
  let table := Analyze.wordLengths words in
  field ["word_length_distribution"%string]
        (Analyze.response {| Analyze.text := text; Analyze.includeCharFrequency := None |})
  = Some (JObj table)
  /\ (forall n, Json.get (Json.dec_of_N (N.of_nat n)) table
                = match Notion.of_length n words with
                  | O => None
                  | S k => Some (Json.int (Z.of_nat (S k)))
                  end)
  /\ Notion.total table == inject_Z (Z.of_nat (List.length words)).
Proof.
  intros words table. split; [reflexivity|]. split.
  - apply (counted_fold words [] []). intro n. reflexivity.
  - unfold table, Analyze.wordLengths. rewrite total_fold.
    change (Notion.total []) with 0. lra.
Qed.

End Distribution.

(** ** The [timestamp] tool: what it asks of [value] and [addMs] *)

Section Timestamps.

Context `{Host}.

(** X7.  [convert] without a value, or with the empty text, is answered
    with the error [Value required for convert operation]; [add] without a
    value (or with the empty text), or without [addMs], with [Value and
    addMs required for add operation].  In each case the clock is not
    read. *)
Theorem timestamp_requires_value (empty : bool) (value : option jsstring)
        (f : option Timestamp.format) (a : option Q) (t : nat) :
  let missing := if empty then Some [] else None in
  Timestamp.handler {| Timestamp.op := Some Timestamp.convert; Timestamp.value := missing;
                       Timestamp.fmt := f; Timestamp.addMs := a |} t
  = (inr (error_envelope (Error (lit "Value required for convert operation"))), t)
  /\ Timestamp.handler {| Timestamp.op := Some Timestamp.add; Timestamp.value := missing;
                          Timestamp.fmt := f; Timestamp.addMs := a |} t
     = (inr (error_envelope (Error (lit "Value and addMs required for add operation"))), t)
  /\ Timestamp.handler {| Timestamp.op := Some Timestamp.add; Timestamp.value := value;
                          Timestamp.fmt := f; Timestamp.addMs := None |} t
     = (inr (error_envelope (Error (lit "Value and addMs required for add operation"))), t).
Proof.
  intro missing. split; [|split].
  - destruct empty; reflexivity.
  - destruct empty; reflexivity.
  - destruct value as [[|c rest]|]; reflexivity.
Qed.

Lemma all_digits_given (value : jsstring) :
  Timestamp.all_digits value = true -> Timestamp.given (Some value) = Some value.
Proof. destruct value; [discriminate|reflexivity]. Qed.

(** X8.  A value made of decimal digits only is a Unix time: in seconds
    when the number is below ten thousand million, in milliseconds
    otherwise.  In the first case [convert] always succeeds, and the
    [unix_s] form of the date is the number that was given; in the second
    the number is the time value as long as it is at most 8.64e15, and
    beyond that the answer is the error [Invalid date value]. *)
Theorem timestamp_digit_strings (value : jsstring) (f : option Timestamp.format)
        (a : option Q) (t : nat) :
  Timestamp.all_digits value = true ->
  let num := Z.of_N (JsonParse.digits_N value) in
  let convert := Timestamp.date_of Timestamp.convert (Some value) a t in
  (0 <= num)%Z
  /\ ((num < 10000000000)%Z ->
      convert = (inr (Some (num * 1000)%Z), t)
      /\ Timestamp.unix_seconds (Some (num * 1000)%Z) = Json.int num)
  /\ ((10000000000 <= num <= Timestamp.max_time)%Z ->
      convert = (inr (Some num), t))
  /\ ((Timestamp.max_time < num)%Z ->
      convert = (inl (Error (lit "Invalid date value")), t)
      /\ Timestamp.handler {| Timestamp.op := Some Timestamp.convert;
                              Timestamp.value := Some value;
                              Timestamp.fmt := f; Timestamp.addMs := a |} t
         = (inr (error_envelope (Error (lit "Invalid date value"))), t)).
Proof.
  intros Hd num convert.
  assert (Hnum : (0 <= num)%Z) by (unfold num; lia).
  assert (Hconv : convert
                  = bind (Timestamp.checked
                            (Timestamp.Date_of (if (num <? 10000000000)%Z
                                                then (num * 1000)%Z else num)))
                         (fun t0 => ret (Some t0)) t).
  { unfold convert. cbn [Timestamp.date_of]. rewrite (all_digits_given _ Hd).
    unfold Timestamp.Date_of_value. rewrite Hd. reflexivity. }
  split; [exact Hnum|]. split; [|split].
  - intro Hlt. split.
    + rewrite Hconv. replace (num <? 10000000000)%Z with true by (symmetry; lia).
      unfold Timestamp.Date_of.
      replace (Z.abs (num * 1000) <=? Timestamp.max_time)%Z with true
        by (symmetry; unfold Timestamp.max_time; lia).
      reflexivity.
    + cbn [Timestamp.unix_seconds]. now rewrite Z.div_mul by discriminate.
  - intros [Hlo Hhi]. rewrite Hconv.
    replace (num <? 10000000000)%Z with false by (symmetry; lia).
    unfold Timestamp.Date_of.
    replace (Z.abs num <=? Timestamp.max_time)%Z with true by (symmetry; lia).
    reflexivity.
  - intro Hbig.
    assert (Hthrown : convert = (inl (Error (lit "Invalid date value")), t)).
    { rewrite Hconv.
      replace (num <? 10000000000)%Z with false
        by (symmetry; unfold Timestamp.max_time in Hbig; lia).
      unfold Timestamp.Date_of.
      replace (Z.abs num <=? Timestamp.max_time)%Z with false by (symmetry; lia).
      reflexivity. }
    split; [exact Hthrown|].
    unfold Timestamp.handler, guarded, try_catch, Timestamp.body, Timestamp.response.
    cbn [or_default Timestamp.op Timestamp.value Timestamp.addMs].
    unfold bind at 1. unfold bind at 1. fold convert. rewrite Hthrown. reflexivity.
Qed.

(** A double beyond 2^53 on either side is no time value. *)
Lemma Date_of_large (x : Double.number) :
  (forall y, x = Double.Finite y -> (inject_Z (2 ^ 53) <= Qabs y)%Q) ->
  Timestamp.Date_of_number x = None.
Proof.
  intro Hx. destruct x as [y| |]; [|reflexivity|reflexivity].
  specialize (Hx y eq_refl). cbn [Timestamp.Date_of_number].
  replace (Qle_bool (Qabs y) (inject_Z Timestamp.max_time)) with false; [reflexivity|].
  symmetry. apply not_true_is_false. rewrite Qle_bool_iff. intro Hle.
  assert (Hlt : (inject_Z Timestamp.max_time < inject_Z (2 ^ 53))%Q)
    by (rewrite <- Zlt_Qlt; reflexivity).
  lra.
Qed.

(** The date of the double nearest to a whole number: beyond 2^53 the
    double may be another number, but none within the range of dates. *)
Lemma Date_of_integral (n : Z) :
  Timestamp.Date_of_number (Double.round (inject_Z n)) = Timestamp.Date_of n.
Proof.
  assert (Htop : Double.representable (inject_Z (2 ^ 53)))
    by (apply representable_integer; reflexivity).
  assert (Hbottom : Double.representable (inject_Z (- 2 ^ 53)))
    by (apply representable_integer; reflexivity).
  destruct (Z_le_gt_dec (Z.abs n) (2 ^ 53)) as [Hsmall|Hlarge].
  - rewrite (round_integer n Hsmall).
    unfold Timestamp.Date_of_number, Timestamp.Date_of.
    cbn [inject_Z Qnum Qden]. rewrite Z.quot_1_r.
    assert (Hle : Qle_bool (Qabs (inject_Z n)) (inject_Z Timestamp.max_time)
                  = (Z.abs n <=? Timestamp.max_time)%Z).
    { unfold Qle_bool, Qabs. cbn [inject_Z Qnum Qden].
      now rewrite !Z.mul_1_r. }
    now rewrite Hle.
  - unfold Timestamp.Date_of.
    replace (Z.abs n <=? Timestamp.max_time)%Z with false
      by (symmetry; unfold Timestamp.max_time; lia).
    apply Date_of_large. intros y Hy.
    destruct (Z_le_gt_dec 0 n) as [Hpos|Hneg].
    + assert (Hn : (inject_Z (2 ^ 53) <= inject_Z n)%Q) by (rewrite <- Zle_Qle; lia).
      pose proof (round_lower _ _ _ Htop Hn Hy) as Hlow.
      pose proof (Qle_Qabs y). lra.
    + assert (Hn : (inject_Z n <= inject_Z (- 2 ^ 53))%Q) by (rewrite <- Zle_Qle; lia).
      pose proof (round_upper _ _ _ Hbottom Hn Hy) as Hup.
      pose proof (Qle_Qabs (- y)) as Habs. rewrite Qabs_opp in Habs.
      assert (E : (inject_Z (- 2 ^ 53) == - inject_Z (2 ^ 53))%Q) by reflexivity.
      lra.
Qed.

(** A whole number of milliseconds that a double holds is added as it
    is, and the sum then rounded. *)
Lemma add_integral (t0 k : Z) :
  (Z.abs k <= Json.max_safe_integer)%Z ->
  Double.add (Double.Finite (inject_Z t0)) (Double.round (inject_Z k))
  = Double.round (inject_Z (t0 + k)).
Proof.
  intro Hk. rewrite round_integer by (unfold Json.max_safe_integer in Hk; lia).
  cbn [Double.add]. now rewrite <- inject_Z_plus.
Qed.

(** X9.  [add] moves the time value of the given date by [addMs]: for a
    whole number [k] of milliseconds that a double holds exactly (zero
    included, which counts as given) the date is the one of time value
    [t0 + k], and no date when that is beyond 8.64e15 on either side; with
    zero, the date of [convert]. *)
Theorem timestamp_add_shifts (value : jsstring) (t0 k : Z) (t : nat) :
  value <> [] ->
  Timestamp.Date_of_value value = Some t0 ->
  (Z.abs t0 <= Timestamp.max_time)%Z ->
  (Z.abs k <= Json.max_safe_integer)%Z ->
  Timestamp.date_of Timestamp.add (Some value) (Some (inject_Z k)) t
  = (inr (Timestamp.Date_of (t0 + k)), t)
  /\ Timestamp.date_of Timestamp.add (Some value) (Some 0%Q) t
     = Timestamp.date_of Timestamp.convert (Some value) None t.
Proof.
  intros Hne Hdate Hin Hk.
  assert (Hgiven : Timestamp.given (Some value) = Some value)
    by (destruct value; [contradiction|reflexivity]).
  cbn [Timestamp.date_of]. rewrite Hgiven, Hdate. cbn [Timestamp.checked].
  unfold bind, ret. split.
  - now rewrite (add_integral t0 k Hk), Date_of_integral.
  - change 0%Q with (inject_Z 0).
    rewrite (add_integral t0 0) by (unfold Json.max_safe_integer; lia).
    rewrite Date_of_integral.
    rewrite Z.add_0_r. unfold Timestamp.Date_of.
    now replace (Z.abs t0 <=? Timestamp.max_time)%Z with true by (symmetry; lia).
Qed.

End Timestamps.

Lemma timestamp_digit_strings_witness :
  Timestamp.all_digits (lit "1700000000") = true
  /\ Timestamp.date_of (H := example_host) Timestamp.convert (Some (lit "1700000000")) None O
     = (inr (Some 1700000000000%Z), O).
Proof.
  split; [reflexivity|].
  apply (timestamp_digit_strings (H := example_host) (lit "1700000000") None None O);
    [reflexivity | vm_compute; reflexivity].
Defined.

(** Half a millisecond added at the end of the range of dates is lost in
    the rounding of the sum: the date stays the last one. *)
Example timestamp_add_half_millisecond :
  Timestamp.date_of (H := example_host) Timestamp.add
    (Some (lit "8640000000000000")) (Some (1 # 2)%Q) O
  = (inr (Some 8640000000000000%Z), O).
Proof. vm_compute. reflexivity. Qed.

Lemma timestamp_add_shifts_witness :
  Timestamp.date_of (H := example_host) Timestamp.add (Some (lit "1700000000"))
                    (Some (inject_Z 500)) O
  = (inr (Some 1700000000500%Z), O).
Proof.
  apply (timestamp_add_shifts (H := example_host) (lit "1700000000") 1700000000000 500 O);
    [discriminate | reflexivity | unfold Timestamp.max_time; lia
    | unfold Json.max_safe_integer; lia].
Defined.

(** ** The [random] tool: how many values, and the texts it draws *)

Section RandomTexts.

Context `{Host}.

Lemma pick_in (alphabet : jsstring) (r : Q) :
  alphabet <> [] -> (str_length alphabet <= 2 ^ 53)%Z ->
  (0 <= r /\ r <= 1 - Double.pow2 (-53))%Q ->
  exists c, Random.pick alphabet r = [c] /\ In c alphabet.
Proof.
  intros Hne Hmax Hr.
  assert (Hlen : (0 < str_length alphabet)%Z).
  { unfold str_length. destruct alphabet; [contradiction|simpl; lia]. }
  destruct (scaled_range r _ Hr (conj Hlen Hmax)) as (i & Hi & Hlo & Hhi).
  unfold Random.pick. rewrite Hi. unfold Random.charAt. rewrite Qfloor_Z.
  replace (i <? 0)%Z with false by (symmetry; lia).
  destruct (nth_error alphabet (Z.to_nat i)) as [c|] eqn:Hc.
  - exists c. split; [reflexivity|]. eapply nth_error_In; eassumption.
  - apply nth_error_None in Hc. unfold str_length in Hhi. lia.
Qed.

Lemma hex_of_in (r : Q) :
  (0 <= r /\ r <= 1 - Double.pow2 (-53))%Q ->
  exists c, Random.hex_of r = [c] /\ In c Notion.lower_hex.
Proof.
  intro Hr.
  destruct (scaled_range r 16 Hr ltac:(lia)) as (k & Hk & Hk0 & Hk1).
  unfold Random.hex_of. rewrite Hk, Qfloor_Z. eexists. split; [reflexivity|].
  assert (Hcases : In (Z.to_N k) (map N.of_nat (seq 0 16))).
  { apply in_map_iff. exists (Z.to_nat k). split; [lia|]. apply in_seq. lia. }
  cbn [seq map] in Hcases.
  repeat (destruct Hcases as [<-|Hcases]; [vm_compute; tauto|]).
  destruct Hcases.
Qed.

Lemma flat_map_units (f : Q -> jsstring) (alphabet : jsstring) (rs : list Q) :
  (forall r, (0 <= r /\ r <= 1 - Double.pow2 (-53))%Q ->
             exists c, f r = [c] /\ In c alphabet) ->
  Forall (fun r => (0 <= r /\ r <= 1 - Double.pow2 (-53))%Q) rs ->
  List.length (flat_map f rs) = List.length rs
  /\ Forall (fun c => In c alphabet) (flat_map f rs).
Proof.
  intros Hf Hrs. induction Hrs as [|r rs Hr _ [IHl IHa]].
  - split; [reflexivity|constructor].
  - destruct (Hf r Hr) as (c & Hc & Hin). cbn [flat_map]. rewrite Hc.
    split; [simpl; now rewrite IHl|now constructor].
Qed.

Lemma drawn_string_over (length : Z) (f : Q -> jsstring) (alphabet : jsstring) (t : nat) :
  (forall r, (0 <= r /\ r <= 1 - Double.pow2 (-53))%Q ->
             exists c, f r = [c] /\ In c alphabet) ->
  exists v t', Random.drawn_string length f t = (inr v, t')
               /\ Notion.text_over alphabet (Z.max 0 length) v.
Proof.
  intro Hf. unfold Random.drawn_string, bind.
  destruct (replicateM_all Q Math_random
              (fun r => (0 <= r /\ r <= 1 - Double.pow2 (-53))%Q)
              (fun t0 => let '(ex_intro _ r (conj Hr Hrange)) := Math_random_draw t0 in
                         ex_intro _ r (ex_intro _ (S t0) (conj Hr Hrange)))
              (Z.to_nat length) t) as (rs & t' & Hrs & Hlen & Hall).
  rewrite Hrs. unfold ret. eexists _, t'. split; [reflexivity|].
  destruct (flat_map_units f alphabet rs Hf Hall) as [Hl Ha].
  cbn [Notion.text_over]. split; [|exact Ha].
  unfold str_length. rewrite Hl, Hlen. lia.
Qed.

Lemma alphabet_nonempty (alphabet : jsstring) :
  Str.nonempty alphabet = true -> alphabet <> [].
Proof. intros Hn ->. discriminate Hn. Qed.

(** What one call of [generate] gives for the types that the bounds do
    not concern. *)
Lemma generate_texts (type : Random.kind) (min max : Double.number) (length : Z)
      (t : nat) :
  exists v t', Random.generate type min max length t = (inr v, t')
               /\ (type = Random.hex -> Notion.text_over Notion.lower_hex (Z.max 0 length) v)
               /\ (type = Random.alphanumeric ->
                   Notion.text_over Random.chars (Z.max 0 length) v)
               /\ (type = Random.string_kind ->
                   Notion.text_over Random.allChars (Z.max 0 length) v)
               /\ (type = Random.boolean -> Notion.is_boolean v).
Proof.
  destruct type; cbn [Random.generate].
  - eexists _, _. split; [reflexivity|]. repeat split; discriminate.
  - eexists _, _. split; [reflexivity|]. repeat split; discriminate.
  - destruct (drawn_string_over length Random.hex_of Notion.lower_hex t hex_of_in)
      as (v & t' & Hv & Hover).
    exists v, t'. split; [exact Hv|]. repeat split; try discriminate. intros _. exact Hover.
  - destruct (drawn_string_over length (Random.pick Random.chars) Random.chars t
                (fun r => pick_in Random.chars r
                            (alphabet_nonempty Random.chars eq_refl)
                            ltac:(vm_compute; discriminate)))
      as (v & t' & Hv & Hover).
    exists v, t'. split; [exact Hv|]. repeat split; try discriminate. intros _. exact Hover.
  - destruct (drawn_string_over length (Random.pick Random.allChars) Random.allChars t
                (fun r => pick_in Random.allChars r
                            (alphabet_nonempty Random.allChars eq_refl)
                            ltac:(vm_compute; discriminate)))
      as (v & t' & Hv & Hover).
    exists v, t'. split; [exact Hv|]. repeat split; try discriminate. intros _. exact Hover.
  - eexists _, _. split; [reflexivity|]. repeat split; discriminate.
Qed.

(** X10.  The [random] tool draws as many values as [count] asks for and
    reports that number.  A [hex] value is a text of [length] small hex
    digits, an [alphanumeric] one a text of [length] letters and digits, a
    [string] one a text of [length] code units among letters, digits and
    [!@#$%^&*]; a [boolean] value is a boolean.  With [count] 1 the field
    [values] is the value itself and not an array of one value. *)
Theorem random_texts (args : Random.Args) (t : nat) :
  let type := or_default (Random.type args) Random.integer in
  let length := or_default (Random.length args) 16%Z in
  let count := or_default (Random.count args) 1%Z in
  exists rs t',
    Random.results args t = (inr rs, t')
    /\ List.length rs = Z.to_nat count
    /\ (type = Random.hex -> Forall (Notion.text_over Notion.lower_hex (Z.max 0 length)) rs)
    /\ (type = Random.alphanumeric ->
        Forall (Notion.text_over Random.chars (Z.max 0 length)) rs)
    /\ (type = Random.string_kind ->
        Forall (Notion.text_over Random.allChars (Z.max 0 length)) rs)
    /\ (type = Random.boolean -> Forall Notion.is_boolean rs)
    /\ (exists r, Random.response args t = (inr r, t')
                  /\ field ["count"%string] r = Some (Json.int (Z.max 0 count))
                  /\ (count = 1%Z -> exists v, rs = [v] /\ field ["values"%string] r = Some v)
                  /\ (count <> 1%Z -> field ["values"%string] r = Some (JArr rs))).
Proof.
  intros type length count. unfold Random.response, Random.results.
  fold type length count.
  destruct (replicateM_all JSON
              (Random.generate type (Double.round (or_default (Random.min args) 0%Q))
                               (Double.round (or_default (Random.max args) 100%Q))
                               length)
              _ (generate_texts type _ _ length) (Z.to_nat count) t)
    as (rs & t' & Hrs & Hlen & Hall).
  exists rs, t'. split; [exact Hrs|]. split; [exact Hlen|].
  split; [|split; [|split; [|split]]].
  - intro Ht. eapply Forall_impl; [|exact Hall]. intros v (Hv & _). exact (Hv Ht).
  - intro Ht. eapply Forall_impl; [|exact Hall]. intros v (_ & Hv & _). exact (Hv Ht).
  - intro Ht. eapply Forall_impl; [|exact Hall]. intros v (_ & _ & Hv & _). exact (Hv Ht).
  - intro Ht. eapply Forall_impl; [|exact Hall]. intros v (_ & _ & _ & Hv). exact (Hv Ht).
  - unfold bind. rewrite Hrs. unfold ret. eexists. split; [reflexivity|].
    split; [|split].
    + cbn. rewrite Hlen. do 2 f_equal. lia.
    + intro Hone. rewrite Hone in *. destruct rs as [|v [|w rs]]; try discriminate Hlen.
      exists v. split; reflexivity.
    + intro Hmany. cbn. now replace (count =? 1)%Z with false by (symmetry; lia).
Qed.

End RandomTexts.

(** ** The size of a text in UTF-8 *)

Section Utf8Size.

Import Buffer.
Local Open Scope N_scope.

(** The code point that a code unit stands for when it is not half of a
    pair. *)
Lemma from_utf8_cases (c : N) (rest : jsstring) :
  (exists d rest', rest = d :: rest' /\ is_high_surrogate c = true
                   /\ is_low_surrogate d = true
                   /\ from_utf8 (c :: rest)
                      = encode_code_point (code_point c d) ++ from_utf8 rest')
  \/ from_utf8 (c :: rest)
     = encode_code_point (if is_high_surrogate c || is_low_surrogate c
                          then replacement else c) ++ from_utf8 rest.
Proof.
  cbn [from_utf8]. destruct (is_high_surrogate c) eqn:Hh.
  - destruct rest as [|d rest'].
    + right. now rewrite app_nil_r.
    + destruct (is_low_surrogate d) eqn:Hl.
      * left. exists d, rest'. auto.
      * right. reflexivity.
  - right. destruct (is_low_surrogate c); reflexivity.
Qed.

Lemma from_utf8_by_length (P : jsstring -> Prop) :
  P [] ->
  (forall c rest, P rest ->
     from_utf8 (c :: rest)
     = encode_code_point (if is_high_surrogate c || is_low_surrogate c
                          then replacement else c) ++ from_utf8 rest ->
     P (c :: rest)) ->
  (forall c d rest, is_high_surrogate c = true -> is_low_surrogate d = true ->
                    P rest -> P (c :: d :: rest)) ->
  forall s, P s.
Proof.
  intros Hnil Hone Hpair s.
  assert (Hall : forall n s0, (List.length s0 <= n)%nat -> P s0).
  { clear s. induction n as [|n IH]; intros [|c rest] Hlen; try exact Hnil.
    - simpl in Hlen. lia.
    - simpl in Hlen.
      destruct (from_utf8_cases c rest) as [(d & rest' & -> & Hh & Hl & _)|Hs].
      + apply Hpair; [exact Hh|exact Hl|]. apply IH. simpl in Hlen. lia.
      + apply Hone; [apply IH; lia|exact Hs]. }
  apply (Hall (List.length s)). apply Nat.le_refl.
Qed.

Lemma encode_code_point_length (cp : N) :
  List.length (encode_code_point cp)
  = if cp <? 128 then 1%nat else if cp <? 2048 then 2%nat
    else if cp <? 65536 then 3%nat else 4%nat.
Proof.
  unfold encode_code_point.
  destruct (cp <? 128); [reflexivity|].
  destruct (cp <? 2048); [reflexivity|].
  destruct (cp <? 65536); reflexivity.
Qed.

Lemma scalar_below (c : N) :
  c < 65536 ->
  (if is_high_surrogate c || is_low_surrogate c then replacement else c) < 65536.
Proof.
  intro Hc. destruct (is_high_surrogate c || is_low_surrogate c); [reflexivity|exact Hc].
Qed.

Lemma pair_astral (c d : N) :
  is_high_surrogate c = true -> is_low_surrogate d = true ->
  65536 <= code_point c d < 1114112.
Proof.
  intros Hh Hl. apply surrogate_bounds in Hh, Hl. unfold code_point. lia.
Qed.

(** A text takes at least one byte and at most three for each of its code
    units. *)
Lemma from_utf8_length (s : jsstring) :
  Notion.units16 s ->
  (List.length s <= List.length (from_utf8 s) <= 3 * List.length s)%nat.
Proof.
  induction s as [|c rest IH Hs|c d rest Hh Hl IH] using from_utf8_by_length; intro Hu.
  - simpl. lia.
  - inversion_clear Hu as [|? ? Hc Hrest]. specialize (IH Hrest).
    rewrite Hs, length_app, encode_code_point_length.
    pose proof (scalar_below c Hc) as Hb. apply N.ltb_lt in Hb. rewrite Hb.
    cbn [List.length].
    destruct (_ <? 128); [|destruct (_ <? 2048)]; lia.
  - inversion_clear Hu as [|? ? _ Hu']. inversion_clear Hu' as [|? ? _ Hrest].
    specialize (IH Hrest).
    rewrite (from_utf8_pair _ _ _ Hh Hl), length_app, encode_code_point_length.
    pose proof (pair_astral c d Hh Hl) as [Hlo _].
    replace (code_point c d <? 128) with false by (symmetry; apply N.ltb_ge; lia).
    replace (code_point c d <? 2048) with false by (symmetry; apply N.ltb_ge; lia).
    replace (code_point c d <? 65536) with false by (symmetry; apply N.ltb_ge; lia).
    cbn [List.length]. lia.
Qed.

(** ASCII text is its own UTF-8 form. *)
Lemma from_utf8_ascii (s : jsstring) :
  forallb is_ascii s = true -> from_utf8 s = s.
Proof.
  induction s as [|c rest IH]; [reflexivity|].
  cbn [forallb]. rewrite andb_true_iff. unfold is_ascii at 1. intros [Hc Hrest].
  apply N.ltb_lt in Hc. rewrite from_utf8_scalar by lia.
  unfold encode_code_point. apply N.ltb_lt in Hc. rewrite Hc. cbn [app].
  now rewrite IH.
Qed.

Lemma from_utf8_all_bytes (s : jsstring) :
  Notion.units16 s -> all_bytes (from_utf8 s).
Proof.
  induction s as [|c rest IH Hs|c d rest Hh Hl IH] using from_utf8_by_length; intro Hu.
  - constructor.
  - inversion_clear Hu as [|? ? Hc Hrest]. rewrite Hs. apply Forall_app. split; [|exact (IH Hrest)].
    apply encode_code_point_bytes. pose proof (scalar_below c Hc). lia.
  - inversion_clear Hu as [|? ? _ Hu']. inversion_clear Hu' as [|? ? _ Hrest].
    rewrite (from_utf8_pair _ _ _ Hh Hl). apply Forall_app. split; [|exact (IH Hrest)].
    apply encode_code_point_bytes. apply (pair_astral c d Hh Hl).
Qed.

End Utf8Size.

Section JsonSize.

Context `{Host}.

(** X11.  [size_bytes] in the answer of [validate] is the number of bytes
    of the data in UTF-8: at least the number of code units of the data
    and at most three times that number, and exactly that number for
    ASCII data. *)
Theorem validate_size_bytes (data : jsstring) (indent : Z) (parsed : JSON) :
  Notion.units16 data ->
  exists n,
    field ["size_bytes"%string] (JsonTool.result JsonTool.validate data indent parsed)
    = Some (Json.int n)
    /\ (str_length data <= n <= 3 * str_length data)%Z
    /\ (forallb is_ascii data = true -> n = str_length data).
Proof.
  intro Hu. exists (Z.of_nat (List.length (Buffer.from_utf8 data))).
  split; [reflexivity|]. split.
  - pose proof (from_utf8_length data Hu). unfold str_length. lia.
  - intro Ha. now rewrite (from_utf8_ascii data Ha).
Qed.

End JsonSize.

Lemma validate_size_bytes_witness :
  Notion.units16 (lit "[1]")
  /\ exists n,
       field ["size_bytes"%string]
             (JsonTool.result (H := example_host) JsonTool.validate (lit "[1]") 2
                              (JArr [Json.int 1]))
       = Some (Json.int n)
       /\ (str_length (lit "[1]") <= n <= 3 * str_length (lit "[1]"))%Z
       /\ (forallb is_ascii (lit "[1]") = true -> n = str_length (lit "[1]")).
Proof.
  assert (Hu : Notion.units16 (lit "[1]")) by (repeat constructor).
  split; [exact Hu|].
  exact (validate_size_bytes (H := example_host) (lit "[1]") 2 (JArr [Json.int 1]) Hu).
Defined.

(** ** The Base64 form of a text *)

Section Base64Shape.

Import Buffer.
Local Open Scope N_scope.

Lemma alphabet_chars (url : bool) (v : N) :
  v < 64 ->
  (if url then Notion.is_base64url_char else Notion.is_base64_char) (alphabet url v) = true
  /\ Notion.not_pad (alphabet url v) = true.
Proof.
  intro Hv. apply andb_true_iff. revert v Hv. apply (below_forallb _ 64).
  destruct url; vm_compute; reflexivity.
Qed.

Lemma alphabet_url_of (v : N) : alphabet true v = Notion.url_of (alphabet false v).
Proof.
  unfold alphabet, Notion.url_of.
  destruct (N.ltb_spec v 26);
    [|destruct (N.ltb_spec v 52); [|destruct (N.ltb_spec v 62); [|destruct (v =? 62)]]];
    try reflexivity;
    (replace (_ =? 43) with false by (symmetry; apply N.eqb_neq; lia));
    (replace (_ =? 47) with false by (symmetry; apply N.eqb_neq; lia)); reflexivity.
Qed.

Lemma alphabet_not_pad (v : N) : Notion.not_pad (alphabet false v) = true.
Proof.
  unfold alphabet, Notion.not_pad, pad_char. apply negb_true_iff, N.eqb_neq.
  destruct (N.ltb_spec v 26);
    [|destruct (N.ltb_spec v 52); [|destruct (N.ltb_spec v 62); [|destruct (v =? 62)]]];
    lia.
Qed.

Lemma to_base64_length (bs : bytes) :
  let n := Z.of_nat (List.length bs) in
  (str_length (to_base64 false bs) = 4 * ((n + 2) / 3)
   /\ str_length (to_base64 true bs) = (4 * n + 2) / 3)%Z.
Proof.
  unfold str_length.
  induction bs as [|a|a b|a b c rest IH] using list_ind3; cbn zeta in *.
  - split; reflexivity.
  - split; reflexivity.
  - split; reflexivity.
  - cbn [to_base64 app List.length]. lia.
Qed.

Lemma to_base64_chars (url : bool) (bs : bytes) :
  all_bytes bs ->
  forallb (if url then Notion.is_base64url_char else Notion.is_base64_char)
          (to_base64 url bs) = true.
Proof.
  pose proof (fun v Hv => proj1 (alphabet_chars url v Hv)) as Hchar.
  induction bs as [|a|a b|a b c rest IH] using list_ind3; intro Hb.
  - reflexivity.
  - inversion_clear Hb as [|? ? Ha _]. cbn [to_base64 app forallb].
    rewrite !Hchar by lia.
    destruct url; reflexivity.
  - inversion_clear Hb as [|? ? Ha Hb']. inversion_clear Hb' as [|? ? Hb _].
    cbn [to_base64 app forallb].
    rewrite !Hchar by lia.
    destruct url; reflexivity.
  - inversion_clear Hb as [|? ? Ha Hb']. inversion_clear Hb' as [|? ? Hb Hb''].
    inversion_clear Hb'' as [|? ? Hc Hrest].
    cbn [to_base64 app forallb].
    rewrite !Hchar by lia.
    now rewrite IH.
Qed.

(** The URL-safe form is the standard one without its padding, [+]
    written [-] and [/] written [_]. *)
Lemma to_base64_url (bs : bytes) :
  to_base64 true bs = map Notion.url_of (filter Notion.not_pad (to_base64 false bs)).
Proof.
  induction bs as [|a|a b|a b c rest IH] using list_ind3.
  - reflexivity.
  - cbn [to_base64 app filter]. rewrite !alphabet_not_pad. cbn [map filter].
    now rewrite !alphabet_url_of.
  - cbn [to_base64 app filter]. rewrite !alphabet_not_pad. cbn [map filter].
    now rewrite !alphabet_url_of.
  - cbn [to_base64 app filter]. rewrite !alphabet_not_pad. cbn [map].
    now rewrite IH, !alphabet_url_of.
Qed.

(** X12.  What [base64] gives for [encode]: with [n] the number of bytes
    of the data in UTF-8, the standard form has [4 * ceil(n / 3)] code
    units, all of them letters, digits, [+], [/] or [=]; the URL-safe form
    has [ceil(4 * n / 3)] code units, all of them letters, digits, [-] or
    [_], and is the standard form without its padding, with [+] written
    [-] and [/] written [_]. *)
Theorem base64_encode_shape (data : jsstring) :
  Notion.units16 data ->
  let n := Z.of_nat (List.length (from_utf8 data)) in
  (str_length (Base64.encoded data false) = 4 * ((n + 2) / 3))%Z
  /\ (str_length (Base64.encoded data true) = (4 * n + 2) / 3)%Z
  /\ forallb Notion.is_base64_char (Base64.encoded data false) = true
  /\ forallb Notion.is_base64url_char (Base64.encoded data true) = true
  /\ Base64.encoded data true
     = map Notion.url_of (filter Notion.not_pad (Base64.encoded data false)).
Proof.
  intros Hu n. unfold Base64.encoded.
  pose proof (from_utf8_all_bytes data Hu) as Hb.
  destruct (to_base64_length (from_utf8 data)) as [Hstd Hurl].
  split; [exact Hstd|]. split; [exact Hurl|].
  split; [exact (to_base64_chars false _ Hb)|].
  split; [exact (to_base64_chars true _ Hb)|].
  apply to_base64_url.
Qed.

End Base64Shape.

Lemma base64_encode_shape_witness :
  Notion.units16 (lit "hi?")
  /\ Base64.encoded (lit "hi?") true
     = map Notion.url_of (filter Notion.not_pad (Base64.encoded (lit "hi?") false)).
Proof.
  assert (Hu : Notion.units16 (lit "hi?")) by (repeat constructor).
  split; [exact Hu|].
  exact (proj2 (proj2 (proj2 (proj2 (base64_encode_shape (lit "hi?") Hu))))).
Defined.

(** ** The first-generation server: what it asks of [message] *)

Section FirstEcho.

Context `{Host}.

(** X13.  The first-generation server answers a call of [echo] exactly
    when [message] is a non-empty text: the answer then carries the
    message, its reverse, its counts and the time of one reading of the
    clock.  In every other case an error leaves the handler and the clock
    is not read; a message that is missing, [null], [false], zero or the
    empty text is reported as [Message parameter is required]. *)
Theorem first_server_echo (arguments : option JSON) (t : nat) :
  let message := match arguments with
                 | Some a => Zod.prop a "message"
                 | None => None
                 end in
  let call := FirstServer.callTool (lit "echo") arguments t in
  ((exists env t', call = (inr env, t')) <-> (exists s, message = Some (JStr s) /\ s <> []))
  /\ (forall s, message = Some (JStr s) -> s <> [] ->
        call = (inr (ok_envelope
                       (JObj [(lit "original", JStr s);
                              (lit "reversed", JStr (rev s));
                              (lit "word_count",
                                Json.int (Z.of_nat (List.length (Spec.tokens (Str.trim s)))));
                              (lit "char_count", Json.int (Z.of_nat (List.length s)));
                              (lit "timestamp", JStr (Date_toISOString (clock_at t)))])),
                S t))
  /\ (message = None \/ message = Some JNull \/ message = Some (JBool false)
      \/ message = Some (JNum 0) \/ message = Some (JStr []) ->
      call = (inl (Error (lit "Message parameter is required")), t))
  /\ (forall e t', call = (inl e, t') -> t' = t).
Proof.
  intros message call.
  assert (Hcall : call
                  = if FirstServer.falsy message
                    then throw (Error (lit "Message parameter is required")) t
                    else match message with
                         | Some (JStr s) =>
                             bind (FirstServer.response s) (fun r => ret (ok_envelope r)) t
                         | _ => throw (Error (lit "message.split is not a function")) t
                         end).
  { unfold call, FirstServer.callTool. rewrite str_eqb_refl. cbn [negb]. fold message.
    destruct (FirstServer.falsy message); [reflexivity|].
    destruct message as [[| | |s| |]|]; reflexivity. }
  assert (Hrun : forall s, message = Some (JStr s) -> s <> [] ->
            call = (inr (ok_envelope
                       (JObj [(lit "original", JStr s);
                              (lit "reversed", JStr (rev s));
                              (lit "word_count",
                                Json.int (Z.of_nat (List.length (Spec.tokens (Str.trim s)))));
                              (lit "char_count", Json.int (Z.of_nat (List.length s)));
                              (lit "timestamp", JStr (Date_toISOString (clock_at t)))])),
                    S t)).
  { intros s Hs Hne. rewrite Hcall, Hs. destruct s as [|c rest]; [contradiction|].
    cbn [FirstServer.falsy Str.nonempty List.length Nat.ltb Nat.leb negb].
    unfold FirstServer.response, bind, Date_now, reading, ret.
    unfold Echo.wordCount. now rewrite split_tokens. }
  split; [|split; [exact Hrun|split]].
  - split.
    + intros (env & t' & Henv). rewrite Hcall in Henv.
      destruct message as [[|b|q|s|l|m]|]; cbn [FirstServer.falsy] in Henv;
        try discriminate Henv;
        try (destruct b; discriminate Henv);
        try (destruct (Qeq_bool q 0); discriminate Henv).
      exists s. split; [reflexivity|]. intros ->. discriminate Henv.
    + intros (s & Hs & Hne). rewrite (Hrun s Hs Hne). eauto.
  - intros Hm. rewrite Hcall.
    destruct Hm as [-> | [-> | [-> | [-> | ->]]]]; reflexivity.
  - intros e t' He. rewrite Hcall in He.
    destruct (FirstServer.falsy message); [now injection He|].
    destruct message as [[|b|q|s|l|m]|]; now injection He.
Qed.

End FirstEcho.

(** ** What the schemas let through *)

Section Schemas.







End Schemas.

(** ** Laws of the [format] operations *)

Section AsciiCase.

Local Open Scope N_scope.

Ltac by_bounds :=
  unfold ascii_lower, ascii_upper, Notion.is_small, is_upper, is_lower,
    is_ascii, between;
  repeat (match goal with
          | |- context [?a <=? ?b] => destruct (N.leb_spec a b)
          | |- context [?a <? ?b] => destruct (N.ltb_spec a b)
          end; cbn [andb negb] in *);
  try reflexivity; try discriminate; try lia.

Lemma lower_upper (c : N) : ascii_lower (ascii_upper c) = ascii_lower c.
Proof. by_bounds. Qed.

Lemma lower_lower (c : N) : ascii_lower (ascii_lower c) = ascii_lower c.
Proof. by_bounds. Qed.

Lemma upper_upper (c : N) : ascii_upper (ascii_upper c) = ascii_upper c.
Proof. by_bounds. Qed.

Lemma lower_small (c : N) : is_ascii c = true -> Notion.is_small (ascii_lower c) = true.
Proof. by_bounds. Qed.

Lemma upper_ascii (c : N) : is_ascii c = true -> is_ascii (ascii_upper c) = true.
Proof. by_bounds. Qed.

Lemma small_lower (c : N) : Notion.is_small c = true -> ascii_lower c = c.
Proof. by_bounds. Qed.

Lemma small_ascii (c : N) : Notion.is_small c = true -> is_ascii c = true.
Proof. unfold Notion.is_small. now intros [Ha _]%andb_true_iff. Qed.

Lemma upper_not_space (c : N) :
  is_upper c = true -> is_space c = false /\ is_space (c + 32) = false.
Proof.
  unfold is_upper, between. rewrite andb_true_iff, !N.leb_le. intros [Hlo Hhi].
  assert (Hin : In c (map N.of_nat (seq 65 26))).
  { apply in_map_iff. exists (N.to_nat c). split; [lia|]. apply in_seq. lia. }
  cbn [seq map] in Hin.
  repeat (destruct Hin as [<-|Hin]; [split; reflexivity|]). destruct Hin.
Qed.

Lemma lower_space (c : N) : is_space (ascii_lower c) = is_space c.
Proof.
  unfold ascii_lower. destruct (is_upper c) eqn:Hu; [|reflexivity].
  destruct (upper_not_space c Hu) as [-> ->]. reflexivity.
Qed.

End AsciiCase.

Section FormatLaws.

Context `{Host}.

Lemma forallb_map (p : N -> bool) (f : N -> N) (s : list N) :
  (forall c, In c s -> p (f c) = true) -> forallb p (map f s) = true.
Proof.
  intro Hp. apply forallb_forall. intros x Hx. apply in_map_iff in Hx.
  destruct Hx as (c & <- & Hc). now apply Hp.
Qed.

Lemma map_fixed (f : N -> N) (p : N -> bool) (s : list N) :
  (forall c, p c = true -> f c = c) -> forallb p s = true -> map f s = s.
Proof.
  intros Hf Hs. induction s as [|c rest IH]; [reflexivity|].
  cbn [forallb] in Hs. apply andb_true_iff in Hs. destruct Hs as [Hc Hrest].
  cbn [map]. now rewrite (Hf c Hc), (IH Hrest).
Qed.

Lemma filter_all (p : N -> bool) (s : list N) :
  forallb p s = true -> filter p s = s.
Proof.
  induction s as [|c rest IH]; [reflexivity|].
  cbn [forallb filter]. intros [Hc Hrest]%andb_true_iff. now rewrite Hc, (IH Hrest).
Qed.

Lemma filter_twice (p : N -> bool) (s : list N) : filter p (filter p s) = filter p s.
Proof.
  apply filter_all. apply forallb_forall. intros c Hc. now apply filter_In in Hc.
Qed.

(** The lower-case form of ASCII text: ASCII text without capitals that
    differs from the text in case only. *)
Lemma toLowerCase_ascii (s : jsstring) :
  forallb is_ascii s = true ->
  toLowerCase s = map ascii_lower s
  /\ forallb Notion.is_small (toLowerCase s) = true.
Proof.
  intro Ha. unfold toLowerCase. rewrite Ha. split; [reflexivity|].
  apply forallb_map. intros c Hc. apply lower_small.
  rewrite forallb_forall in Ha. now apply Ha.
Qed.

Lemma toUpperCase_ascii (s : jsstring) :
  forallb is_ascii s = true ->
  toUpperCase s = map ascii_upper s
  /\ forallb is_ascii (toUpperCase s) = true.
Proof.
  intro Ha. unfold toUpperCase. rewrite Ha. split; [reflexivity|].
  apply forallb_map. intros c Hc. apply upper_ascii.
  rewrite forallb_forall in Ha. now apply Ha.
Qed.

Lemma dropWhile_twice (p : N -> bool) (s : list N) :
  Str.dropWhile p (Str.dropWhile p s) = Str.dropWhile p s.
Proof.
  induction s as [|c rest IH]; [reflexivity|].
  cbn [Str.dropWhile]. destruct (p c) eqn:Hc; [exact IH|].
  cbn [Str.dropWhile]. now rewrite Hc.
Qed.

Lemma dropWhile_last (p : N -> bool) (s : list N) (x : N) :
  p x = false -> Str.dropWhile p (s ++ [x]) = Str.dropWhile p s ++ [x].
Proof.
  intro Hx. induction s as [|c rest IH]; cbn [app Str.dropWhile].
  - now rewrite Hx.
  - destruct (p c); [exact IH|reflexivity].
Qed.

Lemma trim_twice (s : jsstring) : Str.trim (Str.trim s) = Str.trim s.
Proof.
  unfold Str.trim, Str.trimStart, Str.trimEnd.
  set (a := Str.dropWhile is_space s).
  assert (Ha : Str.dropWhile is_space a = a) by apply dropWhile_twice.
  assert (Hhead : Str.dropWhile is_space (rev (Str.dropWhile is_space (rev a)))
                  = rev (Str.dropWhile is_space (rev a))).
  { destruct a as [|x a']; [reflexivity|].
    assert (Hx : is_space x = false).
    { cbn [Str.dropWhile] in Ha. destruct (is_space x) eqn:Hx; [|reflexivity].
      exfalso. apply (f_equal (@List.length _)) in Ha.
      pose proof (dropWhile_length is_space a') as Hle.
      cbn [List.length] in Ha. unfold jsstring, unit16 in *. lia. }
    cbn [rev]. rewrite (dropWhile_last _ _ _ Hx), rev_app_distr. cbn [rev app].
    cbn [Str.dropWhile]. now rewrite Hx. }
  rewrite Hhead, rev_involutive, dropWhile_twice. reflexivity.
Qed.

Lemma replace_runs_none (p : N -> bool) (r : list N) (b : bool) (s : list N) :
  forallb (fun c => negb (p c)) s = true -> Str.replace_runs_from b p r s = s.
Proof.
  revert b. induction s as [|c rest IH]; intros b Hs; [reflexivity|].
  cbn [forallb] in Hs. apply andb_true_iff in Hs. destruct Hs as [Hc Hrest].
  apply negb_true_iff in Hc. cbn [Str.replace_runs_from]. now rewrite Hc, (IH _ Hrest).
Qed.

(** Where no two hyphens stand side by side, collapsing the runs of
    hyphens changes nothing. *)
Lemma replace_runs_single (b : bool) (s : list N) :
  Notion.no_adjacent is_hyphen s = true ->
  (b = true -> match s with c :: _ => is_hyphen c = false | [] => True end) ->
  Str.replace_runs_from b is_hyphen [hyphen] s = s.
Proof.
  revert b. induction s as [|c rest IH]; intros b Hadj Hhead; [reflexivity|].
  cbn [Str.replace_runs_from]. cbn [Notion.no_adjacent] in Hadj.
  assert (Hrest : Notion.no_adjacent is_hyphen rest = true
                  /\ (is_hyphen c = true ->
                      match rest with d :: _ => is_hyphen d = false | [] => True end)).
  { destruct rest as [|d rest']; [split; [reflexivity|trivial]|].
    apply andb_true_iff in Hadj. destruct Hadj as [Hcd Hadj]. split; [exact Hadj|].
    intro Hc. rewrite Hc in Hcd. cbn [andb] in Hcd. now apply negb_true_iff in Hcd. }
  destruct Hrest as [Hadj' Hnext].
  destruct (is_hyphen c) eqn:Hc.
  - destruct b; [pose proof (Hhead eq_refl) as Hh; cbv beta iota in Hh; congruence|].
    cbn [app]. apply N.eqb_eq in Hc. subst c.
    f_equal. apply IH; [exact Hadj'|]. intros _. now apply Hnext.
  - f_equal. apply IH; [exact Hadj'|discriminate].
Qed.

(** Where there is no hyphen, writing one for every run of white space
    puts no two hyphens side by side. *)
Lemma replace_runs_separate (b : bool) (s : list N) :
  forallb (fun c => negb (is_hyphen c)) s = true ->
  let out := Str.replace_runs_from b is_space [hyphen] s in
  Notion.no_adjacent is_hyphen out = true
  /\ (b = true -> match out with c :: _ => is_hyphen c = false | [] => True end).
Proof.
  revert b. induction s as [|c rest IH]; intros b Hs; cbn zeta.
  - split; [reflexivity|]. intros _. exact I.
  - cbn [forallb] in Hs. apply andb_true_iff in Hs. destruct Hs as [Hc Hrest].
    apply negb_true_iff in Hc. cbn [Str.replace_runs_from].
    destruct (is_space c) eqn:Hsp.
    + destruct (IH true Hrest) as [Hadj Hhead]. specialize (Hhead eq_refl).
      destruct b; cbn [app]; [split; [exact Hadj|intros _; exact Hhead]|].
      split; [|discriminate]. cbn [Notion.no_adjacent].
      destruct (Str.replace_runs_from true is_space [hyphen] rest) as [|d out'];
        [reflexivity|].
      rewrite Hhead. cbn [andb negb]. rewrite andb_false_r. exact Hadj.
    + destruct (IH false Hrest) as [Hadj _]. split; [|intros _; exact Hc].
      cbn [Notion.no_adjacent].
      destruct (Str.replace_runs_from false is_space [hyphen] rest) as [|d out'];
        [reflexivity|].
      rewrite Hc. exact Hadj.
Qed.

Lemma replace_runs_map (f : N -> N) (p : N -> bool) (r : list N) (b : bool) (s : list N) :
  (forall c, p (f c) = p c) ->
  map f (Str.replace_runs_from b p r s) = Str.replace_runs_from b p (map f r) (map f s).
Proof.
  intro Hp. revert b. induction s as [|c rest IH]; intro b; [reflexivity|].
  cbn [map Str.replace_runs_from]. rewrite Hp. destruct (p c).
  - rewrite map_app, IH. now destruct b.
  - cbn [map]. now rewrite IH.
Qed.

Lemma forallb_filter (p q : N -> bool) (s : list N) :
  forallb q s = true -> forallb q (filter p s) = true.
Proof.
  intro Hs. apply forallb_forall. intros c Hc. apply filter_In in Hc.
  rewrite forallb_forall in Hs. now apply Hs.
Qed.

Lemma forallb_both (p q : N -> bool) (s : list N) :
  forallb p s = true -> forallb q s = true -> forallb (fun c => p c && q c) s = true.
Proof.
  intros Hp Hq. apply forallb_forall. intros c Hc.
  rewrite forallb_forall in Hp, Hq. now rewrite (Hp c Hc), (Hq c Hc).
Qed.

(** The slug of a text that is already in the form of a slug is the text
    itself. *)
Lemma slugify_fixed (s : jsstring) :
  forallb Notion.is_small s = true ->
  forallb (fun c => is_word c || is_hyphen c) s = true ->
  Notion.no_adjacent is_hyphen s = true ->
  Transform.slugify s = s.
Proof.
  intros Hsmall Hchars Hadj. unfold Transform.slugify.
  assert (Hascii : forallb is_ascii s = true)
    by (eapply forallb_weaken; [apply small_ascii|exact Hsmall]).
  rewrite (proj1 (toLowerCase_ascii s Hascii)), (map_fixed _ _ _ small_lower Hsmall).
  assert (Hsolid : forallb (fun c => negb (is_space c)) s = true).
  { eapply forallb_weaken; [|exact Hchars]. intros c Hc.
    now rewrite (hyphen_not_space _ Hc). }
  rewrite filter_all.
  2:{ eapply forallb_weaken; [|exact Hchars]. intros c Hc. unfold is_slug_char.
      apply orb_true_iff in Hc. destruct Hc as [-> | ->]; [reflexivity|apply orb_true_r]. }
  unfold Str.replace_runs. rewrite (replace_runs_none _ _ _ _ Hsolid).
  change (lit "-") with [hyphen].
  rewrite (replace_runs_single false s Hadj) by discriminate.
  now apply trim_solid.
Qed.

(** What the slug of ASCII text is made of. *)
Lemma slugify_ascii (s : jsstring) :
  forallb is_ascii s = true ->
  forallb Notion.is_small (Transform.slugify s) = true
  /\ forallb (fun c => is_word c || is_hyphen c) (Transform.slugify s) = true
  /\ Notion.no_adjacent is_hyphen (Transform.slugify s) = true.
Proof.
  intro Hascii. unfold Transform.slugify.
  destruct (toLowerCase_ascii s Hascii) as [_ Hsmall].
  set (kept := filter is_slug_char (toLowerCase s)).
  assert (Hkept : forallb (fun c => is_space c
                                    || (Notion.is_small c && (is_word c || is_hyphen c)))
                          kept = true).
  { apply forallb_forall. intros c Hc. apply filter_In in Hc. destruct Hc as [Hin Hc].
    rewrite forallb_forall in Hsmall. rewrite (Hsmall c Hin). cbn [andb].
    now apply slug_char_cases. }
  set (dashed := Str.replace_runs is_space (lit "-") kept).
  assert (Hdashed : forallb (fun c => Notion.is_small c && (is_word c || is_hyphen c))
                            dashed = true).
  { apply replace_runs_from_all; [exact Hkept|reflexivity]. }
  set (single := Str.replace_runs is_hyphen (lit "-") dashed).
  assert (Hsingle : forallb (fun c => Notion.is_small c && (is_word c || is_hyphen c))
                            single = true).
  { apply replace_runs_from_all; [|reflexivity].
    eapply forallb_weaken; [|exact Hdashed]. intros c Hc. cbv beta.
    rewrite Hc. apply orb_true_r. }
  assert (Hchars : forallb (fun c => is_word c || is_hyphen c) single = true).
  { eapply forallb_weaken; [|exact Hsingle]. intros c Hc.
    now apply andb_true_iff in Hc. }
  assert (Hsolid : forallb (fun c => negb (is_space c)) single = true).
  { eapply forallb_weaken; [|exact Hchars]. intros c Hc.
    now rewrite (hyphen_not_space _ Hc). }
  rewrite (trim_solid _ Hsolid). split; [|split; [exact Hchars|]].
  - eapply forallb_weaken; [|exact Hsingle]. intros c Hc. now apply andb_true_iff in Hc.
  - exact (proj1 (replace_runs_from_collapsed hyphen false dashed)).
Qed.

(** X15.  Doing [trim], [remove_spaces] or [remove_punctuation] a second
    time changes nothing; on ASCII text the same holds of [uppercase],
    [lowercase] and [slugify]. *)
Theorem format_idempotent (text : jsstring) :
  (forall op,
     In op [Format.trim; Format.remove_spaces; Format.remove_punctuation] ->
     Format.result (Format.result text op) op = Format.result text op)
  /\ (forallb is_ascii text = true ->
      forall op,
        In op [Format.uppercase; Format.lowercase; Format.slugify] ->
        Format.result (Format.result text op) op = Format.result text op).
Proof.
  split.
  - intros op [<-|[<-|[<-|[]]]]; cbn [Format.result].
    + apply trim_twice.
    + apply filter_twice.
    + apply filter_twice.
  - intros Hascii op [<-|[<-|[<-|[]]]]; cbn [Format.result].
    + destruct (toUpperCase_ascii text Hascii) as [Hup Hup'].
      rewrite (proj1 (toUpperCase_ascii _ Hup')), Hup, map_map.
      apply map_ext, upper_upper.
    + destruct (toLowerCase_ascii text Hascii) as [Hlow Hsmall].
      assert (Hlow' : forallb is_ascii (toLowerCase text) = true)
        by (eapply forallb_weaken; [apply small_ascii|exact Hsmall]).
      rewrite (proj1 (toLowerCase_ascii _ Hlow')), Hlow, map_map.
      apply map_ext, lower_lower.
    + destruct (slugify_ascii text Hascii) as (Hsmall & Hchars & Hadj).
      now apply slugify_fixed.
Qed.

End FormatLaws.

Section LetterCase.

Context `{Host}.

Lemma same_letters_app (a a' b b' : jsstring) :
  Notion.same_letters a a' -> Notion.same_letters b b' ->
  Notion.same_letters (a ++ b) (a' ++ b').
Proof. unfold Notion.same_letters. intros Ha Hb. rewrite !map_app. now f_equal. Qed.

Lemma same_letters_upper (s : jsstring) :
  forallb is_ascii s = true -> Notion.same_letters (toUpperCase s) s.
Proof.
  intro Ha. unfold Notion.same_letters.
  rewrite (proj1 (toUpperCase_ascii s Ha)), map_map. apply map_ext, lower_upper.
Qed.

Lemma same_letters_lower (s : jsstring) :
  forallb is_ascii s = true -> Notion.same_letters (toLowerCase s) s.
Proof.
  intro Ha. unfold Notion.same_letters.
  rewrite (proj1 (toLowerCase_ascii s Ha)), map_map. apply map_ext, lower_lower.
Qed.

Lemma forallb_firstn_skipn (p : N -> bool) (n : nat) (s : list N) :
  forallb p s = true -> forallb p (firstn n s) = true /\ forallb p (skipn n s) = true.
Proof.
  intro Hs. rewrite <- (firstn_skipn n s), forallb_app in Hs.
  now apply andb_true_iff in Hs.
Qed.

Lemma same_letters_capitalize (m : jsstring) :
  forallb is_ascii m = true -> Notion.same_letters (Transform.capitalize m) m.
Proof.
  intro Ha. destruct (forallb_firstn_skipn _ 1 m Ha) as [Hf Hs].
  unfold Transform.capitalize. rewrite <- (firstn_skipn 1 m) at 3.
  apply same_letters_app; [now apply same_letters_upper|now apply same_letters_lower].
Qed.

Lemma same_letters_pieces (s : jsstring) (cur : option jsstring) :
  forallb is_ascii s = true ->
  forallb is_ascii (match cur with Some m => m | None => [] end) = true ->
  Notion.same_letters
    (flat_map (fun p => match p with
                        | Transform.Matched m => Transform.capitalize m
                        | Transform.Other c => [c]
                        end)
              (Transform.word_pieces cur s))
    (match cur with Some m => rev m | None => [] end ++ s).
Proof.
  revert cur. induction s as [|c rest IH]; intros cur Hs Hcur.
  - cbn [Transform.word_pieces]. rewrite app_nil_r. destruct cur as [m|]; [|reflexivity].
    cbn [flat_map]. rewrite app_nil_r. apply same_letters_capitalize.
    now rewrite forallb_rev.
  - cbn [forallb] in Hs. apply andb_true_iff in Hs. destruct Hs as [Hc Hrest].
    cbn [Transform.word_pieces]. destruct cur as [m|].
    + destruct (is_space c).
      * cbn [flat_map]. apply same_letters_app.
        -- apply same_letters_capitalize. now rewrite forallb_rev.
        -- apply (same_letters_app [c] [c]); [reflexivity|].
           apply (IH None Hrest eq_refl).
      * replace (rev m ++ c :: rest) with (rev (c :: m) ++ rest)
          by (cbn [rev]; now rewrite <- app_assoc).
        apply (IH (Some (c :: m)) Hrest). cbn [forallb]. now rewrite Hc, Hcur.
    + destruct (is_word c).
      * apply (IH (Some [c]) Hrest). cbn [forallb]. now rewrite Hc.
      * cbn [flat_map app]. apply (same_letters_app [c] [c]); [reflexivity|].
        apply (IH None Hrest eq_refl).
Qed.

Lemma capitalize_sentences_letters (st : Transform.after) (s : jsstring) :
  Notion.same_letters (Transform.capitalize_sentences st s) s
  /\ (forallb is_ascii s = true ->
      forallb is_ascii (Transform.capitalize_sentences st s) = true).
Proof.
  revert st. induction s as [|c rest IH]; intro st; [split; reflexivity|].
  assert (Hkeep : forall st', Notion.same_letters
                                (c :: Transform.capitalize_sentences st' rest) (c :: rest)
                              /\ (forallb is_ascii (c :: rest) = true ->
                                  forallb is_ascii
                                    (c :: Transform.capitalize_sentences st' rest) = true)).
  { intro st'. destruct (IH st') as [Hl Ha]. split.
    - apply (same_letters_app [c] [c]); [reflexivity|exact Hl].
    - cbn [forallb]. intros [Hc Hrest]%andb_true_iff. now rewrite Hc, (Ha Hrest). }
  cbn [Transform.capitalize_sentences].
  destruct st; repeat match goal with
                      | |- context [if ?b then _ else _] => destruct b
                      end; try apply Hkeep.
  destruct (IH Transform.Anything) as [Hl Ha]. split.
  - apply (same_letters_app [ascii_upper c] [c]); [|exact Hl].
    unfold Notion.same_letters. cbn [map]. now rewrite lower_upper.
  - cbn [forallb]. intros [Hc Hrest]%andb_true_iff.
    now rewrite (upper_ascii c Hc), (Ha Hrest).
Qed.

Lemma same_letters_length (a b : jsstring) :
  Notion.same_letters a b -> str_length a = str_length b.
Proof.
  unfold Notion.same_letters, str_length. intro Hab.
  apply (f_equal (@List.length _)) in Hab. rewrite !length_map in Hab.
  unfold jsstring, unit16 in *. now f_equal.
Qed.

(** X16.  On ASCII text, [uppercase], [lowercase], [titlecase] and
    [sentence_case] change nothing but the case of letters: the result
    has the code units of the text, up to case, in the same places, and so
    the same length. *)
Theorem case_operations_keep_letters (text : jsstring) (op : Format.operation) :
  forallb is_ascii text = true ->
  In op [Format.uppercase; Format.lowercase; Format.titlecase; Format.sentence_case] ->
  Notion.same_letters (Format.result text op) text
  /\ str_length (Format.result text op) = str_length text.
Proof.
  intros Hascii Hop.
  assert (Hsame : Notion.same_letters (Format.result text op) text).
  { destruct Hop as [<-|[<-|[<-|[<-|[]]]]]; cbn [Format.result].
    - now apply same_letters_upper.
    - now apply same_letters_lower.
    - apply (same_letters_pieces text None Hascii eq_refl).
    - unfold Transform.sentence_case.
      set (result := Transform.capitalize_sentences Transform.Anything (toLowerCase text)).
      assert (Hlow : forallb is_ascii (toLowerCase text) = true).
      { eapply forallb_weaken; [apply small_ascii|].
        apply (toLowerCase_ascii text Hascii). }
      destruct (capitalize_sentences_letters Transform.Anything (toLowerCase text))
        as [Hl Ha]. specialize (Ha Hlow). fold result in Hl, Ha.
      unfold Notion.same_letters in *.
      rewrite <- (same_letters_lower text Hascii), <- Hl.
      rewrite <- (firstn_skipn 1 result) at 3. rewrite !map_app. f_equal.
      apply same_letters_upper. apply (forallb_firstn_skipn _ 1 _ Ha). }
  split; [exact Hsame|now apply same_letters_length].
Qed.

Lemma word_not_hyphen (c : N) : is_word c = true -> is_hyphen c = false.
Proof.
  intro Hw. unfold is_hyphen, hyphen. apply N.eqb_neq. intros ->. discriminate Hw.
Qed.

Lemma space_not_hyphen (c : N) : is_space c = true -> is_hyphen c = false.
Proof.
  intro Hs. unfold is_hyphen, hyphen. apply N.eqb_neq. intros ->. discriminate Hs.
Qed.

(** X17.  On ASCII text made of word characters and white space only,
    the slug of [format] is the [kebab-case] form of [echo]. *)
Theorem slugify_is_kebab_case (text : jsstring) :
  forallb is_ascii text = true ->
  forallb (fun c => is_word c || is_space c) text = true ->
  Format.result text Format.slugify = Echo.transformed text Echo.kebab_case.
Proof.
  intros Hascii Hchars. cbn [Format.result Echo.transformed].
  unfold Transform.slugify, Transform.kebab_case.
  rewrite (proj1 (toLowerCase_ascii text Hascii)).
  set (low := map ascii_lower text).
  assert (Hlow : forallb (fun c => is_space c || is_word c) low = true).
  { apply forallb_map. intros c Hc. rewrite forallb_forall in Hchars.
    specialize (Hchars c Hc). apply orb_true_iff in Hchars. destruct Hchars as [Hw|Hs].
    - rewrite (proj1 (word_case c Hw)). apply orb_true_r.
    - now rewrite lower_space, Hs. }
  rewrite filter_all.
  2:{ eapply forallb_weaken; [|exact Hlow]. intros c Hc. unfold is_slug_char.
      cbv beta in Hc. revert Hc.
      destruct (is_word c), (is_space c); intro Hc; try reflexivity; discriminate Hc. }
  assert (Hplain : forallb (fun c => negb (is_hyphen c)) low = true).
  { eapply forallb_weaken; [|exact Hlow]. intros c Hc.
    apply orb_true_iff in Hc. destruct Hc as [Hs|Hw].
    - now rewrite (space_not_hyphen c Hs).
    - now rewrite (word_not_hyphen c Hw). }
  change (lit "-") with [hyphen]. unfold Str.replace_runs.
  destruct (replace_runs_separate false low Hplain) as [Hadj _].
  rewrite (replace_runs_single false _ Hadj) by discriminate.
  assert (Hsolid : forallb (fun c => negb (is_space c))
                           (Str.replace_runs_from false is_space [hyphen] low) = true).
  { apply (replace_runs_from_all (fun c => negb (is_space c)) is_space [hyphen] false low);
      [|reflexivity].
    eapply forallb_weaken; [|exact Hlow]. intros c Hc.
    now destruct (is_space c). }
  rewrite (trim_solid _ Hsolid).
  assert (Hout : forallb is_ascii (Str.replace_runs_from false is_space [hyphen] text) = true).
  { apply replace_runs_from_all; [|reflexivity].
    eapply forallb_weaken; [|exact Hascii]. intros c Hc. rewrite Hc. apply orb_true_r. }
  rewrite (proj1 (toLowerCase_ascii _ Hout)).
  now rewrite (replace_runs_map ascii_lower is_space [hyphen] false text lower_space).
Qed.

End LetterCase.

Lemma case_operations_keep_letters_witness :
  forallb is_ascii (lit "hello World. ok") = true
  /\ Format.result (H := example_host) (lit "hello World. ok") Format.sentence_case
     = lit "Hello world. Ok"
  /\ Notion.same_letters
       (Format.result (H := example_host) (lit "hello World. ok") Format.sentence_case)
       (lit "hello World. ok").
Proof.
  split; [reflexivity|]. split; [reflexivity|].
  apply (case_operations_keep_letters (H := example_host) (lit "hello World. ok")
           Format.sentence_case); [reflexivity|cbn [In]; tauto].
Defined.

Lemma slugify_is_kebab_case_witness :
  Format.result (H := example_host) (lit " Hello  big World") Format.slugify
  = Echo.transformed (H := example_host) (lit " Hello  big World") Echo.kebab_case.
Proof.
  apply (slugify_is_kebab_case (H := example_host) (lit " Hello  big World"));
    reflexivity.
Defined.

(** ** The character frequencies of [analyze] *)

Section Frequencies.

Context `{Host}.

(** Counting the elements of a list in a table, under the keys that
    [key] gives them and leaving out those that [keep] refuses: the table
    holds for every key the number of elements counted under it. *)
Lemma tally_get (A : Type) (key : A -> jsstring) (keep : A -> bool)
      (l : list A) (m : Json.members) (seen : list A) (k : jsstring) :
  (forall k', Json.get k' m
              = Notion.entry (List.length
                                (filter (fun a => keep a && Json.str_eqb (key a) k') seen))) ->
  Json.get k (fold_left (fun m a => if keep a then Analyze.increment m (key a) else m) l m)
  = Notion.entry (List.length
                    (filter (fun a => keep a && Json.str_eqb (key a) k) (seen ++ l))).
Proof.
  revert m seen. induction l as [|a l IH]; intros m seen Hm.
  - rewrite app_nil_r. apply Hm.
  - cbn [fold_left]. replace (seen ++ a :: l) with ((seen ++ [a]) ++ l)
      by (now rewrite <- app_assoc).
    apply IH. intro k'. rewrite filter_app, length_app. cbn [filter].
    destruct (keep a) eqn:Hkeep; cbn [andb].
    + unfold Analyze.increment. rewrite get_set.
      destruct (Json.str_eqb (key a) k') eqn:Hk.
      * apply str_eqb_eq in Hk. subst k'. rewrite str_eqb_refl.
        unfold Analyze.count_of. rewrite (Hm (key a)).
        destruct (List.length _) as [|n]; cbn [Notion.entry List.length Nat.add].
        -- reflexivity.
        -- unfold Json.int. rewrite Qred_next, Nat.add_1_r.
           cbn [Notion.entry]. unfold Json.int. do 3 f_equal.
           now rewrite (Nat2Z.inj_succ (S n)).
      * replace (Json.str_eqb k' (key a)) with false.
        -- cbn [List.length]. rewrite Nat.add_0_r. apply Hm.
        -- symmetry. destruct (Json.str_eqb k' (key a)) eqn:Hk'; [|reflexivity].
           apply str_eqb_eq in Hk'. subst k'. now rewrite str_eqb_refl in Hk.
    + cbn [List.length]. rewrite Nat.add_0_r. apply Hm.
Qed.

Lemma tally_total (A : Type) (key : A -> jsstring) (keep : A -> bool)
      (l : list A) (m : Json.members) :
  Notion.total (fold_left (fun m a => if keep a then Analyze.increment m (key a) else m) l m)
  == Notion.total m + inject_Z (Z.of_nat (List.length (filter keep l))).
Proof.
  revert m. induction l as [|a l IH]; intro m.
  - cbn [fold_left filter List.length]. change (inject_Z (Z.of_nat 0)) with 0. lra.
  - cbn [fold_left filter]. rewrite IH. destruct (keep a).
    + rewrite total_increment. cbn [List.length]. rewrite Nat2Z.inj_succ. unfold Z.succ.
      rewrite inject_Z_plus. change (inject_Z 1) with 1. lra.
    + reflexivity.
Qed.

Lemma filter_map_length (A B : Type) (f : A -> B) (p : B -> bool) (l : list A) :
  List.length (filter p (map f l)) = List.length (filter (fun a => p (f a)) l).
Proof.
  induction l as [|a l IH]; [reflexivity|].
  cbn [map filter]. destruct (p (f a)); cbn [List.length]; now rewrite IH.
Qed.

Lemma filter_none (A : Type) (p : A -> bool) (l : list A) :
  (forall a, p a = false) -> filter p l = [].
Proof.
  intro Hp. induction l as [|a l IH]; [reflexivity|]. cbn [filter]. now rewrite Hp.
Qed.

Lemma lower_is_letter (c : N) : is_lower (ascii_lower c) = is_letter c.
Proof.
  unfold ascii_lower, is_letter. destruct (is_upper c) eqn:Hu.
  - rewrite orb_true_r. unfold is_upper, is_lower, between in *.
    apply andb_true_iff in Hu. rewrite !N.leb_le in Hu.
    apply andb_true_iff. rewrite !N.leb_le. lia.
  - now rewrite orb_false_r.
Qed.

(** X18.  On ASCII text, [character_frequency] of [analyze] holds for
    every small letter the number of its occurrences in the text in
    either case, has no entry for a letter that does not occur and no
    entry under any other key, and its counts add up to the number of
    letters of the text.  The field is there only when asked for. *)
Theorem character_frequency_counts (text : jsstring) :
  forallb is_ascii text = true ->
  let table := Analyze.freq text in
  field ["character_frequency"%string]
        (Analyze.response {| Analyze.text := text;
                             Analyze.includeCharFrequency := Some true |})
  = Some (JObj table)
  /\ (forall c, is_lower c = true ->
                Json.get [c] table = Notion.entry (Notion.occurrences c text))
  /\ (forall k, (forall c, is_lower c = true -> k <> [c]) -> Json.get k table = None)
  /\ Notion.total table == inject_Z (Analyze.letters text)
  /\ (forall asked, asked = None \/ asked = Some false ->
        field ["character_frequency"%string]
              (Analyze.response {| Analyze.text := text;
                                   Analyze.includeCharFrequency := asked |})
        = None).
Proof.
  intros Hascii table.
  assert (Hget : forall k,
            Json.get k table
            = Notion.entry
                (List.length
                   (filter (fun d => is_lower (ascii_lower d)
                                     && Json.str_eqb [ascii_lower d] k) text))).
  { intro k. unfold table, Analyze.freq.
    rewrite (tally_get N (fun c => [c]) is_lower _ [] [] k) by (intro; reflexivity).
    cbn [app]. rewrite (proj1 (toLowerCase_ascii text Hascii)).
    now rewrite filter_map_length. }
  split; [reflexivity|]. split; [|split; [|split]].
  - intros c Hc. rewrite Hget. unfold Notion.occurrences. do 2 f_equal.
    apply filter_ext. intro d.
    destruct (N.eqb_spec (ascii_lower d) c) as [Hd|Hd].
    + rewrite Hd, Hc. cbn [andb]. apply str_eqb_refl.
    + rewrite str_eqb_neq by congruence. apply andb_false_r.
  - intros k Hk. rewrite Hget.
    replace (filter _ text) with (@nil N); [reflexivity|].
    symmetry. apply filter_none. intro d.
    destruct (is_lower (ascii_lower d)) eqn:Hd; [|reflexivity].
    cbn [andb]. apply str_eqb_neq. intro Heq. apply (Hk _ Hd). now symmetry.
  - unfold table, Analyze.freq. rewrite tally_total.
    change (Notion.total []) with 0.
    rewrite (proj1 (toLowerCase_ascii text Hascii)), filter_map_length.
    unfold Analyze.letters, Str.match_count.
    rewrite (filter_ext _ _ lower_is_letter). lra.
  - intros asked [-> | ->]; reflexivity.
Qed.

End Frequencies.

Lemma character_frequency_counts_witness :
  forallb is_ascii (lit "Abba b2") = true
  /\ Json.get (lit "b") (Analyze.freq (H := example_host) (lit "Abba b2"))
     = Some (Json.int 3).
Proof.
  split; [reflexivity|].
  apply (character_frequency_counts (H := example_host) (lit "Abba b2") eq_refl).
  reflexivity.
Defined.

(** ** Words, sentences and paragraphs *)

Section Pieces.

Lemma filter_none_of (A : Type) (p : A -> bool) (l : list A) :
  (forall a, In a l -> p a = false) -> filter p l = [].
Proof.
  induction l as [|a l IH]; intro Hp; [reflexivity|].
  cbn [filter]. rewrite (Hp a (or_introl eq_refl)). apply IH.
  intros b Hb. apply Hp. now right.
Qed.

Lemma blank_or_not (s : jsstring) :
  Analyze.not_blank s = false <-> forallb is_space s = true.
Proof.
  unfold Analyze.not_blank. split.
  - intro Hb.
    assert (Hnil : Str.trim s = []).
    { destruct (Str.trim s); [reflexivity|discriminate Hb]. }
    pose proof (remove_all_trim s) as Hrem. rewrite Hnil in Hrem.
    apply forallb_forall. intros c Hc.
    destruct (is_space c) eqn:Hs; [reflexivity|].
    assert (Hin : In c (Str.remove_all is_space s)).
    { apply filter_In. split; [exact Hc|]. now rewrite Hs. }
    rewrite <- Hrem in Hin. destruct Hin.
  - intro Hs. now rewrite (trim_blank _ Hs).
Qed.

(** Some piece is not blank exactly when the pieces together hold
    something that is not white space. *)
Lemma some_not_blank (ps : list jsstring) :
  filter Analyze.not_blank ps = [] <-> Str.remove_all is_space (List.concat ps) = [].
Proof.
  induction ps as [|p ps IH]; [split; reflexivity|].
  cbn [filter List.concat]. rewrite remove_all_app.
  destruct (Analyze.not_blank p) eqn:Hp.
  - split; [discriminate|]. intro Hnil. apply app_eq_nil in Hnil. destruct Hnil as [Hnil _].
    assert (Hb : forallb is_space p = true).
    { apply forallb_forall. intros c Hc.
      destruct (is_space c) eqn:Hs; [reflexivity|].
      assert (Hin : In c (Str.remove_all is_space p)).
      { apply filter_In. split; [exact Hc|]. now rewrite Hs. }
      rewrite Hnil in Hin. destruct Hin. }
    apply blank_or_not in Hb. congruence.
  - apply blank_or_not in Hp.
    assert (Hnil : Str.remove_all is_space p = []).
    { unfold Str.remove_all. apply filter_none_of. intros c Hc.
      rewrite forallb_forall in Hp. now rewrite (Hp c Hc). }
    rewrite Hnil. exact IH.
Qed.

Lemma split_runs_concat (sep : N -> bool) (b : bool) (s : jsstring) :
  List.concat (Str.split_runs sep b s) = Str.remove_all sep s.
Proof.
  unfold Str.remove_all. revert b. induction s as [|c rest IH]; intro b; [reflexivity|].
  cbn [Str.split_runs filter]. destruct (sep c); cbn [negb].
  - destruct b; [apply IH|]. cbn [List.concat app]. apply IH.
  - specialize (IH false).
    destruct (Str.split_runs sep false rest) as [|piece pieces].
    + cbn [List.concat] in *. now rewrite <- IH.
    + cbn [List.concat app] in *. now rewrite <- IH.
Qed.

Lemma cons_head_concat (c : N) (ps : list jsstring) :
  List.concat (Analyze.cons_head c ps) = c :: List.concat ps.
Proof. destruct ps; reflexivity. Qed.

(** The paragraphs leave out line feeds only. *)
Lemma split_blank_lines_solid (b : bool) (s : jsstring) :
  Str.remove_all is_space (List.concat (Analyze.split_blank_lines b s))
  = Str.remove_all is_space s.
Proof.
  revert b.
  assert (Hall : forall n s0 b, (List.length s0 <= n)%nat ->
            Str.remove_all is_space (List.concat (Analyze.split_blank_lines b s0))
            = Str.remove_all is_space s0).
  { induction n as [|n IH]; intros [|c rest] b Hlen; try reflexivity.
    - cbn [List.length] in Hlen. lia.
    - cbn [List.length] in Hlen. cbn [Analyze.split_blank_lines].
      assert (Hkeep : Str.remove_all is_space
                        (List.concat (Analyze.cons_head c
                                        (Analyze.split_blank_lines false rest)))
                      = Str.remove_all is_space (c :: rest)).
      { rewrite cons_head_concat. unfold Str.remove_all in *. cbn [filter].
        rewrite (IH rest false) by lia. reflexivity. }
      destruct (N.eqb_spec c 10) as [->|Hc]; [|exact Hkeep].
      destruct b.
      + unfold Str.remove_all in *. cbn [filter]. change (is_space 10) with true.
        cbn [negb]. apply IH. lia.
      + destruct rest as [|d rest']; [reflexivity|].
        destruct (N.eqb_spec d 10) as [->|Hd]; [|exact Hkeep].
        cbn [List.concat app]. unfold Str.remove_all in *. cbn [filter].
        change (is_space 10) with true. cbn [negb]. apply IH.
        cbn [List.length] in Hlen. lia. }
  intro b. apply (Hall (List.length s)). apply Nat.le_refl.
Qed.

Lemma remove_all_sub (p q : N -> bool) (s : jsstring) :
  Str.remove_all q s = [] -> Str.remove_all q (Str.remove_all p s) = [].
Proof.
  unfold Str.remove_all. intro Hnil. apply filter_none_of. intros c Hc.
  apply filter_In in Hc. destruct Hc as [Hc _].
  destruct (negb (q c)) eqn:Hq; [|reflexivity].
  assert (Hin : In c (filter (fun c0 => negb (q c0)) s)) by (apply filter_In; auto).
  rewrite Hnil in Hin. destruct Hin.
Qed.

Lemma no_words (text : jsstring) :
  Analyze.words text = [] <-> Str.remove_all is_space text = [].
Proof.
  unfold Analyze.words. rewrite split_tokens.
  pose proof (tokens_from_solid (Str.trim text) [] eq_refl) as Hsolid.
  pose proof (tokens_from_concat (Str.trim text) []) as Hcat.
  cbn [rev app] in Hcat. rewrite remove_all_trim in Hcat. fold (Spec.tokens (Str.trim text)) in *.
  split.
  - intro Hnil. rewrite Hnil in Hcat. now rewrite <- Hcat.
  - intro Hnil. rewrite Hnil in Hcat.
    destruct (Spec.tokens (Str.trim text)) as [|w ws]; [reflexivity|].
    inversion_clear Hsolid as [|? ? [Hw _] _].
    destruct w; [discriminate Hw|discriminate Hcat].
Qed.

(** X19.  In [analyze], a text has a paragraph exactly when it has a
    word, that is, when it is not all white space; a text that has a
    sentence has a word, so the [complexity] is [unknown] exactly when
    there is no sentence.  A text can have words and no sentence: one
    made of full stops, exclamation and question marks only. *)
Theorem analyze_counts_related (text : jsstring) :
  let nwords := Z.of_nat (List.length (Analyze.words text)) in
  let nsentences := Z.of_nat (List.length (Analyze.sentences text)) in
  let nparagraphs := Z.of_nat (List.length (Analyze.paragraphs text)) in
  ((0 < nwords)%Z <-> forallb is_space text = false)
  /\ ((0 < nparagraphs)%Z <-> (0 < nwords)%Z)
  /\ ((0 < nsentences)%Z -> (0 < nwords)%Z)
  /\ (Analyze.complexity nwords nsentences = "unknown"%string <-> nsentences = 0%Z)
  /\ (forallb is_sentence_end text = true -> text <> [] ->
      (0 < nwords)%Z /\ nsentences = 0%Z).
Proof.
  intros nwords nsentences nparagraphs.
  assert (Hpos : forall A (l : list A), (0 < Z.of_nat (List.length l))%Z <-> l <> [])
    by (intros A [|a l]; cbn [List.length]; split; try congruence; lia).
  assert (Hw : (0 < nwords)%Z <-> Str.remove_all is_space text <> []).
  { unfold nwords. rewrite Hpos. now rewrite no_words. }
  assert (Hp : (0 < nparagraphs)%Z <-> Str.remove_all is_space text <> []).
  { unfold nparagraphs, Analyze.paragraphs. rewrite Hpos, some_not_blank.
    now rewrite split_blank_lines_solid. }
  assert (Hs : (0 < nsentences)%Z -> Str.remove_all is_space text <> []).
  { unfold nsentences, Analyze.sentences. rewrite Hpos, some_not_blank, split_runs_concat.
    intros Hne Hnil. apply Hne. now apply remove_all_sub. }
  split; [|split; [|split; [|split]]].
  - rewrite Hw. split.
    + intro Hne. destruct (forallb is_space text) eqn:Hb; [|reflexivity].
      exfalso. apply Hne. unfold Str.remove_all. apply filter_none_of. intros c Hc.
      rewrite forallb_forall in Hb. now rewrite (Hb c Hc).
    + intros Hb Hnil. rewrite <- not_true_iff_false in Hb. apply Hb.
      apply forallb_forall. intros c Hc.
      destruct (is_space c) eqn:Hsp; [reflexivity|].
      assert (Hin : In c (Str.remove_all is_space text)).
      { apply filter_In. split; [exact Hc|]. now rewrite Hsp. }
      rewrite Hnil in Hin. destruct Hin.
  - now rewrite Hp, Hw.
  - intro Hsent. apply Hw. now apply Hs.
  - unfold Analyze.complexity.
    assert (Hnn : (0 <= nsentences)%Z) by (unfold nsentences; lia).
    destruct (0 <? nsentences)%Z eqn:Hsent.
    + assert (Hwords : (0 < nwords)%Z) by (apply Hw, Hs; lia).
      replace (0 <? nwords)%Z with true by (symmetry; lia). cbn [andb].
      split; [|lia].
      destruct (20 * nsentences <? nwords)%Z; [discriminate|].
      destruct (10 * nsentences <? nwords)%Z; discriminate.
    + rewrite andb_false_r. split; [lia|reflexivity].
  - intros Hends Hne. split.
    + apply Hw. destruct text as [|c rest]; [contradiction|].
      cbn [forallb] in Hends. apply andb_true_iff in Hends. destruct Hends as [Hc _].
      assert (Hsp : is_space c = false).
      { unfold is_sentence_end in Hc. rewrite !orb_true_iff, !N.eqb_eq in Hc.
        destruct Hc as [[-> | ->] | ->]; reflexivity. }
      unfold Str.remove_all. cbn [filter]. rewrite Hsp. discriminate.
    + assert (Hnone : Analyze.sentences text = []).
      { unfold Analyze.sentences. apply some_not_blank. rewrite split_runs_concat.
        replace (Str.remove_all is_sentence_end text) with (@nil N); [reflexivity|].
        symmetry. unfold Str.remove_all. apply filter_none_of. intros c Hc.
        rewrite forallb_forall in Hends. now rewrite (Hends c Hc). }
      unfold nsentences. now rewrite Hnone.
Qed.

End Pieces.

(** ** The keys of a JSON object *)

Section ObjectKeys.

Context `{Host}.

Import JsonTool.

Lemma getAllKeys_member (key : jsstring) (child : JSON) (rest : Json.members)
      (prefix : jsstring) :
  getAllKeys (JObj ((key, child) :: rest)) prefix
  = fullKey prefix key
      :: (if is_plain_object child then getAllKeys child (fullKey prefix key) else [])
      ++ getAllKeys (JObj rest) prefix.
Proof. reflexivity. Qed.

Lemma getAllKeys_flat (m : Json.members) :
  forallb (fun kv => negb (is_plain_object (snd kv))) m = true ->
  getAllKeys (JObj m) [] = map fst m.
Proof.
  induction m as [|[key child] rest IH]; [reflexivity|].
  cbn [forallb snd map fst]. intros [Hchild Hrest]%andb_true_iff.
  apply negb_true_iff in Hchild. rewrite getAllKeys_member, Hchild, (IH Hrest).
  reflexivity.
Qed.

Lemma getAllKeys_top (m : Json.members) (k : jsstring) :
  In k (map fst m) -> In k (getAllKeys (JObj m) []).
Proof.
  induction m as [|[key child] rest IH]; [contradiction|].
  rewrite getAllKeys_member. cbn [map fst]. intros [<-|Hin]; [now left|].
  right. apply in_or_app. right. now apply IH.
Qed.

(** X20.  For data that is a JSON object, [get_keys] lists every name
    that [validate] lists under [keys]; when no member of the object is
    itself a plain object (arrays do not count), the two lists are the
    same: the names of the members in their order. *)
Theorem get_keys_of_object (data : jsstring) (indent : Z) (m : Json.members) :
  (exists keys,
      field ["keys"%string] (result get_keys data indent (JObj m)) = Some (JArr (map JStr keys))
      /\ field ["keys"%string] (result validate data indent (JObj m))
         = Some (JArr (map JStr (map fst m)))
      /\ incl (map fst m) keys)
  /\ (forallb (fun kv => negb (is_plain_object (snd kv))) m = true ->
      field ["keys"%string] (result get_keys data indent (JObj m))
      = field ["keys"%string] (result validate data indent (JObj m))).
Proof.
  assert (Hv : field ["keys"%string] (result validate data indent (JObj m))
               = Some (JArr (map JStr (map fst m)))).
  { rewrite map_map. reflexivity. }
  assert (Hk : field ["keys"%string] (result get_keys data indent (JObj m))
               = Some (JArr (map JStr (getAllKeys (JObj m) [])))) by reflexivity.
  split.
  - exists (getAllKeys (JObj m) []). split; [exact Hk|]. split; [exact Hv|].
    intros k Hin. now apply getAllKeys_top.
  - intro Hflat. rewrite Hk, Hv. now rewrite (getAllKeys_flat m Hflat).
Qed.

End ObjectKeys.

(** ** The letter case of UUIDs *)

Section UuidCase.

Context `{Host}.

Lemma hex2_small (b : N) :
  (b < 256)%N -> forallb Notion.is_small (Uuid.hex2 b) = true.
Proof.
  revert b. apply (below_forallb _ 256). vm_compute. reflexivity.
Qed.

Lemma hex_of_small (bs : list N) :
  Buffer.all_bytes bs -> forallb Notion.is_small (Uuid.hex_of bs) = true.
Proof.
  unfold Uuid.hex_of. induction 1 as [|b bs Hb _ IH]; [reflexivity|].
  cbn [flat_map]. rewrite forallb_app. apply andb_true_iff.
  split; [now apply hex2_small|exact IH].
Qed.

Lemma stamp_bytes (bs : list N) : Buffer.all_bytes bs -> Buffer.all_bytes (Uuid.stamp bs).
Proof.
  intro Hbs. unfold Uuid.stamp, Buffer.all_bytes in *. apply Forall_forall.
  intros x Hx. apply in_map_iff in Hx. destruct Hx as ([i b] & <- & Hin).
  apply in_combine_r in Hin. rewrite Forall_forall in Hbs. specialize (Hbs b Hin).
  assert (Hboth : (N.lor (N.land b 15) 64 <? 256)%N && (N.lor (N.land b 63) 128 <? 256)%N
                  = true).
  { clear Hin. revert b Hbs. apply (below_forallb _ 256). vm_compute. reflexivity. }
  apply andb_true_iff in Hboth. destruct Hboth as [H6 H8].
  apply N.ltb_lt in H6, H8.
  destruct (Nat.eqb i 6); [exact H6|]. destruct (Nat.eqb i 8); [exact H8|exact Hbs].
Qed.

Lemma all_bytes_parts (n : nat) (bs : list N) :
  Buffer.all_bytes bs -> Buffer.all_bytes (firstn n bs) /\ Buffer.all_bytes (skipn n bs).
Proof.
  unfold Buffer.all_bytes. intro Hbs. rewrite <- (firstn_skipn n bs) in Hbs.
  now apply Forall_app in Hbs.
Qed.

Lemma format_uuid_small (bs : list N) :
  Buffer.all_bytes bs -> forallb Notion.is_small (Uuid.format_uuid bs) = true.
Proof.
  intro Hbs. apply stamp_bytes in Hbs. unfold Uuid.format_uuid. cbv zeta.
  set (b := Uuid.stamp bs) in *.
  rewrite !forallb_app.
  rewrite !hex_of_small; [reflexivity|..];
    repeat first [exact Hbs | apply all_bytes_parts].
Qed.

Lemma fits_all_length (p : list Spec.slot) (s : jsstring) :
  Spec.fits_all p s = true -> List.length s = List.length p.
Proof.
  revert s. induction p as [|k p IH]; intros [|c s]; cbn [Spec.fits_all]; try discriminate.
  - reflexivity.
  - intros [_ Hs]%andb_true_iff. cbn [List.length]. now rewrite (IH s Hs).
Qed.

Lemma upper_not_lower (c : N) : is_lower (ascii_upper c) = false.
Proof.
  unfold ascii_upper. destruct (is_lower c) eqn:Hl; [|exact Hl].
  unfold is_lower, between in *. apply andb_true_iff in Hl. rewrite !N.leb_le in Hl.
  apply andb_false_iff. rewrite !N.leb_gt. lia.
Qed.

Lemma next_uuid_case (uppercase : bool) (t : nat) :
  exists u, Uuid.next_uuid uppercase t = (inr u, S t)
            /\ (if uppercase then Notion.no_small u else Notion.no_capital u) = true
            /\ str_length u = 36%Z.
Proof.
  destruct (random_bytes16_spec t) as (bs & Hbs & Hlen & Hall).
  unfold Uuid.next_uuid, Uuid.randomUUID, bind. rewrite Hbs. unfold ret.
  pose proof (format_uuid_small bs Hall) as Hsmall.
  pose proof (fits_all_length _ _ (format_uuid_valid bs Hlen Hall)) as Hlength.
  assert (Hascii : forallb is_ascii (Uuid.format_uuid bs) = true)
    by (eapply forallb_weaken; [apply small_ascii|exact Hsmall]).
  eexists. split; [reflexivity|]. destruct uppercase.
  - rewrite (proj1 (toUpperCase_ascii _ Hascii)). split.
    + unfold Notion.no_small. apply forallb_map. intros c _.
      now rewrite upper_not_lower.
    + unfold str_length, jsstring, unit16 in *. rewrite length_map, Hlength. reflexivity.
  - split.
    + unfold Notion.no_capital. eapply forallb_weaken; [|exact Hsmall].
      intros c Hc. unfold Notion.is_small in Hc. now apply andb_true_iff in Hc.
    + unfold str_length, jsstring, unit16 in *. rewrite Hlength. reflexivity.
Qed.

(** X21.  Every UUID that the [uuid] tool gives is 36 code units long;
    it holds no capital letter, unless [uppercase] is asked for, and then
    it holds no small letter. *)
Theorem uuid_letter_case (args : Uuid.Args) (t : nat) :
  let uppercase := or_default (Uuid.uppercase args) false in
  exists us t',
    Uuid.uuids (or_default (Uuid.count args) 1%Z) uppercase t = (inr us, t')
    /\ (exists r, Uuid.response args t = (inr r, t')
                  /\ field ["uuids"%string] r = Some (JArr (map JStr us)))
    /\ Forall (fun u => (if uppercase then Notion.no_small u else Notion.no_capital u) = true
                        /\ str_length u = 36%Z) us.
Proof.
  intro uppercase. unfold Uuid.response, Uuid.uuids. fold uppercase.
  destruct (replicateM_returns _ (Uuid.next_uuid uppercase) _
              (next_uuid_case uppercase)
              (Z.to_nat (or_default (Uuid.count args) 1%Z)) t) as (us & Hus & _ & Hall).
  exists us, (Z.to_nat (or_default (Uuid.count args) 1%Z) + t)%nat.
  split; [exact Hus|]. split; [|exact Hall].
  unfold bind. rewrite Hus. unfold ret. eexists. split; reflexivity.
Qed.

End UuidCase.

(** ** The forms of a date *)

Section DateForms.

Context `{Host}.

Lemma split_at_found (sep : N) (a b : jsstring) :
  ~ In sep a -> Timestamp.split_at sep (a ++ sep :: b) = (a, Some b).
Proof.
  induction a as [|c a IH]; intro Hsep; cbn [app Timestamp.split_at].
  - now rewrite N.eqb_refl.
  - destruct (N.eqb_spec c sep) as [->|_]; [exfalso; apply Hsep; now left|].
    rewrite IH; [reflexivity|]. intro Hin. apply Hsep. now right.
Qed.

Lemma split_at_none (sep : N) (a : jsstring) :
  ~ In sep a -> Timestamp.split_at sep a = (a, None).
Proof.
  induction a as [|c a IH]; intro Hsep; cbn [Timestamp.split_at]; [reflexivity|].
  destruct (N.eqb_spec c sep) as [->|_]; [exfalso; apply Hsep; now left|].
  rewrite IH; [reflexivity|]. intro Hin. apply Hsep. now right.
Qed.

Lemma remove_first_last (x : N) (a : jsstring) :
  ~ In x a -> Timestamp.remove_first x (a ++ [x]) = a.
Proof.
  induction a as [|c a IH]; intro Hx; cbn [app Timestamp.remove_first].
  - now rewrite N.eqb_refl.
  - destruct (N.eqb_spec c x) as [->|_]; [exfalso; apply Hx; now left|].
    rewrite IH; [reflexivity|]. intro Hin. apply Hx. now right.
Qed.

(** X22.  When the ISO form of a date reads [<date>T<time>Z], with no
    [T] in the date and no [T] or [Z] in the time, [date_only] is the
    date and [time_only] the time; every format is then answered, and the
    [result] is the entry of [all_formats] that bears the name of the
    format. *)
Theorem timestamp_date_and_time (t0 : Z) (date time : jsstring) (t : nat) :
  Date_toISOString t0 = date ++ [84%N] ++ time ++ [90%N] ->
  ~ In 84%N date -> ~ In 84%N time -> ~ In 90%N time ->
  Timestamp.dateOnly (Some t0) t = (inr date, t)
  /\ Timestamp.timeOnly (Some t0) t = (inr time, t)
  /\ (forall f, exists r all,
        Timestamp.formatted (Some t0) f t = (inr r, t)
        /\ Timestamp.all_formats (Some t0) t = (inr all, t)
        /\ field [Timestamp.format_name f] all = Some r).
Proof.
  intros Hiso Hd Ht Hz.
  assert (Hdate : Timestamp.dateOnly (Some t0) t = (inr date, t)).
  { unfold Timestamp.dateOnly, bind. cbn [Timestamp.toISOString]. unfold ret.
    rewrite Hiso. cbn [app]. now rewrite (split_at_found 84 date _ Hd). }
  assert (Htime : Timestamp.timeOnly (Some t0) t = (inr time, t)).
  { unfold Timestamp.timeOnly, bind. cbn [Timestamp.toISOString]. unfold ret.
    rewrite Hiso. cbn [app]. rewrite (split_at_found 84 date _ Hd). cbn [snd fst].
    rewrite split_at_none.
    - cbn [fst]. now rewrite (remove_first_last 90 time Hz).
    - intro Hin. apply in_app_or in Hin. destruct Hin as [Hin|[Hin|[]]]; [auto|discriminate]. }
  split; [exact Hdate|]. split; [exact Htime|].
  assert (Hall : exists all, Timestamp.all_formats (Some t0) t = (inr all, t)
                             /\ forall f r, Timestamp.formatted (Some t0) f t = (inr r, t) ->
                                            field [Timestamp.format_name f] all = Some r).
  { unfold Timestamp.all_formats, bind at 1. cbn [Timestamp.toISOString]. unfold ret at 1.
    unfold bind at 1. rewrite Hdate. unfold bind at 1. rewrite Htime. unfold ret.
    eexists. split; [reflexivity|].
    intros f r. destruct f; cbn [Timestamp.formatted Timestamp.format_name];
      unfold bind; rewrite ?Hdate, ?Htime; cbn [Timestamp.toISOString]; unfold ret;
      intros [= <-]; reflexivity. }
  destruct Hall as (all & Hall & Hlisted).
  intro f.
  assert (Hf : exists r, Timestamp.formatted (Some t0) f t = (inr r, t)).
  { destruct f; cbn [Timestamp.formatted]; unfold bind; rewrite ?Hdate, ?Htime;
      cbn [Timestamp.toISOString]; unfold ret; eauto. }
  destruct Hf as (r & Hr). exists r, all. split; [exact Hr|]. split; [exact Hall|].
  now apply Hlisted.
Qed.

(** X23.  A date out of range has no ISO form: when [add] moves a date
    beyond 8.64e15 milliseconds on either side of the epoch (by a whole
    number of milliseconds that a double holds exactly), the answer is the
    error [Invalid time value], whatever the format asked for. *)
Theorem timestamp_add_out_of_range (value : jsstring) (t0 k : Z)
        (f : option Timestamp.format) (t : nat) :
  value <> [] ->
  Timestamp.Date_of_value value = Some t0 ->
  (Z.abs t0 <= Timestamp.max_time)%Z ->
  (Z.abs k <= Json.max_safe_integer)%Z ->
  (Timestamp.max_time < Z.abs (t0 + k))%Z ->
  Timestamp.handler {| Timestamp.op := Some Timestamp.add; Timestamp.value := Some value;
                       Timestamp.fmt := f; Timestamp.addMs := Some (inject_Z k) |} t
  = (inr (error_envelope (Error (lit "Invalid time value"))), t).
Proof.
  intros Hne Hdate _ Hk Hout.
  assert (Hgiven : Timestamp.given (Some value) = Some value)
    by (destruct value; [contradiction|reflexivity]).
  assert (Hnone : Timestamp.date_of Timestamp.add (Some value) (Some (inject_Z k)) t
                  = (inr None, t)).
  { cbn [Timestamp.date_of]. rewrite Hgiven, Hdate. cbn [Timestamp.checked].
    unfold bind, ret.
    rewrite (add_integral t0 k Hk), Date_of_integral. unfold Timestamp.Date_of.
    now replace (Z.abs (t0 + k) <=? Timestamp.max_time)%Z with false by (symmetry; lia). }
  unfold Timestamp.handler, guarded, try_catch, Timestamp.body, Timestamp.response.
  cbn [or_default Timestamp.op Timestamp.value Timestamp.addMs Timestamp.fmt].
  unfold bind at 1. unfold bind at 1. rewrite Hnone.
  destruct (or_default f Timestamp.iso); reflexivity.
Qed.

End DateForms.

Lemma timestamp_date_and_time_witness :
  Timestamp.dateOnly (H := example_host) (Some 0%Z) O = (inr (lit "2026-01-01"), O)
  /\ Timestamp.timeOnly (H := example_host) (Some 0%Z) O = (inr (lit "00:00:00.000"), O).
Proof.
  assert (Hno : forall (x : N) (s : jsstring),
            forallb (fun c => negb (N.eqb c x)) s = true -> ~ In x s).
  { intros x s Hs Hin. rewrite forallb_forall in Hs. specialize (Hs x Hin).
    now rewrite N.eqb_refl in Hs. }
  destruct (timestamp_date_and_time (H := example_host) 0
              (lit "2026-01-01") (lit "00:00:00.000") O eq_refl
              (Hno 84%N (lit "2026-01-01") eq_refl)
              (Hno 84%N (lit "00:00:00.000") eq_refl)
              (Hno 90%N (lit "00:00:00.000") eq_refl)) as (Hd & Ht & _).
  split; [exact Hd|exact Ht].
Defined.

Lemma timestamp_add_out_of_range_witness :
  Timestamp.handler (H := example_host)
    {| Timestamp.op := Some Timestamp.add;
       Timestamp.value := Some (lit "8640000000000000");
       Timestamp.fmt := Some Timestamp.unix_ms;
       Timestamp.addMs := Some (inject_Z 1) |} O
  = (inr (error_envelope (Error (lit "Invalid time value"))), O).
Proof.
  apply (timestamp_add_out_of_range (H := example_host) (lit "8640000000000000")
           8640000000000000 1 (Some Timestamp.unix_ms) O);
    [discriminate | reflexivity | unfold Timestamp.max_time; lia
    | unfold Json.max_safe_integer; lia | reflexivity].
Defined.

(** ** The type names of the [json] tool *)

Section TypeNames.

Context `{Host}.

Import JsonTool.

(** X24.  [validate] and [get_type] name the type of the data in the same
    way, except for [null], which [validate] calls [object] and [get_type]
    calls [null].  [get_type] gives the types of the members exactly when
    [validate] gives the keys, that is for a plain object, one type for
    each key and in the same order; an array gets its length instead. *)
Theorem json_type_names (data : jsstring) (indent : Z) (parsed : JSON) :
  let checked := result validate data indent parsed in
  let typed := result get_type data indent parsed in
  (parsed <> JNull -> field ["type"%string] checked = field ["root_type"%string] typed)
  /\ (parsed = JNull ->
      field ["type"%string] checked = Some (Json.str "object")
      /\ field ["root_type"%string] typed = Some (Json.str "null"))
  /\ match parsed with
     | JObj m =>
         field ["keys"%string] checked = Some (JArr (map JStr (map fst m)))
         /\ (exists types, field ["types"%string] typed = Some (JObj types)
                           /\ map fst types = map fst m
                           /\ map snd types = map (fun kv => Json.str (getType (snd kv))) m)
         /\ field ["array_length"%string] checked = None
     | JArr l =>
         field ["array_length"%string] checked = Some (Json.int (Z.of_nat (List.length l)))
         /\ field ["keys"%string] checked = None
         /\ field ["types"%string] typed = None
     | _ =>
         field ["keys"%string] checked = None
         /\ field ["types"%string] typed = None
         /\ field ["array_length"%string] checked = None
     end.
Proof.
  intros checked typed. split; [|split].
  - intro Hnull. destruct parsed; try reflexivity. contradiction.
  - intros ->. split; reflexivity.
  - destruct parsed as [|b|q|s|l|m]; try (repeat split; reflexivity).
    split; [|split; [|reflexivity]].
    + unfold checked. rewrite map_map. reflexivity.
    + eexists. split; [reflexivity|]. rewrite !map_map. split; reflexivity.
Qed.

End TypeNames.

(** ** The lines of a message *)

Section Lines.

Lemma line_breaks_count (s : jsstring) :
  (Str.line_breaks s + Notion.count_pairs 13 10 s
   = Notion.count_unit 13 s + Notion.count_unit 10 s)%nat.
Proof.
  unfold Notion.count_unit.
  induction s as [|c rest IH]; [reflexivity|].
  cbn [Str.line_breaks Notion.count_pairs filter].
  destruct (N.eqb_spec c 13) as [->|H13].
  - change (N.eqb 13 13) with true. change (N.eqb 10 13) with false.
    cbn [andb List.length].
    destruct rest as [|d rest']; [reflexivity|].
    destruct (N.eqb_spec d 10) as [->|H10].
    + cbn [Str.line_breaks Notion.count_pairs filter List.length] in IH |- *.
      change (N.eqb 13 10) with false in *. change (N.eqb 10 10) with true in *.
      change (N.eqb 10 13) with false in *. cbn [andb List.length] in IH |- *. lia.
    + lia.
  - replace (N.eqb 13 c) with false by (symmetry; apply N.eqb_neq; congruence).
    cbn [andb].
    assert (Hpairs : match rest with
                     | d :: _ => Notion.count_pairs 13 10 rest
                     | [] => O
                     end = Notion.count_pairs 13 10 rest) by (now destruct rest).
    rewrite Hpairs.
    destruct (N.eqb_spec c 10) as [->|H10].
    + change (N.eqb 10 10) with true. cbn [List.length]. lia.
    + replace (N.eqb 10 c) with false by (symmetry; apply N.eqb_neq; congruence). lia.
Qed.

Lemma count_unit_bound (x y : N) (s : jsstring) :
  x <> y -> (Notion.count_unit x s + Notion.count_unit y s <= List.length s)%nat.
Proof.
  intro Hxy. unfold Notion.count_unit. induction s as [|c rest IH]; [reflexivity|].
  cbn [filter]. destruct (N.eqb_spec x c) as [->|Hx], (N.eqb_spec y c) as [->|Hy];
    cbn [List.length]; lia.
Qed.

(** X25.  [line_count] of [echo] is one more than the number of line
    breaks of the message: its carriage returns and its line feeds, a
    carriage return followed by a line feed counting once.  It is at least
    1 and at most one more than the number of code units. *)
Theorem echo_line_count (message : jsstring) :
  (Echo.lineCount message + Z.of_nat (Notion.count_pairs 13 10 message)
   = 1 + Z.of_nat (Notion.count_unit 13 message) + Z.of_nat (Notion.count_unit 10 message))%Z
  /\ (1 <= Echo.lineCount message <= Echo.charCount message + 1)%Z
  /\ (Notion.count_unit 13 message = O -> Notion.count_unit 10 message = O ->
      Echo.lineCount message = 1%Z).
Proof.
  unfold Echo.lineCount, Echo.charCount, str_length.
  pose proof (line_breaks_count message) as Hcount.
  pose proof (count_unit_bound 13 10 message ltac:(discriminate)) as Hbound.
  unfold jsstring, unit16 in *. repeat split; lia.
Qed.

End Lines.

(** ** The members of the response of [echo] *)

Section EchoMembers.

Context `{Host}.

Lemma timestamps_returns (t : nat) :
  exists ts, Echo.timestamps t = (inr ts, (4 + t)%nat).
Proof. eexists. reflexivity. Qed.

(** X26.  The response of [echo] holds [original], [reversed], [stats],
    [timestamps] and [encoding], in this order, after four readings of the
    clock; [transformed] comes second exactly when a transformation other
    than [none] was asked for, and is then the transformed message;
    [hashes] comes last exactly when [includeHash] is set.  Without
    [includeHash] the response is always produced; with it, a digest that
    fails makes the handler answer with the error of the digest. *)
Theorem echo_response_members (args : Echo.Args) (t : nat) :
  let message := Echo.message args in
  let transform := or_default (Echo.transform args) Echo.none in
  let asked := match transform with Echo.none => false | _ => true end in
  let hashed := or_default (Echo.includeHash args) false in
  (forall r t', Echo.response args t = (inr r, t') ->
     exists members,
       r = JObj members
       /\ map fst members = Notion.echo_keys asked hashed
       /\ (asked = true ->
           Json.get (lit "transformed") members
           = Some (JStr (Echo.transformed message transform)))
       /\ t' = (4 + t)%nat)
  /\ (hashed = false -> exists r, Echo.response args t = (inr r, (4 + t)%nat))
  /\ (forall e t', Echo.response args t = (inl e, t') ->
        hashed = true
        /\ Echo.handler args t = (inr (error_envelope e), t')).
Proof.
  intros message transform asked hashed.
  set (hashing := if hashed
                  then bind (Echo.hashes message) (fun h => ret (Some h))
                  else ret None).
  assert (Hresponse :
            Echo.response args t
            = match hashing (4 + t)%nat with
              | (inl e, t1) => (inl e, t1)
              | (inr hs, t1) =>
                  (inr (JObj (Json.defined
                     [(lit "original", Some (JStr message));
                      (lit "transformed",
                        match transform with
                        | Echo.none => None
                        | _ => Some (JStr (Echo.transformed message transform))
                        end);
                      (lit "reversed", Some (JStr (Transform.reverse message)));
                      (lit "stats", Some (Echo.stats message));
                      (lit "timestamps",
                        Some (JObj [(lit "iso", JStr (Date_toISOString (clock_at t)));
                                    (lit "unix", Json.int (clock_at (S t)));
                                    (lit "utc",
                                      JStr (Date_toUTCString (clock_at (S (S t)))));
                                    (lit "locale",
                                      JStr (Date_toLocaleString (clock_at (S (S (S t))))))]));
                      (lit "encoding", Some (Echo.encoding message));
                      (lit "hashes", hs)])), t1)
              end) by reflexivity.
  assert (Hhashing : forall hs t1, hashing (4 + t)%nat = (inr hs, t1) ->
                                   t1 = (4 + t)%nat
                                   /\ (if hashed then exists h, hs = Some h else hs = None)).
  { intros hs t1. unfold hashing. destruct hashed.
    - unfold bind, Echo.hashes, lift_result, ret, throw.
      repeat match goal with
             | |- context [hash_digest ?a ?b ?c] => destruct (hash_digest a b c)
             end; intros [= <- <-]; eauto.
    - unfold ret. intros [= <- <-]. auto. }
  split; [|split].
  - intros r t'. rewrite Hresponse.
    destruct (hashing (4 + t)%nat) as [[e|hs] t1] eqn:Hh; [discriminate|].
    intros [= <- <-]. destruct (Hhashing hs t1 eq_refl) as [-> Hhs].
    eexists. split; [reflexivity|].
    unfold asked. destruct hashed.
    + destruct Hhs as (h & ->).
      destruct transform; repeat split; try reflexivity; discriminate.
    + rewrite Hhs. destruct transform; repeat split; try reflexivity; discriminate.
  - intros Hhashed. rewrite Hresponse. unfold hashing. rewrite Hhashed.
    unfold ret. eexists. reflexivity.
  - intros e t'. intro Hthrown. split.
    + destruct hashed eqn:Hhashed; [reflexivity|].
      rewrite Hresponse in Hthrown. unfold hashing, ret in Hthrown. discriminate.
    + unfold Echo.handler, guarded, try_catch, Echo.body, bind. now rewrite Hthrown.
Qed.

End EchoMembers.

(** ** Formatted and minified JSON *)

Section Minified.

Context `{Host}.

Lemma join_length_le (sep sep' : jsstring) (parts parts' : list jsstring) :
  (List.length sep <= List.length sep')%nat ->
  Forall2 (fun a b : jsstring => (List.length a <= List.length b)%nat) parts parts' ->
  (List.length (Json.join sep parts) <= List.length (Json.join sep' parts'))%nat.
Proof.
  intros Hsep Hparts. induction Hparts as [|a b parts parts' Hab Hrest IH]; [reflexivity|].
  cbn [Json.join]. destruct Hrest as [|a2 b2 parts2 parts2' Hab2 Hrest2]; [exact Hab|].
  rewrite !length_app. lia.
Qed.

Lemma wrap_length_le (opening closing : N) (gap indent : jsstring)
      (parts parts' : list jsstring) :
  Forall2 (fun a b : jsstring => (List.length a <= List.length b)%nat) parts parts' ->
  (List.length (Json.wrap opening closing [] [] parts)
   <= List.length (Json.wrap opening closing gap indent parts'))%nat.
Proof.
  intro Hparts. unfold Json.wrap.
  destruct Hparts as [|a b parts parts' Hab Hrest]; [reflexivity|].
  pose proof (Forall2_cons _ _ Hab Hrest) as Hall.
  destruct gap as [|g gap].
  - cbn [List.length]. rewrite !length_app. cbn [List.length].
    pose proof (join_length_le [44%N] [44%N] _ _ (Nat.le_refl _) Hall). lia.
  - cbn [List.length]. rewrite !length_app. cbn [List.length]. rewrite !length_app.
    cbn [List.length].
    pose proof (join_length_le [44%N] (44%N :: Json.newline :: indent ++ g :: gap) _ _
                  ltac:(cbn [List.length]; lia) Hall). lia.
Qed.

(** The text of a value without a gap is no longer than its text with
    one. *)
Lemma serialize_length_le (v : JSON) :
  forall gap indent,
    (List.length (Json.serialize [] [] v) <= List.length (Json.serialize gap indent v))%nat.
Proof.
  induction v as [ |b|q|s|l IH|m IH] using JSON_nested_ind; intros gap indent;
    try apply Nat.le_refl.
  - cbn [Json.serialize]. apply wrap_length_le.
    induction IH as [|x l Hx _ IHl]; constructor; [apply Hx|exact IHl].
  - cbn [Json.serialize]. apply wrap_length_le.
    induction IH as [|[k x] m Hx _ IHm]; constructor; [|exact IHm].
    cbn [fst snd] in *. unfold Json.member_text. rewrite !length_app.
    cbn [List.length]. rewrite !length_app.
    specialize (Hx gap (indent ++ gap)). cbn [app List.length].
    unfold jsstring, unit16 in *. lia.
Qed.

(** X27.  In the [json] tool, [format] with an indent of 0 gives the text
    that [minify] gives, and with any indent a text that is at least as
    long: [minified_size] never exceeds the length of the formatted
    text. *)
Theorem format_and_minify (data : jsstring) (indent : Z) (parsed : JSON) :
  exists formatted minified,
    field ["formatted"%string] (JsonTool.result JsonTool.format data indent parsed)
    = Some (JStr formatted)
    /\ field ["minified"%string] (JsonTool.result JsonTool.minify data indent parsed)
       = Some (JStr minified)
    /\ field ["minified_size"%string] (JsonTool.result JsonTool.minify data indent parsed)
       = Some (Json.int (str_length minified))
    /\ ((indent <= 0)%Z -> formatted = minified)
    /\ (str_length minified <= str_length formatted)%Z.
Proof.
  exists (Json.stringify parsed indent), (Json.stringify_compact parsed).
  split; [reflexivity|]. split; [reflexivity|]. split; [reflexivity|]. split.
  - intro Hzero. unfold Json.stringify, Json.stringify_compact, Json.gap_of.
    now replace (Z.to_nat (Z.min 10 indent)) with O by lia.
  - unfold Json.stringify, Json.stringify_compact, str_length.
    pose proof (serialize_length_le parsed (Json.gap_of indent) []).
    unfold jsstring, unit16 in *. lia.
Qed.

End Minified.

(** ** Snake case, kebab case and the words of a text *)

Section Separators.

Context `{Host}.

Lemma dropWhile_head (p : N -> bool) (s : list N) :
  match Str.dropWhile p s with
  | [] => True
  | c :: _ => p c = false
  end.
Proof.
  induction s as [|c rest IH]; [exact I|].
  cbn [Str.dropWhile]. destruct (p c) eqn:Hc; [exact IH|exact Hc].
Qed.

(** A trimmed text neither starts nor ends with white space. *)
Lemma trim_ends (s : jsstring) :
  match Str.trim s with [] => True | c :: _ => is_space c = false end
  /\ Notion.ends_solid (Str.trim s).
Proof.
  unfold Notion.ends_solid, Str.trim, Str.trimStart, Str.trimEnd.
  pose proof (dropWhile_head is_space s) as Hstart.
  set (a := Str.dropWhile is_space s) in *. split.
  - destruct a as [|x a']; [exact I|].
    cbn [rev]. rewrite (dropWhile_last _ _ _ Hstart), rev_app_distr. exact Hstart.
  - rewrite rev_involutive. apply dropWhile_head.
Qed.

Lemma ends_solid_tail (c : N) (rest : jsstring) :
  rest <> [] -> Notion.ends_solid (c :: rest) -> Notion.ends_solid rest.
Proof.
  unfold Notion.ends_solid. cbn [rev]. intro Hne.
  destruct (rev rest) as [|d l] eqn:Hrev; [|now cbn [app]].
  apply (f_equal (@rev N)) in Hrev. rewrite rev_involutive in Hrev. contradiction.
Qed.

Lemma ends_solid_one (c : N) : Notion.ends_solid [c] -> is_space c = false.
Proof. now unfold Notion.ends_solid. Qed.

Lemma tokens_from_some (s cur : jsstring) :
  cur <> [] \/ (s <> [] /\ Notion.ends_solid s) -> Spec.tokens_from cur s <> [].
Proof.
  revert cur. induction s as [|c rest IH]; intros cur Hcur; cbn [Spec.tokens_from].
  - destruct Hcur as [Hcur|[Hs _]]; [|contradiction].
    destruct cur; [contradiction|discriminate].
  - destruct (is_space c) eqn:Hc.
    + destruct (Str.nonempty cur) eqn:Hn; [discriminate|].
      apply IH. right. destruct Hcur as [Hcur|[_ Hends]].
      * destruct cur; [contradiction|discriminate Hn].
      * destruct rest as [|d rest'].
        -- apply ends_solid_one in Hends. congruence.
        -- split; [discriminate|]. now apply (ends_solid_tail c).
    + apply IH. left. discriminate.
Qed.

(** Writing [r] for every run of white space joins the words with [r],
    in a text that does not end with white space: from inside a word, and
    from inside a run. *)
Lemma replace_runs_joins (r : jsstring) (s : jsstring) :
  Notion.ends_solid s ->
  (forall cur, cur <> [] ->
     Json.join r (Spec.tokens_from cur s)
     = rev cur ++ Str.replace_runs_from false is_space r s)
  /\ (s <> [] ->
      Json.join r (Spec.tokens_from [] s) = Str.replace_runs_from true is_space r s).
Proof.
  induction s as [|c rest IH]; intro Hends.
  - split; [|congruence]. intros cur Hcur. cbn [Spec.tokens_from Str.replace_runs_from].
    destruct cur; [contradiction|]. cbn [Str.nonempty List.length Nat.ltb Nat.leb Json.join].
    now rewrite app_nil_r.
  - assert (Hrest : rest <> [] -> Notion.ends_solid rest)
      by (intro Hne; now apply (ends_solid_tail c)).
    cbn [Spec.tokens_from Str.replace_runs_from].
    destruct (is_space c) eqn:Hc.
    + assert (Hne : rest <> []).
      { intros ->. apply ends_solid_one in Hends. congruence. }
      destruct (IH (Hrest Hne)) as [_ Hrun]. specialize (Hrun Hne).
      pose proof (tokens_from_some rest [] (or_intror (conj Hne (Hrest Hne)))) as Hsome.
      split.
      * intros cur Hcur. destruct cur as [|x cur]; [contradiction|].
        cbn [Str.nonempty List.length Nat.ltb Nat.leb].
        destruct (Spec.tokens_from [] rest) as [|w ws] eqn:Htok; [contradiction|].
        cbn [Json.join]. now rewrite <- Hrun.
      * intros _. cbn [Str.nonempty List.length Nat.ltb Nat.leb app]. exact Hrun.
    + assert (Hword : Json.join r (Spec.tokens_from [c] rest)
                      = c :: Str.replace_runs_from false is_space r rest).
      { destruct rest as [|d rest'].
        - reflexivity.
        - destruct (IH (Hrest ltac:(discriminate))) as [Hin _].
          apply (Hin [c]). discriminate. }
      split.
      * intros cur Hcur. destruct rest as [|d rest'].
        -- cbn [Spec.tokens_from Str.nonempty List.length Nat.ltb Nat.leb Json.join
                Str.replace_runs_from]. reflexivity.
        -- destruct (IH (Hrest ltac:(discriminate))) as [Hin _].
           rewrite (Hin (c :: cur)) by discriminate.
           cbn [rev]. now rewrite <- app_assoc.
      * intros _. exact Hword.
Qed.

Lemma join_more (r x y : jsstring) (l : list jsstring) :
  Json.join r (x :: y :: l) = x ++ r ++ Json.join r (y :: l).
Proof. reflexivity. Qed.

Lemma join_map (f : N -> N) (r : jsstring) (l : list jsstring) :
  map f (Json.join r l) = Json.join (map f r) (map (map f) l).
Proof.
  induction l as [|x l IH]; [reflexivity|].
  destruct l as [|y l]; [reflexivity|].
  rewrite join_more, !map_app. cbn [map] in *. rewrite join_more.
  unfold jsstring, unit16 in *. now rewrite IH.
Qed.

Lemma replace_runs_trimmed (r : jsstring) (text : jsstring) :
  Str.replace_runs is_space r (Str.trim text) = Json.join r (Analyze.words text).
Proof.
  unfold Analyze.words. rewrite split_tokens. unfold Spec.tokens, Str.replace_runs.
  destruct (trim_ends text) as [Hstart Hends].
  destruct (Str.trim text) as [|c rest]; [reflexivity|].
  cbn [Spec.tokens_from Str.replace_runs_from]. rewrite Hstart.
  destruct rest as [|d rest']; [reflexivity|].
  destruct (replace_runs_joins r (d :: rest')
              (ends_solid_tail c (d :: rest') ltac:(discriminate) Hends)) as [Hin _].
  now rewrite (Hin [c]) by discriminate.
Qed.

(** X28.  For an ASCII text trimmed of the white space at its ends, the
    [snake_case] form of [echo] is the words of the text in small
    letters, joined by underscores, and the [kebab-case] form the same
    words joined by hyphens; the words are those that [word_count]
    counts. *)
Theorem snake_and_kebab_join_words (text : jsstring) :
  forallb is_ascii text = true ->
  let trimmed := Str.trim text in
  let words := map (map ascii_lower) (Analyze.words text) in
  Echo.transformed trimmed Echo.snake_case = Json.join (lit "_") words
  /\ Echo.transformed trimmed Echo.kebab_case = Json.join (lit "-") words
  /\ Z.of_nat (List.length words) = Echo.wordCount text.
Proof.
  intros Hascii trimmed words.
  assert (Htrim : forallb is_ascii trimmed = true).
  { unfold trimmed, Str.trim, Str.trimEnd, Str.trimStart.
    rewrite forallb_rev. apply forallb_forall. intros c Hc.
    assert (Hsub : forall (l : list N) x, In x (Str.dropWhile is_space l) -> In x l).
    { induction l as [|y l IHl]; intros x Hx; [exact Hx|].
      cbn [Str.dropWhile] in Hx. destruct (is_space y); [right; now apply IHl|exact Hx]. }
    apply Hsub in Hc. apply in_rev in Hc. apply Hsub in Hc.
    rewrite forallb_forall in Hascii. now apply Hascii. }
  assert (Hcase : forall x, is_ascii x = true -> ascii_lower x = x ->
            toLowerCase (Str.replace_runs is_space [x] trimmed) = Json.join [x] words).
  { intros x Hx Hlow.
    assert (Hout : forallb is_ascii (Str.replace_runs is_space [x] trimmed) = true).
    { apply replace_runs_from_all; [|cbn [forallb]; now rewrite Hx].
      eapply forallb_weaken; [|exact Htrim]. intros c Hc. rewrite Hc. apply orb_true_r. }
    rewrite (proj1 (toLowerCase_ascii _ Hout)). unfold trimmed.
    rewrite replace_runs_trimmed, join_map. cbn [map]. now rewrite Hlow. }
  split; [|split].
  - apply (Hcase 95%N); reflexivity.
  - apply (Hcase 45%N); reflexivity.
  - unfold words, Echo.wordCount, Analyze.words. now rewrite length_map.
Qed.

End Separators.

Lemma snake_and_kebab_join_words_witness :
  Echo.transformed (H := example_host) (lit "Hello  Big World") Echo.snake_case
  = lit "hello_big_world".
Proof.
  apply (snake_and_kebab_join_words (H := example_host) (lit "Hello  Big World") eq_refl).
Defined.

(** ** What [trim] and the removals of [format] leave *)

Section Removals.

Context `{Host}.

Lemma dropWhile_split (p : N -> bool) (s : list N) :
  exists a, s = a ++ Str.dropWhile p s /\ forallb p a = true.
Proof.
  induction s as [|c rest (a & Hrest & Ha)]; [now exists []|].
  cbn [Str.dropWhile]. destruct (p c) eqn:Hc.
  - exists (c :: a). cbn [app forallb]. rewrite Hc, Ha. split; [now f_equal|reflexivity].
  - now exists [].
Qed.

(** X29.  [trim] of [format] takes white space, and nothing else, from
    the two ends of the text, and leaves a text that neither starts nor
    ends with white space.  [remove_spaces] leaves no white space and
    [remove_punctuation] leaves word characters and white space only; a
    text that is already so is left as it is, and no result is longer than
    the text. *)
Theorem format_removals (text : jsstring) :
  let trimmed := Format.result text Format.trim in
  let solid := Format.result text Format.remove_spaces in
  let plain := Format.result text Format.remove_punctuation in
  (exists before after,
      text = before ++ trimmed ++ after
      /\ forallb is_space before = true /\ forallb is_space after = true)
  /\ match trimmed with [] => True | c :: _ => is_space c = false end
  /\ Notion.ends_solid trimmed
  /\ forallb (fun c => negb (is_space c)) solid = true
  /\ forallb (fun c => is_word c || is_space c) plain = true
  /\ (forallb (fun c => negb (is_space c)) text = true -> solid = text /\ trimmed = text)
  /\ (forallb (fun c => is_word c || is_space c) text = true -> plain = text)
  /\ (str_length trimmed <= str_length text)%Z
  /\ (str_length solid <= str_length text)%Z
  /\ (str_length plain <= str_length text)%Z.
Proof.
  intros trimmed solid plain. unfold trimmed, solid, plain. cbn [Format.result].
  assert (Hparts : exists before after,
             text = before ++ Str.trim text ++ after
             /\ forallb is_space before = true /\ forallb is_space after = true).
  { unfold Str.trim, Str.trimEnd, Str.trimStart.
    destruct (dropWhile_split is_space text) as (a & Ha & Hspaces).
    set (d := Str.dropWhile is_space text) in *.
    destruct (dropWhile_split is_space (rev d)) as (b & Hb & Hspaces').
    exists a, (rev b). split; [|split; [exact Hspaces|now rewrite forallb_rev]].
    rewrite Ha at 1. f_equal.
    rewrite <- (rev_involutive d) at 1. rewrite Hb at 1. now rewrite rev_app_distr. }
  destruct (trim_ends text) as [Hstart Hend].
  assert (Hfilter : forall (p : N -> bool) (s : list N),
             (List.length (filter p s) <= List.length s)%nat).
  { intros p s. induction s as [|c s IH]; [reflexivity|].
    cbn [filter]. destruct (p c); cbn [List.length]; lia. }
  split; [exact Hparts|]. split; [exact Hstart|]. split; [exact Hend|].
  split; [|split; [|split; [|split; [|split; [|split]]]]].
  - unfold Str.remove_all. apply forallb_forall. intros c Hc. now apply filter_In in Hc.
  - unfold Str.remove_all. apply forallb_forall. intros c Hc. apply filter_In in Hc.
    destruct Hc as [_ Hc]. unfold is_punct in Hc.
    destruct (is_word c), (is_space c); try reflexivity; discriminate Hc.
  - intro Hsolid. split; [now apply filter_all|now apply trim_solid].
  - intro Hplain. unfold Str.remove_all. apply filter_all.
    eapply forallb_weaken; [|exact Hplain]. intros c Hc. unfold is_punct.
    cbv beta in Hc. destruct (is_word c), (is_space c); try reflexivity; discriminate Hc.
  - destruct Hparts as (before & after & Htext & _).
    apply (f_equal (@List.length N)) in Htext. rewrite !length_app in Htext.
    unfold str_length, jsstring, unit16 in *. lia.
  - unfold str_length, Str.remove_all. pose proof (Hfilter (fun c => negb (is_space c)) text).
    unfold jsstring, unit16 in *. lia.
  - unfold str_length, Str.remove_all. pose proof (Hfilter (fun c => negb (is_punct c)) text).
    unfold jsstring, unit16 in *. lia.
Qed.

End Removals.

(** ** The tools that [info] lists *)

Section Listed.

Context `{Host}.

Lemma lookup_name_in (A : Type) (names : list (string * A)) (s : jsstring) :
  Zod.lookup_name names s <> None <-> In s (map (fun na => lit (fst na)) names).
Proof.
  induction names as [|[n a] rest IH]; cbn [Zod.lookup_name map In fst].
  - split; [congruence|contradiction].
  - destruct (Json.str_eqb (lit n) s) eqn:Hn.
    + apply str_eqb_eq in Hn. split; [now left|discriminate].
    + rewrite IH. split; [now right|]. intros [Heq|Hin]; [|exact Hin].
      apply str_eqb_eq in Heq. congruence.
Qed.

(** X30.  With [detail: full], [info] lists a tool under a name exactly
    when a call under that name is routed to a handler: the ten
    registered tools, in the order of their registration, after the five
    members of the basic answer; it reads the uptime and the memory usage
    once each.  With [detail: basic], or without [detail], it reads
    neither.  It never answers with an error. *)
Theorem info_lists_registered_tools (args : Info.Args) (name : jsstring) (t : nat) :
  (In name Notion.listed_tools <-> Zod.lookup_name Server.registered name <> None)
  /\ Notion.listed_tools = map (fun na => lit (fst na)) Server.registered
  /\ exists members,
       Info.handler args t
       = (inr (ok_envelope (JObj members)),
          match Info.detail args with Some Info.full => (2 + t)%nat | _ => t end)
       /\ firstn 5 (map fst members)
          = [lit "name"; lit "version"; lit "description"; lit "node_version";
             lit "platform"]
       /\ Json.get (lit "tools") members
          = match Info.detail args with Some Info.full => Some Info.tools | _ => None end.
Proof.
  split; [|split].
  - rewrite lookup_name_in. reflexivity.
  - reflexivity.
  - unfold Info.handler, guarded, try_catch, Info.body, Info.response.
    destruct (Info.detail args) as [[|]|]; cbn [or_default];
      eexists; (split; [reflexivity|split; reflexivity]).
Qed.

End Listed.
